(** * The script front-end compiler (torch/csrc/jit/script/compiler.cpp)

    A shallow embedding of the lowering of script function bodies into the
    block-structured graph IR: the scope stack ([Environment]), schema
    matching ([tryMatchSchema], [emitBuiltinCall]), expression lowering and
    the statement emitter ([to_ir]).

    The compiler is imperative: it appends nodes at an insertion point of a
    graph under construction and mutates a chain of environment frames.  Both
    are threaded explicitly through a state-and-error monad. *)

From Stdlib Require Import List String Ascii ZArith Bool Lia Arith Permutation.
From Stdlib Require Import OrdersEx Sorted RelationClasses.
From Stdlib Require Import FunctionalExtensionality.
Import ListNotations.

Local Open Scope string_scope.
Local Open Scope list_scope.

Set Warnings "-register-all".

(** ** Types

    A [TypePtr] is a shared pointer to a type object.  The address is kept:
    the compiler compares type pointers with [==] in some places (identity of
    the type object) and the pointed-to types with [*a == *b] in others. *)

Inductive TypeT : Type :=
| DynamicType
| CompleteTensorType (sizes : list Z)
| NumberType
| IntType
| FloatType
| BoolType
| StringType
| NoneType
| DeviceObjType
| GeneratorType
| ListType (elem : TypePtr)
| TupleType (elems : list TypePtr)
| OptionalType (elem : TypePtr)
| FutureType (elem : TypePtr)
| VarType (name : string)
with TypePtr : Type :=
| TPtr (addr : nat) (pointee : TypeT).

Definition addr_of (p : TypePtr) : nat := match p with TPtr a _ => a end.
Definition deref (p : TypePtr) : TypeT := match p with TPtr _ t => t end.

(** [a == b] on two [TypePtr]: the same type object. *)
Definition ptr_eqb (a b : TypePtr) : bool := Nat.eqb (addr_of a) (addr_of b).

(** The singleton type objects returned by [XType::get()]. *)
Definition DynamicType_get : TypePtr := TPtr 0 DynamicType.
Definition NumberType_get : TypePtr := TPtr 1 NumberType.
Definition IntType_get : TypePtr := TPtr 2 IntType.
Definition FloatType_get : TypePtr := TPtr 3 FloatType.
Definition BoolType_get : TypePtr := TPtr 4 BoolType.
Definition StringType_get : TypePtr := TPtr 5 StringType.
Definition NoneType_get : TypePtr := TPtr 6 NoneType.
Definition DeviceObjType_get : TypePtr := TPtr 7 DeviceObjType.
Definition GeneratorType_get : TypePtr := TPtr 8 GeneratorType.
(** [OptionalType::ofTensor()] and [ListType::ofInts()] are static objects too. *)
Definition OptionalType_ofTensor : TypePtr := TPtr 9 (OptionalType DynamicType_get).
Definition ListType_ofInts : TypePtr := TPtr 10 (ListType IntType_get).

(** First address handed out to objects created during a compilation. *)
Definition first_fresh : nat := 16.

Fixpoint list_Z_eqb (a b : list Z) : bool :=
  match a, b with
  | [], [] => true
  | x :: a', y :: b' => Z.eqb x y && list_Z_eqb a' b'
  | _, _ => false
  end.

(** Modelled from the spec: [Type::operator==] of jit_type.h, the structural
    comparison behind [*a == *b] ("identical types unify"); addresses play no
    part in it. *)
Fixpoint type_eqb (a b : TypePtr) {struct a} : bool :=
  match a, b with
  | TPtr _ ta, TPtr _ tb =>
    match ta, tb with
    | DynamicType, DynamicType => true
    | CompleteTensorType s1, CompleteTensorType s2 => list_Z_eqb s1 s2
    | NumberType, NumberType => true
    | IntType, IntType => true
    | FloatType, FloatType => true
    | BoolType, BoolType => true
    | StringType, StringType => true
    | NoneType, NoneType => true
    | DeviceObjType, DeviceObjType => true
    | GeneratorType, GeneratorType => true
    | ListType x, ListType y => type_eqb x y
    | TupleType xs, TupleType ys =>
        (fix go (l1 l2 : list TypePtr) {struct l1} : bool :=
           match l1, l2 with
           | [], [] => true
           | x :: l1', y :: l2' => type_eqb x y && go l1' l2'
           | _, _ => false
           end) xs ys
    | OptionalType x, OptionalType y => type_eqb x y
    | FutureType x, FutureType y => type_eqb x y
    | VarType n1, VarType n2 => String.eqb n1 n2
    | _, _ => false
    end
  end.

(** [t->cast<ListType>()], [t->cast<TupleType>()], [t->cast<OptionalType>()]:
    the payload when the kind matches. *)
Definition cast_ListType (t : TypePtr) : option TypePtr :=
  match deref t with ListType e => Some e | _ => None end.
Definition cast_TupleType (t : TypePtr) : option (list TypePtr) :=
  match deref t with TupleType es => Some es | _ => None end.
Definition cast_OptionalType (t : TypePtr) : option TypePtr :=
  match deref t with OptionalType e => Some e | _ => None end.

Definition is_ListType (t : TypePtr) : bool :=
  match cast_ListType t with Some _ => true | None => false end.
Definition is_TupleType (t : TypePtr) : bool :=
  match cast_TupleType t with Some _ => true | None => false end.

(** Induction on types that goes into the element types of a tuple, as the
    implicit conversions do. *)
Section TypeInduction.

Variable P : TypePtr -> Prop.
Hypothesis P_tuple :
  forall a elems, Forall P elems -> P (TPtr a (TupleType elems)).
Hypothesis P_other :
  forall a t, cast_TupleType (TPtr a t) = None -> P (TPtr a t).

Fixpoint TypePtr_tuple_ind (p : TypePtr) : P p :=
  match p with
  | TPtr a t =>
      match t return P (TPtr a t) with
      | TupleType elems =>
          P_tuple a elems
            ((fix all (l : list TypePtr) : Forall P l :=
                match l with
                | [] => Forall_nil P
                | x :: l' => Forall_cons x (TypePtr_tuple_ind x) (all l')
                end) elems)
      | DynamicType => P_other a DynamicType eq_refl
      | CompleteTensorType sizes => P_other a (CompleteTensorType sizes) eq_refl
      | NumberType => P_other a NumberType eq_refl
      | IntType => P_other a IntType eq_refl
      | FloatType => P_other a FloatType eq_refl
      | BoolType => P_other a BoolType eq_refl
      | StringType => P_other a StringType eq_refl
      | NoneType => P_other a NoneType eq_refl
      | DeviceObjType => P_other a DeviceObjType eq_refl
      | GeneratorType => P_other a GeneratorType eq_refl
      | ListType elem => P_other a (ListType elem) eq_refl
      | OptionalType elem => P_other a (OptionalType elem) eq_refl
      | FutureType elem => P_other a (FutureType elem) eq_refl
      | VarType name => P_other a (VarType name) eq_refl
      end
  end.

End TypeInduction.

(** ** Values, nodes and blocks *)

Definition Symbol : Type := string.

Inductive IValue : Type :=
| IVNone
| IVInt (i : Z)
| IVBool (b : bool)
| IVString (s : string)
| IVIntList (l : list Z).

(** A [Value*].  [v_id] is the identity of the value (pointer comparison is
    comparison of [v_id]).  The remaining fields are what the compiler reads
    through [v->node()]: the kind of the defining node, the block that owns
    it, its inputs and, for a constant, its payload. *)
Inductive Value : Type :=
| mkValue (v_id : nat) (v_type : TypePtr) (v_kind : Symbol) (v_block : nat)
          (v_inputs : list Value) (v_const : option IValue).

Definition v_id (v : Value) : nat := match v with mkValue i _ _ _ _ _ => i end.
Definition v_type (v : Value) : TypePtr := match v with mkValue _ t _ _ _ _ => t end.
Definition v_kind (v : Value) : Symbol := match v with mkValue _ _ k _ _ _ => k end.
Definition v_block (v : Value) : nat := match v with mkValue _ _ _ b _ _ => b end.
Definition v_inputs (v : Value) : list Value := match v with mkValue _ _ _ _ i _ => i end.
Definition v_const (v : Value) : option IValue := match v with mkValue _ _ _ _ _ c => c end.

Definition value_eqb (a b : Value) : bool := Nat.eqb (v_id a) (v_id b).

Inductive Node : Type :=
| mkNode (n_kind : Symbol) (n_inputs : list Value) (n_outputs : list Value)
         (n_blocks : list Block) (n_attrs : list (string * IValue))
with Block : Type :=
| mkBlock (b_inputs : list Value) (b_nodes : list Node) (b_outputs : list Value).

Definition n_kind (n : Node) : Symbol := match n with mkNode k _ _ _ _ => k end.
Definition n_inputs (n : Node) : list Value := match n with mkNode _ i _ _ _ => i end.
Definition n_outputs (n : Node) : list Value := match n with mkNode _ _ o _ _ => o end.
Definition n_blocks (n : Node) : list Block := match n with mkNode _ _ _ b _ => b end.
Definition n_attrs (n : Node) : list (string * IValue) :=
  match n with mkNode _ _ _ _ a => a end.
Definition b_inputs (b : Block) : list Value := match b with mkBlock i _ _ => i end.
Definition b_nodes (b : Block) : list Node := match b with mkBlock _ n _ => n end.
Definition b_outputs (b : Block) : list Value := match b with mkBlock _ _ o => o end.

Record Graph : Type := {
  g_inputs : list Value;
  g_nodes : list Node;
  g_outputs : list Value
}.

(** A [NamedValue]: an optional name and either a value or a constant still
    to be materialised. *)
Inductive NamedPayload : Type :=
| NVValue (v : Value)
| NVConst (iv : IValue).

Record NamedValue : Type := {
  nv_name : option string;
  nv_payload : NamedPayload
}.

Definition positional (v : Value) : NamedValue :=
  {| nv_name := None; nv_payload := NVValue v |}.
Definition named (n : string) (v : Value) : NamedValue :=
  {| nv_name := Some n; nv_payload := NVValue v |}.

(** ** Sugared values

    The compile-time denotation of a name.  [OpaqueValue] stands for the
    sugared values only the name resolver can hand in (modules, python
    functions); the compiler itself only asks them for their [kind]. *)

Inductive SugaredValue : Type :=
| SimpleValue (value : Value)
| NoneValue
| PrintValue
| CastValue (type_ : TypePtr) (method : Symbol)
| BuiltinFunction (symbol : Symbol) (self : option NamedValue)
| GetAttrValue
| IsInstanceValue
| AnnotateValue
| OpaqueValue (kind : string).

Definition kind_of (sv : SugaredValue) : string :=
  match sv with
  | SimpleValue _ => "value"
  | NoneValue => "None"
  | PrintValue => "print"
  | CastValue _ _ => "builtin"
  | BuiltinFunction _ _ => "builtin"
  | GetAttrValue => "getattr"
  | IsInstanceValue => "isinstance"
  | AnnotateValue => "annotate"
  | OpaqueValue k => k
  end.

Definition asSimple (value : SugaredValue) : option Value :=
  match value with
  | SimpleValue v => Some v
  | _ => None
  end.

Inductive NoneStatus : Type := ALWAYS | MAYBE | NEVER.

(** Modelled from the spec: [Value::mustBeNone] and [SugaredValue::isNone] of
    the headers, "each operand's compile-time niladic status (always-none /
    never-none / maybe-none)": a plain value is always none when a [prim::None]
    node defines it, maybe none when its type is optional, never none
    otherwise; every other sugared value is never none. *)
Definition mustBeNone (v : Value) : bool := String.eqb (v_kind v) "prim::None".

Definition isNone (sv : SugaredValue) : NoneStatus :=
  match sv with
  | SimpleValue v =>
      if mustBeNone v then ALWAYS
      else match cast_OptionalType (v_type v) with
           | Some _ => MAYBE
           | None => NEVER
           end
  | _ => NEVER
  end.

(** ** Diagnostics

    [ErrorReport] is the exception type of the compiler.  The constructors
    keep what the message is built from. *)

Inductive Diag : Type :=
| DCouldNotMatch (actual formal : TypePtr) (arg : string)
| DExpectedType (concrete actual : TypePtr) (arg : string)
| DSpecifiedTwiceInSchema (name : string)
| DNotProvided (name : string)
| DSelfNotUsed
| DTooManyPositional (used found : nat)
| DUnknownKeyword (name : string)
| DKeywordTwice (name : string).

Inductive ErrorReport : Type :=
| UndefinedValue (ident : string)
| BranchTypeMismatch (x : string) (true_type false_type : TypePtr)
| AndWasUsedHere (msg : ErrorReport)
| ReassignToNonValue (name kind : string)
| ReassignOfNonValue (name kind : string)
| ReassignTypeMismatch (name : string) (old_type new_type : TypePtr) (list_note : bool)
| NotAValue (kind : string)
| ExpectedBoolean (found : TypePtr) (tensor_hint : bool)
| IfExprTypeMismatch (true_type false_type : TypePtr)
| ReturnNotAtEnd
| ReturnTypeMismatch (annotated actual : TypePtr)
| ListNotSingleType (expected found : TypePtr)
| TupleIndexNotConstant
| TupleIndexOutOfRange (tuple_len index : Z)
| UnknownBuiltinOp
| InvalidCallArguments (failure_messages : list (string * Diag))
| ExpectedInt (found : TypePtr)
| RangeArity (n : nat)
| PrintKeywordArguments
| UnknownAugOp (op : string)
| AugAssignOnNonTensorAttr
| SlicedListAssignment
| NotIndexable
| MultidimOnNonTensor
| UnsupportedIndexType (found : TypePtr)
| WrongApplyArity (callee : string) (n : nat)
| ApplyKeywordArguments (callee : string)
| GetattrNotLiteral
| TypeMustBeIdentifier
| OptionalIsinstance
| AnnotateTypeMismatch (expected found : TypePtr)
| UnknownTypeName (name : string)
| UnknownTypeConstructor (name : string)
| TypeConstructorArity (n : nat)
| NotATypeExpression
| NumberMethod
| MethodsNeedSelf
| AnnotationCount (annotated expected : Z)
| External (what : string).

(** ** Environment frames and the compiler state *)

Record Frame : Type := {
  value_table : list (string * SugaredValue);
  captured_inputs : list string;
  error_messages : list (string * ErrorReport);
  f_block : nat;                 (* identity of [b] *)
  f_owning_kind : option Symbol; (* [b->owningNode()->kind()] *)
  f_inputs : list Value          (* [b->inputs()] *)
}.

Record CState : Type := {
  st_fresh : nat;                  (* identities not handed out yet *)
  st_block : nat;                  (* the block at the insertion point *)
  st_nodes : list Node;            (* its nodes so far, in order *)
  st_front : list Node;            (* constants put at the front of the root block *)
  st_inputs : list Value;          (* graph inputs *)
  st_outputs : list Value;         (* graph outputs *)
  st_names : list (nat * string);  (* unique names given to values *)
  integral_constants : list (Z * Value);
  environment_stack : list Frame   (* innermost frame first; [next] is the tail *)
}.

Inductive Result (A : Type) : Type :=
| Ok (a : A) (st : CState)
| Err (e : ErrorReport).
Arguments Ok {A} a st.
Arguments Err {A} e.

Definition M (A : Type) : Type := CState -> Result A.

Definition ret {A} (a : A) : M A := fun st => Ok a st.
Definition bind {A B} (m : M A) (k : A -> M B) : M B :=
  fun st => match m st with
            | Ok a st' => k a st'
            | Err e => Err e
            end.
Definition throw {A} (e : ErrorReport) : M A := fun _ => Err e.
Definition get : M CState := fun st => Ok st st.
Definition put (st : CState) : M unit := fun _ => Ok tt st.
Definition modify (f : CState -> CState) : M unit := fun st => Ok tt (f st).

Declare Scope m_scope.
Delimit Scope m_scope with M.
Notation "x <- c1 ;; c2" := (bind c1 (fun x => c2))
  (at level 61, c1 at next level, right associativity) : m_scope.
Notation "' pat <- c1 ;; c2" := (bind c1 (fun x => match x with pat => c2 end))
  (at level 61, pat pattern, c1 at next level, right associativity) : m_scope.
Notation "c1 ;; c2" := (bind c1 (fun _ => c2))
  (at level 61, right associativity) : m_scope.
Local Open Scope m_scope.

Definition mapM {A B} (f : A -> M B) : list A -> M (list B) :=
  fix go (l : list A) : M (list B) :=
    match l with
    | [] => ret []
    | a :: l' => b <- f a ;; bs <- go l' ;; ret (b :: bs)
    end.

Definition forM_ {A} (l : list A) (f : A -> M unit) : M unit :=
  (fix go (l : list A) : M unit :=
     match l with
     | [] => ret tt
     | a :: l' => f a ;; go l'
     end) l.

Definition is_ok {A} (r : Result A) : bool :=
  match r with Ok _ _ => true | Err _ => false end.

(** Field updates of the state. *)
Definition set_fresh (n : nat) (st : CState) : CState :=
  {| st_fresh := n; st_block := st_block st; st_nodes := st_nodes st;
     st_front := st_front st; st_inputs := st_inputs st;
     st_outputs := st_outputs st; st_names := st_names st;
     integral_constants := integral_constants st;
     environment_stack := environment_stack st |}.
Definition set_block (b : nat) (st : CState) : CState :=
  {| st_fresh := st_fresh st; st_block := b; st_nodes := st_nodes st;
     st_front := st_front st; st_inputs := st_inputs st;
     st_outputs := st_outputs st; st_names := st_names st;
     integral_constants := integral_constants st;
     environment_stack := environment_stack st |}.
Definition set_nodes (ns : list Node) (st : CState) : CState :=
  {| st_fresh := st_fresh st; st_block := st_block st; st_nodes := ns;
     st_front := st_front st; st_inputs := st_inputs st;
     st_outputs := st_outputs st; st_names := st_names st;
     integral_constants := integral_constants st;
     environment_stack := environment_stack st |}.
Definition set_front (ns : list Node) (st : CState) : CState :=
  {| st_fresh := st_fresh st; st_block := st_block st; st_nodes := st_nodes st;
     st_front := ns; st_inputs := st_inputs st;
     st_outputs := st_outputs st; st_names := st_names st;
     integral_constants := integral_constants st;
     environment_stack := environment_stack st |}.
Definition set_inputs (vs : list Value) (st : CState) : CState :=
  {| st_fresh := st_fresh st; st_block := st_block st; st_nodes := st_nodes st;
     st_front := st_front st; st_inputs := vs;
     st_outputs := st_outputs st; st_names := st_names st;
     integral_constants := integral_constants st;
     environment_stack := environment_stack st |}.
Definition set_outputs (vs : list Value) (st : CState) : CState :=
  {| st_fresh := st_fresh st; st_block := st_block st; st_nodes := st_nodes st;
     st_front := st_front st; st_inputs := st_inputs st;
     st_outputs := vs; st_names := st_names st;
     integral_constants := integral_constants st;
     environment_stack := environment_stack st |}.
Definition set_names (ns : list (nat * string)) (st : CState) : CState :=
  {| st_fresh := st_fresh st; st_block := st_block st; st_nodes := st_nodes st;
     st_front := st_front st; st_inputs := st_inputs st;
     st_outputs := st_outputs st; st_names := ns;
     integral_constants := integral_constants st;
     environment_stack := environment_stack st |}.
Definition set_integral_constants (cs : list (Z * Value)) (st : CState) : CState :=
  {| st_fresh := st_fresh st; st_block := st_block st; st_nodes := st_nodes st;
     st_front := st_front st; st_inputs := st_inputs st;
     st_outputs := st_outputs st; st_names := st_names st;
     integral_constants := cs;
     environment_stack := environment_stack st |}.
Definition set_env (env : list Frame) (st : CState) : CState :=
  {| st_fresh := st_fresh st; st_block := st_block st; st_nodes := st_nodes st;
     st_front := st_front st; st_inputs := st_inputs st;
     st_outputs := st_outputs st; st_names := st_names st;
     integral_constants := integral_constants st;
     environment_stack := env |}.

(** ** String-keyed tables ([std::unordered_map<std::string, T>]) *)

Fixpoint lookup {A} (k : string) (m : list (string * A)) : option A :=
  match m with
  | [] => None
  | (k', a) :: m' => if String.eqb k k' then Some a else lookup k m'
  end.

(** [m[k] = a]: overwrite the entry of [k], or add one. *)
Fixpoint insert {A} (k : string) (a : A) (m : list (string * A)) : list (string * A) :=
  match m with
  | [] => [(k, a)]
  | (k', a') :: m' =>
      if String.eqb k k' then (k, a) :: m' else (k', a') :: insert k a m'
  end.

Definition keys {A} (m : list (string * A)) : list string := map fst m.

(** [a > b] and [a < b] on [std::string]. *)
Definition string_gt (a b : string) : bool :=
  match String_as_OT.compare a b with Gt => true | _ => false end.
Definition string_lt (a b : string) : bool :=
  match String_as_OT.compare a b with Lt => true | _ => false end.

(** ** Graph construction

    Modelled from the spec: the graph-building primitives of ir.h ("a Node has
    ordered input values, ordered output values, a symbolic operation kind,
    zero or more nested Blocks"), which live outside this file.  A node is
    appended at the insertion point; its outputs get fresh identities. *)

Definition fresh : M nat :=
  fun st => Ok (st_fresh st) (set_fresh (S (st_fresh st)) st).

Definition create_type (t : TypeT) : M TypePtr :=
  a <- fresh ;; ret (TPtr a t).

Definition insertNode (n : Node) : M unit :=
  modify (fun st => set_nodes (st_nodes st ++ [n]) st).

Definition new_value (ty : TypePtr) (kind : Symbol) (inputs : list Value)
    (c : option IValue) : M Value :=
  i <- fresh ;; st <- get ;; ret (mkValue i ty kind (st_block st) inputs c).

Fixpoint new_values (tys : list TypePtr) (kind : Symbol) (inputs : list Value)
    : M (list Value) :=
  match tys with
  | [] => ret []
  | ty :: tys' =>
      v <- new_value ty kind inputs None ;;
      vs <- new_values tys' kind inputs ;;
      ret (v :: vs)
  end.

(** Insert a node with a single output of type [ty]. *)
Definition insert1 (kind : Symbol) (inputs : list Value) (ty : TypePtr)
    (attrs : list (string * IValue)) (c : option IValue) : M Value :=
  v <- new_value ty kind inputs c ;;
  insertNode (mkNode kind inputs [v] [] attrs) ;;
  ret v.

Definition type_of_ivalue (iv : IValue) : TypePtr :=
  match iv with
  | IVNone => NoneType_get
  | IVInt _ => IntType_get
  | IVBool _ => BoolType_get
  | IVString _ => StringType_get
  | IVIntList _ => ListType_ofInts
  end.

(** [graph.insertConstant(val)]: a [prim::Constant] node, or a [prim::None]
    node for the none value. *)
Definition insertConstant (iv : IValue) : M Value :=
  match iv with
  | IVNone => insert1 "prim::None" [] NoneType_get [] None
  | _ => insert1 "prim::Constant" [] (type_of_ivalue iv) [("value", iv)] (Some iv)
  end.

Definition toIValue (v : Value) : option IValue :=
  if String.eqb (v_kind v) "prim::Constant" then v_const v else None.

Definition createList (elem_type : TypePtr) (values : list Value) : M Value :=
  ty <- create_type (ListType elem_type) ;;
  insert1 "prim::ListConstruct" values ty [] None.

Definition createTuple (values : list Value) : M Value :=
  ty <- create_type (TupleType (map v_type values)) ;;
  insert1 "prim::TupleConstruct" values ty [] None.

Definition createNone (elem_type : TypePtr) : M Value :=
  ty <- create_type (OptionalType elem_type) ;;
  insert1 "prim::None" [] ty [] None.

Definition createUndefined : M Value :=
  insert1 "prim::Undefined" [] DynamicType_get [] None.

Definition createNoneGenerator : M Value :=
  insert1 "prim::NoneGenerator" [] GeneratorType_get [] None.

Definition createImplicitTensorToNum (ty : TypePtr) (value : Value) : M Value :=
  insert1 "prim::ImplicitTensorToNum" [value] ty [] None.

Definition createTupleIndex (tup : Value) (index : Z) : M Value :=
  match nth_error (match cast_TupleType (v_type tup) with
                   | Some es => es | None => [] end) (Z.to_nat index) with
  | Some ty => insert1 "prim::TupleIndex" [tup] ty [("index", IVInt index)] None
  | None => throw (External "createTupleIndex")
  end.

Definition slice_list {A} (l : list A) (beg num : nat) : list A :=
  firstn num (skipn beg l).

Definition createTupleSlice (tup : Value) (beg end_ : Z) : M Value :=
  let elems := match cast_TupleType (v_type tup) with
               | Some es => es | None => [] end in
  ty <- create_type
          (TupleType (slice_list elems (Z.to_nat beg) (Z.to_nat (end_ - beg)))) ;;
  insert1 "prim::TupleSlice" [tup] ty [("beg", IVInt beg); ("end", IVInt end_)] None.

(** [named_value.value(graph)] *)
Definition nv_value (nv : NamedValue) : M Value :=
  match nv_payload nv with
  | NVValue v => ret v
  | NVConst iv => insertConstant iv
  end.

Definition toValues (nvs : list NamedValue) : M (list Value) := mapM nv_value nvs.

Definition hasUniqueName (v : Value) : M bool :=
  st <- get ;;
  ret (existsb (fun p => Nat.eqb (fst p) (v_id v)) (st_names st)).

Definition setUniqueName (v : Value) (name : string) : M unit :=
  modify (fun st => set_names ((v_id v, name) :: st_names st) st).

(** ** Function schemas and the code outside this file *)

Record Argument : Type := {
  arg_name : string;
  arg_type : TypePtr;
  arg_N : option nat;
  default_value : option IValue;
  kwarg_only : bool
}.

Record FunctionSchema : Type := {
  schema_name : string;
  arguments : list Argument;
  returns : list Argument;
  is_vararg : bool
}.

Record Method : Type := {
  method_name : string;
  method_schema : FunctionSchema
}.

Definition TypeEnv : Type := list (string * TypePtr).

Definition Failures : Type := list (string * Diag).

(** What the compiler calls but does not define: the type lattice, the
    operator and library-function registries, inlining of a library function,
    [Graph::insert], the name resolver and the two clean-up passes. *)
Record Externals : Type := {
  isSubtypeOf : TypePtr -> TypePtr -> bool;
  unshapedType : TypePtr -> TypePtr;
  unifyTypes : TypePtr -> TypePtr -> option TypePtr;
  matchTypeVariables : TypePtr -> TypePtr -> TypeEnv -> option TypePtr * TypeEnv;
  evalTypeVariables : TypePtr -> TypeEnv -> TypePtr;
  getAllOperatorsFor : Symbol -> list FunctionSchema;
  getAllBuiltinFunctionsFor : Symbol -> list Method;
  try_emit_call_to :
    Method -> option NamedValue -> list NamedValue -> list NamedValue -> bool ->
    M (option (list Value) * Failures);
  graph_insert : Symbol -> list NamedValue -> list NamedValue -> M Value;
  resolver : string -> option SugaredValue;
  opaque_call :
    string -> list NamedValue -> list NamedValue -> nat -> M SugaredValue;
  opaque_attr : string -> string -> M SugaredValue;
  LowerSimpleTuples : Graph -> Graph;
  ConstantPooling : Graph -> Graph
}.

(** ** The scope stack ([struct Environment])

    An [Environment] object is a frame together with its [next] pointer.  The
    methods below take the chain [this :: next] and give back the chain as the
    call leaves it, since a lookup may add captured inputs to enclosing loop
    frames. *)

Definition isdigit (c : ascii) : bool :=
  let n := nat_of_ascii c in Nat.leb 48 n && Nat.leb n 57.

Fixpoint all_digits (s : string) : bool :=
  match s with
  | EmptyString => true
  | String c s' => isdigit c && all_digits s'
  end.

Definition meaningfulName (name : string) : bool :=
  match name with
  | EmptyString => false
  | String c rest =>
      if negb (Ascii.eqb c "_"%char) then true else negb (all_digits rest)
  end.

Definition set_value_table (t : list (string * SugaredValue)) (f : Frame) : Frame :=
  {| value_table := t; captured_inputs := captured_inputs f;
     error_messages := error_messages f; f_block := f_block f;
     f_owning_kind := f_owning_kind f; f_inputs := f_inputs f |}.

Definition set_error_messages (e : list (string * ErrorReport)) (f : Frame) : Frame :=
  {| value_table := value_table f; captured_inputs := captured_inputs f;
     error_messages := e; f_block := f_block f;
     f_owning_kind := f_owning_kind f; f_inputs := f_inputs f |}.

Definition new_frame (b : nat) (owner : option Symbol) (inputs : list Value) : Frame :=
  {| value_table := []; captured_inputs := []; error_messages := [];
     f_block := b; f_owning_kind := owner; f_inputs := inputs |}.

Fixpoint setVariableTypeError (name : string) (msg : ErrorReport)
    (env : list Frame) : list Frame :=
  match env with
  | [] => []
  | [runner] => [set_error_messages (insert name msg (error_messages runner)) runner]
  | f :: next => f :: setVariableTypeError name msg next
  end.

Fixpoint findVariableTypeError (name : string) (env : list Frame)
    : option ErrorReport :=
  match env with
  | [] => None
  | [runner] => lookup name (error_messages runner)
  | _ :: next => findVariableTypeError name next
  end.

Definition findInThisFrame (name : string) (f : Frame) : option SugaredValue :=
  lookup name (value_table f).

Fixpoint findInAnyFrame (name : string) (env : list Frame) : option SugaredValue :=
  match env with
  | [] => None
  | runner :: next =>
      match findInThisFrame name runner with
      | Some r => Some r
      | None => findInAnyFrame name next
      end
  end.

Definition findInParentFrame (name : string) (env : list Frame)
    : option SugaredValue :=
  match env with
  | [] => None
  | _ :: next => findInAnyFrame name next
  end.

(** [sv->asValue(loc, method)] *)
Definition asValue (sv : SugaredValue) : M Value :=
  match sv with
  | SimpleValue v => ret v
  | _ => throw (NotAValue (kind_of sv))
  end.

Definition getValueInThisFrame (name : string) (f : Frame) : M Value :=
  match lookup name (value_table f) with
  | Some sv => asValue sv
  | None => throw (External "std::out_of_range")
  end.

Fixpoint capture_pos (name : string) (captured : list string) : nat :=
  match captured with
  | [] => 0
  | c :: rest => if string_gt name c then S (capture_pos name rest) else 0
  end.

Fixpoint insert_at {A} (pos : nat) (a : A) (l : list A) : list A :=
  match pos, l with
  | 0, _ => a :: l
  | S p, x :: l' => x :: insert_at p a l'
  | S _, [] => [a]
  end.

Definition createCapturedInput (orig : Value) (name : string) (this : Frame)
    : M (SugaredValue * Frame) :=
  let insert_pos := capture_pos name (captured_inputs this) in
  let loop_carried_block_inputs_offset := 1 in
  i <- fresh ;;
  let new_input := mkValue i (v_type orig) "prim::Param" (f_block this) [] None in
  let sv := SimpleValue new_input in
  ret (sv,
       {| value_table := insert name sv (value_table this);
          captured_inputs := insert_at insert_pos name (captured_inputs this);
          error_messages := error_messages this;
          f_block := f_block this;
          f_owning_kind := f_owning_kind this;
          f_inputs := insert_at (loop_carried_block_inputs_offset + insert_pos)
                                new_input (f_inputs this) |}).

Definition getBlockOwningKind (this : Frame) : Symbol :=
  match f_owning_kind this with
  | Some k => k
  | None => ""
  end.

Fixpoint createCapturedInputIfNeeded (ident : string) (env : list Frame)
    : M (option SugaredValue * list Frame) :=
  match env with
  | [] => ret (None, [])
  | this :: next =>
      match findInThisFrame ident this with
      | Some in_frame => ret (Some in_frame, env)
      | None =>
          '(from_parent, next') <- createCapturedInputIfNeeded ident next ;;
          match from_parent with
          | Some p =>
              if String.eqb (getBlockOwningKind this) "prim::Loop" then
                match asSimple p with
                | Some simple_val =>
                    '(sv, this') <- createCapturedInput simple_val ident this ;;
                    ret (Some sv, this' :: next')
                | None => ret (from_parent, this :: next')
                end
              else ret (from_parent, this :: next')
          | None => ret (None, this :: next')
          end
      end
  end.

Definition globals : list (string * SugaredValue) :=
  [ ("print", PrintValue);
    ("float", CastValue FloatType_get "prim::Float");
    ("int", CastValue IntType_get "prim::Int");
    ("bool", CastValue BoolType_get "prim::Bool");
    ("getattr", GetAttrValue);
    ("isinstance", IsInstanceValue);
    ("_to_tensor", CastValue DynamicType_get "prim::NumToTensor") ].

Definition or_else {A} (a b : option A) : option A :=
  match a with Some _ => a | None => b end.

Section Compiler.

Variable E : Externals.

Definition setSugaredVar (name : string) (value : SugaredValue)
    (env : list Frame) : M (list Frame) :=
  match env with
  | [] => throw (External "null environment")
  | this :: _ =>
      let as_simple_value := asSimple value in
      match as_simple_value with
      | Some v =>
          has_name <- hasUniqueName v ;;
          if negb has_name && meaningfulName name
             && Nat.eqb (v_block v) (f_block this)
          then setUniqueName v name
          else ret tt
      | None => ret tt
      end ;;
      match findInParentFrame name env with
      | Some parent =>
          match as_simple_value with
          | None => throw (ReassignToNonValue name (kind_of value))
          | Some v =>
              match asSimple parent with
              | None => throw (ReassignOfNonValue name (kind_of value))
              | Some simple_parent =>
                  if negb (isSubtypeOf E (v_type v)
                             (unshapedType E (v_type simple_parent)))
                  then throw (ReassignTypeMismatch name
                                (v_type simple_parent) (v_type v)
                                (is_ListType (v_type simple_parent)
                                 && is_ListType (v_type v)))
                  else ret tt
              end
          end
      | None => ret tt
      end ;;
      env' <- match as_simple_value with
              | Some _ =>
                  '(_, env') <- createCapturedInputIfNeeded name env ;; ret env'
              | None => ret env
              end ;;
      match env' with
      | this' :: next' =>
          ret (set_value_table (insert name value (value_table this')) this'
               :: next')
      | [] => throw (External "null environment")
      end
  end.

Definition setVar (name : string) (value : Value) (env : list Frame)
    : M (list Frame) :=
  setSugaredVar name (SimpleValue value) env.

(** [required] is left at its default [true] by every caller. *)
Definition getSugaredVar (ident : string) (env : list Frame)
    : M (SugaredValue * list Frame) :=
  '(retval, env') <- createCapturedInputIfNeeded ident env ;;
  let retval := or_else retval (lookup ident globals) in
  let retval := or_else retval (resolver E ident) in
  match retval with
  | Some r => ret (r, env')
  | None =>
      match findVariableTypeError ident env' with
      | Some msg => throw (AndWasUsedHere msg)
      | None => throw (UndefinedValue ident)
      end
  end.

Definition getVar (ident : string) (env : list Frame) : M (Value * list Frame) :=
  '(sv, env') <- getSugaredVar ident env ;;
  v <- asValue sv ;;
  ret (v, env').

(** The names bound directly in a frame.  [value_table] is an unordered map:
    its iteration order is not specified, and [order] stands for it. *)
Definition definedVariables (order : list string -> list string) (this : Frame)
    : list string :=
  order (keys (value_table this)).

(** *** The environment of the compilation in progress *)

(** Run an [Environment] method on [environment_stack]. *)
Definition on_env {A} (f : list Frame -> M (A * list Frame)) : M A :=
  st <- get ;;
  '(a, env') <- f (environment_stack st) ;;
  modify (set_env env') ;;
  ret a.

(** Run a method on a frame that was popped: its [next] is still the live
    [environment_stack], which the call may extend with captured inputs. *)
Definition on_saved {A} (saved : Frame) (f : list Frame -> M (A * list Frame))
    : M (A * Frame) :=
  st <- get ;;
  '(a, env') <- f (saved :: environment_stack st) ;;
  match env' with
  | saved' :: next' => modify (set_env next') ;; ret (a, saved')
  | [] => throw (External "null environment")
  end.

Definition env_setSugaredVar (name : string) (value : SugaredValue) : M unit :=
  on_env (fun env => env' <- setSugaredVar name value env ;; ret (tt, env')).

Definition env_setVar (name : string) (value : Value) : M unit :=
  env_setSugaredVar name (SimpleValue value).

Definition env_getSugaredVar (ident : string) : M SugaredValue :=
  on_env (getSugaredVar ident).

Definition env_getVar (ident : string) : M Value :=
  on_env (getVar ident).

Definition pushFrame (b : nat) (owner : option Symbol) (inputs : list Value)
    : M unit :=
  modify (fun st => set_env (new_frame b owner inputs :: environment_stack st) st).

Definition popFrame : M Frame :=
  st <- get ;;
  match environment_stack st with
  | old_frame :: next => put (set_env next st) ;; ret old_frame
  | [] => throw (External "null environment")
  end.

(** [n->addBlock()] followed by [WithInsertPoint guard(b)]: the nodes emitted
    by [m] go to the new block; the insertion point is restored afterwards. *)
Definition addBlock : M nat := fresh.

Definition at_block {A} (b : nat) (m : M A) : M (A * list Node) :=
  st <- get ;;
  let saved_block := st_block st in
  let saved_nodes := st_nodes st in
  put (set_nodes [] (set_block b st)) ;;
  a <- m ;;
  st' <- get ;;
  put (set_nodes saved_nodes (set_block saved_block st')) ;;
  ret (a, st_nodes st').

Definition root_block : nat := 0.

Definition find_constant (val : Z) (m : list (Z * Value)) : option Value :=
  match find (fun p => Z.eqb (fst p) val) m with
  | Some p => Some (snd p)
  | None => None
  end.

(** [materializeConstant]: integer literals are interned; a new constant goes
    to the front of the root block. *)
Definition materializeConstant (val : Z) : M Value :=
  st <- get ;;
  match find_constant val (integral_constants st) with
  | Some existing_constant => ret existing_constant
  | None =>
      i <- fresh ;;
      let new_constant :=
        mkValue i IntType_get "prim::Constant" root_block [] (Some (IVInt val)) in
      modify (fun s =>
        set_integral_constants ((val, new_constant) :: integral_constants s)
          (set_front (mkNode "prim::Constant" [] [new_constant] []
                             [("value", IVInt val)] :: st_front s) s)) ;;
      ret new_constant
  end.

Definition packOutputs (values : list Value) : M Value :=
  match values with
  | [v] => ret v
  | _ => createTuple values
  end.

Definition createTupleUnpack (v : Value) : M (list Value) :=
  if String.eqb (v_kind v) "prim::TupleConstruct" then ret (v_inputs v)
  else
    match cast_TupleType (v_type v) with
    | Some es =>
        outs <- new_values es "prim::TupleUnpack" [v] ;;
        insertNode (mkNode "prim::TupleUnpack" [v] outs [] []) ;;
        ret outs
    | None => throw (External "createTupleUnpack")
    end.

Definition unwrapOptional (opt_type : TypePtr) : TypePtr :=
  match cast_OptionalType opt_type with
  | Some elem => elem
  | None => opt_type
  end.

Definition isIntOrFloatUsedAsList (value : Value) (arg : Argument) : bool :=
  let v_type := v_type value in
  if negb (ptr_eqb v_type FloatType_get) && negb (ptr_eqb v_type IntType_get)
  then false
  else
    let arg_type := unwrapOptional (arg_type arg) in
    match cast_ListType arg_type, arg_N arg with
    | Some elem, Some _ => ptr_eqb elem v_type
    | _, _ => false
    end.

Definition convertibleToList (type list_type_ : TypePtr) : bool :=
  match cast_ListType list_type_ with
  | None => false
  | Some elem =>
      if isSubtypeOf E type list_type_ then true
      else
        match cast_TupleType type with
        | Some elements => forallb (fun t => isSubtypeOf E t elem) elements
        | None => false
        end
  end.

(** *** Schema matching *)

(** Applies implicit conversions to [value], trying to turn it into
    [concrete_type]. *)
Fixpoint tryConvertToType (concrete_type : TypePtr) (value : Value)
    (allow_conversions : bool) {struct concrete_type} : M Value :=
  let value_type := v_type value in
  value <-
    match cast_TupleType value_type with
    | Some value_elems =>
        value <-
          (if convertibleToList value_type (unwrapOptional concrete_type) then
             unpacked <- createTupleUnpack value ;;
             match cast_ListType (unwrapOptional concrete_type) with
             | Some elem_type => createList elem_type unpacked
             | None => throw (External "expect<ListType>")
             end
           else ret value) ;;
        match concrete_type with
        | TPtr _ (TupleType concrete_elems) =>
            if negb (isSubtypeOf E value_type concrete_type)
               && Nat.eqb (List.length concrete_elems) (List.length value_elems)
            then
              unpacked <- createTupleUnpack value ;;
              converted <-
                (fix convert_all (cs : list TypePtr) (us : list Value)
                     {struct cs} : M (list Value) :=
                   match cs with
                   | [] => ret []
                   | c :: cs' =>
                       match us with
                       | u :: us' =>
                           x <- tryConvertToType c u allow_conversions ;;
                           xs <- convert_all cs' us' ;;
                           ret (x :: xs)
                       | [] => throw (External "std::out_of_range")
                       end
                   end) concrete_elems unpacked ;;
              createTuple converted
            else ret value
        | _ => ret value
        end
    | None => ret value
    end ;;
  value <-
    (if isSubtypeOf E (v_type value) NoneType_get
        && negb (isSubtypeOf E concrete_type NoneType_get)
     then
       if isSubtypeOf E concrete_type GeneratorType_get then createNoneGenerator
       else if isSubtypeOf E concrete_type OptionalType_ofTensor then createUndefined
       else match cast_OptionalType concrete_type with
            | Some elem => createNone elem
            | None => ret value
            end
     else ret value) ;;
  if allow_conversions then
    value <-
      (if isSubtypeOf E concrete_type NumberType_get
          && isSubtypeOf E (v_type value) DynamicType_get
       then createImplicitTensorToNum concrete_type value
       else ret value) ;;
    if isSubtypeOf E (v_type value) StringType_get
       && isSubtypeOf E DeviceObjType_get concrete_type
    then graph_insert E "aten::device" [positional value] []
    else ret value
  else ret value.

(** The outcome of one step of a match attempt: the bound value if any, the
    failure messages written so far and the type environment. *)
Definition tryMatchArgument (arg : Argument) (named_value : NamedValue)
    (err : string) (failure_messages : Failures) (allow_conversions : bool)
    (type_env : TypeEnv) : M (option Value * Failures * TypeEnv) :=
  value <- nv_value named_value ;;
  value <-
    (if isIntOrFloatUsedAsList value arg then
       let repeated := repeat value (match arg_N arg with Some n => n | None => 0 end) in
       createList (v_type value) repeated
     else ret value) ;;
  let '(matched_type, type_env) :=
    matchTypeVariables E (arg_type arg) (v_type value) type_env in
  match matched_type with
  | None =>
      ret (None,
           failure_messages
             ++ [(err, DCouldNotMatch (v_type value) (arg_type arg) (arg_name arg))],
           type_env)
  | Some concrete_type =>
      value <- tryConvertToType concrete_type value allow_conversions ;;
      if negb (isSubtypeOf E (v_type value) concrete_type) then
        ret (None,
             failure_messages
               ++ [(err, DExpectedType concrete_type (v_type value) (arg_name arg))],
             type_env)
      else ret (Some value, failure_messages, type_env)
  end.

Fixpoint findInputWithName_from (i : nat) (name : string)
    (kwargs : list NamedValue) : option nat :=
  match kwargs with
  | [] => None
  | kw :: rest =>
      match nv_name kw with
      | Some n => if String.eqb n name then Some i
                  else findInputWithName_from (S i) name rest
      | None => findInputWithName_from (S i) name rest
      end
  end.

Definition findInputWithName (name : string) (kwargs : list NamedValue)
    : option nat :=
  findInputWithName_from 0 name kwargs.

Fixpoint tryCreateList_elems (elem_arg : Argument) (varargs : list NamedValue)
    (err : string) (failure_messages : Failures) (convert_tensor_to_num : bool)
    (type_env : TypeEnv) : M (option (list Value) * Failures * TypeEnv) :=
  match varargs with
  | [] => ret (Some [], failure_messages, type_env)
  | a :: rest =>
      '(av, failure_messages, type_env) <-
        tryMatchArgument elem_arg a err failure_messages
                         convert_tensor_to_num type_env ;;
      match av with
      | None => ret (None, failure_messages, type_env)
      | Some av =>
          '(more, failure_messages, type_env) <-
            tryCreateList_elems elem_arg rest err failure_messages
                                convert_tensor_to_num type_env ;;
          match more with
          | None => ret (None, failure_messages, type_env)
          | Some more => ret (Some (av :: more), failure_messages, type_env)
          end
      end
  end.

Definition tryCreateList (elem_type : TypePtr) (varargs : list NamedValue)
    (err : string) (failure_messages : Failures) (convert_tensor_to_num : bool)
    (type_env : TypeEnv) : M (option Value * Failures * TypeEnv) :=
  let elem_arg := {| arg_name := "<varargs>"; arg_type := elem_type;
                     arg_N := None; default_value := None;
                     kwarg_only := false |} in
  '(list_ctor, failure_messages, type_env) <-
    tryCreateList_elems elem_arg varargs err failure_messages
                        convert_tensor_to_num type_env ;;
  match list_ctor with
  | None => ret (None, failure_messages, type_env)
  | Some list_ctor =>
      l <- createList elem_type list_ctor ;;
      ret (Some l, failure_messages, type_env)
  end.

Record MatchedSchema : Type := {
  ms_inputs : list Value;
  ms_return_types : list TypePtr
}.

(** The variables of the loop over the parameters in [tryMatchSchema]. *)
Record Binding : Type := {
  bd_self : option NamedValue;
  bd_used_args : nat;
  bd_used_kwarg : list bool;
  bd_positional_inputs : list Value;
  bd_type_env : TypeEnv
}.

Fixpoint set_nth_true (i : nat) (l : list bool) : list bool :=
  match i, l with
  | _, [] => []
  | 0, _ :: l' => true :: l'
  | S i', b :: l' => b :: set_nth_true i' l'
  end.

Definition skip_args (n : nat) (args : list NamedValue) : list NamedValue :=
  skipn n args.

(** One iteration of the loop over [schema.arguments()]: [arg] is the
    parameter at [schema_i] and [rest] the parameters after it.  [None] is the
    [return c10::nullopt] of the candidate. *)
Definition bind_parameter (err : string) (args kwargs : list NamedValue)
    (allow_conversions : bool) (arg : Argument) (rest : list Argument)
    (failure_messages : Failures) (bd : Binding)
    : M (option Binding * Failures) :=
  let match_one (v : NamedValue) (bd : Binding) :=
    '(positional, failure_messages, type_env) <-
      tryMatchArgument arg v err failure_messages allow_conversions
                       (bd_type_env bd) ;;
    match positional with
    | None => ret (None, failure_messages)
    | Some positional =>
        ret (Some {| bd_self := bd_self bd;
                     bd_used_args := bd_used_args bd;
                     bd_used_kwarg := bd_used_kwarg bd;
                     bd_positional_inputs :=
                       bd_positional_inputs bd ++ [positional];
                     bd_type_env := type_env |},
             failure_messages)
    end in
  let used_args := bd_used_args bd in
  let take_positional :=
    match nth_error args used_args with
    | Some v =>
        match_one v {| bd_self := bd_self bd;
                       bd_used_args := S used_args;
                       bd_used_kwarg := bd_used_kwarg bd;
                       bd_positional_inputs := bd_positional_inputs bd;
                       bd_type_env := bd_type_env bd |}
    | None => throw (External "std::out_of_range")
    end in
  match (if String.eqb (arg_name arg) "self" then bd_self bd else None) with
  | Some self =>
      match_one self {| bd_self := None;
                        bd_used_args := bd_used_args bd;
                        bd_used_kwarg := bd_used_kwarg bd;
                        bd_positional_inputs := bd_positional_inputs bd;
                        bd_type_env := bd_type_env bd |}
  | None =>
      if negb (kwarg_only arg) && Nat.ltb used_args (List.length args) then
        (* allow zeros(IntList sizes) to work with zeros(1, 2) or zeros(1) *)
        if is_ListType (arg_type arg)
           && match arg_N arg with Some _ => false | None => true end
           && match rest with
              | [] => true
              | following :: _ => kwarg_only following
              end
        then
          match nth_error args used_args with
          | Some first_actual =>
              actual <- nv_value first_actual ;;
              let actual_type := v_type actual in
              if negb (is_ListType actual_type)
                 && negb (convertibleToList actual_type
                            (unwrapOptional (arg_type arg)))
              then
                match cast_ListType (unwrapOptional (arg_type arg)) with
                | Some elem_type =>
                    '(list, failure_messages, type_env) <-
                      tryCreateList elem_type (skip_args used_args args) err
                                    failure_messages allow_conversions
                                    (bd_type_env bd) ;;
                    match list with
                    | None => ret (None, failure_messages)
                    | Some list =>
                        ret (Some {| bd_self := bd_self bd;
                                     bd_used_args := List.length args;
                                     bd_used_kwarg := bd_used_kwarg bd;
                                     bd_positional_inputs :=
                                       bd_positional_inputs bd ++ [list];
                                     bd_type_env := type_env |},
                             failure_messages)
                    end
                | None => throw (External "expect<ListType>")
                end
              else take_positional
          | None => throw (External "std::out_of_range")
          end
        else take_positional
      else
        match findInputWithName (arg_name arg) kwargs with
        | Some idx =>
            match nth_error kwargs idx with
            | Some nv =>
                if nth idx (bd_used_kwarg bd) false then
                  ret (None,
                       failure_messages
                         ++ [(err, DSpecifiedTwiceInSchema (arg_name arg))])
                else
                  match_one nv
                    {| bd_self := bd_self bd;
                       bd_used_args := bd_used_args bd;
                       bd_used_kwarg := set_nth_true idx (bd_used_kwarg bd);
                       bd_positional_inputs := bd_positional_inputs bd;
                       bd_type_env := bd_type_env bd |}
            | None => throw (External "std::out_of_range")
            end
        | None =>
            match default_value arg with
            | Some d =>
                match_one {| nv_name := None; nv_payload := NVConst d |} bd
            | None =>
                ret (None, failure_messages ++ [(err, DNotProvided (arg_name arg))])
            end
        end
  end.

Fixpoint bind_parameters (err : string) (args kwargs : list NamedValue)
    (allow_conversions : bool) (params : list Argument)
    (failure_messages : Failures) (bd : Binding)
    : M (option Binding * Failures) :=
  match params with
  | [] => ret (Some bd, failure_messages)
  | arg :: rest =>
      '(r, failure_messages) <-
        bind_parameter err args kwargs allow_conversions arg rest
                       failure_messages bd ;;
      match r with
      | None => ret (None, failure_messages)
      | Some bd' =>
          bind_parameters err args kwargs allow_conversions rest
                          failure_messages bd'
      end
  end.

Definition argumentIndexWithName (schema : FunctionSchema) (name : string)
    : bool :=
  existsb (fun a => String.eqb (arg_name a) name) (arguments schema).

(** The first keyword argument left unused, if any. *)
Fixpoint first_unused_kwarg (kwargs : list NamedValue) (used : list bool)
    : option NamedValue :=
  match kwargs, used with
  | nv :: kwargs', u :: used' =>
      if u then first_unused_kwarg kwargs' used' else Some nv
  | _, _ => None
  end.

Definition kw_name (nv : NamedValue) : string :=
  match nv_name nv with Some n => n | None => "" end.

Definition tryMatchSchema (schema : FunctionSchema) (self : option NamedValue)
    (args kwargs : list NamedValue) (failure_messages : Failures)
    (allow_conversions : bool) : M (option MatchedSchema * Failures) :=
  let err := schema_name schema in
  '(r, failure_messages) <-
    bind_parameters err args kwargs allow_conversions (arguments schema)
      failure_messages
      {| bd_self := self; bd_used_args := 0;
         bd_used_kwarg := repeat false (List.length kwargs);
         bd_positional_inputs := []; bd_type_env := [] |} ;;
  match r with
  | None => ret (None, failure_messages)
  | Some bd =>
      (* check for unused self argument *)
      let failure_messages :=
        match bd_self bd with
        | Some _ => failure_messages ++ [(err, DSelfNotUsed)]
        | None => failure_messages
        end in
      '(positional_inputs, used_args) <-
        (if is_vararg schema then
           extra <- toValues (skip_args (bd_used_args bd) args) ;;
           ret (bd_positional_inputs bd ++ extra,
                Nat.max (bd_used_args bd) (List.length args))
         else ret (bd_positional_inputs bd, bd_used_args bd)) ;;
      (* check for unused positional arguments *)
      if Nat.ltb used_args (List.length args) then
        ret (None,
             failure_messages
               ++ [(err, DTooManyPositional used_args (List.length args))])
      else
        (* check for unused kwargs *)
        match first_unused_kwarg kwargs (bd_used_kwarg bd) with
        | Some nv =>
            if negb (argumentIndexWithName schema (kw_name nv)) then
              ret (None, failure_messages ++ [(err, DUnknownKeyword (kw_name nv))])
            else
              ret (None, failure_messages ++ [(err, DKeywordTwice (kw_name nv))])
        | None =>
            let return_types :=
              map (fun r => evalTypeVariables E (arg_type r) (bd_type_env bd))
                  (returns schema) in
            ret (Some {| ms_inputs := positional_inputs;
                         ms_return_types := return_types |},
                 failure_messages)
        end
  end.

(** [prefixLine]: the loop over the characters of [str], with its flag
    [was_newline], writes [prefix] before the first character of every
    line. *)
Fixpoint prefixLine_from (was_newline : bool) (str prefix : string) : string :=
  match str with
  | EmptyString => EmptyString
  | String c rest =>
      let written :=
        String c (prefixLine_from (Ascii.eqb c "010"%char) rest prefix) in
      if was_newline then String.append prefix written else written
  end.

Definition prefixLine (str prefix : string) : string :=
  prefixLine_from true str prefix.

(** Given a successful match between operator schema and symbol, emit a node
    with the appropriate inputs and outputs.  The check that an operation is
    registered for the node ([getOperation]) is an assertion on the registry
    and has no counterpart here. *)
Definition emitBuiltinNode (matched_schema : MatchedSchema) (name : Symbol)
    : M Value :=
  outs <- new_values (ms_return_types matched_schema) name
                     (ms_inputs matched_schema) ;;
  insertNode (mkNode name (ms_inputs matched_schema) outs [] []) ;;
  packOutputs outs.

Fixpoint try_variants (name : Symbol) (self : option NamedValue)
    (inputs attributes : list NamedValue) (allow_conversions : bool)
    (variants : list FunctionSchema) (failure_messages : Failures)
    : M (option Value * Failures) :=
  match variants with
  | [] => ret (None, failure_messages)
  | op :: rest =>
      '(matched_schema, failure_messages) <-
        tryMatchSchema op self inputs attributes failure_messages
                       allow_conversions ;;
      match matched_schema with
      | Some matched => v <- emitBuiltinNode matched name ;;
                        ret (Some v, failure_messages)
      | None => try_variants name self inputs attributes allow_conversions
                             rest failure_messages
      end
  end.

Fixpoint try_builtin_functions (self : option NamedValue)
    (inputs attributes : list NamedValue) (allow_conversions : bool)
    (builtin_functions : list Method) (failure_messages : Failures)
    : M (option Value * Failures) :=
  match builtin_functions with
  | [] => ret (None, failure_messages)
  | method :: rest =>
      '(result, more) <-
        try_emit_call_to E method self inputs attributes allow_conversions ;;
      let failure_messages := failure_messages ++ more in
      match result with
      | Some result => v <- packOutputs result ;; ret (Some v, failure_messages)
      | None => try_builtin_functions self inputs attributes allow_conversions
                                      rest failure_messages
      end
  end.

(** The loop [for (bool allow_conversions : {false, true})]. *)
Fixpoint try_passes (name : Symbol) (self : option NamedValue)
    (inputs attributes : list NamedValue) (passes : list bool)
    (failure_messages : Failures) : M (option Value * Failures) :=
  match passes with
  | [] => ret (None, failure_messages)
  | allow_conversions :: later =>
      (* clear previous error messages *)
      let failure_messages : Failures := [] in
      '(r, failure_messages) <-
        try_variants name self inputs attributes allow_conversions
                     (getAllOperatorsFor E name) failure_messages ;;
      match r with
      | Some v => ret (Some v, failure_messages)
      | None =>
          '(r, failure_messages) <-
            try_builtin_functions self inputs attributes allow_conversions
                                  (getAllBuiltinFunctionsFor E name)
                                  failure_messages ;;
          match r with
          | Some v => ret (Some v, failure_messages)
          | None => try_passes name self inputs attributes later failure_messages
          end
      end
  end.

(** Search for operators matching the provided symbol name and input types.
    If one is found, emit a node to the graph for that operator.  The result
    is [None] for the null pointer returned when [required] is false. *)
Definition emitBuiltinCall (name : Symbol) (self : option NamedValue)
    (inputs attributes : list NamedValue) (required : bool)
    : M (option Value) :=
  '(r, failure_messages) <-
    try_passes name self inputs attributes [false; true] [] ;;
  match r with
  | Some v => ret (Some v)
  | None =>
      (* none of the options worked *)
      if negb required then ret None
      else
        match getAllOperatorsFor E name with
        | [] => throw UnknownBuiltinOp
        | _ => throw (InvalidCallArguments failure_messages)
        end
  end.

(** A call with [required] true: the result is never null. *)
Definition emitBuiltinCall_required (name : Symbol) (self : option NamedValue)
    (inputs attributes : list NamedValue) : M Value :=
  r <- emitBuiltinCall name self inputs attributes true ;;
  match r with
  | Some v => ret v
  | None => throw (External "null value")
  end.

End Compiler.

(** ** The syntax tree

    The statement and expression kinds the embedding covers.  Starred
    expressions, unary minus, floating-point literals, [fork], the
    non-[range] form of [for] and assignment to anything but a plain name are
    left out. *)

Inductive BinKind : Type :=
| K_MatMul | K_Pow | K_Is | K_IsNot | K_Ne | K_Eq | K_Lt | K_Gt | K_Le | K_Ge
| K_Mul | K_Div | K_Add | K_Sub | K_Mod | K_BitAnd | K_BitOr | K_BitXor
| K_FloorDiv.

Inductive Expr : Type :=
| Var (name : string)
| Const (value : Z)
| TrueLit
| FalseLit
| NoneLit
| StringLiteral (text : string)
| BinOp (kind : BinKind) (lhs rhs : Expr)
| NotOp (operand : Expr)
| AndOp (lhs rhs : Expr)
| OrOp (lhs rhs : Expr)
| TernaryIf (cond true_expr false_expr : Expr)
| ListLiteral (inputs : list Expr)
| TupleLiteral (inputs : list Expr)
| Subscript (value : Expr) (subscript_exprs : list Expr)
| SliceExpr (start end_ : option Expr)
| Select (value : Expr) (selector : string)
| Apply (callee : Expr) (inputs : list Expr) (attributes : list (string * Expr)).

Inductive Stmt : Type :=
| If (cond : Expr) (trueBranch falseBranch : list Stmt)
| While (cond : Expr) (body : list Stmt)
| ForRange (target : string) (args : list Expr) (body : list Stmt)
| Assign (name : string) (rhs : Expr)
| AugAssign (name : string) (aug_op : BinKind) (rhs : Expr)
| Global (names : list string)
| ExprStmt (expr : Expr)
| Raise
| Assert (test : Expr)
| Return (expr : Expr)
| Pass.

(** Induction on statements, the nested lists of statements included. *)
Section StmtInduction.

Variable P : Stmt -> Prop.
Hypothesis P_If : forall c tb fb, Forall P tb -> Forall P fb -> P (If c tb fb).
Hypothesis P_While : forall c body, Forall P body -> P (While c body).
Hypothesis P_ForRange :
  forall t args body, Forall P body -> P (ForRange t args body).
Hypothesis P_Assign : forall n rhs, P (Assign n rhs).
Hypothesis P_AugAssign : forall n op rhs, P (AugAssign n op rhs).
Hypothesis P_Global : forall names, P (Global names).
Hypothesis P_ExprStmt : forall e, P (ExprStmt e).
Hypothesis P_Raise : P Raise.
Hypothesis P_Assert : forall t, P (Assert t).
Hypothesis P_Return : forall e, P (Return e).
Hypothesis P_Pass : P Pass.

Fixpoint Stmt_nested_ind (s : Stmt) : P s :=
  let all :=
    fix all (l : list Stmt) : Forall P l :=
      match l with
      | [] => Forall_nil P
      | x :: l' => Forall_cons x (Stmt_nested_ind x) (all l')
      end in
  match s with
  | If c tb fb => P_If c tb fb (all tb) (all fb)
  | While c body => P_While c body (all body)
  | ForRange t args body => P_ForRange t args body (all body)
  | Assign n rhs => P_Assign n rhs
  | AugAssign n op rhs => P_AugAssign n op rhs
  | Global names => P_Global names
  | ExprStmt e => P_ExprStmt e
  | Raise => P_Raise
  | Assert t => P_Assert t
  | Return e => P_Return e
  | Pass => P_Pass
  end.

End StmtInduction.

Definition getNodeKind (kind : BinKind) : Symbol :=
  match kind with
  | K_Add => "aten::add"
  | K_Sub => "aten::sub"
  | K_Mul => "aten::mul"
  | K_Pow => "aten::pow"
  | K_MatMul => "aten::matmul"
  | K_Div => "aten::div"
  | K_Mod => "aten::remainder"
  | K_Ne => "aten::ne"
  | K_Eq => "aten::eq"
  | K_Lt => "aten::lt"
  | K_Gt => "aten::gt"
  | K_Le => "aten::le"
  | K_Ge => "aten::ge"
  | K_Is => "aten::__is__"
  | K_IsNot => "aten::__isnot__"
  | K_FloorDiv => "aten::floordiv"
  | K_BitAnd => "aten::__and__"
  | K_BitOr => "aten::__or__"
  | K_BitXor => "aten::__xor__"
  end.

(** *** Type expressions *)

Definition isTorch (expr : Expr) : bool :=
  match expr with
  | Var name => String.eqb name "torch"
  | _ => false
  end.

Definition parseBaseTypeName (expr : Expr) : option string :=
  match expr with
  | Var name => Some name
  | NoneLit => Some "None"
  | Select value name =>
      if isTorch value && String.eqb name "Tensor" then Some "Tensor" else None
  | _ => None
  end.

Definition ident_to_type_lut : list (string * TypePtr) :=
  [ ("Tensor", DynamicType_get);
    ("int", IntType_get);
    ("float", FloatType_get);
    ("bool", BoolType_get);
    ("str", StringType_get);
    ("Device", DeviceObjType_get);
    ("number", NumberType_get);
    ("None", NoneType_get) ].

Fixpoint parseTypeFromExpr (expr : Expr) {struct expr} : M TypePtr :=
  match expr with
  | Subscript value subscript_exprs =>
      match parseBaseTypeName value with
      | None => throw TypeMustBeIdentifier
      | Some value_name =>
          let one (mk : TypePtr -> TypeT) : M TypePtr :=
            match subscript_exprs with
            | [e] => elem_type <- parseTypeFromExpr e ;; create_type (mk elem_type)
            | _ => throw (TypeConstructorArity (List.length subscript_exprs))
            end in
          if String.eqb value_name "Tuple" then
            subscript_expr_types <-
              (fix parse_all (es : list Expr) : M (list TypePtr) :=
                 match es with
                 | [] => ret []
                 | e :: es' =>
                     t <- parseTypeFromExpr e ;;
                     ts <- parse_all es' ;;
                     ret (t :: ts)
                 end) subscript_exprs ;;
            create_type (TupleType subscript_expr_types)
          else if String.eqb value_name "List" then one ListType
          else if String.eqb value_name "Optional" then one OptionalType
          else if String.eqb value_name "Future" then one FutureType
          else throw (UnknownTypeConstructor value_name)
      end
  | _ =>
      match parseBaseTypeName expr with
      | Some name =>
          match lookup name ident_to_type_lut with
          | Some t => ret t
          | None => throw (UnknownTypeName name)
          end
      | None => throw NotATypeExpression
      end
  end.

Section Expressions.

Variable E : Externals.

(** *** List literals: the [TK_LIST_LITERAL] case of [emitSimpleExpr], once
    the element values have been emitted *)

Definition list_elem_type (type_hint : option TypePtr) (values : list Value)
    : TypePtr :=
  (* if we have a type hint of List[T], use T
     if the list is non-empty use type_of(list[0])
     otherwise assume it is List[Tensor] *)
  let from_values :=
    match values with
    | v :: _ => v_type v
    | [] => DynamicType_get
    end in
  match type_hint with
  | Some hint =>
      match cast_ListType hint with
      | Some elem => elem
      | None => from_values
      end
  | None => from_values
  end.

Definition emitListLiteral (type_hint : option TypePtr) (values : list Value)
    : M Value :=
  let elem_type := list_elem_type type_hint values in
  forM_ values (fun v =>
    if negb (ptr_eqb (v_type v) elem_type)
    then throw (ListNotSingleType elem_type (v_type v))
    else ret tt) ;;
  createList elem_type values.

(** *** Tuple indexing and slicing *)

(** The index is an [int64_t]; [tuple_len + index] cannot overflow for a
    negative [index] and a length. *)
Definition getTupleIndexVal (tuple_len : Z) (idx_val : Value)
    (allow_out_of_bounds : bool) : M Z :=
  match toIValue idx_val with
  | Some (IVInt index) =>
      (* set index to be positive to simplify logic in runtime *)
      let adj_index := if Z.ltb index 0%Z then (tuple_len + index)%Z else index in
      if negb allow_out_of_bounds
         && (Z.geb adj_index tuple_len || Z.ltb adj_index 0%Z)
      then throw (TupleIndexOutOfRange tuple_len index)
      else ret adj_index
  | _ => throw TupleIndexNotConstant
  end.

Definition tuple_length (t : TypePtr) : M Z :=
  match cast_TupleType t with
  | Some elements => ret (Z.of_nat (List.length elements))
  | None => throw (External "expect<TupleType>")
  end.

Definition emitTupleIndex (tuple_val idx_val : Value) : M Value :=
  tuple_len <- tuple_length (v_type tuple_val) ;;
  adj_index <- getTupleIndexVal tuple_len idx_val false ;;
  createTupleIndex tuple_val adj_index.

Definition emitTupleSlice (tuple_val beg_val : NamedValue)
    (end_val : option NamedValue) : M Value :=
  tup <- nv_value tuple_val ;;
  tuple_len <- tuple_length (v_type tup) ;;
  b <- nv_value beg_val ;;
  beg <- getTupleIndexVal tuple_len b true ;;
  end_ <- match end_val with
          | Some end_val =>
              e <- nv_value end_val ;;
              getTupleIndexVal tuple_len e true
          | None => ret tuple_len
          end ;;
  (* slicing does not throw out of bounds errors *)
  let end_ := Z.min (Z.max 0%Z end_) tuple_len in
  let beg := Z.min (Z.max 0%Z beg) tuple_len in
  createTupleSlice tup beg end_.

(** *** Calls and attributes of sugared values *)

Definition builtin_cast_methods : list (string * string) :=
  [ ("byte", "_cast_Byte"); ("char", "_cast_Char"); ("double", "_cast_Double");
    ("float", "_cast_Float"); ("int", "_cast_Int"); ("long", "_cast_Long");
    ("short", "_cast_Short"); ("half", "_cast_Half") ].

Definition tensor_fields : list string :=
  [ "dtype"; "device"; "shape"; "is_cuda"; "requires_grad" ].

Definition SimpleValue_attr (value : Value) (field : string) : M SugaredValue :=
  let as_method (name : string) :=
    ret (BuiltinFunction (String.append "aten::" name)
                         (Some (named "self" value))) in
  let rest :=
    if isSubtypeOf E (v_type value) NumberType_get then throw NumberMethod
    else as_method field in
  if isSubtypeOf E (v_type value) DynamicType_get then
    match lookup field builtin_cast_methods with
    | Some cast => as_method cast
    | None =>
        if existsb (String.eqb field) tensor_fields then
          r <- graph_insert E (String.append "prim::" field)
                              [positional value] [] ;;
          ret (SimpleValue r)
        else rest
    end
  else rest.

Definition attr (sv : SugaredValue) (field : string) : M SugaredValue :=
  match sv with
  | SimpleValue value => SimpleValue_attr value field
  | _ => opaque_attr E (kind_of sv) field
  end.

Definition BuiltinFunction_call (symbol : Symbol) (self : option NamedValue)
    (inputs attributes : list NamedValue) : M SugaredValue :=
  v <- emitBuiltinCall_required E symbol self inputs attributes ;;
  ret (SimpleValue v).

Definition PrintValue_call (inputs attributes : list NamedValue)
    : M SugaredValue :=
  match attributes with
  | _ :: _ => throw PrintKeywordArguments
  | [] =>
      lowered_inputs <- toValues inputs ;;
      let lowered_inputs :=
        match lowered_inputs with
        | [input] =>
            if String.eqb (v_kind input) "prim::TupleConstruct"
            then v_inputs input else lowered_inputs
        | _ => lowered_inputs
        end in
      insertNode (mkNode "prim::Print" lowered_inputs [] [] []) ;;
      ret NoneValue
  end.

Definition CastValue_call (type_ : TypePtr) (method : Symbol)
    (inputs attributes : list NamedValue) : M SugaredValue :=
  let otherwise := BuiltinFunction_call method None inputs attributes in
  match inputs, attributes with
  | [input], [] =>
      v <- nv_value input ;;
      if isSubtypeOf E (v_type v) type_ then ret (SimpleValue v) else otherwise
  | _, _ => otherwise
  end.

(** [sv->call(loc, method, inputs, attributes, n_binders)] *)
Definition call (sv : SugaredValue) (inputs attributes : list NamedValue)
    (n_binders : nat) : M SugaredValue :=
  match sv with
  | PrintValue => PrintValue_call inputs attributes
  | CastValue type_ method => CastValue_call type_ method inputs attributes
  | BuiltinFunction symbol self =>
      BuiltinFunction_call symbol self inputs attributes
  | _ => opaque_call E (kind_of sv) inputs attributes n_binders
  end.

(** *** Conditional expressions *)

(** Both branches are emitted into the two blocks of one [prim::If] node.
    The thunks stand for the [std::function<Value*()>] arguments. *)
Definition emit_if_expr (b : nat) (expr_value : M Value) : M Block :=
  pushFrame b (Some "prim::If") [] ;;
  '(out_val, nodes) <- at_block b expr_value ;;
  popFrame ;;
  ret (mkBlock [] nodes [out_val]).

Definition emitIfExpr (cond_value : Value) (true_expr false_expr : M Value)
    : M Value :=
  true_block <- addBlock ;;
  false_block <- addBlock ;;
  true_b <- emit_if_expr true_block true_expr ;;
  false_b <- emit_if_expr false_block false_expr ;;
  match b_outputs true_b, b_outputs false_b with
  | true_out :: _, false_out :: _ =>
      let true_type := unshapedType E (v_type true_out) in
      let false_type := unshapedType E (v_type false_out) in
      if negb (type_eqb true_type false_type) then
        throw (IfExprTypeMismatch true_type false_type)
      else
        (* Add op outputs *)
        expr_value <- new_value true_type "prim::If" [cond_value] None ;;
        insertNode (mkNode "prim::If" [cond_value] [expr_value]
                           [true_b; false_b] []) ;;
        ret expr_value
  | _, _ => throw (External "std::out_of_range")
  end.

(** *** The expression emitter

    [emitSugaredExpr] is recursive in the expression.  The functions it
    dispatches to ([emitCond], [emitSlice], [emitApplyExpr], ...) emit
    sub-expressions of their own; in their [_of] form below they take the
    emission of each sub-expression as a computation still to be run, and the
    fixpoint hands it to them.  The functions with the names of the source
    follow the fixpoint. *)

Definition valueOf (m : M SugaredValue) : M Value :=
  sv <- m ;; asValue sv.

Definition simple (m : M Value) : M SugaredValue :=
  v <- m ;; ret (SimpleValue v).

Definition emitCond_of (cond : M Value) : M Value :=
  v <- cond ;;
  if negb (isSubtypeOf E (v_type v) BoolType_get) then
    throw (ExpectedBoolean (v_type v) (isSubtypeOf E (v_type v) DynamicType_get))
  else ret v.

Definition emitTernaryIf_of (cond true_expr false_expr : M Value) : M Value :=
  cond_value <- emitCond_of cond ;;
  emitIfExpr cond_value true_expr false_expr.

Definition emitShortCircuitIf_of (first_expr second_expr : M Value)
    (is_or : bool) : M Value :=
  first_value <- emitCond_of first_expr ;;
  let get_first_expr := ret first_value in
  let get_second_expr := emitCond_of second_expr in
  (* if this is an OR, eval second expression if first expr is False.
     If this is an AND, eval second expression if first expr is True *)
  if is_or then emitIfExpr first_value get_first_expr get_second_expr
  else emitIfExpr first_value get_second_expr get_first_expr.

Definition getNamedValues_of (trees : list (M Value)) : M (list NamedValue) :=
  mapM (fun tree => v <- tree ;; ret (positional v)) trees.

Definition getValues_of (trees : list (M Value)) : M (list Value) :=
  nvs <- getNamedValues_of trees ;; toValues nvs.

Definition emitAttributes_of (attributes : list (string * M Value))
    : M (list NamedValue) :=
  mapM (fun a => v <- snd a ;; ret (named (fst a) v)) attributes.

(** Desugars select indexing: tensor[i] -> tensor.select(dim, i) *)
Definition emitSelect (input : Value) (dim : Z) (index : Value) : M Value :=
  d <- insertConstant (IVInt dim) ;;
  emitBuiltinCall_required E "aten::select" None
    [positional input; positional d; positional index] [].

(** Desugars slice indexing: tensor[begin:end] -> tensor.slice(dim, begin,
    end, 1).  A missing start is the literal 0. *)
Definition emitSlice_of (input : Value) (dim : option Z)
    (start end_ : option (M Value)) : M Value :=
  let is_tensor := isSubtypeOf E (v_type input) DynamicType_get in
  dim_args <-
    match dim with
    | Some d =>
        if is_tensor then
          c <- insertConstant (IVInt d) ;; ret [named "dim" c]
        else throw (External "JIT_ASSERT")
    | None =>
        if is_tensor then throw (External "JIT_ASSERT") else ret []
    end ;;
  b <- match start with
       | Some e => e
       | None => materializeConstant 0%Z
       end ;;
  end_args <-
    match end_ with
    | Some e => v <- e ;; ret [named "end" v]
    | None => ret []
    end ;;
  let args := [named "self" input] ++ dim_args ++ [named "begin" b] ++ end_args in
  if is_TupleType (v_type input) then
    match args with
    | a0 :: a1 :: rest =>
        match end_ with
        | Some _ =>
            match rest with
            | a2 :: _ => emitTupleSlice a0 a1 (Some a2)
            | [] => throw (External "std::out_of_range")
            end
        | None => emitTupleSlice a0 a1 None
        end
    | _ => throw (External "std::out_of_range")
    end
  else
    one <- insertConstant (IVInt 1) ;;
    emitBuiltinCall_required E "aten::slice" None args [named "step" one].

Definition emitIndex (input : Value) (indices : list Value) : M Value :=
  index <- createList DynamicType_get indices ;;
  emitBuiltinCall_required E "aten::index" None
    [positional input; positional index] [].

(** [tensor_indices.resize(dim + 1)] *)
Definition resize {A} (n : nat) (l : list (option A)) : list (option A) :=
  firstn n (l ++ repeat None (n - List.length l)).

Fixpoint set_nth {A} (i : nat) (a : A) (l : list A) : list A :=
  match i, l with
  | _, [] => []
  | 0, _ :: l' => a :: l'
  | S i', x :: l' => x :: set_nth i' a l'
  end.

(** A subscript expression with the emission of its parts: a slice
    [start:end] or an index. *)
Inductive SubscriptArg : Type :=
| SliceArg (start end_ : option (M Value))
| IndexArg (index : M Value).

Fixpoint emitIntAndSliceIndexing_loop (exprs : list SubscriptArg)
    (sliceable : Value) (dim : nat) (tensor_indices : list (option Value))
    : M (Value * list (option Value)) :=
  match exprs with
  | [] => ret (sliceable, tensor_indices)
  | SliceArg start end_ :: exprs' =>
      sliceable <- emitSlice_of sliceable (Some (Z.of_nat dim)) start end_ ;;
      emitIntAndSliceIndexing_loop exprs' sliceable (S dim) tensor_indices
  | IndexArg index :: exprs' =>
      index <- index ;;
      if ptr_eqb (v_type index) IntType_get then
        sliceable <- emitSelect sliceable (Z.of_nat dim) index ;;
        emitIntAndSliceIndexing_loop exprs' sliceable dim tensor_indices
      else if isSubtypeOf E (v_type index) DynamicType_get then
        (* handle_tensor *)
        emitIntAndSliceIndexing_loop exprs' sliceable (S dim)
          (set_nth dim (Some index) (resize (S dim) tensor_indices))
      else throw (UnsupportedIndexType (v_type index))
  end.

(** Emits multidimensional slicing with int and slice indices. *)
Definition emitIntAndSliceIndexing_of (sliceable : Value)
    (subscript_exprs : list SubscriptArg) : M (Value * list Value) :=
  '(sliceable, tensor_indices) <-
    emitIntAndSliceIndexing_loop subscript_exprs sliceable 0 [] ;;
  (* Convert NULL tensorIndices to undefined tensors *)
  indices <- mapM (fun index => match index with
                                | Some i => ret i
                                | None => createUndefined
                                end) tensor_indices ;;
  ret (sliceable, indices).

Definition emitMultidimSlicing_of (sliceable : Value)
    (subscript_exprs : list SubscriptArg) : M Value :=
  if negb (isSubtypeOf E (v_type sliceable) DynamicType_get) then
    throw MultidimOnNonTensor
  else
    '(sliceable, tensor_indices) <-
      emitIntAndSliceIndexing_of sliceable subscript_exprs ;;
    match tensor_indices with
    | [] => ret sliceable
    | _ => emitIndex sliceable tensor_indices
    end.

Definition emitBasicSlice_of (sliceable : Value) (start end_ : option (M Value))
    : M Value :=
  let maybe_dim :=
    if isSubtypeOf E (v_type sliceable) DynamicType_get then Some 0%Z else None in
  emitSlice_of sliceable maybe_dim start end_.

(** Desugars gather syntactic sugar foo[i] *)
Definition emitBasicGather_of (gatherable : Value) (subscript_expr : M Value)
    : M Value :=
  if is_ListType (v_type gatherable) then
    idx <- subscript_expr ;;
    emitBuiltinCall_required E "aten::select" None
      [positional gatherable; positional idx] []
  else if isSubtypeOf E (v_type gatherable) DynamicType_get then
    emitMultidimSlicing_of gatherable [IndexArg subscript_expr]
  else if is_TupleType (v_type gatherable) then
    idx <- subscript_expr ;;
    emitTupleIndex gatherable idx
  else throw NotIndexable.

Definition emitSubscript_of (value : M Value)
    (subscript_exprs : list SubscriptArg) : M Value :=
  sliceable <- value ;;
  match subscript_exprs with
  | [SliceArg start end_] => emitBasicSlice_of sliceable start end_
  | [IndexArg subscript_expr] => emitBasicGather_of sliceable subscript_expr
  | _ => emitMultidimSlicing_of sliceable subscript_exprs
  end.

Definition callee_name (callee : Expr) : string :=
  match callee with Var name => name | _ => "" end.

Definition checkApplyExpr (callee : Expr) (n_inputs n_attributes : nat)
    : M unit :=
  if negb (Nat.eqb n_inputs 2) then
    throw (WrongApplyArity (callee_name callee) n_inputs)
  else if Nat.ltb 0 n_attributes then
    throw (ApplyKeywordArguments (callee_name callee))
  else ret tt.

(** The static [isinstance] check: only the static type of [obj] is looked
    at; [obj] is emitted once for every class it is compared with. *)
Fixpoint isInstanceCheck_of (obj : M Value) (classinfo : Expr) {struct classinfo}
    : M bool :=
  match classinfo with
  | TupleLiteral es =>
      (fix any (l : list Expr) : M bool :=
         match l with
         | [] => ret false
         | e :: l' =>
             b <- isInstanceCheck_of obj e ;;
             if b then ret true else any l'
         end) es
  | _ =>
      match parseBaseTypeName classinfo with
      | None => throw TypeMustBeIdentifier
      | Some type_name =>
          val <- obj ;;
          if String.eqb type_name "list" && is_ListType (v_type val) then
            ret true
          else if String.eqb type_name "tuple" && is_TupleType (v_type val)
          then ret true
          else
            match cast_OptionalType (v_type val) with
            | Some _ => throw OptionalIsinstance
            | None =>
                type <- parseTypeFromExpr classinfo ;;
                ret (isSubtypeOf E (v_type val) type)
            end
      end
  end.

(** An argument of a call with its emission, which takes the type hint. *)
Definition ApplyArg : Type := (Expr * (option TypePtr -> M SugaredValue))%type.

Definition emitApplyExpr_of (callee : Expr) (callee_sv : M SugaredValue)
    (inputs : list ApplyArg) (attributes : list (string * M Value))
    (n_binders : nat) : M SugaredValue :=
  sv <- callee_sv ;;
  let check :=
    checkApplyExpr callee (List.length inputs) (List.length attributes) in
  match sv with
  | AnnotateValue =>
      check ;;
      match inputs with
      | [(type_expr, _); (_, value_expr)] =>
          type <- parseTypeFromExpr type_expr ;;
          e <- valueOf (value_expr (Some type)) ;;
          expr <- tryConvertToType E type e true ;;
          if negb (isSubtypeOf E (v_type expr) type) then
            throw (AnnotateTypeMismatch type (v_type expr))
          else ret (SimpleValue expr)
      | _ => throw (External "std::out_of_range")
      end
  | GetAttrValue =>
      check ;;
      match inputs with
      | [(_, obj_expr); (selector, _)] =>
          obj <- obj_expr None ;;
          match selector with
          | StringLiteral name => attr obj name
          | _ => throw GetattrNotLiteral
          end
      | _ => throw (External "std::out_of_range")
      end
  | IsInstanceValue =>
      check ;;
      match inputs with
      | [(_, obj); (classinfo, _)] =>
          is_instance_val <- isInstanceCheck_of (valueOf (obj None)) classinfo ;;
          c <- insertConstant (IVBool is_instance_val) ;;
          ret (SimpleValue c)
      | _ => throw (External "std::out_of_range")
      end
  | _ =>
      inputs <- getNamedValues_of (map (fun a => valueOf (snd a None)) inputs) ;;
      attributes <- emitAttributes_of attributes ;;
      call sv inputs attributes n_binders
  end.

Definition emitBinOp_of (kind : Symbol) (inputs : list (M Value)) : M Value :=
  named_values <- getNamedValues_of inputs ;;
  emitBuiltinCall_required E kind None named_values [].

Definition emitListLiteral_of (type_hint : option TypePtr)
    (inputs : list (M Value)) : M Value :=
  values <- getValues_of inputs ;;
  emitListLiteral type_hint values.

Definition emitTupleLiteral_of (inputs : list (M Value)) : M Value :=
  values <- getValues_of inputs ;;
  createTuple values.

(** any expression that can produce a SugaredValue is handled here;
    expressions that only return a single Value are handled in
    [emitSimpleExpr] *)
Fixpoint emitSugaredExpr (tree : Expr) (n_binders : nat)
    (type_hint : option TypePtr) {struct tree} : M SugaredValue :=
  match tree with
  | Var name => env_getSugaredVar E name
  | Select value selector =>
      sv <- emitSugaredExpr value 1 None ;;
      attr sv selector
  | Apply callee inputs attributes =>
      emitApplyExpr_of callee (emitSugaredExpr callee 1 None)
        (map (fun e => (e, emitSugaredExpr e 1)) inputs)
        (map (fun a => (fst a, valueOf (emitSugaredExpr (snd a) 1 None)))
             attributes)
        n_binders
  | BinOp kind lhs rhs =>
      simple (emitBinOp_of (getNodeKind kind)
                [valueOf (emitSugaredExpr lhs 1 None);
                 valueOf (emitSugaredExpr rhs 1 None)])
  | NotOp operand =>
      simple (emitBinOp_of "aten::__not__"
                [valueOf (emitSugaredExpr operand 1 None)])
  | AndOp lhs rhs =>
      simple (emitShortCircuitIf_of (valueOf (emitSugaredExpr lhs 1 None))
                (valueOf (emitSugaredExpr rhs 1 None)) false)
  | OrOp lhs rhs =>
      simple (emitShortCircuitIf_of (valueOf (emitSugaredExpr lhs 1 None))
                (valueOf (emitSugaredExpr rhs 1 None)) true)
  | Const value => simple (materializeConstant value)
  | TrueLit => simple (insertConstant (IVBool true))
  | FalseLit => simple (insertConstant (IVBool false))
  | NoneLit => simple (insertConstant IVNone)
  | Subscript value subscript_exprs =>
      simple (emitSubscript_of (valueOf (emitSugaredExpr value 1 None))
        (map (fun e =>
                match e with
                | SliceExpr start end_ =>
                    SliceArg
                      match start with
                      | Some s => Some (valueOf (emitSugaredExpr s 1 None))
                      | None => None
                      end
                      match end_ with
                      | Some s => Some (valueOf (emitSugaredExpr s 1 None))
                      | None => None
                      end
                | _ => IndexArg (valueOf (emitSugaredExpr e 1 None))
                end) subscript_exprs))
  | TernaryIf cond true_expr false_expr =>
      simple (emitTernaryIf_of (valueOf (emitSugaredExpr cond 1 None))
                (valueOf (emitSugaredExpr true_expr 1 None))
                (valueOf (emitSugaredExpr false_expr 1 None)))
  | StringLiteral text => simple (insertConstant (IVString text))
  | ListLiteral inputs =>
      simple (emitListLiteral_of type_hint
                (map (fun e => valueOf (emitSugaredExpr e 1 None)) inputs))
  | TupleLiteral inputs =>
      simple (emitTupleLiteral_of
                (map (fun e => valueOf (emitSugaredExpr e 1 None)) inputs))
  | SliceExpr _ _ => simple (throw (External "NYI"))
  end.

Definition emitExpr (tree : Expr) (type_hint : option TypePtr) : M Value :=
  valueOf (emitSugaredExpr tree 1 type_hint).

Definition emitCond (cond : Expr) : M Value :=
  emitCond_of (emitExpr cond None).

Definition emitTernaryIf (cond true_expr false_expr : Expr) : M Value :=
  cond_value <- emitCond cond ;;
  emitIfExpr cond_value (emitExpr true_expr None) (emitExpr false_expr None).

Definition emitShortCircuitIf (first_expr second_expr : Expr) (is_or : bool)
    : M Value :=
  emitShortCircuitIf_of (emitExpr first_expr None) (emitExpr second_expr None)
                        is_or.

Definition getNamedValues (trees : list Expr) : M (list NamedValue) :=
  getNamedValues_of (map (fun e => emitExpr e None) trees).

Definition getValues (trees : list Expr) : M (list Value) :=
  getValues_of (map (fun e => emitExpr e None) trees).

Definition emitAttributes (attributes : list (string * Expr))
    : M (list NamedValue) :=
  emitAttributes_of (map (fun a => (fst a, emitExpr (snd a) None)) attributes).

Definition subscript_arg (e : Expr) : SubscriptArg :=
  match e with
  | SliceExpr start end_ =>
      SliceArg
        match start with Some s => Some (emitExpr s None) | None => None end
        match end_ with Some s => Some (emitExpr s None) | None => None end
  | _ => IndexArg (emitExpr e None)
  end.

Definition emitSubscript (value : Expr) (subscript_exprs : list Expr)
    : M Value :=
  emitSubscript_of (emitExpr value None) (map subscript_arg subscript_exprs).

Definition emitApplyExpr (callee : Expr) (inputs : list Expr)
    (attributes : list (string * Expr)) (n_binders : nat) : M SugaredValue :=
  emitApplyExpr_of callee (emitSugaredExpr callee 1 None)
    (map (fun e => (e, emitSugaredExpr e 1)) inputs)
    (map (fun a => (fst a, emitExpr (snd a) None)) attributes)
    n_binders.

Definition emitSimpleExpr (tree : Expr) (type_hint : option TypePtr)
    : M Value :=
  match tree with
  | BinOp kind lhs rhs =>
      named_values <- getNamedValues [lhs; rhs] ;;
      emitBuiltinCall_required E (getNodeKind kind) None named_values []
  | NotOp operand =>
      named_values <- getNamedValues [operand] ;;
      emitBuiltinCall_required E "aten::__not__" None named_values []
  | AndOp lhs rhs => emitShortCircuitIf lhs rhs false
  | OrOp lhs rhs => emitShortCircuitIf lhs rhs true
  | Const value => materializeConstant value
  | TrueLit => insertConstant (IVBool true)
  | FalseLit => insertConstant (IVBool false)
  | NoneLit => insertConstant IVNone
  | Subscript value subscript_exprs => emitSubscript value subscript_exprs
  | TernaryIf cond true_expr false_expr =>
      emitTernaryIf cond true_expr false_expr
  | StringLiteral text => insertConstant (IVString text)
  | ListLiteral inputs =>
      values <- getValues inputs ;;
      emitListLiteral type_hint values
  | TupleLiteral inputs =>
      values <- getValues inputs ;;
      createTuple values
  | _ => throw (External "NYI")
  end.

End Expressions.

(** ** The statement emitter *)

(** [v->replaceAllUsesWith(orig)]: every use of the value [old] becomes a use
    of [new]. *)
Fixpoint subst_value (old : nat) (new : Value) (v : Value) {struct v} : Value :=
  match v with
  | mkValue i t k b ins c =>
      if Nat.eqb i old then new
      else mkValue i t k b (map (subst_value old new) ins) c
  end.

Fixpoint subst_node (old : nat) (new : Value) (n : Node) {struct n} : Node :=
  match n with
  | mkNode k ins outs blocks attrs =>
      mkNode k (map (subst_value old new) ins) (map (subst_value old new) outs)
        (map (fun b =>
                match b with
                | mkBlock bi bn bo =>
                    mkBlock bi (map (subst_node old new) bn)
                            (map (subst_value old new) bo)
                end) blocks)
        attrs
  end.

Fixpoint remove_nth {A} (i : nat) (l : list A) : list A :=
  match i, l with
  | _, [] => []
  | 0, _ :: l' => l'
  | S i', x :: l' => x :: remove_nth i' l'
  end.

(** [std::set<std::string>::insert] *)
Fixpoint set_insert (x : string) (s : list string) : list string :=
  match s with
  | [] => [x]
  | y :: s' =>
      match String_as_OT.compare x y with
      | Lt => x :: s
      | Eq => s
      | Gt => y :: set_insert x s'
      end
  end.

Definition int64_max : Z := 9223372036854775807%Z.

Record Def : Type := {
  def_name : string;
  def_params : list string;       (* the names of [def.decl().params()] *)
  def_schema : FunctionSchema;    (* what [extractSchemaFromDef] returns *)
  def_statements : list Stmt
}.

Section Statements.

Variable E : Externals.

(** The iteration order of [value_table]. *)
Variable order : list string -> list string.

Definition ensureInt (v : Value) : M Value :=
  if negb (isSubtypeOf E (v_type v) IntType_get) then
    throw (ExpectedInt (v_type v))
  else ret v.

(** *** if/else *)

Definition emitSingleIfBranch (b : nat) (branch : M unit)
    : M (Frame * list Node) :=
  pushFrame b (Some "prim::If") [] ;;
  '(_, nodes) <- at_block b branch ;;
  save <- popFrame ;;
  ret (save, nodes).

(** The names defined in both branches, as the ordered set the compiler
    builds from the two unordered tables. *)
Definition mutated_variables (save_true save_false : Frame)
    (next : list Frame) : list string :=
  let s :=
    fold_left (fun s v =>
                 match findInAnyFrame v (save_false :: next) with
                 | Some _ => set_insert v s
                 | None => s
                 end)
              (definedVariables order save_true) [] in
  fold_left (fun s v =>
               match findInAnyFrame v (save_true :: next) with
               | Some _ => set_insert v s
               | None => s
               end)
            (definedVariables order save_false) s.

(** The variables of the loop that registers the outputs of the two blocks. *)
Record Branches : Type := {
  save_true : Frame;
  save_false : Frame;
  true_outputs : list Value;
  false_outputs : list Value;
  if_outputs : list Value
}.

(** One iteration of the loop over [mutated_variables]. *)
Definition reconcile (cond_value : Value) (x : string) (br : Branches)
    : M Branches :=
  '(tv, save_true') <- on_saved (save_true br) (getVar E x) ;;
  '(fv, save_false') <- on_saved (save_false br) (getVar E x) ;;
  match unifyTypes E (v_type tv) (v_type fv) with
  | None =>
      let error := BranchTypeMismatch x (v_type tv) (v_type fv) in
      st <- get ;;
      match or_else (findInParentFrame x (save_true' :: environment_stack st))
                    (findInParentFrame x (save_false' :: environment_stack st))
      with
      | Some _ => throw error
      | None =>
          (* error gets saved in the lowest environment because all
             variables are scoped to the function *)
          '(_, save_true'') <-
            on_saved save_true'
              (fun env => ret (tt, setVariableTypeError x error env)) ;;
          ret {| save_true := save_true''; save_false := save_false';
                 true_outputs := true_outputs br;
                 false_outputs := false_outputs br;
                 if_outputs := if_outputs br |}
      end
  | Some unified =>
      out <- new_value unified "prim::If" [cond_value] None ;;
      env_setVar E x out ;;
      ret {| save_true := save_true'; save_false := save_false';
             true_outputs := true_outputs br ++ [tv];
             false_outputs := false_outputs br ++ [fv];
             if_outputs := if_outputs br ++ [out] |}
  end.

Fixpoint reconcile_all (cond_value : Value) (xs : list string) (br : Branches)
    : M Branches :=
  match xs with
  | [] => ret br
  | x :: xs' =>
      br' <- reconcile cond_value x br ;;
      reconcile_all cond_value xs' br'
  end.

Definition emitIfElseBlocks (cond_value : Value) (trueBranch falseBranch : M unit)
    : M unit :=
  true_block <- addBlock ;;
  false_block <- addBlock ;;
  (* Emit both blocks once to get the union of all mutated values *)
  '(save_true, true_nodes) <- emitSingleIfBranch true_block trueBranch ;;
  '(save_false, false_nodes) <- emitSingleIfBranch false_block falseBranch ;;
  st <- get ;;
  let mutated := mutated_variables save_true save_false (environment_stack st) in
  (* Register outputs in each block *)
  br <- reconcile_all cond_value mutated
          {| save_true := save_true; save_false := save_false;
             true_outputs := []; false_outputs := []; if_outputs := [] |} ;;
  insertNode (mkNode "prim::If" [cond_value] (if_outputs br)
                [mkBlock [] true_nodes (true_outputs br);
                 mkBlock [] false_nodes (false_outputs br)] []).

(** [emitIf]: for [is] / [is not] conditions the branches are selected at
    compile time when the none-ness of both operands is known. *)
Definition emitIf (cond : Expr) (trueBranch falseBranch : M unit) : M unit :=
  let meta (is_ : bool) (kind : BinKind) (lhs rhs : Expr) : M unit :=
    lhs_val <- emitSugaredExpr E lhs 1 None ;;
    rhs_val <- emitSugaredExpr E rhs 1 None ;;
    let always_none_branch := if is_ then trueBranch else falseBranch in
    let never_none_branch := if is_ then falseBranch else trueBranch in
    match isNone lhs_val, isNone rhs_val with
    | ALWAYS, ALWAYS =>
        (* None is/is not None: only emit the always_none_branch *)
        always_none_branch
    | ALWAYS, NEVER | NEVER, ALWAYS =>
        (* only emit never_none_branch *)
        never_none_branch
    | _, _ =>
        (* emit the whole If stmt as usual, finish emitCond first *)
        l <- asValue lhs_val ;;
        r <- asValue rhs_val ;;
        cond_value <- emitBuiltinCall_required E (getNodeKind kind) None
                        [positional l; positional r] [] ;;
        emitIfElseBlocks cond_value trueBranch falseBranch
    end in
  match cond with
  | BinOp K_Is lhs rhs => meta true K_Is lhs rhs
  | BinOp K_IsNot lhs rhs => meta false K_IsNot lhs rhs
  | _ =>
      (* emit normal IF stmt for cases except TK_IS and TK_ISNOT *)
      cond_value <- emitCond E cond ;;
      emitIfElseBlocks cond_value trueBranch falseBranch
  end.

(** *** Loops *)

(** The body block of a loop while it is being closed: the frame (with the
    block inputs and the captured names), the nodes and the outputs. *)
Record LoopBody : Type := {
  body_frame : Frame;
  body_nodes : list Node;
  body_outputs : list Value
}.

Definition set_loop_io (captured : list string) (inputs : list Value)
    (f : Frame) : Frame :=
  {| value_table := value_table f; captured_inputs := captured;
     error_messages := error_messages f; f_block := f_block f;
     f_owning_kind := f_owning_kind f; f_inputs := inputs |}.

(** The loop of [deleteExtraInputs], from slot [i] down to slot 1. *)
Fixpoint deleteExtraInputs_from (i : nat) (lb : LoopBody) : M LoopBody :=
  match i with
  | 0 => ret lb
  | S i' =>
      let this := body_frame lb in
      match nth_error (f_inputs this) i, nth_error (body_outputs lb) i with
      | Some input, Some output =>
          (* nothing changed along this loop *)
          if value_eqb input output then
            match nth_error (captured_inputs this) i' with
            | Some name =>
                st <- get ;;
                match findInParentFrame name (this :: environment_stack st) with
                | Some sv =>
                    orig <- asValue sv ;;
                    deleteExtraInputs_from i'
                      {| body_frame :=
                           set_loop_io (remove_nth i' (captured_inputs this))
                                       (remove_nth i (f_inputs this)) this;
                         body_nodes :=
                           map (subst_node (v_id input) orig) (body_nodes lb);
                         body_outputs :=
                           remove_nth i
                             (map (subst_value (v_id input) orig)
                                  (body_outputs lb)) |}
                | None => throw (External "null pointer")
                end
            | None => throw (External "std::out_of_range")
            end
          else deleteExtraInputs_from i' lb
      | _, _ => throw (External "std::out_of_range")
      end
  end.

Definition deleteExtraInputs (lb : LoopBody) : M LoopBody :=
  let this := body_frame lb in
  if negb (Nat.eqb (List.length (f_inputs this)) (List.length (body_outputs lb)))
     || negb (Nat.eqb (List.length (f_inputs this))
                      (List.length (captured_inputs this) + 1))
  then throw (External "JIT_ASSERT")
  else deleteExtraInputs_from (List.length (f_inputs this) - 1) lb.

(** The variables of the loop registering the node inputs and outputs of the
    true loop-carried dependencies. *)
Fixpoint register_carried (xs : list string) (block_inputs : list Value)
    : M (list Value * list Value) :=
  match xs, block_inputs with
  | [], _ => ret ([], [])
  | x :: xs', input :: block_inputs' =>
      outer <- env_getVar E x ;;
      out <- new_value (v_type input) "prim::Loop" [] None ;;
      env_setVar E x out ;;
      '(ins, outs) <- register_carried xs' block_inputs' ;;
      ret (outer :: ins, out :: outs)
  | _ :: _, [] => throw (External "std::out_of_range")
  end.

Definition emitLoopCommon (max_trip_count cond : option Expr) (body : M unit)
    (itr_ident : option string) : M unit :=
  max_trip_count_val <-
    match max_trip_count with
    | Some e => v <- emitExpr E e None ;; ensureInt v
    | None => materializeConstant int64_max
    end ;;
  cond_val <-
    match cond with
    | Some c => emitCond E c
    | None => insertConstant (IVBool true)
    end ;;
  body_block <- addBlock ;;
  i <- fresh ;;
  let trip_count := mkValue i IntType_get "prim::Param" body_block [] None in
  pushFrame body_block (Some "prim::Loop") [trip_count] ;;
  match itr_ident with
  | Some name => env_setVar E name trip_count
  | None => ret tt
  end ;;
  '(carried, lb) <-
    at_block body_block
      (body ;;
       (* Also emit the conditional *)
       body_cond_value <-
         match cond with
         | Some c => emitCond E c
         | None => insertConstant (IVBool true)
         end ;;
       body_frame <- popFrame ;;
       (* Add block outputs to correspond to each captured input *)
       fvs <- mapM (fun x => getValueInThisFrame x body_frame)
                   (captured_inputs body_frame) ;;
       ret (body_frame, body_cond_value :: fvs)) ;;
  let '(frame, outputs) := carried in
  (* Remove inputs for values that did not mutate within the block *)
  closed <- deleteExtraInputs {| body_frame := frame; body_nodes := lb;
                                 body_outputs := outputs |} ;;
  (* register node inputs/outputs for the true loop carried deps *)
  '(ins, outs) <-
    register_carried (captured_inputs (body_frame closed))
                     (tl (f_inputs (body_frame closed))) ;;
  insertNode (mkNode "prim::Loop" (max_trip_count_val :: cond_val :: ins) outs
                [mkBlock (f_inputs (body_frame closed)) (body_nodes closed)
                         (body_outputs closed)] []).

Definition emitForRange (target : string) (args : list Expr) (body : M unit)
    : M unit :=
  match args with
  | [arg] => emitLoopCommon (Some arg) None body (Some target)
  | _ => throw (RangeArity (List.length args))
  end.

Definition emitWhile (cond : Expr) (body : M unit) : M unit :=
  emitLoopCommon None (Some cond) body None.

(** *** Raise, assert, assignment *)

Definition emitRaise : M unit :=
  string_input <- insertConstant (IVString "Exception") ;;
  _ <- graph_insert E "prim::RaiseException" [positional string_input] [] ;;
  ret tt.

Definition emitAssert (test : Expr) : M unit :=
  cond_value <- emitCond E test ;;
  true_block <- addBlock ;;
  false_block <- addBlock ;;
  (* if assert test is false throw exception *)
  pushFrame false_block (Some "prim::If") [] ;;
  '(_, false_nodes) <- at_block false_block emitRaise ;;
  _ <- popFrame ;;
  insertNode (mkNode "prim::If" [cond_value] []
                [mkBlock [] [] []; mkBlock [] false_nodes []] []).

(** Assignment to a plain name. *)
Definition emitAssignment (name : string) (rhs : Expr) : M unit :=
  sv <- emitSugaredExpr E rhs 1 None ;;
  env_setSugaredVar E name sv.

(** Get the appropriate builtin op for this augmented assignment *)
Definition getAugOp (aug_op : BinKind) (isTensor : bool) : M Symbol :=
  match aug_op with
  | K_Add => ret (if isTensor then "aten::add_" else "aten::add")
  | K_Sub => ret (if isTensor then "aten::sub_" else "aten::sub")
  | K_Div => ret (if isTensor then "aten::div_" else "aten::div")
  | K_Mul => ret (if isTensor then "aten::mul_" else "aten::mul")
  | _ => throw (UnknownAugOp (getNodeKind aug_op))
  end.

Definition emitAugAssignmentToVar (lhs : string) (aug_op : BinKind) (rhs : Expr)
    : M unit :=
  lhsValue <- env_getVar E lhs ;;
  if isSubtypeOf E (v_type lhsValue) DynamicType_get then
    (* for tensors, emit the corresponding in-place op *)
    r <- emitExpr E rhs None ;;
    op <- getAugOp aug_op true ;;
    output <- emitBuiltinCall_required E op (Some (named "self" lhsValue))
                [positional r] [] ;;
    env_setVar E lhs output
  else
    (* for primitive types, desugar into a simple assignment
       e.g. foo += 1 becomes foo.2 = foo + 1 *)
    v <- emitExpr E (BinOp aug_op (Var lhs) rhs) None ;;
    env_setVar E lhs v.

Definition addInput (name : option string) (ty : TypePtr) : M Value :=
  i <- fresh ;;
  let v := mkValue i ty "prim::Param" root_block [] None in
  modify (fun st => set_inputs (st_inputs st ++ [v]) st) ;;
  match name with
  | Some n => setUniqueName v n
  | None => ret tt
  end ;;
  ret v.

Definition emitGlobal (names : list string) : M unit :=
  forM_ names (fun name =>
    v <- addInput (Some name) DynamicType_get ;;
    env_setVar E name v).

(** *** Statements *)

Fixpoint emitStatement (stmt : Stmt) {struct stmt} : M unit :=
  let emitStatements :=
    fix emitStatements (l : list Stmt) : M unit :=
      match l with
      | [] => ret tt
      | s :: l' => emitStatement s ;; emitStatements l'
      end in
  match stmt with
  | If cond trueBranch falseBranch =>
      emitIf cond (emitStatements trueBranch) (emitStatements falseBranch)
  | While cond body => emitWhile cond (emitStatements body)
  | ForRange target args body => emitForRange target args (emitStatements body)
  | Assign name rhs => emitAssignment name rhs
  | AugAssign lhs aug_op rhs => emitAugAssignmentToVar lhs aug_op rhs
  | Global names => emitGlobal names
  | ExprStmt expr => _ <- emitSugaredExpr E expr 0 None ;; ret tt
  | Raise => emitRaise
  | Assert test => emitAssert test
  | Return _ => throw ReturnNotAtEnd
  | Pass => ret tt
  end.

Fixpoint emitStatements (statements : list Stmt) : M unit :=
  match statements with
  | [] => ret tt
  | stmt :: rest => emitStatement stmt ;; emitStatements rest
  end.

(** *** The function body *)

(** [a - b] on two [size_t]: 64 bits, and it wraps around. *)
Definition size_t_sub (a b : Z) : Z := ((a - b) mod 2 ^ 64)%Z.

(** [v.size()] of a vector, a [size_t]. *)
Definition size {A} (v : list A) : Z := Z.of_nat (List.length v).

Definition emitFormalArguments (def : Def) (self : option SugaredValue)
    : M (list Argument) :=
  let schema := def_schema def in
  let expected_annotation_size :=
    match self with
    | Some _ => size_t_sub (size (def_params def)) 1
    | None => size (def_params def)
    end in
  if negb (Z.eqb (size (arguments schema)) expected_annotation_size)
  then throw (AnnotationCount (size (arguments schema))
                              expected_annotation_size)
  else
    params <-
      match self, def_params def with
      | Some self, first :: rest =>
          env_setSugaredVar E first self ;; ret rest
      | Some _, [] => throw (External "JIT_ASSERT")
      | None, params => ret params
      end ;;
    forM_ (combine params (arguments schema)) (fun p =>
      let '(name, argument) := p in
      (* Add the input to the graph *)
      new_input <- addInput (if meaningfulName name then Some name else None)
                            (arg_type argument) ;;
      env_setVar E name new_input) ;;
    ret (arguments schema).

Definition registerOutput (v : Value) : M unit :=
  modify (fun st => set_outputs (st_outputs st ++ [v]) st).

Definition emitReturn (return_stmt : option Expr) (schema : FunctionSchema)
    : M Argument :=
  if Nat.ltb 1 (List.length (returns schema)) then throw (External "JIT_ASSERT")
  else
    (* outputs *)
    result <- match return_stmt with
              | Some e => emitExpr E e None
              | None => insertConstant IVNone
              end ;;
    let result_type :=
      match returns schema with
      | r :: _ => arg_type r
      | [] => v_type result
      end in
    result <- match return_stmt with
              | Some _ => tryConvertToType E result_type result true
              | None => ret result
              end ;;
    if negb (isSubtypeOf E (v_type result) result_type) then
      throw (ReturnTypeMismatch result_type (v_type result))
    else
      registerOutput result ;;
      ret {| arg_name := ""; arg_type := result_type; arg_N := None;
             default_value := None; kwarg_only := false |}.

(** The statements before a trailing [return], and its expression. *)
Definition split_return (stmts : list Stmt) : list Stmt * option Expr :=
  match rev stmts with
  | Return e :: before => (rev before, Some e)
  | _ => (stmts, None)
  end.

Definition initial_state : CState :=
  {| st_fresh := first_fresh; st_block := root_block; st_nodes := [];
     st_front := []; st_inputs := []; st_outputs := []; st_names := [];
     integral_constants := []; environment_stack := [] |}.

Definition graph_of (st : CState) : Graph :=
  {| g_inputs := st_inputs st;
     g_nodes := st_front st ++ st_nodes st;
     g_outputs := st_outputs st |}.

(** The constructor of [to_ir]: the body of a method. *)
Definition to_ir_body (def : Def) (self : option SugaredValue)
    : M FunctionSchema :=
  pushFrame root_block None [] ;;
  (* Type annotations exclude explicitly typing the "self" parameter *)
  match self, def_params def with
  | Some _, [] => throw MethodsNeedSelf
  | _, _ => ret tt
  end ;;
  let schema := def_schema def in
  arguments <- emitFormalArguments def self ;;
  (* body *)
  let '(stmts, return_stmt) := split_return (def_statements def) in
  emitStatements stmts ;;
  ret_arg <- emitReturn return_stmt schema ;;
  ret {| schema_name := def_name def; arguments := arguments;
         returns := [ret_arg]; is_vararg := false |}.

Definition to_ir (def : Def) (self : option SugaredValue)
    : ErrorReport + (Graph * FunctionSchema) :=
  match to_ir_body def self initial_state with
  | Ok schema st =>
      (* remove any uses of tuples that we inserted that are not needed *)
      inr (ConstantPooling E (LowerSimpleTuples E (graph_of st)), schema)
  | Err e => inl e
  end.

End Statements.

(** ** A small host

    An instance of [Externals] to run the compiler on: a type lattice with
    optional, number and tensor subtyping, and a registry with a few
    operators.  The statements proved for every [Externals] are exercised on
    it. *)

Module Sample.

Definition is_none_type (t : TypePtr) : bool :=
  match deref t with NoneType => true | _ => false end.

Definition subtype (a b : TypePtr) : bool :=
  type_eqb a b
  || match deref b with
     | OptionalType e => type_eqb a e || is_none_type a
     | NumberType =>
         match deref a with IntType | FloatType => true | _ => false end
     | DynamicType =>
         match deref a with CompleteTensorType _ => true | _ => false end
     | _ => false
     end.

Definition unshaped (t : TypePtr) : TypePtr :=
  match deref t with
  | CompleteTensorType _ => DynamicType_get
  | _ => t
  end.

Definition unify (t1 t2 : TypePtr) : option TypePtr :=
  if subtype t1 t2 then Some t2
  else if subtype t2 t1 then Some t1
  else None.

Definition match_vars (formal actual : TypePtr) (type_env : TypeEnv)
    : option TypePtr * TypeEnv :=
  match deref formal with
  | VarType n =>
      match lookup n type_env with
      | Some bound => (Some bound, type_env)
      | None => (Some actual, insert n actual type_env)
      end
  | _ => (Some formal, type_env)
  end.

Definition eval_vars (t : TypePtr) (type_env : TypeEnv) : TypePtr :=
  match deref t with
  | VarType n => match lookup n type_env with Some b => b | None => t end
  | _ => t
  end.

Definition arg (name : string) (t : TypePtr) : Argument :=
  {| arg_name := name; arg_type := t; arg_N := None; default_value := None;
     kwarg_only := false |}.

Definition op (name : string) (params : list Argument) (result : TypePtr)
    : FunctionSchema :=
  {| schema_name := name; arguments := params; returns := [arg "" result];
     is_vararg := false |}.

Definition IntList : TypePtr := ListType_ofInts.
Definition T1 : TypePtr := TPtr 11 (VarType "t1").
Definition T2 : TypePtr := TPtr 12 (VarType "t2").

Definition operators (name : Symbol) : list FunctionSchema :=
  if String.eqb name "aten::add" then
    [ op "add.Tensor" [arg "self" DynamicType_get; arg "other" DynamicType_get]
         DynamicType_get;
      op "add.int" [arg "a" IntType_get; arg "b" IntType_get] IntType_get ]
  else if String.eqb name "aten::lt" then
    [ op "lt.int" [arg "a" IntType_get; arg "b" IntType_get] BoolType_get ]
  else if String.eqb name "aten::__is__" then
    [ op "__is__" [arg "self" T1; arg "obj" T2] BoolType_get ]
  else if String.eqb name "aten::__isnot__" then
    [ op "__isnot__" [arg "self" T1; arg "obj" T2] BoolType_get ]
  else if String.eqb name "aten::scale" then
    (* the overload that needs a conversion is registered first *)
    [ op "scale.Scalar" [arg "self" DynamicType_get; arg "k" NumberType_get]
         DynamicType_get;
      op "scale.Tensor" [arg "self" DynamicType_get; arg "k" DynamicType_get]
         DynamicType_get ]
  else if String.eqb name "aten::zeros" then
    [ op "zeros" [arg "size" IntList] DynamicType_get ]
  else if String.eqb name "aten::pool" then
    [ op "pool"
         [ {| arg_name := "kernel_size"; arg_type := IntList; arg_N := Some 3;
              default_value := None; kwarg_only := false |} ]
         DynamicType_get ]
  else [].

Definition insert_op (name : Symbol) (args kwargs : list NamedValue)
    : M Value :=
  inputs <- toValues (args ++ kwargs) ;;
  insert1 name inputs NoneType_get [] None.

Definition externals : Externals :=
  {| isSubtypeOf := subtype;
     unshapedType := unshaped;
     unifyTypes := unify;
     matchTypeVariables := match_vars;
     evalTypeVariables := eval_vars;
     getAllOperatorsFor := operators;
     getAllBuiltinFunctionsFor := fun _ => [];
     try_emit_call_to := fun _ _ _ _ _ => ret (None, []);
     graph_insert := insert_op;
     resolver := fun _ => None;
     opaque_call := fun kind _ _ _ => throw (External kind);
     opaque_attr := fun kind _ => throw (External kind);
     LowerSimpleTuples := fun g => g;
     ConstantPooling := fun g => g |}.

(** A graph input of the given type, for the examples. *)
Definition input (i : nat) (t : TypePtr) : Value :=
  mkValue i t "prim::Param" root_block [] None.

(** A function without parameters whose body is [body]. *)
Definition def_of (body : list Stmt) : Def :=
  {| def_name := "f"; def_params := [];
     def_schema := {| schema_name := "f"; arguments := []; returns := [];
                      is_vararg := false |};
     def_statements := body |}.

Definition compile (body : list Stmt)
    : ErrorReport + (Graph * FunctionSchema) :=
  to_ir externals (fun l => l) (def_of body) None.

(** An integer constant and a string constant of the root block. *)
Definition int_constant (i : nat) (z : Z) : Value :=
  mkValue i IntType_get "prim::Constant" root_block [] (Some (IVInt z)).

Definition string_constant (i : nat) (s : string) : Value :=
  mkValue i StringType_get "prim::Constant" root_block [] (Some (IVString s)).

(** A tuple of three integers. *)
Definition triple : Value :=
  input 20 (TPtr 21 (TupleType [IntType_get; IntType_get; IntType_get])).

(** The frame of block [b] with the given bindings; [b] is the root block or
    a block of a prim::If node. *)
Definition frame (b : nat) (bound : list (string * SugaredValue)) : Frame :=
  {| value_table := bound; captured_inputs := []; error_messages := [];
     f_block := b;
     f_owning_kind := if Nat.eqb b root_block then None else Some "prim::If";
     f_inputs := [] |}.

(** The state of a compilation whose environment is [env]. *)
Definition state_with (env : list Frame) : CState :=
  set_env env initial_state.

(** No argument bound yet. *)
Definition no_binding : Binding :=
  {| bd_self := None; bd_used_args := 0; bd_used_kwarg := [];
     bd_positional_inputs := []; bd_type_env := [] |}.

End Sample.

(** ** Vocabulary of the statements *)

(** A negative tuple index counts from the end. *)
Definition adjust_index (tuple_len index : Z) : Z :=
  if Z.ltb index 0 then (tuple_len + index)%Z else index.

(** A slice bound brought into [[0, tuple_len]]. *)
Definition clamp (tuple_len i : Z) : Z := Z.min (Z.max 0 i) tuple_len.

(** Type objects are shared, never overwritten: two pointers with the same
    address point to the same type. *)
Definition same_object_same_type (ps : list TypePtr) : Prop :=
  forall p q, In p ps -> In q ps -> addr_of p = addr_of q -> p = q.

(** The check of one element of a list literal. *)
Definition check_elem (elem_type : TypePtr) (v : Value) : M unit :=
  if negb (ptr_eqb (v_type v) elem_type)
  then throw (ListNotSingleType elem_type (v_type v))
  else ret tt.

(** Two states that differ at most in the identities handed out. *)
Definition only_fresh (st st' : CState) : Prop :=
  exists n, st' = set_fresh n st.

(** The two blocks of a conditional expression, emitted after the
    condition. *)
Definition ternary_blocks (E : Externals) (true_expr false_expr : Expr)
    : M (Block * Block) :=
  true_block <- addBlock ;;
  false_block <- addBlock ;;
  true_b <- emit_if_expr true_block (emitExpr E true_expr None) ;;
  false_b <- emit_if_expr false_block (emitExpr E false_expr None) ;;
  ret (true_b, false_b).

(** A computation that emits no node at the insertion point. *)
Definition keeps_nodes {A} (m : M A) : Prop :=
  forall st a st', m st = Ok a st' -> st_nodes st' = st_nodes st.

(** *** Overload resolution, as the specification words it

    The candidates of a name are its builtin overloads followed by its
    library functions, each set in registration order. *)
Inductive Candidate : Type :=
| Operator (schema : FunctionSchema)
| LibraryFunction (method : Method).

Definition candidates (E : Externals) (name : Symbol) : list Candidate :=
  map Operator (getAllOperatorsFor E name)
  ++ map LibraryFunction (getAllBuiltinFunctionsFor E name).

(** One candidate tried in a pass; a full match emits the call. *)
Definition attempt (E : Externals) (name : Symbol) (self : option NamedValue)
    (inputs attributes : list NamedValue) (allow_conversions : bool)
    (c : Candidate) (failure_messages : Failures)
    : M (option Value * Failures) :=
  match c with
  | Operator op =>
      '(matched_schema, failure_messages) <-
        tryMatchSchema E op self inputs attributes failure_messages
                       allow_conversions ;;
      match matched_schema with
      | Some matched => v <- emitBuiltinNode matched name ;;
                        ret (Some v, failure_messages)
      | None => ret (None, failure_messages)
      end
  | LibraryFunction method =>
      '(result, more) <-
        try_emit_call_to E method self inputs attributes allow_conversions ;;
      match result with
      | Some result => v <- packOutputs result ;;
                       ret (Some v, failure_messages ++ more)
      | None => ret (None, failure_messages ++ more)
      end
  end.

Section Resolution.

Variable E : Externals.
Variable name : Symbol.
Variable self : option NamedValue.
Variables inputs attributes : list NamedValue.

(** Every candidate of [cs], tried in order from [st], fails to match. *)
Inductive all_rejected (allow_conversions : bool)
    : list Candidate -> Failures -> CState -> Failures -> CState -> Prop :=
| rejected_nil fm st : all_rejected allow_conversions [] fm st fm st
| rejected_cons c cs fm st fm1 st1 fm2 st2 :
    attempt E name self inputs attributes allow_conversions c fm st
    = Ok (None, fm1) st1 ->
    all_rejected allow_conversions cs fm1 st1 fm2 st2 ->
    all_rejected allow_conversions (c :: cs) fm st fm2 st2.

(** The pass run from [st] selects a candidate: the ones registered before
    it are rejected and it matches in full, giving [v]. *)
Definition first_match (allow_conversions : bool) (st : CState) (v : Value)
    (st' : CState) : Prop :=
  exists pre c post fm1 st1 fm2,
    candidates E name = pre ++ c :: post
    /\ all_rejected allow_conversions pre [] st fm1 st1
    /\ attempt E name self inputs attributes allow_conversions c fm1 st1
       = Ok (Some v, fm2) st'.

(** The pass run from [st] matches no candidate of either set. *)
Definition no_match (allow_conversions : bool) (st st' : CState) : Prop :=
  exists fm, all_rejected allow_conversions (candidates E name) [] st fm st'.

(** The candidates of a list tried in order, the first full match winning. *)
Fixpoint try_candidates (allow_conversions : bool) (cs : list Candidate)
    (failure_messages : Failures) : M (option Value * Failures) :=
  match cs with
  | [] => ret (None, failure_messages)
  | c :: rest =>
      '(r, failure_messages) <-
        attempt E name self inputs attributes allow_conversions c
                failure_messages ;;
      match r with
      | Some v => ret (Some v, failure_messages)
      | None => try_candidates allow_conversions rest failure_messages
      end
  end.

End Resolution.

(** A statement in which the emitter is sure to meet a [return], whatever
    the state: the statement itself, or a branch of an [if] lowered in the
    general way, or the body of a loop.  Which branch of an [if] on [is] /
    [is not] is emitted depends on the operands: such an [if] is sure to
    meet a [return] when both branches are. *)
Fixpoint reaches_return (stmt : Stmt) : bool :=
  match stmt with
  | Return _ => true
  | If cond trueBranch falseBranch =>
      match cond with
      | BinOp K_Is _ _ | BinOp K_IsNot _ _ =>
          existsb reaches_return trueBranch
          && existsb reaches_return falseBranch
      | _ => existsb reaches_return trueBranch
             || existsb reaches_return falseBranch
      end
  | While _ body => existsb reaches_return body
  | ForRange _ _ body => existsb reaches_return body
  | _ => false
  end.

(** A computation that fails whatever the state. *)
Definition fails {A} (m : M A) : Prop :=
  forall st, exists e, m st = Err e.

(** The none constant. *)
Definition is_none_constant (v : Value) : Prop :=
  v_kind v = "prim::None" /\ v_type v = NoneType_get /\ v_inputs v = [].

(** An iteration order of an unordered table: the keys, each once, in some
    order. *)
Definition iteration_order (order : list string -> list string) : Prop :=
  forall l, Permutation (order l) l.

(** The loop that fills [mutated_variables] from one table. *)
Definition insert_defined (defined : string -> bool) (l s : list string)
    : list string :=
  fold_left (fun s v => if defined v then set_insert v s else s) l s.

(** A [return] somewhere in a statement, nested blocks included. *)
Fixpoint contains_return (stmt : Stmt) : bool :=
  match stmt with
  | Return _ => true
  | If _ trueBranch falseBranch =>
      existsb contains_return trueBranch || existsb contains_return falseBranch
  | While _ body => existsb contains_return body
  | ForRange _ _ body => existsb contains_return body
  | _ => false
  end.

(** Three integers passed by position. *)
Definition three_ints : list NamedValue :=
  [positional (Sample.input 100 IntType_get);
   positional (Sample.input 101 IntType_get);
   positional (Sample.input 102 IntType_get)].

(** The parameter [int[3] kernel_size]. *)
Definition kernel_size : Argument :=
  {| arg_name := "kernel_size"; arg_type := Sample.IntList; arg_N := Some 3;
     default_value := None; kwarg_only := false |}.

(** Two tensors passed by position. *)
Definition two_tensors : list NamedValue :=
  [positional (Sample.input 100 DynamicType_get);
   positional (Sample.input 101 DynamicType_get)].

(** The state at the start of a function body without parameters. *)
Definition at_entry : CState := Sample.state_with [Sample.frame 0 []].


(** ** Vocabulary of the properties of the scope stack *)

(** [a <= b] on names, as [!(a > b)]. *)
Definition name_le (a b : string) : Prop := string_gt a b = false.

(** The captured names of a loop frame are kept in alphabetical order. *)
Definition alphabetical (names : list string) : Prop := Sorted name_le names.

(** The block inputs of a loop frame: the trip count, then one input per
    captured name. *)
Definition inputs_aligned (this : Frame) : Prop :=
  List.length (f_inputs this) = S (List.length (captured_inputs this)).

(** Every interned integer constant is a [prim::Constant] of the root block
    holding the integer it is filed under. *)
Definition interned (st : CState) : Prop :=
  forall z v,
    find_constant z (integral_constants st) = Some v ->
    toIValue v = Some (IVInt z) /\ v_type v = IntType_get
    /\ v_block v = root_block.

(** The body block of a loop: as many outputs as inputs, the condition
    facing the trip count and one output per captured name. *)
Definition body_aligned (lb : LoopBody) : Prop :=
  List.length (f_inputs (body_frame lb)) = List.length (body_outputs lb)
  /\ inputs_aligned (body_frame lb).

(** No captured name was left as it came in: past the first slot, no output
    of the block is the input it faces. *)
Definition all_reassigned (lb : LoopBody) : Prop :=
  forall i input output,
    nth_error (f_inputs (body_frame lb)) (S i) = Some input ->
    nth_error (body_outputs lb) (S i) = Some output ->
    value_eqb input output = false.

(** The outputs of an if/else: the value of each variable in the true
    block, in the false block, and the output of the node that merges them,
    whose type is the unification of the two. *)
Inductive merged (E : Externals) (cond_value : Value)
    : list Value -> list Value -> list Value -> Prop :=
| merged_nil : merged E cond_value [] [] []
| merged_cons tv fv out ts fs outs :
    unifyTypes E (v_type tv) (v_type fv) = Some (v_type out) ->
    v_kind out = "prim::If" ->
    v_inputs out = [cond_value] ->
    merged E cond_value ts fs outs ->
    merged E cond_value (tv :: ts) (fv :: fs) (out :: outs).

(** The diagnostics written through [err()] while one schema is tried: each
    is filed under the schema. *)
Definition filed_under (err : string) (ds : list Diag) : Failures :=
  map (fun d => (err, d)) ds.

(** [x] is assigned in the branch whose frame is [branch] and is visible in
    the other branch, whose frame is [other]: there, or in an enclosing
    scope. *)
Definition assigned_and_visible (x : string) (branch other : Frame)
    (next : list Frame) : Prop :=
  findInThisFrame x branch <> None /\ findInAnyFrame x (other :: next) <> None.

(** A computation that leaves the graph inputs as they are. *)
Definition keeps_inputs {A} (m : M A) : Prop :=
  forall st a st', m st = Ok a st' -> st_inputs st' = st_inputs st.

(** The number of type annotations a definition must come with: one per
    parameter, [self] apart.  It is computed on [size_t], so that with
    [self] and no parameter at all it is 2^64 - 1. *)
Definition expected_annotation_size (def : Def) (self : option SugaredValue)
    : Z :=
  match self with
  | Some _ => size_t_sub (size (def_params def)) 1
  | None => size (def_params def)
  end.

(** The largest [size_t]. *)
Definition size_t_max : Z := 18446744073709551615%Z.

(** The newline character, and a text without one. *)
Definition newline : ascii := "010"%char.

Fixpoint one_line (s : string) : bool :=
  match s with
  | EmptyString => true
  | String c s' => negb (Ascii.eqb c newline) && one_line s'
  end.

(** The nodes the conversions that are always allowed may emit: tuples
    taken apart and rebuilt, lists built from tuples, and the typed forms of
    none. *)
Definition structural_kinds : list Symbol :=
  [ "prim::TupleUnpack"; "prim::ListConstruct"; "prim::TupleConstruct";
    "prim::NoneGenerator"; "prim::Undefined"; "prim::None" ].

(** A computation that does nothing to the current block but append nodes
    of the given kinds. *)
Definition appends (kinds : list Symbol) {A} (m : M A) : Prop :=
  forall st a st',
    m st = Ok a st' ->
    exists new,
      st_nodes st' = st_nodes st ++ new
      /\ Forall (fun n => In (n_kind n) kinds) new.

(** The keyword arguments marked as used name parameters of [params]: each
    marked slot is the one [findInputWithName] gives for a parameter. *)
Definition marks_name_parameters (params : list Argument)
    (kwargs : list NamedValue) (used : list bool) : Prop :=
  List.length used = List.length kwargs
  /\ forall i, nth i used false = true ->
       exists a, In a params /\ findInputWithName (arg_name a) kwargs = Some i.

(** ** Vocabulary of the properties of type expressions *)

(** The type annotations: a name, [List], [Optional] or [Future] of an
    annotation, or [Tuple] of any number of annotations. *)
Inductive Annotation : Type :=
| ABase (name : string)
| AList (elem : Annotation)
| AOptional (elem : Annotation)
| AFuture (elem : Annotation)
| ATuple (elems : list Annotation).

Section AnnotationInduction.

Variable P : Annotation -> Prop.
Hypothesis P_base : forall name, P (ABase name).
Hypothesis P_list : forall elem, P elem -> P (AList elem).
Hypothesis P_optional : forall elem, P elem -> P (AOptional elem).
Hypothesis P_future : forall elem, P elem -> P (AFuture elem).
Hypothesis P_tuple : forall elems, Forall P elems -> P (ATuple elems).

Fixpoint Annotation_nested_ind (a : Annotation) : P a :=
  match a with
  | ABase name => P_base name
  | AList elem => P_list elem (Annotation_nested_ind elem)
  | AOptional elem => P_optional elem (Annotation_nested_ind elem)
  | AFuture elem => P_future elem (Annotation_nested_ind elem)
  | ATuple elems =>
      P_tuple elems
        ((fix all (l : list Annotation) : Forall P l :=
            match l with
            | [] => Forall_nil P
            | x :: l' => Forall_cons x (Annotation_nested_ind x) (all l')
            end) elems)
  end.

End AnnotationInduction.

(** The expression that writes an annotation. *)
Fixpoint annotation_expr (a : Annotation) : Expr :=
  match a with
  | ABase name => Var name
  | AList elem => Subscript (Var "List") [annotation_expr elem]
  | AOptional elem => Subscript (Var "Optional") [annotation_expr elem]
  | AFuture elem => Subscript (Var "Future") [annotation_expr elem]
  | ATuple elems => Subscript (Var "Tuple") (map annotation_expr elems)
  end.

(** [t] is the type an annotation stands for: the type of the table for a
    name, and the list, optional, future or tuple type of the types of the
    parts, at whatever address. *)
Inductive denotes : Annotation -> TypePtr -> Prop :=
| denotes_base name t :
    lookup name ident_to_type_lut = Some t -> denotes (ABase name) t
| denotes_list elem t a :
    denotes elem t -> denotes (AList elem) (TPtr a (ListType t))
| denotes_optional elem t a :
    denotes elem t -> denotes (AOptional elem) (TPtr a (OptionalType t))
| denotes_future elem t a :
    denotes elem t -> denotes (AFuture elem) (TPtr a (FutureType t))
| denotes_tuple elems ts a :
    Forall2 denotes elems ts -> denotes (ATuple elems) (TPtr a (TupleType ts)).

(** Every name of an annotation is in the table of type names. *)
Fixpoint known_names (a : Annotation) : bool :=
  match a with
  | ABase name =>
      match lookup name ident_to_type_lut with Some _ => true | None => false end
  | AList elem | AOptional elem | AFuture elem => known_names elem
  | ATuple elems => forallb known_names elems
  end.

(** ** Inputs of the further examples *)

(** An input of block [b]. *)
Definition block_input (b i : nat) (t : TypePtr) : Value :=
  mkValue i t "prim::Param" b [] None.

(** The frame of the body of a loop (block 1) that has captured [a] and [c],
    two integers. *)
Definition loop_frame : Frame :=
  {| value_table := [("a", SimpleValue (block_input 1 51 IntType_get));
                     ("c", SimpleValue (block_input 1 52 IntType_get))];
     captured_inputs := ["a"; "c"]; error_messages := [];
     f_block := 1; f_owning_kind := Some "prim::Loop";
     f_inputs := [block_input 1 50 IntType_get; block_input 1 51 IntType_get;
                  block_input 1 52 IntType_get] |}.

(** The frame of a function in which [a] and [c] are integers. *)
Definition function_frame : Frame :=
  Sample.frame 0 [("a", SimpleValue (Sample.input 100 IntType_get));
                  ("c", SimpleValue (Sample.input 102 IntType_get))].

(** The state at the start of the body of a loop in that function. *)
Definition in_loop_body : CState :=
  Sample.state_with
    [new_frame 1 (Some "prim::Loop") [block_input 1 50 IntType_get];
     function_frame].

(** The state at the start of the body of that function. *)
Definition in_function : CState := Sample.state_with [function_frame].

(** The body of a loop that captured [a] and [c] and assigned [a] only. *)
Definition assigns_a : LoopBody :=
  {| body_frame := loop_frame; body_nodes := [];
     body_outputs := [Sample.input 60 BoolType_get;
                      block_input 1 61 IntType_get;
                      block_input 1 52 IntType_get] |}.

(** Two integers passed by position. *)
Definition two_ints : list NamedValue :=
  [positional (Sample.input 100 IntType_get);
   positional (Sample.input 101 IntType_get)].

(** Two strings passed by position. *)
Definition two_strings : list NamedValue :=
  [positional (Sample.string_constant 100 "s");
   positional (Sample.string_constant 101 "t")].

(** The overload of [add] on integers. *)
Definition add_int : FunctionSchema :=
  Sample.op "add.int" [Sample.arg "a" IntType_get; Sample.arg "b" IntType_get]
            IntType_get.

(** [def f(x : int, y : Tensor)], without a body. *)
Definition two_parameters : Def :=
  {| def_name := "f"; def_params := ["x"; "y"];
     def_schema := {| schema_name := "f";
                      arguments := [Sample.arg "x" IntType_get;
                                    Sample.arg "y" DynamicType_get];
                      returns := []; is_vararg := false |};
     def_statements := [] |}.
(** ** Vocabulary of the first pass of overload resolution *)

(** The nodes a match attempt may emit when conversions are not allowed:
    constants for the defaults, and the nodes of the conversions that are
    always applied. *)
Definition first_pass_kinds : list Symbol :=
  "prim::Constant" :: structural_kinds.

(** The type of a tuple of three integers. *)
Definition three_int_tuple : TypePtr :=
  TPtr 21 (TupleType [IntType_get; IntType_get; IntType_get]).

(** Two overloads of [total]: on a list of integers, registered first, and
    on a tuple of three integers. *)
Definition total_of_list : FunctionSchema :=
  Sample.op "total.list" [Sample.arg "x" Sample.IntList] IntType_get.

Definition total_of_tuple : FunctionSchema :=
  Sample.op "total.tuple" [Sample.arg "x" three_int_tuple] IntType_get.

(** The host of [Sample] with these two overloads and no other. *)
Definition list_before_tuple : Externals :=
  {| isSubtypeOf := Sample.subtype;
     unshapedType := Sample.unshaped;
     unifyTypes := Sample.unify;
     matchTypeVariables := Sample.match_vars;
     evalTypeVariables := Sample.eval_vars;
     getAllOperatorsFor := fun name =>
       if String.eqb name "aten::total" then [total_of_list; total_of_tuple]
       else [];
     getAllBuiltinFunctionsFor := fun _ => [];
     try_emit_call_to := fun _ _ _ _ _ => ret (None, []);
     graph_insert := Sample.insert_op;
     resolver := fun _ => None;
     opaque_call := fun kind _ _ _ => throw (External kind);
     opaque_attr := fun kind _ => throw (External kind);
     LowerSimpleTuples := fun g => g;
     ConstantPooling := fun g => g |}.

(** A tuple of three integers passed to [total], and a compilation in which
    it exists. *)
Definition tuple_of_ints : Value := Sample.input 20 three_int_tuple.

Definition with_tuple_of_ints : CState := set_fresh 22 initial_state.

(** ** Vocabulary of the merge of the two branches of an if/else *)



(** The condition of an [if] that [emitIf] lowers in the general way, by
    [emitIfElseBlocks]: any condition but [a is b] and [a is not b] is
    emitted by [emitCond]; for these two, the operands are emitted, their
    none statuses select no branch, and the comparison is a builtin call. *)
Definition general_lowering (E : Externals) (cond : Expr) (st : CState)
    (cond_value : Value) (st' : CState) : Prop :=
  let compared (kind : BinKind) (lhs rhs : Expr) : Prop :=
    exists lhs_val st1 rhs_val st2 l r,
      emitSugaredExpr E lhs 1 None st = Ok lhs_val st1
      /\ emitSugaredExpr E rhs 1 None st1 = Ok rhs_val st2
      /\ match isNone lhs_val, isNone rhs_val with
         | ALWAYS, ALWAYS | ALWAYS, NEVER | NEVER, ALWAYS => False
         | _, _ => True
         end
      /\ asValue lhs_val st2 = Ok l st2
      /\ asValue rhs_val st2 = Ok r st2
      /\ emitBuiltinCall_required E (getNodeKind kind) None
           [positional l; positional r] [] st2 = Ok cond_value st' in
  match cond with
  | BinOp K_Is lhs rhs => compared K_Is lhs rhs
  | BinOp K_IsNot lhs rhs => compared K_IsNot lhs rhs
  | _ => emitCond E cond st = Ok cond_value st'
  end.

(** A function body that knows a boolean [c] only, and one that knows [c],
    a number [a] and a float [f]. *)
Definition knows_c : CState :=
  Sample.state_with
    [Sample.frame 0 [("c", SimpleValue (Sample.input 40 BoolType_get))]].




(** ** Vocabulary of the graph outputs *)

(** A computation that leaves the graph outputs as they are. *)
Definition keeps_outputs {A} (m : M A) : Prop :=
  forall st a st', m st = Ok a st' -> st_outputs st' = st_outputs st.

(** The code outside this file registers no graph output. *)
Definition host_keeps_outputs (E : Externals) : Prop :=
  (forall method self inputs attributes allow_conversions,
      keeps_outputs
        (try_emit_call_to E method self inputs attributes allow_conversions))
  /\ (forall name args kwargs, keeps_outputs (graph_insert E name args kwargs))
  /\ (forall kind inputs attributes n_binders,
        keeps_outputs (opaque_call E kind inputs attributes n_binders))
  /\ (forall kind field, keeps_outputs (opaque_attr E kind field)).

(** A property of the value an option holds, if any. *)
Definition OptionP {A} (P : A -> Prop) (o : option A) : Prop :=
  match o with
  | Some a => P a
  | None => True
  end.

(** Induction on expressions, the nested lists of expressions and the
    optional bounds of a slice included. *)
Section ExprInduction.

Variable P : Expr -> Prop.
Hypothesis P_Var : forall name, P (Var name).
Hypothesis P_Const : forall value, P (Const value).
Hypothesis P_TrueLit : P TrueLit.
Hypothesis P_FalseLit : P FalseLit.
Hypothesis P_NoneLit : P NoneLit.
Hypothesis P_StringLiteral : forall text, P (StringLiteral text).
Hypothesis P_BinOp :
  forall kind lhs rhs, P lhs -> P rhs -> P (BinOp kind lhs rhs).
Hypothesis P_NotOp : forall operand, P operand -> P (NotOp operand).
Hypothesis P_AndOp : forall lhs rhs, P lhs -> P rhs -> P (AndOp lhs rhs).
Hypothesis P_OrOp : forall lhs rhs, P lhs -> P rhs -> P (OrOp lhs rhs).
Hypothesis P_TernaryIf :
  forall c t f, P c -> P t -> P f -> P (TernaryIf c t f).
Hypothesis P_ListLiteral :
  forall inputs, Forall P inputs -> P (ListLiteral inputs).
Hypothesis P_TupleLiteral :
  forall inputs, Forall P inputs -> P (TupleLiteral inputs).
Hypothesis P_Subscript :
  forall value es, P value -> Forall P es -> P (Subscript value es).
Hypothesis P_SliceExpr :
  forall start end_, OptionP P start -> OptionP P end_ ->
                     P (SliceExpr start end_).
Hypothesis P_Select : forall value selector, P value -> P (Select value selector).
Hypothesis P_Apply :
  forall callee inputs attributes,
    P callee -> Forall P inputs -> Forall (fun a => P (snd a)) attributes ->
    P (Apply callee inputs attributes).

Fixpoint Expr_nested_ind (e : Expr) : P e :=
  let all :=
    fix all (l : list Expr) : Forall P l :=
      match l with
      | [] => Forall_nil P
      | x :: l' => Forall_cons x (Expr_nested_ind x) (all l')
      end in
  let opt (o : option Expr) : OptionP P o :=
    match o return OptionP P o with
    | Some x => Expr_nested_ind x
    | None => I
    end in
  match e with
  | Var name => P_Var name
  | Const value => P_Const value
  | TrueLit => P_TrueLit
  | FalseLit => P_FalseLit
  | NoneLit => P_NoneLit
  | StringLiteral text => P_StringLiteral text
  | BinOp kind lhs rhs =>
      P_BinOp kind lhs rhs (Expr_nested_ind lhs) (Expr_nested_ind rhs)
  | NotOp operand => P_NotOp operand (Expr_nested_ind operand)
  | AndOp lhs rhs => P_AndOp lhs rhs (Expr_nested_ind lhs) (Expr_nested_ind rhs)
  | OrOp lhs rhs => P_OrOp lhs rhs (Expr_nested_ind lhs) (Expr_nested_ind rhs)
  | TernaryIf c t f =>
      P_TernaryIf c t f (Expr_nested_ind c) (Expr_nested_ind t)
                  (Expr_nested_ind f)
  | ListLiteral inputs => P_ListLiteral inputs (all inputs)
  | TupleLiteral inputs => P_TupleLiteral inputs (all inputs)
  | Subscript value es => P_Subscript value es (Expr_nested_ind value) (all es)
  | SliceExpr start end_ => P_SliceExpr start end_ (opt start) (opt end_)
  | Select value selector => P_Select value selector (Expr_nested_ind value)
  | Apply callee inputs attributes =>
      P_Apply callee inputs attributes (Expr_nested_ind callee) (all inputs)
        ((fix all_attrs (l : list (string * Expr))
            : Forall (fun a => P (snd a)) l :=
            match l with
            | [] => Forall_nil _
            | x :: l' =>
                Forall_cons x (Expr_nested_ind (snd x)) (all_attrs l')
            end) attributes)
  end.

End ExprInduction.

(** A subscript whose emissions leave the graph outputs as they are. *)
Definition arg_keeps_outputs (a : SubscriptArg) : Prop :=
  match a with
  | SliceArg start end_ =>
      OptionP keeps_outputs start /\ OptionP keeps_outputs end_
  | IndexArg index => keeps_outputs index
  end.

(** ** Vocabulary of the statements the emitter gets to *)

(** The branch that an [if] on [a is b] ([is_]) or on [a is not b] selects
    at compile time from the none statuses of the two operands, when they
    select one: [true] stands for the first branch. *)
Definition selected_branch (is_ : bool) (lhs rhs : NoneStatus) : option bool :=
  match lhs, rhs with
  | ALWAYS, ALWAYS => Some is_
  | ALWAYS, NEVER | NEVER, ALWAYS => Some (negb is_)
  | _, _ => None
  end.

(** The state in which the statements of block [b] of an if/else are
    emitted, when the if/else has come to that block in [st]: a frame is
    pushed for the block and the insertion point is at the start of it. *)
Definition branch_entry (b : nat) (st : CState) : CState :=
  set_nodes []
    (set_block b
       (set_env (new_frame b (Some "prim::If") [] :: environment_stack st)
                st)).

(** What [emitLoopCommon] does before the statements of the body: the
    state it leaves is the one in which they are emitted. *)
Definition loop_entry (E : Externals) (max_trip_count cond : option Expr)
    (itr_ident : option string) : M unit :=
  _ <- match max_trip_count with
       | Some e => v <- emitExpr E e None ;; ensureInt E v
       | None => materializeConstant int64_max
       end ;;
  _ <- match cond with
       | Some c => emitCond E c
       | None => insertConstant (IVBool true)
       end ;;
  body_block <- addBlock ;;
  i <- fresh ;;
  let trip_count := mkValue i IntType_get "prim::Param" body_block [] None in
  pushFrame body_block (Some "prim::Loop") [trip_count] ;;
  match itr_ident with
  | Some name => env_setVar E name trip_count
  | None => ret tt
  end ;;
  modify (fun st => set_nodes [] (set_block body_block st)).

(** What [to_ir] does before the statements of the body: the frame of the
    function and its parameters. *)
Definition function_entry (E : Externals) (def : Def)
    (self : option SugaredValue) : M (list Argument) :=
  pushFrame root_block None [] ;;
  match self, def_params def with
  | Some _, [] => throw MethodsNeedSelf
  | _, _ => ret tt
  end ;;
  emitFormalArguments E def self.

Section Reached.

Variable E : Externals.
Variable order : list string -> list string.

(** The emitter, run on a list of statements from a state, gets to a
    [return]: the statements in front of it compile, and it is a statement
    of the list, or it is reached in the branch that an [if] on [is] /
    [is not] selects at compile time, in either branch of an [if] lowered in
    the general way (in the second, when the first compiles), or in the body
    of a [while] or of a [for] over a range. *)
Inductive meets_return : list Stmt -> CState -> Prop :=
| meets_later stmt rest st st' :
    emitStatement E order stmt st = Ok tt st' ->
    meets_return rest st' ->
    meets_return (stmt :: rest) st
| meets_here e rest st :
    meets_return (Return e :: rest) st
| meets_selected (is_ : bool) lhs rhs trueBranch falseBranch rest st
                 lhs_val st1 rhs_val st2 (first : bool) :
    emitSugaredExpr E lhs 1 None st = Ok lhs_val st1 ->
    emitSugaredExpr E rhs 1 None st1 = Ok rhs_val st2 ->
    selected_branch is_ (isNone lhs_val) (isNone rhs_val) = Some first ->
    meets_return (if first then trueBranch else falseBranch) st2 ->
    meets_return
      (If (BinOp (if is_ then K_Is else K_IsNot) lhs rhs)
          trueBranch falseBranch :: rest)
      st
| meets_first_branch cond trueBranch falseBranch rest st cond_value st1
                     true_block sa false_block sb :
    general_lowering E cond st cond_value st1 ->
    addBlock st1 = Ok true_block sa ->
    addBlock sa = Ok false_block sb ->
    meets_return trueBranch (branch_entry true_block sb) ->
    meets_return (If cond trueBranch falseBranch :: rest) st
| meets_second_branch cond trueBranch falseBranch rest st cond_value st1
                      true_block sa false_block sb save_true true_nodes sc :
    general_lowering E cond st cond_value st1 ->
    addBlock st1 = Ok true_block sa ->
    addBlock sa = Ok false_block sb ->
    emitSingleIfBranch true_block (emitStatements E order trueBranch) sb
    = Ok (save_true, true_nodes) sc ->
    meets_return falseBranch (branch_entry false_block sc) ->
    meets_return (If cond trueBranch falseBranch :: rest) st
| meets_while cond body rest st entry :
    loop_entry E None (Some cond) None st = Ok tt entry ->
    meets_return body entry ->
    meets_return (While cond body :: rest) st
| meets_for target arg body rest st entry :
    loop_entry E (Some arg) None (Some target) st = Ok tt entry ->
    meets_return body entry ->
    meets_return (ForRange target [arg] body :: rest) st.

End Reached.

(** [while True: if None is None: return 1 else: pass], and the same [if]
    with the branches exchanged. *)
Definition return_in_selected_branch : list Stmt :=
  [While TrueLit
     [If (BinOp K_Is NoneLit NoneLit) [Return (Const 1)] [Pass]]].

Definition return_in_skipped_branch : list Stmt :=
  [While TrueLit
     [If (BinOp K_Is NoneLit NoneLit) [Pass] [Return (Const 1)]]].

(** A function body that knows a tuple [t] of three integers. *)
Definition knows_t : CState :=
  Sample.state_with [Sample.frame 0 [("t", SimpleValue Sample.triple)]].

(** * Properties *)

Ltac inv H := inversion H; subst; clear H.

Lemma bind_Ok {A B} (m : M A) (k : A -> M B) st b st' :
  bind m k st = Ok b st' ->
  exists a st1, m st = Ok a st1 /\ k a st1 = Ok b st'.
Proof.
  unfold bind. destruct (m st) as [a st1|e]; [eauto | discriminate].
Qed.

Lemma bind_Err_l {A B} (m : M A) (k : A -> M B) st e :
  m st = Err e -> bind m k st = Err e.
Proof. unfold bind. intros ->. reflexivity. Qed.

Lemma bind_Ok_l {A B} (m : M A) (k : A -> M B) st a st1 :
  m st = Ok a st1 -> bind m k st = k a st1.
Proof. unfold bind. intros ->. reflexivity. Qed.

Lemma lookup_insert_eq {A} (k : string) (a : A) m :
  lookup k (insert k a m) = Some a.
Proof.
  induction m as [|[k' a'] m IH]; simpl.
  - rewrite String.eqb_refl. reflexivity.
  - destruct (String.eqb k k') eqn:Hk; simpl.
    + rewrite String.eqb_refl. reflexivity.
    + rewrite Hk. exact IH.
Qed.

Lemma lookup_insert_neq {A} (k k' : string) (a : A) m :
  k' <> k -> lookup k' (insert k a m) = lookup k' m.
Proof.
  intros Hne. induction m as [|[k0 a0] m IH]; simpl.
  - destruct (String.eqb k' k) eqn:Hk; [|reflexivity].
    apply String.eqb_eq in Hk. contradiction.
  - destruct (String.eqb k k0) eqn:Hk; simpl.
    + apply String.eqb_eq in Hk. subst k0.
      destruct (String.eqb k' k) eqn:Hk'; [|reflexivity].
      apply String.eqb_eq in Hk'. contradiction.
    + destruct (String.eqb k' k0); [reflexivity | exact IH].
Qed.

(** ** Tuple subscripts (C5) *)

Lemma getTupleIndexVal_constant tuple_len idx_val index allow st :
  toIValue idx_val = Some (IVInt index) ->
  getTupleIndexVal tuple_len idx_val allow st =
  if negb allow
     && (Z.geb (adjust_index tuple_len index) tuple_len
         || Z.ltb (adjust_index tuple_len index) 0)
  then Err (TupleIndexOutOfRange tuple_len index)
  else Ok (adjust_index tuple_len index) st.
Proof.
  intros H. unfold getTupleIndexVal, adjust_index. rewrite H.
  destruct (negb allow && _); reflexivity.
Qed.

Lemma clamp_range tuple_len i :
  (0 <= tuple_len)%Z -> (0 <= clamp tuple_len i <= tuple_len)%Z.
Proof. unfold clamp. lia. Qed.

(** For a tuple of statically known length [L]: an index must be an
    integer constant; a negative index [i] is adjusted to [L + i]; a point
    index whose adjusted value is outside [[0, L-1]] is rejected with the
    out-of-range error, and accepted inside it.  A slice of the same tuple
    never raises that error: both bounds are adjusted, then clamped into
    [[0, L]], and the slice node is emitted with them. *)
Lemma index_value_checked_slice_clamped :
  (forall (tuple_len : Z) (idx_val : Value) (st : CState),
      match toIValue idx_val with
      | Some (IVInt index) =>
          let adj := adjust_index tuple_len index in
          ((0 <= adj < tuple_len)%Z ->
           getTupleIndexVal tuple_len idx_val false st = Ok adj st)
          /\ (~ (0 <= adj < tuple_len)%Z ->
              getTupleIndexVal tuple_len idx_val false st
              = Err (TupleIndexOutOfRange tuple_len index))
      | _ =>
          forall allow,
            getTupleIndexVal tuple_len idx_val allow st
            = Err TupleIndexNotConstant
      end)
  /\ (forall (tup beg_val : Value) (end_val : option Value)
             (elements : list TypePtr) (b : Z) (st : CState),
        cast_TupleType (v_type tup) = Some elements ->
        toIValue beg_val = Some (IVInt b) ->
        let L := Z.of_nat (List.length elements) in
        forall e : Z,
          match end_val with
          | Some ev => toIValue ev = Some (IVInt e)
          | None => e = L
          end ->
          emitTupleSlice (named "self" tup) (named "begin" beg_val)
                         (option_map (named "end") end_val) st
          = createTupleSlice tup (clamp L (adjust_index L b))
                             (clamp L (adjust_index L e)) st
          /\ (0 <= clamp L (adjust_index L b) <= L)%Z
          /\ (0 <= clamp L (adjust_index L e) <= L)%Z
          /\ exists v st',
               emitTupleSlice (named "self" tup) (named "begin" beg_val)
                              (option_map (named "end") end_val) st
               = Ok v st').
Proof.
  split.
  - intros tuple_len idx_val st.
    destruct (toIValue idx_val) as [[]|] eqn:Hc;
      try (intros allow; unfold getTupleIndexVal; rewrite Hc; reflexivity).
    cbv zeta. split; intros Hr.
    + rewrite (getTupleIndexVal_constant _ _ _ _ _ Hc). simpl.
      destruct (Z.geb_spec (adjust_index tuple_len i) tuple_len); [lia|].
      destruct (Z.ltb_spec (adjust_index tuple_len i) 0); [lia|]. reflexivity.
    + rewrite (getTupleIndexVal_constant _ _ _ _ _ Hc). simpl.
      destruct (Z.geb_spec (adjust_index tuple_len i) tuple_len);
        [reflexivity|].
      destruct (Z.ltb_spec (adjust_index tuple_len i) 0); [reflexivity|].
      exfalso. apply Hr. lia.
  - intros tup beg_val end_val elements b st Ht Hb L e He.
    assert (HL : (0 <= L)%Z) by (unfold L; lia).
    assert (Heq :
      emitTupleSlice (named "self" tup) (named "begin" beg_val)
                     (option_map (named "end") end_val) st
      = createTupleSlice tup (clamp L (adjust_index L b))
                         (clamp L (adjust_index L e)) st).
    { unfold emitTupleSlice, tuple_length, nv_value, named, bind, ret; simpl.
      rewrite Ht. fold L.
      rewrite (getTupleIndexVal_constant _ _ _ _ _ Hb). simpl.
      destruct end_val as [ev|]; simpl.
      - rewrite (getTupleIndexVal_constant _ _ _ _ _ He). simpl. reflexivity.
      - subst e. unfold adjust_index.
        destruct (Z.ltb_spec L 0); [lia|]. reflexivity. }
    split; [exact Heq|].
    split; [apply clamp_range; exact HL|].
    split; [apply clamp_range; exact HL|].
    rewrite Heq. unfold createTupleSlice, create_type, insert1, new_value,
      insertNode, fresh, bind, ret, get, modify. simpl. eauto.
Qed.
(** ** List literals (C10) *)

Lemma forM_cons {A} (a : A) l f : forM_ (a :: l) f = (f a ;; forM_ l f).
Proof. reflexivity. Qed.

Lemma check_all_ok elem_type values st :
  (forall v, In v values -> ptr_eqb (v_type v) elem_type = true) ->
  forM_ values (check_elem elem_type) st = Ok tt st.
Proof.
  induction values as [|v values IH]; intros H; [reflexivity|].
  rewrite forM_cons. unfold bind, check_elem at 1.
  rewrite (H v (or_introl eq_refl)). simpl.
  apply IH. intros w Hw. apply H. right. exact Hw.
Qed.

Lemma check_all_err elem_type values st :
  (exists v, In v values /\ ptr_eqb (v_type v) elem_type = false) ->
  exists w, In w values /\ ptr_eqb (v_type w) elem_type = false /\
    forM_ values (check_elem elem_type) st
    = Err (ListNotSingleType elem_type (v_type w)).
Proof.
  induction values as [|v values IH]; intros [w [Hin Hw]]; [destruct Hin|].
  rewrite forM_cons. unfold bind, check_elem at 1.
  destruct (ptr_eqb (v_type v) elem_type) eqn:Hv; simpl.
  - destruct Hin as [->|Hin]; [congruence|].
    destruct IH as [w' [Hin' [Hw' He]]]; [eauto|].
    exists w'. split; [right; exact Hin'|]. split; [exact Hw'|exact He].
  - exists v. split; [left; reflexivity|]. split; [exact Hv|reflexivity].
Qed.

Lemma emitListLiteral_eq type_hint values :
  emitListLiteral type_hint values =
  (forM_ values (check_elem (list_elem_type type_hint values)) ;;
   createList (list_elem_type type_hint values) values).
Proof. reflexivity. Qed.

Lemma ptr_eqb_true_iff a b : ptr_eqb a b = true <-> addr_of a = addr_of b.
Proof. unfold ptr_eqb. apply Nat.eqb_eq. Qed.

(** The element type of a list literal is the element type of a list
    type hint when there is one, otherwise the type of the first element,
    otherwise Tensor.  The element types are compared with it as pointers.
    Type objects being shared and immutable, the literal is rejected as soon
    as one element has another type, and every literal that compiles is
    homogeneous: each element has exactly the element type, and the result is
    a list of that type built from the elements. *)
Lemma emitListLiteral_homogeneous :
  forall (type_hint : option TypePtr) (values : list Value) (st : CState),
    let elem_type := list_elem_type type_hint values in
    (forall hint e,
        type_hint = Some hint -> cast_ListType hint = Some e -> elem_type = e)
    /\ ((type_hint = None
         \/ exists hint, type_hint = Some hint /\ cast_ListType hint = None) ->
        elem_type = match values with
                    | v :: _ => v_type v
                    | [] => DynamicType_get
                    end)
    /\ (same_object_same_type (elem_type :: map v_type values) ->
        (forall v, In v values -> v_type v <> elem_type ->
           exists w, In w values /\ v_type w <> elem_type /\
             emitListLiteral type_hint values st
             = Err (ListNotSingleType elem_type (v_type w)))
        /\ (forall r st',
              emitListLiteral type_hint values st = Ok r st' ->
              (forall v, In v values -> v_type v = elem_type)
              /\ deref (v_type r) = ListType elem_type
              /\ v_inputs r = values)).
Proof.
  intros type_hint values st elem_type.
  split; [|split].
  - intros hint e -> He. unfold elem_type, list_elem_type. rewrite He. reflexivity.
  - intros [->|[hint [-> Hn]]]; unfold elem_type, list_elem_type;
      [|rewrite Hn]; destruct values; reflexivity.
  - intros Hheap.
    assert (Hiff : forall v, In v values ->
              (ptr_eqb (v_type v) elem_type = true <-> v_type v = elem_type)).
    { intros v Hv. rewrite ptr_eqb_true_iff. split; [|intros ->; reflexivity].
      apply Hheap; [right; apply in_map; exact Hv | left; reflexivity]. }
    split.
    + intros v Hv Hne.
      destruct (check_all_err elem_type values st) as [w [Hw [Hb He]]].
      { exists v. split; [exact Hv|].
        destruct (ptr_eqb (v_type v) elem_type) eqn:Hb; [|reflexivity].
        apply Hiff in Hb; [contradiction | exact Hv]. }
      exists w. split; [exact Hw|]. split.
      * intros Heq. apply Hiff in Heq; [congruence | exact Hw].
      * rewrite emitListLiteral_eq. fold elem_type.
        apply bind_Err_l. exact He.
    + intros r st' Hok.
      rewrite emitListLiteral_eq in Hok. fold elem_type in Hok.
      assert (Hall : forall v, In v values -> ptr_eqb (v_type v) elem_type = true).
      { intros v Hv. destruct (ptr_eqb (v_type v) elem_type) eqn:Hb; [reflexivity|].
        destruct (check_all_err elem_type values st) as [w [_ [_ He]]]; [eauto|].
        rewrite (bind_Err_l _ _ _ _ He) in Hok. discriminate. }
      split; [intros v Hv; apply Hiff; auto|].
      rewrite (bind_Ok_l _ _ _ _ _ (check_all_ok _ _ st Hall)) in Hok.
      unfold createList, create_type, insert1, new_value, insertNode, fresh,
        bind, ret, get, modify in Hok. simpl in Hok. inv Hok.
      split; reflexivity.
Qed.

(** ** The scope stack (C4) *)

Lemma only_fresh_refl st : only_fresh st st.
Proof. exists (st_fresh st). destruct st; reflexivity. Qed.

Lemma only_fresh_trans st1 st2 st3 :
  only_fresh st1 st2 -> only_fresh st2 st3 -> only_fresh st1 st3.
Proof. intros [n ->] [m ->]. exists m. reflexivity. Qed.

Lemma createCapturedInput_total orig name this st :
  exists sv this' st',
    createCapturedInput orig name this st = Ok (sv, this') st'
    /\ only_fresh st st'
    /\ findInThisFrame name this' = Some sv
    /\ error_messages this' = error_messages this
    /\ (forall k, k <> name -> findInThisFrame k this' = findInThisFrame k this).
Proof.
  unfold createCapturedInput, bind, fresh, ret. simpl.
  eexists _, _, _. split; [reflexivity|].
  split; [eexists; reflexivity|].
  unfold findInThisFrame. simpl.
  split; [apply lookup_insert_eq|]. split; [reflexivity|].
  intros k Hk. apply lookup_insert_neq. exact Hk.
Qed.

Lemma createCapturedInputIfNeeded_total ident env st :
  exists r env' st',
    createCapturedInputIfNeeded ident env st = Ok (r, env') st'
    /\ only_fresh st st'
    /\ List.length env' = List.length env
    /\ map error_messages env' = map error_messages env
    /\ (findInAnyFrame ident env = None -> r = None /\ env' = env)
    /\ (forall k, k <> ident -> findInAnyFrame k env' = findInAnyFrame k env).
Proof.
  revert st. induction env as [|this next IH]; intros st.
  - exists None, [], st. simpl. repeat split; auto using only_fresh_refl.
  - simpl. destruct (findInThisFrame ident this) as [in_frame|] eqn:Hthis.
    + exists (Some in_frame), (this :: next), st.
      repeat split; auto using only_fresh_refl; discriminate.
    + destruct (IH st) as [r [next' [st1 [Hrec [Hf [Hlen [Herr [Hnone Hother]]]]]]]].
      unfold bind at 1. rewrite Hrec.
      destruct r as [p|].
      * destruct (String.eqb (getBlockOwningKind this) "prim::Loop").
        -- destruct (asSimple p) as [simple_val|].
           ++ destruct (createCapturedInput_total simple_val ident this st1)
                as [sv [this' [st2 [Hc [Hf2 [Hfind [Herr2 Hoth2]]]]]]].
              unfold bind. rewrite Hc. simpl.
              exists (Some sv), (this' :: next'), st2.
              split; [reflexivity|].
              split; [eapply only_fresh_trans; eauto|].
              split; [simpl; congruence|].
              split; [simpl; congruence|].
              split.
              ** intros Hn. destruct (Hnone Hn) as [Hd _]. discriminate.
              ** intros k Hk. simpl. rewrite (Hoth2 k Hk), (Hother k Hk).
                 reflexivity.
           ++ exists (Some p), (this :: next'), st1.
              split; [reflexivity|]. split; [exact Hf|].
              split; [simpl; congruence|]. split; [simpl; congruence|].
              split.
              ** intros Hn. destruct (Hnone Hn) as [Hd _]. discriminate.
              ** intros k Hk. simpl. rewrite (Hother k Hk). reflexivity.
        -- exists (Some p), (this :: next'), st1.
           split; [reflexivity|]. split; [exact Hf|].
           split; [simpl; congruence|]. split; [simpl; congruence|].
           split.
           ** intros Hn. destruct (Hnone Hn) as [Hd _]. discriminate.
           ** intros k Hk. simpl. rewrite (Hother k Hk). reflexivity.
      * exists None, (this :: next'), st1.
        split; [reflexivity|]. split; [exact Hf|].
        split; [simpl; congruence|]. split; [simpl; congruence|].
        split.
        ** intros Hn. destruct (Hnone Hn) as [_ ->]. auto.
        ** intros k Hk. simpl. rewrite (Hother k Hk). reflexivity.
Qed.

(** The debug name given to a plain value never fails. *)
Lemma naming_total (value : SugaredValue) (name : string) (this : Frame) st :
  exists st',
    match asSimple value with
    | Some v =>
        has_name <- hasUniqueName v ;;
        if negb has_name && meaningfulName name
           && Nat.eqb (v_block v) (f_block this)
        then setUniqueName v name
        else ret tt
    | None => ret tt
    end st = Ok tt st'.
Proof.
  destruct (asSimple value) as [v|]; [|eexists; reflexivity].
  unfold bind, hasUniqueName, setUniqueName, get, modify, ret. simpl.
  destruct (negb _ && _ && _); eexists; reflexivity.
Qed.

Section Rebinding.

Variable E : Externals.

(** C4.  [set(name, value)] where [name] is bound in an enclosing frame to
    [parent]: the rebind succeeds exactly when both [value] and [parent] are
    plain values and the type of [value] is a subtype of the shape-erased
    type of [parent], and then [name] is bound to [value] in the innermost
    frame; it fails with the reassignment error otherwise, with one message
    when a side is not a first-class value and another when the types are
    incompatible. *)
Theorem rebind_in_enclosing_frame :
  forall (name : string) (value parent : SugaredValue)
         (this : Frame) (next : list Frame) (st : CState),
    findInParentFrame name (this :: next) = Some parent ->
    match asSimple value, asSimple parent with
    | Some v, Some p =>
        if isSubtypeOf E (v_type v) (unshapedType E (v_type p)) then
          exists this' next' st',
            setSugaredVar E name value (this :: next) st
            = Ok (this' :: next') st'
            /\ findInThisFrame name this' = Some value
        else
          setSugaredVar E name value (this :: next) st
          = Err (ReassignTypeMismatch name (v_type p) (v_type v)
                   (is_ListType (v_type p) && is_ListType (v_type v)))
    | Some _, None =>
        setSugaredVar E name value (this :: next) st
        = Err (ReassignOfNonValue name (kind_of value))
    | None, _ =>
        setSugaredVar E name value (this :: next) st
        = Err (ReassignToNonValue name (kind_of value))
    end.
Proof.
  intros name value parent this next st Hparent.
  unfold setSugaredVar.
  destruct (naming_total value name this st) as [st1 Hname].
  rewrite (bind_Ok_l _ _ _ _ _ Hname). rewrite Hparent.
  destruct (asSimple value) as [v|] eqn:Hv; [|reflexivity].
  destruct (asSimple parent) as [p|] eqn:Hp; [|reflexivity].
  destruct (isSubtypeOf E (v_type v) (unshapedType E (v_type p))) eqn:Hsub;
    cbn [negb]; [|reflexivity].
  destruct (createCapturedInputIfNeeded_total name (this :: next) st1)
    as [r [env' [st2 [Hc [_ [Hlen _]]]]]].
  rewrite (bind_Ok_l _ _ _ _ _ (eq_refl : ret tt st1 = Ok tt st1)).
  unfold bind at 1. unfold bind at 1. rewrite Hc.
  destruct env' as [|this' next']; [discriminate|].
  eexists _, _, _. split; [reflexivity|].
  unfold findInThisFrame. simpl. apply lookup_insert_eq.
Qed.

End Rebinding.
(** ** Ternary conditionals (C7) *)

(** Emission into a nested block leaves the nodes of the current block as
    they were. *)
Lemma at_block_Ok {A} b (m : M A) st a nodes st' :
  at_block b m st = Ok (a, nodes) st' ->
  st_nodes st' = st_nodes st /\ st_block st' = st_block st
  /\ exists st1, m (set_nodes [] (set_block b st)) = Ok a st1
                 /\ nodes = st_nodes st1
                 /\ environment_stack st' = environment_stack st1.
Proof.
  unfold at_block, bind, get, put, ret. simpl.
  destruct (m _) as [a' st1|e] eqn:Hm; [|discriminate].
  intros H. inv H. simpl. repeat split; eauto.
Qed.

Lemma emit_if_expr_Ok b expr_value st blk st' :
  emit_if_expr b expr_value st = Ok blk st' ->
  st_nodes st' = st_nodes st
  /\ exists nodes out_val, blk = mkBlock [] nodes [out_val].
Proof.
  unfold emit_if_expr. intros H.
  apply bind_Ok in H. destruct H as [[] [st1 [Hpush H]]].
  apply bind_Ok in H. destruct H as [[out_val nodes] [st2 [Hat H]]].
  apply bind_Ok in H. destruct H as [fr [st3 [Hpop H]]].
  inv H. apply at_block_Ok in Hat. destruct Hat as [Hn _].
  unfold pushFrame, modify in Hpush. inv Hpush.
  unfold popFrame, bind, get, put, ret in Hpop. simpl in Hpop.
  destruct (environment_stack st2); inv Hpop.
  simpl in *. split; [congruence|eauto].
Qed.

Section Ternary.

Variable E : Externals.

(** A ternary conditional lowers both branches into the two blocks of
    one prim::If node appended to the current block.  The shape-erased types
    of the two branch results must be equal: when they are, the single output
    of the node carries that type; when they are not, the expression itself
    fails with the type-mismatch error (nothing is recorded for later). *)
Lemma emitTernaryIf_unify :
  forall (cond true_expr false_expr : Expr) (st : CState),
    (forall v st',
        emitTernaryIf E cond true_expr false_expr st = Ok v st' ->
        exists cond_value true_b false_b tv fv before,
          b_outputs true_b = [tv] /\ b_outputs false_b = [fv]
          /\ type_eqb (unshapedType E (v_type tv))
                      (unshapedType E (v_type fv)) = true
          /\ v_type v = unshapedType E (v_type tv)
          /\ st_nodes st'
             = before ++ [mkNode "prim::If" [cond_value] [v]
                                 [true_b; false_b] []])
    /\ (forall cond_value st1 true_b false_b st2 tv fv,
          emitCond E cond st = Ok cond_value st1 ->
          ternary_blocks E true_expr false_expr st1 = Ok (true_b, false_b) st2 ->
          b_outputs true_b = [tv] -> b_outputs false_b = [fv] ->
          type_eqb (unshapedType E (v_type tv))
                   (unshapedType E (v_type fv)) = false ->
          emitTernaryIf E cond true_expr false_expr st
          = Err (IfExprTypeMismatch (unshapedType E (v_type tv))
                                    (unshapedType E (v_type fv)))).
Proof.
  intros cond true_expr false_expr st. split.
  - intros v st' H. unfold emitTernaryIf in H.
    apply bind_Ok in H. destruct H as [cond_value [st1 [Hc H]]].
    unfold emitIfExpr in H.
    apply bind_Ok in H. destruct H as [tblk [sa [_ H]]].
    apply bind_Ok in H. destruct H as [fblk [sb [_ H]]].
    apply bind_Ok in H. destruct H as [true_b [sc [Ht H]]].
    apply bind_Ok in H. destruct H as [false_b [sd [Hf H]]].
    apply emit_if_expr_Ok in Ht. destruct Ht as [_ [tn [tv ->]]].
    apply emit_if_expr_Ok in Hf. destruct Hf as [_ [fn [fv ->]]].
    simpl in H.
    destruct (type_eqb (unshapedType E (v_type tv))
                       (unshapedType E (v_type fv))) eqn:Heq;
      simpl in H; [|discriminate].
    unfold new_value, insertNode, bind, fresh, get, modify, ret in H.
    simpl in H. inv H.
    exists cond_value, (mkBlock [] tn [tv]), (mkBlock [] fn [fv]), tv, fv,
      (st_nodes sd).
    simpl. repeat split; auto.
  - intros cond_value st1 true_b false_b st2 tv fv Hc Hb Ht Hf Hne.
    unfold emitTernaryIf. rewrite (bind_Ok_l _ _ _ _ _ Hc).
    unfold ternary_blocks in Hb. unfold emitIfExpr.
    apply bind_Ok in Hb. destruct Hb as [tblk [sa [Ha Hb]]].
    rewrite (bind_Ok_l _ _ _ _ _ Ha).
    apply bind_Ok in Hb. destruct Hb as [fblk [sb [Ha' Hb]]].
    rewrite (bind_Ok_l _ _ _ _ _ Ha').
    apply bind_Ok in Hb. destruct Hb as [tb' [sc [Ht' Hb]]].
    rewrite (bind_Ok_l _ _ _ _ _ Ht').
    apply bind_Ok in Hb. destruct Hb as [fb' [sd [Hf' Hb]]].
    rewrite (bind_Ok_l _ _ _ _ _ Hf').
    inv Hb. rewrite Ht, Hf, Hne. reflexivity.
Qed.

End Ternary.
(** ** Computations that emit nothing *)

Lemma keeps_ret {A} (a : A) : keeps_nodes (ret a).
Proof. intros st a' st' H. inv H. reflexivity. Qed.

Lemma keeps_throw {A} e : keeps_nodes (@throw A e).
Proof. intros st a st' H. discriminate. Qed.

Lemma keeps_bind {A B} (m : M A) (k : A -> M B) :
  keeps_nodes m -> (forall a, keeps_nodes (k a)) -> keeps_nodes (bind m k).
Proof.
  intros Hm Hk st b st' H. apply bind_Ok in H.
  destruct H as [a [st1 [H1 H2]]].
  rewrite (Hk a _ _ _ H2). eapply Hm. exact H1.
Qed.

Lemma keeps_get : keeps_nodes get.
Proof. intros st a st' H. inv H. reflexivity. Qed.

Lemma keeps_fresh : keeps_nodes fresh.
Proof. intros st a st' H. inv H. reflexivity. Qed.

Lemma keeps_modify f :
  (forall st, st_nodes (f st) = st_nodes st) -> keeps_nodes (modify f).
Proof. intros Hf st a st' H. inv H. apply Hf. Qed.

Ltac keeps :=
  repeat first
    [ apply keeps_ret | apply keeps_throw | apply keeps_get | apply keeps_fresh
    | apply keeps_modify; intros; reflexivity
    | apply keeps_bind; [|intros]
    | match goal with
      | |- keeps_nodes (match ?x with _ => _ end) => destruct x
      | |- keeps_nodes (if ?b then _ else _) => destruct b
      end ].

Lemma keeps_createCapturedInputIfNeeded ident env :
  keeps_nodes (createCapturedInputIfNeeded ident env).
Proof.
  intros st a st' H.
  destruct (createCapturedInputIfNeeded_total ident env st)
    as [r [env' [st1 [Hc [[n ->] _]]]]].
  rewrite Hc in H. inv H. reflexivity.
Qed.

Lemma keeps_asValue sv : keeps_nodes (asValue sv).
Proof. unfold asValue. keeps. Qed.

Lemma keeps_hasUniqueName v : keeps_nodes (hasUniqueName v).
Proof. unfold hasUniqueName. keeps. Qed.

Lemma keeps_setUniqueName v n : keeps_nodes (setUniqueName v n).
Proof. unfold setUniqueName. keeps. Qed.

Lemma keeps_new_value ty kind inputs c : keeps_nodes (new_value ty kind inputs c).
Proof. unfold new_value. keeps. Qed.

Section Keeps.

Variable E : Externals.

Lemma keeps_getSugaredVar ident env : keeps_nodes (getSugaredVar E ident env).
Proof.
  unfold getSugaredVar. apply keeps_bind;
    [apply keeps_createCapturedInputIfNeeded|].
  intros [r env']. keeps.
Qed.

Lemma keeps_getVar ident env : keeps_nodes (getVar E ident env).
Proof.
  unfold getVar. apply keeps_bind; [apply keeps_getSugaredVar|].
  intros [sv env']. apply keeps_bind; [apply keeps_asValue|]. intros. keeps.
Qed.

Lemma keeps_setSugaredVar name value env :
  keeps_nodes (setSugaredVar E name value env).
Proof.
  unfold setSugaredVar. destruct env as [|this next]; [keeps|].
  apply keeps_bind.
  { destruct (asSimple value); [|keeps].
    apply keeps_bind; [apply keeps_hasUniqueName|]. intros.
    destruct (_ && _ && _); [apply keeps_setUniqueName | keeps]. }
  intros _. apply keeps_bind; [keeps|].
  intros _. apply keeps_bind.
  { destruct (asSimple value); [|keeps].
    apply keeps_bind; [apply keeps_createCapturedInputIfNeeded|].
    intros [r env']. keeps. }
  intros env'. keeps.
Qed.

Lemma keeps_on_env {A} (f : list Frame -> M (A * list Frame)) :
  (forall env, keeps_nodes (f env)) -> keeps_nodes (on_env f).
Proof.
  intros Hf. unfold on_env. apply keeps_bind; [keeps|]. intros st0.
  apply keeps_bind; [apply Hf|]. intros [a env']. keeps.
Qed.

Lemma keeps_on_saved {A} saved (f : list Frame -> M (A * list Frame)) :
  (forall env, keeps_nodes (f env)) -> keeps_nodes (on_saved saved f).
Proof.
  intros Hf. unfold on_saved. apply keeps_bind; [keeps|]. intros st0.
  apply keeps_bind; [apply Hf|]. intros [a env']. keeps.
Qed.

Lemma keeps_env_setVar name v : keeps_nodes (env_setVar E name v).
Proof.
  unfold env_setVar, env_setSugaredVar. apply keeps_on_env. intros env.
  apply keeps_bind; [apply keeps_setSugaredVar|]. intros. keeps.
Qed.

Lemma keeps_reconcile cond_value x br : keeps_nodes (reconcile E cond_value x br).
Proof.
  unfold reconcile.
  apply keeps_bind; [apply keeps_on_saved; intros; apply keeps_getVar|].
  intros [tv st_true].
  apply keeps_bind; [apply keeps_on_saved; intros; apply keeps_getVar|].
  intros [fv st_false].
  destruct (unifyTypes E (v_type tv) (v_type fv)).
  - apply keeps_bind; [apply keeps_new_value|]. intros out.
    apply keeps_bind; [apply keeps_env_setVar|]. intros. keeps.
  - apply keeps_bind; [keeps|]. intros st0.
    destruct (or_else _ _); [keeps|].
    apply keeps_bind; [apply keeps_on_saved; intros; keeps|].
    intros [u f]. keeps.
Qed.

Lemma keeps_reconcile_all cond_value xs :
  forall br, keeps_nodes (reconcile_all E cond_value xs br).
Proof.
  induction xs as [|x xs IH]; intros br; simpl; [keeps|].
  apply keeps_bind; [apply keeps_reconcile|]. intros. apply IH.
Qed.

Lemma keeps_emitSingleIfBranch b branch :
  keeps_nodes (emitSingleIfBranch b branch).
Proof.
  intros st [fr nodes] st' H. unfold emitSingleIfBranch in H.
  apply bind_Ok in H. destruct H as [[] [st1 [Hpush H]]].
  apply bind_Ok in H. destruct H as [[u nodes'] [st2 [Hat H]]].
  apply bind_Ok in H. destruct H as [fr' [st3 [Hpop H]]].
  inv H. apply at_block_Ok in Hat. destruct Hat as [Hn _].
  unfold pushFrame, modify in Hpush. inv Hpush.
  unfold popFrame, bind, get, put, ret in Hpop. simpl in Hpop.
  destruct (environment_stack st2); inv Hpop.
  simpl in *. congruence.
Qed.


End Keeps.
(** ** Conditions on none-ness (C3) *)

Section StaticIf.

Variable E : Externals.
Variable order : list string -> list string.

Lemma emitStatement_If cond trueBranch falseBranch :
  emitStatement E order (If cond trueBranch falseBranch)
  = emitIf E order cond (emitStatements E order trueBranch)
                        (emitStatements E order falseBranch).
Proof. reflexivity. Qed.


End StaticIf.
(** ** Deferred branch type errors (C2) *)

Lemma setVariableTypeError_cons name msg f g env :
  setVariableTypeError name msg (f :: g :: env)
  = f :: setVariableTypeError name msg (g :: env).
Proof. reflexivity. Qed.

Lemma setVariableTypeError_nonempty name msg g env :
  setVariableTypeError name msg (g :: env) <> [].
Proof. destruct env; discriminate. Qed.

Lemma findVariableTypeError_cons name f env :
  env <> [] ->
  findVariableTypeError name (f :: env) = findVariableTypeError name env.
Proof. destruct env; [contradiction|reflexivity]. Qed.

Lemma findVariableTypeError_set name msg env :
  env <> [] ->
  findVariableTypeError name (setVariableTypeError name msg env) = Some msg.
Proof.
  induction env as [|f env IH]; intros Hne; [contradiction|].
  destruct env as [|g env].
  - simpl. apply lookup_insert_eq.
  - rewrite setVariableTypeError_cons.
    rewrite findVariableTypeError_cons
      by apply setVariableTypeError_nonempty.
    apply IH. discriminate.
Qed.

Lemma findInAnyFrame_set_error k name msg env :
  findInAnyFrame k (setVariableTypeError name msg env) = findInAnyFrame k env.
Proof.
  induction env as [|f env IH]; [reflexivity|].
  destruct env as [|g env]; [reflexivity|].
  rewrite setVariableTypeError_cons.
  change (match findInThisFrame k f with
          | Some r => Some r
          | None => findInAnyFrame k
                      (setVariableTypeError name msg (g :: env))
          end
          = match findInThisFrame k f with
            | Some r => Some r
            | None => findInAnyFrame k (g :: env)
            end).
  rewrite IH. reflexivity.
Qed.

Section Deferred.

Variable E : Externals.




End Deferred.
(** ** Two-pass overload resolution (C1) *)

Section ResolutionFacts.

Variable E : Externals.
Variable name : Symbol.
Variable self : option NamedValue.
Variables inputs attributes : list NamedValue.

Abbreviation try_cs := (try_candidates E name self inputs attributes).
Abbreviation rejected := (all_rejected E name self inputs attributes).

Lemma try_variants_candidates allow variants fm st :
  try_variants E name self inputs attributes allow variants fm st
  = try_cs allow (map Operator variants) fm st.
Proof.
  revert fm st. induction variants as [|op rest IH]; intros fm st;
    [reflexivity|].
  simpl. unfold bind at 1 3 4.
  destruct (tryMatchSchema E op self inputs attributes fm allow st)
    as [[[matched|] fm1] st1|e]; [| apply IH | reflexivity].
  unfold bind. destruct (emitBuiltinNode matched name st1); reflexivity.
Qed.

Lemma try_builtin_functions_candidates allow fns fm st :
  try_builtin_functions E self inputs attributes allow fns fm st
  = try_cs allow (map LibraryFunction fns) fm st.
Proof.
  revert fm st. induction fns as [|method rest IH]; intros fm st;
    [reflexivity|].
  simpl. unfold bind at 1 3 4.
  destruct (try_emit_call_to E method self inputs attributes allow st)
    as [[[result|] more] st1|e]; [| apply IH | reflexivity].
  unfold bind. destruct (packOutputs result st1); reflexivity.
Qed.

Lemma try_candidates_app allow cs1 cs2 fm st :
  try_cs allow (cs1 ++ cs2) fm st
  = match try_cs allow cs1 fm st with
    | Ok (Some v, fm1) st1 => Ok (Some v, fm1) st1
    | Ok (None, fm1) st1 => try_cs allow cs2 fm1 st1
    | Err e => Err e
    end.
Proof.
  revert fm st. induction cs1 as [|c cs1 IH]; intros fm st; [reflexivity|].
  simpl. unfold bind.
  destruct (attempt E name self inputs attributes allow c fm st)
    as [[[v|] fm1] st1|e]; [reflexivity | apply IH | reflexivity].
Qed.

Lemma try_candidates_none allow cs fm st fm' st' :
  try_cs allow cs fm st = Ok (None, fm') st' <-> rejected allow cs fm st fm' st'.
Proof.
  revert fm st. induction cs as [|c cs IH]; intros fm st; simpl.
  - split; intros H; [inv H; constructor | inv H; reflexivity].
  - unfold bind.
    destruct (attempt E name self inputs attributes allow c fm st)
      as [[[v|] fm1] st1|e] eqn:Ha; split; intros H;
      try discriminate; try (inv H; congruence).
    + econstructor; [exact Ha | apply IH; exact H].
    + inv H.
      match goal with
      | H : attempt _ _ _ _ _ _ _ _ _ = Ok (None, _) _ |- _ =>
          rewrite Ha in H; inv H
      end.
      apply IH. assumption.
Qed.

Lemma try_candidates_some allow cs fm st v fm' st' :
  try_cs allow cs fm st = Ok (Some v, fm') st' <->
  exists pre c post fm1 st1,
    cs = pre ++ c :: post
    /\ rejected allow pre fm st fm1 st1
    /\ attempt E name self inputs attributes allow c fm1 st1
       = Ok (Some v, fm') st'.
Proof.
  revert fm st. induction cs as [|c cs IH]; intros fm st; simpl.
  - split; [discriminate|].
    intros [pre [c [post [fm1 [st1 [H _]]]]]]. destruct pre; discriminate.
  - unfold bind.
    destruct (attempt E name self inputs attributes allow c fm st)
      as [[[w|] fm1] st1|e] eqn:Ha; split.
    + intros H. inv H. exists [], c, cs, fm, st.
      repeat split; [constructor | exact Ha].
    + intros [pre [c' [post [fm2 [st2 [Hcs [Hrej Hatt]]]]]]].
      destruct pre as [|p pre]; simpl in Hcs; inv Hcs.
      * inv Hrej; unfold ret; congruence.
      * inv Hrej; unfold ret; congruence.
    + intros H. apply IH in H.
      destruct H as [pre [c' [post [fm2 [st2 [-> [Hrej Hatt]]]]]]].
      exists (c :: pre), c', post, fm2, st2.
      repeat split; [econstructor; eassumption | exact Hatt].
    + intros [pre [c' [post [fm2 [st2 [Hcs [Hrej Hatt]]]]]]].
      destruct pre as [|p pre]; simpl in Hcs; inv Hcs.
      * inv Hrej; unfold ret; congruence.
      * inv Hrej.
        match goal with
        | H : attempt _ _ _ _ _ _ _ _ _ = Ok (None, _) _ |- _ =>
            rewrite Ha in H; inv H
        end.
        apply IH. exists pre, c', post, fm2, st2. auto.
    + discriminate.
    + intros [pre [c' [post [fm2 [st2 [Hcs [Hrej Hatt]]]]]]].
      destruct pre as [|p pre]; simpl in Hcs; inv Hcs.
      * inv Hrej; unfold ret; congruence.
      * inv Hrej; unfold ret; congruence.
Qed.

(** One pass is the candidates of both sets tried in order. *)
Lemma pass_candidates allow later fm0 st :
  try_passes E name self inputs attributes (allow :: later) fm0 st
  = match try_cs allow (candidates E name) [] st with
    | Ok (Some v, fm1) st1 => Ok (Some v, fm1) st1
    | Ok (None, fm1) st1 =>
        try_passes E name self inputs attributes later fm1 st1
    | Err e => Err e
    end.
Proof.
  unfold candidates. rewrite try_candidates_app.
  rewrite <- try_variants_candidates. simpl. unfold bind at 1.
  destruct (try_variants E name self inputs attributes allow
              (getAllOperatorsFor E name) [] st)
    as [[[v|] fm1] st1|e]; [reflexivity| |reflexivity].
  rewrite <- try_builtin_functions_candidates. unfold bind.
  destruct (try_builtin_functions E self inputs attributes allow
              (getAllBuiltinFunctionsFor E name) fm1 st1)
    as [[[v|] fm2] st2|e]; reflexivity.
Qed.

Lemma rejected_deterministic allow cs fm st fm1 st1 fm2 st2 :
  rejected allow cs fm st fm1 st1 -> rejected allow cs fm st fm2 st2 ->
  fm1 = fm2 /\ st1 = st2.
Proof.
  intros H1 H2. apply try_candidates_none in H1, H2.
  rewrite H1 in H2. inv H2. auto.
Qed.

(** A call resolved against the candidates of a name returns the value
    [v] exactly when either the pass that forbids implicit conversions
    selects a candidate giving [v], or that pass matches no candidate of the
    builtin-overload set nor of the library-function set and the pass that
    allows conversions selects one.  In each pass the candidates are tried in
    registration order and the first that matches in full is selected; when
    the first pass selects a candidate the second is not run. *)
Lemma emitBuiltinCall_two_passes :
  forall (required : bool) (st : CState) (v : Value) (st' : CState),
    (emitBuiltinCall E name self inputs attributes required st
     = Ok (Some v) st'
     <-> first_match E name self inputs attributes false st v st'
         \/ exists st0,
              no_match E name self inputs attributes false st st0
              /\ first_match E name self inputs attributes true st0 v st')
    /\ (first_match E name self inputs attributes false st v st' ->
        forall st0, ~ no_match E name self inputs attributes false st st0).
Proof.
  intros required st v st'.
  assert (Hcall :
    emitBuiltinCall E name self inputs attributes required st
    = Ok (Some v) st'
    <-> exists fm, try_passes E name self inputs attributes [false; true] [] st
                   = Ok (Some v, fm) st').
  { unfold emitBuiltinCall, bind.
    destruct (try_passes E name self inputs attributes [false; true] [] st)
      as [[[w|] fm] st1|e]; split.
    - intros H. inv H. eauto.
    - intros [fm' H]. inv H. reflexivity.
    - destruct (negb required); [discriminate|].
      destruct (getAllOperatorsFor E name); discriminate.
    - intros [fm' H]. discriminate.
    - discriminate.
    - intros [fm' H]. discriminate. }
  split.
  - rewrite Hcall. rewrite pass_candidates. split.
    + intros [fm H].
      destruct (try_cs false (candidates E name) [] st)
        as [[[w|] fm1] st1|e] eqn:H1; [| |discriminate].
      * inv H. left. apply try_candidates_some in H1.
        destruct H1 as [pre [c [post [fm2 [st2 [Hc [Hr Ha]]]]]]].
        exists pre, c, post, fm2, st2, fm. auto.
      * right. exists st1. split.
        -- exists fm1. apply try_candidates_none. exact H1.
        -- rewrite pass_candidates in H.
           destruct (try_cs true (candidates E name) [] st1)
             as [[[w|] fm2] st2|e] eqn:H2; [| discriminate | discriminate].
           inv H. apply try_candidates_some in H2.
           destruct H2 as [pre [c [post [fm3 [st3 [Hc [Hr Ha]]]]]]].
           exists pre, c, post, fm3, st3, fm. auto.
    + intros [Hfirst | [st0 [[fm0 Hnone] Hfirst]]].
      * destruct Hfirst as [pre [c [post [fm1 [st1 [fm2 [Hc [Hr Ha]]]]]]]].
        assert (H1 : try_cs false (candidates E name) [] st
                     = Ok (Some v, fm2) st').
        { apply try_candidates_some. exists pre, c, post, fm1, st1. auto. }
        rewrite H1. eauto.
      * apply try_candidates_none in Hnone. rewrite Hnone.
        rewrite pass_candidates.
        destruct Hfirst as [pre [c [post [fm1 [st1 [fm2 [Hc [Hr Ha]]]]]]]].
        assert (H1 : try_cs true (candidates E name) [] st0
                     = Ok (Some v, fm2) st').
        { apply try_candidates_some. exists pre, c, post, fm1, st1. auto. }
        rewrite H1. eauto.
  - intros [pre [c [post [fm1 [st1 [fm2 [Hc [Hr Ha]]]]]]]] st0 [fm0 Hnone].
    assert (H1 : try_cs false (candidates E name) [] st = Ok (Some v, fm2) st').
    { apply try_candidates_some. exists pre, c, post, fm1, st1. auto. }
    apply try_candidates_none in Hnone. congruence.
Qed.

End ResolutionFacts.
(** ** Positional arguments gathered into a list (C6) *)

Section Greedy.

Variable E : Externals.

Lemma unwrapOptional_list t e :
  cast_ListType t = Some e -> unwrapOptional t = t.
Proof.
  unfold cast_ListType, unwrapOptional, cast_OptionalType.
  destruct (deref t); intros H; try discriminate; reflexivity.
Qed.

Lemma tryCreateList_elems_length elem_arg varargs err fm allow env st
      vs fm' env' st' :
  tryCreateList_elems E elem_arg varargs err fm allow env st
  = Ok (Some vs, fm', env') st' ->
  List.length vs = List.length varargs.
Proof.
  revert fm env st vs fm' env' st'.
  induction varargs as [|a rest IH]; intros fm env st vs fm' env' st' H.
  - inv H. reflexivity.
  - simpl in H. apply bind_Ok in H.
    destruct H as [[[av fm1] env1] [st1 [Ha H]]].
    destruct av as [av|]; [|inv H].
    apply bind_Ok in H. destruct H as [[[more fm2] env2] [st2 [Hm H]]].
    destruct more as [more|]; inv H.
    simpl. f_equal. eapply IH. exact Hm.
Qed.

(** The list synthesized from the remaining arguments is one value: the
    output of a list construction with one input for each of them. *)
Lemma tryCreateList_one_list elem_type varargs err fm allow env st
      l fm' env' st' :
  tryCreateList E elem_type varargs err fm allow env st
  = Ok (Some l, fm', env') st' ->
  v_kind l = "prim::ListConstruct"
  /\ deref (v_type l) = ListType elem_type
  /\ List.length (v_inputs l) = List.length varargs.
Proof.
  unfold tryCreateList. intros H.
  apply bind_Ok in H. destruct H as [[[vs fm1] env1] [st1 [He H]]].
  destruct vs as [vs|]; [|inv H].
  apply bind_Ok in H. destruct H as [v [st2 [Hc H]]]. inv H.
  apply tryCreateList_elems_length in He.
  unfold createList, create_type, insert1, new_value, insertNode, fresh,
    bind, ret, get, modify in Hc. simpl in Hc. inv Hc.
  simpl. auto.
Qed.

(** C6, as the code has it.  During per-candidate binding, a list-typed
    parameter WITHOUT a fixed arity that is not keyword-only and sits in the
    last positional slot, when the next positional argument is neither a
    list nor convertible to the list type, takes all the remaining
    positional arguments: each is matched against the element type, and if
    all match they are all consumed and one synthesized list is bound to the
    parameter (otherwise the candidate fails).  A parameter with a fixed
    arity never does so: it takes at most one positional argument. *)
Theorem list_parameter_takes_remaining_arguments :
  forall (err : string) (args kwargs : list NamedValue) (allow : bool)
         (arg : Argument) (rest : list Argument) (fm : Failures)
         (bd : Binding) (st : CState),
    (forall (first : NamedValue) (actual : Value) (st1 : CState)
            (elem_type : TypePtr),
        (if String.eqb (arg_name arg) "self" then bd_self bd else None) = None ->
        kwarg_only arg = false ->
        nth_error args (bd_used_args bd) = Some first ->
        cast_ListType (arg_type arg) = Some elem_type ->
        arg_N arg = None ->
        match rest with
        | [] => True
        | following :: _ => kwarg_only following = true
        end ->
        nv_value first st = Ok actual st1 ->
        is_ListType (v_type actual) = false ->
        convertibleToList E (v_type actual) (arg_type arg) = false ->
        bind_parameter E err args kwargs allow arg rest fm bd st
        = match tryCreateList E elem_type (skipn (bd_used_args bd) args) err fm
                              allow (bd_type_env bd) st1 with
          | Ok (Some list, fm', type_env) st2 =>
              Ok (Some {| bd_self := bd_self bd;
                          bd_used_args := List.length args;
                          bd_used_kwarg := bd_used_kwarg bd;
                          bd_positional_inputs :=
                            bd_positional_inputs bd ++ [list];
                          bd_type_env := type_env |}, fm') st2
          | Ok (None, fm', _) st2 => Ok (None, fm') st2
          | Err e => Err e
          end
        /\ (forall list fm' type_env st2,
              tryCreateList E elem_type (skipn (bd_used_args bd) args) err fm
                            allow (bd_type_env bd) st1
              = Ok (Some list, fm', type_env) st2 ->
              v_kind list = "prim::ListConstruct"
              /\ deref (v_type list) = ListType elem_type
              /\ List.length (v_inputs list)
                 = List.length args - bd_used_args bd))
    /\ (forall (n : nat) (bd' : Binding) (fm' : Failures) (st' : CState),
          arg_N arg = Some n ->
          bind_parameter E err args kwargs allow arg rest fm bd st
          = Ok (Some bd', fm') st' ->
          bd_used_args bd' <= S (bd_used_args bd)
          /\ List.length (bd_positional_inputs bd')
             = S (List.length (bd_positional_inputs bd))).
Proof.
  intros err args kwargs allow arg rest fm bd st. split.
  - intros first actual st1 elem_type Hself Hkw Hnth Hlist HN Hlast Hval
           Hnl Hnc.
    assert (Hlt : Nat.ltb (bd_used_args bd) (List.length args) = true).
    { apply Nat.ltb_lt. apply nth_error_Some. congruence. }
    split.
    + unfold bind_parameter. rewrite Hself, Hkw, Hlt, HN.
      unfold is_ListType at 1. rewrite Hlist.
      assert (Hl : match rest with
                   | [] => true
                   | following :: _ => kwarg_only following
                   end = true) by (destruct rest; auto).
      rewrite Hl. cbn [negb andb]. rewrite Hnth.
      rewrite (bind_Ok_l _ _ _ _ _ Hval).
      rewrite (unwrapOptional_list _ _ Hlist), Hnl, Hnc, Hlist.
      cbn [negb andb]. unfold skip_args, bind.
      destruct (tryCreateList E elem_type (skipn (bd_used_args bd) args) err fm
                              allow (bd_type_env bd) st1)
        as [[[[l|] fm1] env1] st2|e]; reflexivity.
    + intros l fm' type_env st2 H.
      apply tryCreateList_one_list in H. destruct H as [H1 [H2 H3]].
      rewrite H3. rewrite length_skipn. auto.
  - intros n bd' fm' st' HN H.
    unfold bind_parameter in H. rewrite HN in H.
    rewrite andb_false_r in H. cbn [andb] in H.
    repeat match type of H with
    | (if ?c then _ else _) _ = _ => destruct c
    | match ?x with _ => _ end _ = _ => destruct x eqn:?
    | match ?x with _ => _ end = _ => destruct x eqn:?
    | throw _ _ = _ => discriminate
    | ret _ _ = _ => inv H
    | bind _ _ _ = _ =>
        let a := fresh "a" in let s := fresh "s" in
        let H1 := fresh "H" in
        apply bind_Ok in H; destruct H as [a [s [H1 H]]];
        try destruct a as [[? ?] ?]
    end; simpl; try rewrite length_app; simpl; try lia.
Qed.

End Greedy.

(** ** The position of [return] (C9) *)

Lemma fails_throw {A} e : fails (@throw A e).
Proof. intros st. eexists. reflexivity. Qed.

Lemma fails_bind_l {A B} (m : M A) (k : A -> M B) :
  fails m -> fails (bind m k).
Proof. intros H st. destruct (H st) as [e He]. exists e. apply bind_Err_l. exact He. Qed.

Lemma fails_bind_r {A B} (m : M A) (k : A -> M B) :
  (forall a, fails (k a)) -> fails (bind m k).
Proof.
  intros H st. unfold bind. destruct (m st) as [a st1|e]; [apply H | eauto].
Qed.

Lemma fails_at_block {A} b (m : M A) : fails m -> fails (at_block b m).
Proof.
  intros H st. unfold at_block, bind, get, put. simpl.
  destruct (H (set_nodes [] (set_block b st))) as [e ->]. eauto.
Qed.

Section ReturnPosition.

Variable E : Externals.
Variable order : list string -> list string.

Lemma emitStatement_While cond body :
  emitStatement E order (While cond body)
  = emitWhile E cond (emitStatements E order body).
Proof. reflexivity. Qed.

Lemma emitStatement_ForRange target args body :
  emitStatement E order (ForRange target args body)
  = emitForRange E target args (emitStatements E order body).
Proof. reflexivity. Qed.

Lemma fails_emitSingleIfBranch b branch :
  fails branch -> fails (emitSingleIfBranch b branch).
Proof.
  intros H. unfold emitSingleIfBranch. apply fails_bind_r. intros _.
  apply fails_bind_l. apply fails_at_block. exact H.
Qed.

Lemma fails_emitIfElseBlocks cond_value trueBranch falseBranch :
  fails trueBranch \/ fails falseBranch ->
  fails (emitIfElseBlocks E order cond_value trueBranch falseBranch).
Proof.
  intros H. unfold emitIfElseBlocks.
  apply fails_bind_r. intros tblk. apply fails_bind_r. intros fblk.
  destruct H as [H|H].
  - apply fails_bind_l. apply fails_emitSingleIfBranch. exact H.
  - apply fails_bind_r. intros [st_true tn].
    apply fails_bind_l. apply fails_emitSingleIfBranch. exact H.
Qed.

Lemma fails_emitLoopCommon max_trip_count cond body itr_ident :
  fails body -> fails (emitLoopCommon E max_trip_count cond body itr_ident).
Proof.
  intros H. unfold emitLoopCommon.
  apply fails_bind_r. intros mv. apply fails_bind_r. intros cv.
  apply fails_bind_r. intros bb. apply fails_bind_r. intros i.
  apply fails_bind_r. intros _. apply fails_bind_r. intros _.
  apply fails_bind_l. apply fails_at_block. apply fails_bind_l. exact H.
Qed.

Lemma fails_emitStatements stmts :
  Forall (fun s => reaches_return s = true -> fails (emitStatement E order s))
         stmts ->
  existsb reaches_return stmts = true ->
  fails (emitStatements E order stmts).
Proof.
  induction 1 as [|s stmts Hs Hall IH]; intros Hex; [discriminate|].
  simpl in Hex. simpl.
  destruct (reaches_return s) eqn:Hr.
  - apply fails_bind_l. apply Hs. reflexivity.
  - apply fails_bind_r. intros _. apply IH. exact Hex.
Qed.

Lemma fails_emitStatement stmt :
  reaches_return stmt = true -> fails (emitStatement E order stmt).
Proof.
  induction stmt using Stmt_nested_ind; intros Hr; try discriminate.
  - (* If *)
    rewrite emitStatement_If.
    assert (Hboth : forall (is_ : bool) lhs rhs,
      existsb reaches_return tb && existsb reaches_return fb = true ->
      fails (emitIf E order (BinOp (if is_ then K_Is else K_IsNot) lhs rhs)
               (emitStatements E order tb) (emitStatements E order fb))).
    { intros is_ lhs rhs Hboth. apply andb_true_iff in Hboth.
      destruct Hboth as [Ht Hf].
      assert (Ft : fails (emitStatements E order tb))
        by (apply fails_emitStatements; assumption).
      assert (Ff : fails (emitStatements E order fb))
        by (apply fails_emitStatements; assumption).
      unfold emitIf.
      destruct is_;
        (apply fails_bind_r; intros lhs_val;
         apply fails_bind_r; intros rhs_val;
         destruct (isNone lhs_val), (isNone rhs_val); try assumption;
         apply fails_bind_r; intros l; apply fails_bind_r; intros r;
         apply fails_bind_r; intros cv; apply fails_emitIfElseBlocks;
         left; exact Ft). }
    assert (Hany :
      existsb reaches_return tb || existsb reaches_return fb = true ->
      fails (emitStatements E order tb) \/ fails (emitStatements E order fb)).
    { intros Hor. apply orb_true_iff in Hor.
      destruct Hor; [left|right]; apply fails_emitStatements; assumption. }
    simpl in Hr.
    destruct c; try destruct kind;
      try exact (Hboth true _ _ Hr); try exact (Hboth false _ _ Hr);
      (unfold emitIf; apply fails_bind_r; intros cv;
       apply fails_emitIfElseBlocks; exact (Hany Hr)).
  - (* While *)
    rewrite emitStatement_While. unfold emitWhile.
    apply fails_emitLoopCommon. apply fails_emitStatements; assumption.
  - (* ForRange *)
    rewrite emitStatement_ForRange. unfold emitForRange.
    destruct args as [|a [|a' args]]; try apply fails_throw.
    apply fails_emitLoopCommon. apply fails_emitStatements; assumption.
  - (* Return *)
    apply fails_throw.
Qed.

Lemma split_return_keeps_inner_return pre e s post :
  In (Return e) (fst (split_return (pre ++ Return e :: s :: post))).
Proof.
  destruct (@exists_last _ (s :: post)) as [l' [a Hl]]; [discriminate|].
  rewrite Hl.
  assert (Hin : In (Return e) (pre ++ Return e :: l'))
    by (apply in_or_app; right; left; reflexivity).
  replace (pre ++ Return e :: l' ++ [a])
    with ((pre ++ Return e :: l') ++ [a])
    by (rewrite <- app_assoc; reflexivity).
  unfold split_return. rewrite rev_app_distr. simpl rev at 1.
  cbn [app].
  destruct a; simpl;
    try (apply in_or_app; left; exact Hin).
  rewrite rev_involutive. exact Hin.
Qed.

Lemma existsb_In_reaches l e :
  In (Return e) l -> existsb reaches_return l = true.
Proof.
  intros H. apply existsb_exists. exists (Return e). split; [exact H|reflexivity].
Qed.

(** A [return] is accepted only as the last
    statement of the function body.  Compilation fails when the statements
    before a trailing [return] bring the emitter to a [return]: at the top
    level in any position but the last, in a branch of an [if] lowered in the
    general way, or in the body of a loop.  (A [return] in a branch that an
    [is] / [is not] condition rules out at compile time is never looked at.)
    When the body does not end with a [return] and compiles, the output
    registered last for the graph is a none constant, emitted for it. *)
Lemma return_met_is_rejected :
  (forall (def : Def) (self : option SugaredValue),
      existsb reaches_return (fst (split_return (def_statements def))) = true ->
      exists e, to_ir E order def self = inl e)
  /\ (forall pre e s post,
        existsb reaches_return
          (fst (split_return (pre ++ Return e :: s :: post))) = true)
  /\ (forall (def : Def) (self : option SugaredValue) (schema : FunctionSchema)
             (st : CState),
        snd (split_return (def_statements def)) = None ->
        to_ir_body E order def self initial_state = Ok schema st ->
        exists v outputs nodes,
          st_outputs st = outputs ++ [v]
          /\ is_none_constant v
          /\ st_nodes st = nodes ++ [mkNode "prim::None" [] [v] [] []]).
Proof.
  split; [|split].
  - intros def self Hr. unfold to_ir.
    assert (Hf : fails (to_ir_body E order def self)).
    { unfold to_ir_body.
      apply fails_bind_r. intros _. apply fails_bind_r. intros _.
      apply fails_bind_r. intros arguments.
      destruct (split_return (def_statements def)) as [stmts return_stmt].
      apply fails_bind_l. apply fails_emitStatements; [|exact Hr].
      apply Forall_forall. intros s _. apply fails_emitStatement. }
    destruct (Hf initial_state) as [e ->]. eauto.
  - intros pre e s post. eapply existsb_In_reaches.
    apply split_return_keeps_inner_return.
  - intros def self schema st Hnone H. unfold to_ir_body in H.
    apply bind_Ok in H. destruct H as [[] [s1 [_ H]]].
    apply bind_Ok in H. destruct H as [[] [s2 [_ H]]].
    apply bind_Ok in H. destruct H as [arguments [s3 [_ H]]].
    destruct (split_return (def_statements def)) as [stmts return_stmt].
    simpl in Hnone. subst return_stmt.
    apply bind_Ok in H. destruct H as [[] [s4 [_ H]]].
    apply bind_Ok in H. destruct H as [ret_arg [s5 [Hret H]]]. inv H.
    unfold emitReturn in Hret.
    destruct (Nat.ltb 1 (List.length (returns (def_schema def))));
      [discriminate|].
    unfold insertConstant, insert1, new_value, insertNode, registerOutput,
      fresh, bind, ret, get, modify in Hret. simpl in Hret.
    destruct (negb _) in Hret; [discriminate|]. inv Hret. simpl.
    eexists _, _, _. split; [reflexivity|]. split; [|reflexivity].
    repeat split.
Qed.

End ReturnPosition.
(** ** Independence from the iteration order of the tables (C8) *)

Lemma set_insert_In x y s : In y (set_insert x s) <-> y = x \/ In y s.
Proof.
  induction s as [|z s IH]; simpl.
  - intuition congruence.
  - destruct (String_as_OT.compare_spec x z) as [Heq|Hlt|Hgt]; simpl.
    + subst. intuition congruence.
    + intuition congruence.
    + rewrite IH. intuition congruence.
Qed.

Lemma lt_irrefl_string x : ~ String_as_OT.lt x x.
Proof.
  apply (@StrictOrder_Irreflexive _ _ String_as_OT.lt_strorder).
Qed.

Lemma lt_trans_string x y z :
  String_as_OT.lt x y -> String_as_OT.lt y z -> String_as_OT.lt x z.
Proof.
  apply (@StrictOrder_Transitive _ _ String_as_OT.lt_strorder).
Qed.

Lemma set_insert_sorted x s :
  StronglySorted String_as_OT.lt s ->
  StronglySorted String_as_OT.lt (set_insert x s).
Proof.
  induction 1 as [|z s Hs IH Hall]; simpl.
  - constructor; constructor.
  - destruct (String_as_OT.compare_spec x z) as [Heq|Hlt|Hgt].
    + constructor; assumption.
    + constructor; [constructor; assumption|].
      constructor; [assumption|].
      eapply Forall_impl; [|exact Hall].
      intros a Ha. eapply lt_trans_string; eassumption.
    + constructor; [assumption|].
      apply Forall_forall. intros a Ha. apply set_insert_In in Ha.
      destruct Ha as [->|Ha]; [assumption|].
      rewrite Forall_forall in Hall. auto.
Qed.

Lemma sorted_same_members l1 : forall l2,
  StronglySorted String_as_OT.lt l1 -> StronglySorted String_as_OT.lt l2 ->
  (forall x, In x l1 <-> In x l2) -> l1 = l2.
Proof.
  induction l1 as [|a l1 IH]; intros [|b l2] H1 H2 Hm.
  - reflexivity.
  - exfalso. apply (proj2 (Hm b)). left. reflexivity.
  - exfalso. apply (proj1 (Hm a)). left. reflexivity.
  - inversion H1 as [|? ? Hs1 Ha]; subst. inversion H2 as [|? ? Hs2 Hb]; subst.
    rewrite Forall_forall in Ha, Hb.
    assert (Hab : a = b).
    { destruct (proj1 (Hm a) (or_introl eq_refl)) as [Hba|Hin]; [auto|].
      destruct (proj2 (Hm b) (or_introl eq_refl)) as [Hab|Hin']; [auto|].
      exfalso. apply (lt_irrefl_string a).
      eapply lt_trans_string; [apply Ha; exact Hin'|apply Hb; exact Hin]. }
    subst b. f_equal. apply IH; try assumption.
    intros x. split; intros Hx.
    + destruct (proj1 (Hm x) (or_intror Hx)) as [<-|Hin]; [|exact Hin].
      exfalso. exact (lt_irrefl_string _ (Ha _ Hx)).
    + destruct (proj2 (Hm x) (or_intror Hx)) as [<-|Hin]; [|exact Hin].
      exfalso. exact (lt_irrefl_string _ (Hb _ Hx)).
Qed.

Lemma insert_defined_sorted defined l : forall s,
  StronglySorted String_as_OT.lt s ->
  StronglySorted String_as_OT.lt (insert_defined defined l s).
Proof.
  unfold insert_defined.
  induction l as [|v l IH]; intros s Hs; simpl; [exact Hs|].
  apply IH. destruct (defined v); [apply set_insert_sorted|]; exact Hs.
Qed.

Lemma insert_defined_In defined l : forall s y,
  In y (insert_defined defined l s)
  <-> In y s \/ (In y l /\ defined y = true).
Proof.
  unfold insert_defined.
  induction l as [|v l IH]; intros s y; simpl.
  - intuition.
  - rewrite IH. destruct (defined v) eqn:Hd.
    + rewrite set_insert_In. intuition (subst; auto).
    + intuition (subst; auto). congruence.
Qed.

Lemma insert_defined_Permutation defined l1 l2 s1 s2 :
  Permutation l1 l2 ->
  StronglySorted String_as_OT.lt s1 -> s1 = s2 ->
  insert_defined defined l1 s1 = insert_defined defined l2 s2.
Proof.
  intros Hp Hs <-.
  apply sorted_same_members; try (apply insert_defined_sorted; exact Hs).
  intros x. rewrite !insert_defined_In.
  split; (intros [H|[H Hd]]; [left; exact H|right; split; [|exact Hd]]).
  - eapply Permutation_in; eassumption.
  - eapply Permutation_in; [apply Permutation_sym|]; eassumption.
Qed.

Lemma mutated_variables_insert_defined order save_true save_false next :
  mutated_variables order save_true save_false next
  = insert_defined
      (fun v => match findInAnyFrame v (save_true :: next) with
                | Some _ => true | None => false end)
      (definedVariables order save_false)
      (insert_defined
         (fun v => match findInAnyFrame v (save_false :: next) with
                   | Some _ => true | None => false end)
         (definedVariables order save_true) []).
Proof.
  unfold mutated_variables, insert_defined.
  assert (Hfold : forall (f : string -> option SugaredValue) l s,
             fold_left (fun s v => match f v with
                                   | Some _ => set_insert v s
                                   | None => s end) l s
             = fold_left (fun s v => if match f v with
                                        | Some _ => true | None => false end
                                     then set_insert v s else s) l s).
  { intros f l. induction l as [|v l IH]; intros s; simpl; [reflexivity|].
    rewrite IH. destruct (f v); reflexivity. }
  rewrite (Hfold (fun v => findInAnyFrame v (save_false :: next))).
  rewrite (Hfold (fun v => findInAnyFrame v (save_true :: next))).
  reflexivity.
Qed.

Section OrderIndependence.

Variable E : Externals.
Variables order1 order2 : list string -> list string.
Hypothesis order1_ok : iteration_order order1.
Hypothesis order2_ok : iteration_order order2.

Lemma mutated_variables_order :
  mutated_variables order1 = mutated_variables order2.
Proof.
  extensionality save_true. extensionality save_false. extensionality next.
  rewrite !mutated_variables_insert_defined.
  assert (Hp : forall f, Permutation (definedVariables order1 f)
                                     (definedVariables order2 f)).
  { intros f. unfold definedVariables.
    eapply Permutation_trans; [apply order1_ok|].
    apply Permutation_sym. apply order2_ok. }
  apply insert_defined_Permutation.
  - apply Hp.
  - apply insert_defined_sorted. constructor.
  - apply insert_defined_Permutation; [apply Hp|constructor|reflexivity].
Qed.

Lemma emitIfElseBlocks_order :
  emitIfElseBlocks E order1 = emitIfElseBlocks E order2.
Proof.
  unfold emitIfElseBlocks. rewrite mutated_variables_order. reflexivity.
Qed.

Lemma emitIf_order : emitIf E order1 = emitIf E order2.
Proof.
  unfold emitIf. rewrite emitIfElseBlocks_order. reflexivity.
Qed.

Lemma emitStatement_order stmt :
  emitStatement E order1 stmt = emitStatement E order2 stmt.
Proof.
  induction stmt as [c tb fb IHt IHf|c body IH|t a body IH| | | | | | | |]
    using Stmt_nested_ind; try reflexivity.
  - rewrite !emitStatement_If, emitIf_order. f_equal.
    + induction IHt as [|s l Hs _ IHl]; simpl; [reflexivity|].
      rewrite Hs, IHl. reflexivity.
    + induction IHf as [|s l Hs _ IHl]; simpl; [reflexivity|].
      rewrite Hs, IHl. reflexivity.
  - rewrite !emitStatement_While. f_equal.
    induction IH as [|s l Hs _ IHl]; simpl; [reflexivity|].
    rewrite Hs, IHl. reflexivity.
  - rewrite !emitStatement_ForRange. f_equal.
    induction IH as [|s l Hs _ IHl]; simpl; [reflexivity|].
    rewrite Hs, IHl. reflexivity.
Qed.

Lemma emitStatements_order stmts :
  emitStatements E order1 stmts = emitStatements E order2 stmts.
Proof.
  induction stmts as [|s l IH]; simpl; [reflexivity|].
  rewrite emitStatement_order, IH. reflexivity.
Qed.

End OrderIndependence.

(** C8.  Compilation is a function of the definition, of [self] and of the
    registries and the resolver (gathered in [E]): the one thing left open,
    the order in which the unordered tables of the two branches of an
    if/else are iterated, does not show in the result, because the names
    defined in both branches go through an ordered set.  Two compilations
    of the same body, each into a fresh graph, end with the same error or
    with the same graph (nodes, kinds, order, types) and schema. *)
Theorem compilation_deterministic :
  forall (E : Externals) (order1 order2 : list string -> list string)
         (def : Def) (self : option SugaredValue),
    iteration_order order1 -> iteration_order order2 ->
    to_ir E order1 def self = to_ir E order2 def self.
Proof.
  intros E order1 order2 def self H1 H2.
  unfold to_ir, to_ir_body.
  destruct (split_return (def_statements def)) as [stmts return_stmt].
  rewrite (emitStatements_order E order1 order2 H1 H2 stmts). reflexivity.
Qed.
(** * Examples

    The theorems above at inputs built from [Sample]. *)



(** An integer bound in the function's frame is rebound to an integer in the
    frame of a branch. *)
Lemma rebind_in_enclosing_frame_example :
  let env := [Sample.frame 1 [];
              Sample.frame 0 [("a", SimpleValue (Sample.input 100 IntType_get))]]
  in
  findInParentFrame "a" env = Some (SimpleValue (Sample.input 100 IntType_get))
  /\ exists this' next' st',
       setSugaredVar Sample.externals "a"
         (SimpleValue (Sample.int_constant 101 5)) env initial_state
       = Ok (this' :: next') st'
       /\ findInThisFrame "a" this'
          = Some (SimpleValue (Sample.int_constant 101 5)).
Proof.
  intros env. split; [reflexivity|].
  exact (rebind_in_enclosing_frame Sample.externals "a"
           (SimpleValue (Sample.int_constant 101 5))
           (SimpleValue (Sample.input 100 IntType_get))
           (Sample.frame 1 [])
           [Sample.frame 0 [("a", SimpleValue (Sample.input 100 IntType_get))]]
           initial_state eq_refl).
Defined.
(** [zeros(int[] size)] called as [zeros(a, b, c)]: the parameter takes the
    three arguments as one list. *)
Lemma list_parameter_takes_remaining_arguments_example :
  exists list fm st2,
    bind_parameter Sample.externals "" three_ints [] false
      (Sample.arg "size" Sample.IntList) [] [] Sample.no_binding initial_state
    = Ok (Some {| bd_self := None; bd_used_args := 3; bd_used_kwarg := [];
                  bd_positional_inputs := [list]; bd_type_env := [] |}, fm) st2
    /\ v_kind list = "prim::ListConstruct"
    /\ deref (v_type list) = ListType IntType_get
    /\ List.length (v_inputs list) = 3.
Proof.
  destruct (proj1 (list_parameter_takes_remaining_arguments Sample.externals
                     "" three_ints [] false (Sample.arg "size" Sample.IntList)
                     [] [] Sample.no_binding initial_state)
                  (positional (Sample.input 100 IntType_get))
                  (Sample.input 100 IntType_get) initial_state IntType_get
                  eq_refl eq_refl eq_refl eq_refl eq_refl I eq_refl eq_refl
                  eq_refl)
    as [Hbind Hlist].
  eexists _, _, _. split; [rewrite Hbind; vm_compute; reflexivity|].
  eapply Hlist. vm_compute; reflexivity.
Defined.

(** C6 as the specification words it does not hold for a parameter with a
    fixed arity: [pool(int[3] kernel_size)] called as [pool(a, b, c)].  The
    parameter is a list with a fixed arity in the last positional slot and
    the arguments are not lists, yet it takes the first argument only
    (broadcast to a list of three), and the candidate is rejected for the
    two left over. *)
Lemma fixed_arity_parameter_takes_one_argument :
  arg_N kernel_size = Some 3
  /\ is_ListType (arg_type kernel_size) = true
  /\ (exists bd fm st,
        bind_parameter Sample.externals "" three_ints [] false kernel_size []
                       [] Sample.no_binding initial_state
        = Ok (Some bd, fm) st
        /\ bd_used_args bd = 1
        /\ List.length three_ints = 3)
  /\ (exists st,
        tryMatchSchema Sample.externals
          (Sample.op "pool" [kernel_size] DynamicType_get) None three_ints []
          [] false initial_state
        = Ok (None, [("pool", DTooManyPositional 1 3)]) st).
Proof.
  split; [reflexivity|]. split; [reflexivity|]. split.
  - eexists _, _, _. split; [vm_compute; reflexivity|]. split; reflexivity.
  - eexists. vm_compute. reflexivity.
Qed.

(** An if/else that binds two names in both branches, compiled with the
    tables iterated in the order of insertion and in the reverse order. *)
Lemma compilation_deterministic_example :
  let body :=
    [If (BinOp K_Lt (Const 1) (Const 2))
        [Assign "a" (Const 1); Assign "b" (Const 2)]
        [Assign "b" (Const 3); Assign "a" (Const 4)]] in
  iteration_order (fun l => l)
  /\ iteration_order (@rev string)
  /\ to_ir Sample.externals (fun l => l) (Sample.def_of body) None
     = to_ir Sample.externals (@rev string) (Sample.def_of body) None.
Proof.
  intros body.
  assert (H1 : iteration_order (fun l => l))
    by (intros l; apply Permutation_refl).
  assert (H2 : iteration_order (@rev string))
    by (intros l; apply Permutation_sym, Permutation_rev).
  split; [exact H1|]. split; [exact H2|].
  exact (compilation_deterministic Sample.externals (fun l => l) (@rev string)
           (Sample.def_of body) None H1 H2).
Defined.


(** C9 as the specification words it does not hold for a [return] in a
    branch that the condition rules out at compile time: the body below has
    a [return] which is not its last statement, and compiles. *)
Lemma return_in_skipped_branch_accepted :
  let body := [If (BinOp K_Is NoneLit NoneLit) [Pass] [Return (Const 1)]] in
  existsb contains_return
    (fst (split_return (def_statements (Sample.def_of body)))) = true
  /\ exists graph schema, Sample.compile body = inr (graph, schema).
Proof.
  split; [reflexivity|]. eexists _, _. vm_compute. reflexivity.
Qed.



(** * Further properties of the scope stack *)

Lemma string_gt_asym a b : string_gt a b = true -> string_gt b a = false.
Proof.
  unfold string_gt. intros H.
  destruct (String_as_OT.compare_spec a b) as [Heq|Hlt|Hgt]; try discriminate.
  destruct (String_as_OT.compare_spec b a) as [Heq'|Hlt'|Hgt']; try reflexivity.
  exfalso. apply (lt_irrefl_string a). eapply lt_trans_string; eassumption.
Qed.

Lemma capture_pos_le name l : capture_pos name l <= List.length l.
Proof.
  induction l as [|c l IH]; simpl; [lia|].
  destruct (string_gt name c); lia.
Qed.

Lemma insert_at_length {A} p (a : A) l :
  List.length (insert_at p a l) = S (List.length l).
Proof.
  revert p. induction l as [|x l IH]; intros [|p]; simpl; try reflexivity.
  rewrite IH. reflexivity.
Qed.

Lemma insert_at_nth {A} p (a : A) l :
  p <= List.length l -> nth_error (insert_at p a l) p = Some a.
Proof.
  revert p. induction l as [|x l IH]; intros [|p] Hp; simpl in *;
    try reflexivity; try lia.
  apply IH. lia.
Qed.

Lemma remove_insert_at {A} p (a : A) l :
  p <= List.length l -> remove_nth p (insert_at p a l) = l.
Proof.
  revert p. induction l as [|x l IH]; intros [|p] Hp; simpl in *;
    try reflexivity; try lia.
  rewrite IH by lia. reflexivity.
Qed.

Lemma insert_alphabetical name l :
  alphabetical l -> alphabetical (insert_at (capture_pos name l) name l).
Proof.
  unfold alphabetical.
  induction l as [|c l IH]; intros Hs; simpl.
  - constructor; constructor.
  - destruct (string_gt name c) eqn:Hgt; simpl.
    + inversion Hs as [|? ? Hs' Hhd]; subst.
      constructor; [apply IH; exact Hs'|].
      destruct l as [|c' l]; simpl.
      * constructor. apply string_gt_asym. exact Hgt.
      * destruct (string_gt name c') eqn:Hgt'; simpl.
        -- inversion Hhd; subst. constructor. assumption.
        -- constructor. apply string_gt_asym. exact Hgt.
    + constructor; [exact Hs|]. constructor. exact Hgt.
Qed.

Lemma createCapturedInput_frame orig name this st sv this' st' :
  createCapturedInput orig name this st = Ok (sv, this') st' ->
  exists v,
    sv = SimpleValue v
    /\ v_type v = v_type orig
    /\ captured_inputs this'
       = insert_at (capture_pos name (captured_inputs this)) name
                   (captured_inputs this)
    /\ f_inputs this'
       = insert_at (S (capture_pos name (captured_inputs this))) v
                   (f_inputs this)
    /\ value_table this' = insert name sv (value_table this).
Proof.
  unfold createCapturedInput, bind, fresh, ret. intros H.
  injection H as Hsv Hthis _. subst sv this'.
  eexists. repeat split; reflexivity.
Qed.

(** X1.  [createCapturedInput] keeps a loop frame well formed.  The captured
    names stay in alphabetical order whatever the order in which the body
    uses them, the block keeps one input per captured name after the trip
    count, the new input has the type of the captured value and sits in the
    slot of its name, and the name is bound to it.  Removing that slot and
    that name gives back the inputs and the names as they were. *)
Theorem captured_inputs_sorted_and_aligned :
  forall (orig : Value) (name : string) (this : Frame) (st : CState)
         (sv : SugaredValue) (this' : Frame) (st' : CState),
    createCapturedInput orig name this st = Ok (sv, this') st' ->
    alphabetical (captured_inputs this) ->
    inputs_aligned this ->
    let pos := capture_pos name (captured_inputs this) in
    alphabetical (captured_inputs this')
    /\ inputs_aligned this'
    /\ nth_error (captured_inputs this') pos = Some name
    /\ (exists v, sv = SimpleValue v
                  /\ v_type v = v_type orig
                  /\ nth_error (f_inputs this') (S pos) = Some v
                  /\ findInThisFrame name this' = Some sv)
    /\ remove_nth pos (captured_inputs this') = captured_inputs this
    /\ remove_nth (S pos) (f_inputs this') = f_inputs this.
Proof.
  intros orig name this st sv this' st' H Hsorted Haligned pos.
  unfold inputs_aligned in *.
  assert (Hpos : pos <= List.length (captured_inputs this))
    by apply capture_pos_le.
  destruct (createCapturedInput_frame _ _ _ _ _ _ _ H)
    as [v [-> [Hty [Hcap [Hin Htab]]]]].
  fold pos in Hcap, Hin. rewrite Hcap, Hin.
  split; [apply insert_alphabetical; exact Hsorted|].
  split; [rewrite !insert_at_length; rewrite Haligned; reflexivity|].
  split; [apply insert_at_nth; exact Hpos|].
  split.
  - exists v. split; [reflexivity|]. split; [exact Hty|].
    split; [apply insert_at_nth; lia|].
    unfold findInThisFrame. rewrite Htab. apply lookup_insert_eq.
  - split; [apply remove_insert_at; exact Hpos|].
    apply remove_insert_at. lia.
Qed.
(** The methods of [Environment] do not read the stack of the compilation
    in progress: they work on the chain they are given. *)
Lemma createCapturedInputIfNeeded_set_env ident env e st :
  createCapturedInputIfNeeded ident env (set_env e st)
  = match createCapturedInputIfNeeded ident env st with
    | Ok a st' => Ok a (set_env e st')
    | Err x => Err x
    end.
Proof.
  revert st. induction env as [|this next IH]; intros st; [reflexivity|].
  simpl. destruct (findInThisFrame ident this); [reflexivity|].
  unfold bind at 1 3. rewrite IH.
  destruct (createCapturedInputIfNeeded ident next st) as [[r next'] st1|x];
    [|reflexivity].
  destruct r as [p|]; [|reflexivity].
  destruct (String.eqb _ _); [|reflexivity].
  destruct (asSimple p); reflexivity.
Qed.

Lemma createCapturedInputIfNeeded_idem ident env :
  forall st r env' st',
    createCapturedInputIfNeeded ident env st = Ok (r, env') st' ->
    createCapturedInputIfNeeded ident env' st' = Ok (r, env') st'.
Proof.
  induction env as [|this next IH]; intros st r env' st' H.
  - inv H. reflexivity.
  - simpl in H. destruct (findInThisFrame ident this) as [in_frame|] eqn:Hthis.
    + inv H. simpl. rewrite Hthis. reflexivity.
    + apply bind_Ok in H. destruct H as [[from_parent next'] [st1 [Hrec H]]].
      pose proof (IH _ _ _ _ Hrec) as Hagain.
      destruct from_parent as [p|].
      * destruct (String.eqb (getBlockOwningKind this) "prim::Loop") eqn:Hloop.
        -- destruct (asSimple p) as [simple_val|] eqn:Hsimple.
           ++ apply bind_Ok in H. destruct H as [[sv this'] [st2 [Hc H]]].
              inv H.
              destruct (createCapturedInput_total simple_val ident this st1)
                as [sv0 [this0 [st0 [Hc0 [_ [Hfind _]]]]]].
              rewrite Hc in Hc0. inv Hc0.
              simpl. rewrite Hfind. reflexivity.
           ++ inv H. simpl. rewrite Hthis.
              unfold bind. rewrite Hagain. rewrite Hloop, Hsimple. reflexivity.
        -- inv H. simpl. rewrite Hthis.
           unfold bind. rewrite Hagain. rewrite Hloop. reflexivity.
      * inv H. simpl. rewrite Hthis. unfold bind. rewrite Hagain. reflexivity.
Qed.

Section Lookup.

Variable E : Externals.

Lemma getSugaredVar_set_env ident env e st :
  getSugaredVar E ident env (set_env e st)
  = match getSugaredVar E ident env st with
    | Ok a st' => Ok a (set_env e st')
    | Err x => Err x
    end.
Proof.
  unfold getSugaredVar, bind. rewrite createCapturedInputIfNeeded_set_env.
  destruct (createCapturedInputIfNeeded ident env st) as [[r env'] st1|x];
    [|reflexivity].
  destruct (or_else _ _); [reflexivity|].
  destruct (findVariableTypeError ident env'); reflexivity.
Qed.

Lemma getSugaredVar_idem ident env st sv env' st' :
  getSugaredVar E ident env st = Ok (sv, env') st' ->
  getSugaredVar E ident env' st' = Ok (sv, env') st'.
Proof.
  unfold getSugaredVar. intros H.
  apply bind_Ok in H. destruct H as [[retval env1] [st1 [Hc H]]].
  pose proof (createCapturedInputIfNeeded_idem _ _ _ _ _ _ Hc) as Hagain.
  destruct (or_else (or_else retval (lookup ident globals)) (resolver E ident))
    as [r|] eqn:Hr.
  - inv H. rewrite (bind_Ok_l _ _ _ _ _ Hagain). cbv beta iota zeta.
    rewrite Hr. reflexivity.
  - destruct (findVariableTypeError ident env1); discriminate.
Qed.

Lemma set_env_idem e st : set_env e (set_env e st) = set_env e st.
Proof. reflexivity. Qed.

Lemma env_getSugaredVar_again ident st sv st' :
  env_getSugaredVar E ident st = Ok sv st' ->
  env_getSugaredVar E ident st' = Ok sv st'.
Proof.
  intros H. unfold env_getSugaredVar, on_env in H.
  unfold bind, get, modify, ret in H.
  destruct (getSugaredVar E ident (environment_stack st) st)
    as [[sv0 env'] st1|x] eqn:Hget; [|discriminate].
  inv H.
  pose proof (getSugaredVar_idem _ _ _ _ _ _ Hget) as Hagain.
  unfold env_getSugaredVar, on_env, bind, get, modify, ret.
  cbn [environment_stack set_env].
  rewrite getSugaredVar_set_env, Hagain. reflexivity.
Qed.

(** Reading a value is reading the name, then asking for a plain value. *)
Lemma env_getVar_valueOf ident st :
  env_getVar E ident st = valueOf (env_getSugaredVar E ident) st.
Proof.
  unfold env_getVar, env_getSugaredVar, valueOf, on_env, getVar, bind, get,
    modify, ret.
  destruct (getSugaredVar E ident (environment_stack st) st)
    as [[sv env'] st1|x]; [|reflexivity].
  destruct sv; reflexivity.
Qed.

(** X2.  Reading a variable is idempotent.  A first read may add block
    inputs to the enclosing loops; a second read of the same name returns
    the same value and leaves the whole state, scope stack included, as the
    first read left it. *)
Theorem variable_read_is_idempotent :
  forall (ident : string) (st : CState),
    (forall sv st',
        env_getSugaredVar E ident st = Ok sv st' ->
        env_getSugaredVar E ident st' = Ok sv st')
    /\ (forall v st',
          env_getVar E ident st = Ok v st' ->
          env_getVar E ident st' = Ok v st').
Proof.
  intros ident st. split.
  - intros sv st'. apply env_getSugaredVar_again.
  - intros v st'. rewrite !env_getVar_valueOf. unfold valueOf. intros H.
    apply bind_Ok in H. destruct H as [sv [s1 [Hget Hval]]].
    assert (s1 = st') by (destruct sv; inv Hval; reflexivity). subst s1.
    rewrite (bind_Ok_l _ _ _ _ _ (env_getSugaredVar_again _ _ _ _ Hget)).
    exact Hval.
Qed.

(** X3.  An assignment binds the name in the innermost frame: after
    [set(name, value)] a lookup of [name] gives [value] without touching
    the frames again, and the binding of every other name, in whatever
    frame it lives, is what it was. *)
Theorem assignment_then_lookup :
  forall (name : string) (value : SugaredValue) (env env' : list Frame)
         (st st' : CState),
    setSugaredVar E name value env st = Ok env' st' ->
    findInAnyFrame name env' = Some value
    /\ getSugaredVar E name env' st' = Ok (value, env') st'
    /\ List.length env' = List.length env
    /\ (forall k, k <> name -> findInAnyFrame k env' = findInAnyFrame k env).
Proof.
  intros name value env env' st st' H.
  unfold setSugaredVar in H.
  destruct env as [|this next]; [discriminate|].
  apply bind_Ok in H. destruct H as [[] [st1 [_ H]]].
  apply bind_Ok in H. destruct H as [[] [st2 [_ H]]].
  apply bind_Ok in H. destruct H as [env1 [st3 [Hcap H]]].
  assert (Henv1 : List.length env1 = List.length (this :: next)
                  /\ forall k, k <> name ->
                       findInAnyFrame k env1 = findInAnyFrame k (this :: next)).
  { destruct (asSimple value).
    - apply bind_Ok in Hcap. destruct Hcap as [[r e1] [s1 [Hc Hret]]].
      inv Hret.
      destruct (createCapturedInputIfNeeded_total name (this :: next) st2)
        as [r0 [e0 [s0 [Hc0 [_ [Hlen [_ [_ Hother]]]]]]]].
      rewrite Hc in Hc0. inv Hc0. auto.
    - inv Hcap. auto. }
  destruct Henv1 as [Hlen Hother].
  destruct env1 as [|this' next']; [discriminate|]. inv H.
  assert (Hthis : findInThisFrame name
                    (set_value_table (insert name value (value_table this'))
                                     this') = Some value)
    by (unfold findInThisFrame; simpl; apply lookup_insert_eq).
  split; [simpl; rewrite Hthis; reflexivity|].
  split.
  - unfold getSugaredVar, bind. simpl. rewrite Hthis. reflexivity.
  - split; [exact Hlen|].
    intros k Hk. rewrite <- (Hother k Hk). simpl.
    unfold findInThisFrame. simpl. rewrite lookup_insert_neq by exact Hk.
    reflexivity.
Qed.

End Lookup.

(** X4.  A deferred type error is scoped to the function: recorded from any
    depth it lands in the outermost frame, so it is found from every frame
    pushed on top of the chain; the errors of other names, the bindings and
    all the frames but the outermost are untouched. *)
Theorem type_error_is_function_scoped :
  forall (name : string) (msg : ErrorReport) (env pre : list Frame),
    env <> [] ->
    findVariableTypeError name (pre ++ setVariableTypeError name msg env)
    = Some msg
    /\ (forall other, other <> name ->
          findVariableTypeError other (setVariableTypeError name msg env)
          = findVariableTypeError other env)
    /\ (forall k, findInAnyFrame k (setVariableTypeError name msg env)
                  = findInAnyFrame k env)
    /\ removelast (setVariableTypeError name msg env) = removelast env.
Proof.
  intros name msg env pre Hne. split; [|split; [|split]].
  - assert (Hset : setVariableTypeError name msg env <> [])
      by (destruct env; [contradiction|apply setVariableTypeError_nonempty]).
    induction pre as [|f pre IH].
    + apply findVariableTypeError_set. exact Hne.
    + change ((f :: pre) ++ setVariableTypeError name msg env)
        with (f :: (pre ++ setVariableTypeError name msg env)).
      rewrite findVariableTypeError_cons; [exact IH|].
      intros Hnil. apply app_eq_nil in Hnil. apply Hset. apply Hnil.
  - intros other Hother. clear Hne.
    induction env as [|f env IH]; [reflexivity|].
    destruct env as [|g env].
    + simpl. apply lookup_insert_neq. exact Hother.
    + rewrite setVariableTypeError_cons.
      rewrite !findVariableTypeError_cons
        by (try apply setVariableTypeError_nonempty; discriminate).
      exact IH.
  - intros k. apply findInAnyFrame_set_error.
  - clear Hne. induction env as [|f env IH]; [reflexivity|].
    destruct env as [|g env]; [reflexivity|].
    rewrite setVariableTypeError_cons.
    change (removelast (f :: g :: env)) with (f :: removelast (g :: env)).
    rewrite <- IH.
    destruct (setVariableTypeError name msg (g :: env)) eqn:Hs;
      [exfalso; exact (setVariableTypeError_nonempty _ _ _ _ Hs)|].
    reflexivity.
Qed.
(** * Constants, tuples and loop inputs *)

Lemma find_constant_cons z z' v m :
  find_constant z ((z', v) :: m)
  = if Z.eqb z' z then Some v else find_constant z m.
Proof.
  unfold find_constant. simpl. destruct (Z.eqb z' z); reflexivity.
Qed.

(** X5.  Integer literals are interned.  [materializeConstant] never fails;
    the constant it returns holds the requested integer; asking again for
    the same integer returns the same value and changes nothing; a new
    constant goes to the front of the root block, never to the insertion
    point; the constants of other integers are not affected. *)
Theorem integer_constants_are_interned :
  forall (val : Z) (st : CState),
    interned st ->
    exists v st',
      materializeConstant val st = Ok v st'
      /\ interned st'
      /\ toIValue v = Some (IVInt val)
      /\ materializeConstant val st' = Ok v st'
      /\ st_nodes st' = st_nodes st
      /\ (forall z, z <> val ->
            find_constant z (integral_constants st')
            = find_constant z (integral_constants st)).
Proof.
  intros val st Hin. unfold materializeConstant, bind, get.
  destruct (find_constant val (integral_constants st)) as [c|] eqn:Hfind.
  - exists c, st. unfold ret. rewrite Hfind.
    destruct (Hin _ _ Hfind) as [Hc _].
    repeat split; auto; apply (Hin z v); assumption.
  - unfold fresh, modify, ret.
    eexists _, _. split; [reflexivity|].
    unfold interned.
    change (integral_constants (set_fresh (S (st_fresh st)) st))
      with (integral_constants st).
    match goal with
    | |- context [integral_constants (set_integral_constants ?m ?s)] =>
        change (integral_constants (set_integral_constants m s)) with m
    end.
    change (integral_constants (set_fresh (S (st_fresh st)) st))
      with (integral_constants st).
    split; [|split; [reflexivity|split; [|split; [reflexivity|]]]].
    + intros z v. rewrite find_constant_cons.
      destruct (Z.eqb val z) eqn:Hz.
      * apply Z.eqb_eq in Hz. subst z. intros H. inv H.
        repeat split; reflexivity.
      * apply Hin.
    + rewrite find_constant_cons, Z.eqb_refl. reflexivity.
    + intros z Hz. rewrite find_constant_cons.
      destruct (Z.eqb val z) eqn:Heq; [|reflexivity].
      apply Z.eqb_eq in Heq. congruence.
Qed.

(** X6.  Packing and unpacking are inverse.  One value is packed as
    itself; any other number of values is packed into one tuple, built by
    one [prim::TupleConstruct] node, and unpacking that tuple gives the
    values back without emitting a node. *)
Theorem pack_then_unpack :
  (forall (v : Value) (st : CState), packOutputs [v] st = Ok v st)
  /\ (forall (values : list Value) (st : CState) (tup : Value) (st' : CState),
        List.length values <> 1 ->
        packOutputs values st = Ok tup st' ->
        createTupleUnpack tup st' = Ok values st'
        /\ deref (v_type tup) = TupleType (map v_type values)
        /\ st_nodes st'
           = st_nodes st ++ [mkNode "prim::TupleConstruct" values [tup] [] []]).
Proof.
  split; [reflexivity|].
  intros values st tup st' Hlen H.
  assert (Hc : createTuple values st = Ok tup st').
  { destruct values as [|v [|w values]]; try exact H.
    exfalso. apply Hlen. reflexivity. }
  clear H. unfold createTuple, create_type, insert1, new_value, insertNode,
    fresh, bind, ret, get, modify in Hc.
  injection Hc as Htup Hst. subst tup st'.
  repeat split.
Qed.
Lemma name_le_iff a b :
  name_le a b <-> a = b \/ String_as_OT.lt a b.
Proof.
  unfold name_le, string_gt.
  destruct (String_as_OT.compare_spec a b) as [Heq|Hlt|Hgt].
  - intuition.
  - intuition.
  - split; [discriminate|]. intros [->|Hlt].
    + exfalso. exact (lt_irrefl_string _ Hgt).
    + exfalso. apply (lt_irrefl_string a). eapply lt_trans_string; eassumption.
Qed.

Lemma name_le_trans a b c : name_le a b -> name_le b c -> name_le a c.
Proof.
  rewrite !name_le_iff. intros [->|H1] [->|H2]; auto.
  right. eapply lt_trans_string; eassumption.
Qed.

Lemma remove_nth_length {A} i (l : list A) x :
  nth_error l i = Some x -> S (List.length (remove_nth i l)) = List.length l.
Proof.
  revert i. induction l as [|y l IH]; intros [|i] H; simpl in *;
    try discriminate; try reflexivity.
  f_equal. apply IH. exact H.
Qed.

Lemma remove_nth_incl {A} i (l : list A) : incl (remove_nth i l) l.
Proof.
  revert i. induction l as [|y l IH]; intros [|i]; simpl.
  - apply incl_refl.
  - apply incl_refl.
  - apply incl_tl, incl_refl.
  - intros x [->|Hx]; [left; reflexivity|right; apply (IH i); exact Hx].
Qed.

Lemma remove_nth_strongly_sorted {A} (R : A -> A -> Prop) i l :
  StronglySorted R l -> StronglySorted R (remove_nth i l).
Proof.
  revert i. induction l as [|y l IH]; intros [|i] Hs; simpl; try exact Hs.
  - inversion Hs; assumption.
  - inversion Hs as [|? ? Hs' Hall]; subst. constructor; [apply IH; exact Hs'|].
    apply Forall_forall. intros x Hx. rewrite Forall_forall in Hall.
    apply Hall. eapply remove_nth_incl. exact Hx.
Qed.

Lemma remove_nth_alphabetical i l :
  alphabetical l -> alphabetical (remove_nth i l).
Proof.
  unfold alphabetical. intros H.
  apply StronglySorted_Sorted. apply remove_nth_strongly_sorted.
  apply Sorted_StronglySorted; [|exact H].
  intros a b c. apply name_le_trans.
Qed.

Lemma deleteExtraInputs_from_inv i :
  forall lb st lb' st',
    deleteExtraInputs_from i lb st = Ok lb' st' ->
    body_aligned lb ->
    st' = st
    /\ body_aligned lb'
    /\ value_table (body_frame lb') = value_table (body_frame lb)
    /\ nth_error (f_inputs (body_frame lb')) 0
       = nth_error (f_inputs (body_frame lb)) 0
    /\ incl (captured_inputs (body_frame lb')) (captured_inputs (body_frame lb))
    /\ (alphabetical (captured_inputs (body_frame lb)) ->
        alphabetical (captured_inputs (body_frame lb'))).
Proof.
  induction i as [|i IH]; intros lb st lb' st' H Hal.
  - inv H. repeat split; try apply Hal; auto using incl_refl.
  - cbn [deleteExtraInputs_from] in H.
    destruct (nth_error (f_inputs (body_frame lb)) (S i)) as [input|] eqn:Hin;
      [|discriminate].
    destruct (nth_error (body_outputs lb) (S i)) as [output|] eqn:Hout;
      [|discriminate].
    destruct (value_eqb input output); [|eapply IH; eassumption].
    destruct (nth_error (captured_inputs (body_frame lb)) i) as [name|] eqn:Hcap;
      [|discriminate].
    unfold bind, get in H.
    destruct (findInParentFrame name (body_frame lb :: environment_stack st))
      as [sv|]; [|discriminate].
    destruct (asValue sv st) as [orig st1|] eqn:Hval; [|discriminate].
    assert (st1 = st) by (destruct sv; inv Hval; reflexivity). subst st1.
    apply IH in H.
    + destruct H as [-> [Hal' [Htab [Hzero [Hincl Hsorted]]]]].
      split; [reflexivity|]. split; [exact Hal'|].
      split; [rewrite Htab; reflexivity|].
      split; [rewrite Hzero; simpl; destruct (f_inputs (body_frame lb));
              reflexivity|].
      split.
      * intros x Hx. apply Hincl in Hx. simpl in Hx.
        eapply remove_nth_incl. exact Hx.
      * intros Hs. apply Hsorted. simpl. apply remove_nth_alphabetical.
        exact Hs.
    + destruct Hal as [Hlen Hcaplen]. unfold body_aligned, inputs_aligned in *.
      cbn [body_frame body_outputs f_inputs captured_inputs set_loop_io].
      pose proof (remove_nth_length _ _ _ Hin) as L1.
      pose proof (remove_nth_length _ _ _ Hcap) as L2.
      assert (Hout' : nth_error (map (subst_value (v_id input) orig)
                                     (body_outputs lb)) (S i)
                      = Some (subst_value (v_id input) orig output))
        by (rewrite nth_error_map, Hout; reflexivity).
      pose proof (remove_nth_length _ _ _ Hout') as L3.
      rewrite length_map in L3. split; lia.
Qed.

Lemma deleteExtraInputs_check lb :
  negb (Nat.eqb (List.length (f_inputs (body_frame lb)))
                (List.length (body_outputs lb)))
  || negb (Nat.eqb (List.length (f_inputs (body_frame lb)))
                   (List.length (captured_inputs (body_frame lb)) + 1))
  = false <-> body_aligned lb.
Proof.
  unfold body_aligned, inputs_aligned.
  rewrite orb_false_iff, !negb_false_iff, !Nat.eqb_eq.
  split; intros [? ?]; split; lia.
Qed.

Lemma deleteExtraInputs_aligned lb st lb' st' :
  deleteExtraInputs lb st = Ok lb' st' -> body_aligned lb'.
Proof.
  unfold deleteExtraInputs. intros H.
  destruct (negb _ || negb _) eqn:Hc; [discriminate|].
  apply deleteExtraInputs_check in Hc.
  apply (deleteExtraInputs_from_inv _ _ _ _ _ H Hc).
Qed.

(** X7.  [deleteExtraInputs] keeps the body block of a loop well formed.
    On success the compilation state is unchanged; the block still has as
    many outputs as inputs and one input per captured name after the trip
    count, which is kept; the names still captured are among those captured
    before, in the same alphabetical order; the bindings of the frame are
    not touched.  When every captured name was reassigned in the body
    nothing is deleted. *)
Theorem deleteExtraInputs_keeps_body_aligned :
  forall (lb : LoopBody) (st : CState),
    (forall lb' st',
        deleteExtraInputs lb st = Ok lb' st' ->
        st' = st
        /\ body_aligned lb /\ body_aligned lb'
        /\ value_table (body_frame lb') = value_table (body_frame lb)
        /\ nth_error (f_inputs (body_frame lb')) 0
           = nth_error (f_inputs (body_frame lb)) 0
        /\ incl (captured_inputs (body_frame lb'))
                (captured_inputs (body_frame lb))
        /\ (alphabetical (captured_inputs (body_frame lb)) ->
            alphabetical (captured_inputs (body_frame lb'))))
    /\ (body_aligned lb -> all_reassigned lb ->
        deleteExtraInputs lb st = Ok lb st)
    /\ (~ body_aligned lb ->
        deleteExtraInputs lb st = Err (External "JIT_ASSERT")).
Proof.
  intros lb st.
  pose proof (deleteExtraInputs_check lb) as Hcheck.
  split; [|split].
  - intros lb' st' H. unfold deleteExtraInputs in H.
    clear Hcheck.
    destruct (negb _ || negb _) eqn:Hc; [discriminate|].
    apply deleteExtraInputs_check in Hc.
    destruct (deleteExtraInputs_from_inv _ _ _ _ _ H Hc)
      as [? [? [? [? [? ?]]]]].
    repeat split; try apply Hc; try assumption; try apply H1.
  - intros Hal Hall. unfold deleteExtraInputs.
    rewrite (proj2 Hcheck Hal).
    assert (Hloop : forall i,
              i < List.length (f_inputs (body_frame lb)) ->
              deleteExtraInputs_from i lb st = Ok lb st).
    { induction i as [|i IH]; intros Hi; [reflexivity|].
      cbn [deleteExtraInputs_from].
      destruct (nth_error (f_inputs (body_frame lb)) (S i)) as [input|] eqn:Hin;
        [|apply nth_error_None in Hin; lia].
      destruct (nth_error (body_outputs lb) (S i)) as [output|] eqn:Hout;
        [|apply nth_error_None in Hout; destruct Hal; lia].
      rewrite (Hall _ _ _ Hin Hout). apply IH. lia. }
    apply Hloop. destruct Hal as [_ Hal]. unfold inputs_aligned in Hal. lia.
  - intros Hn. unfold deleteExtraInputs. clear Hcheck.
    destruct (negb _ || negb _) eqn:Hc; [reflexivity|].
    exfalso. apply Hn. apply deleteExtraInputs_check. exact Hc.
Qed.
(** * Well-formed control-flow nodes *)

Lemma merged_snoc E c ts fs outs tv fv out :
  merged E c ts fs outs ->
  unifyTypes E (v_type tv) (v_type fv) = Some (v_type out) ->
  v_kind out = "prim::If" -> v_inputs out = [c] ->
  merged E c (ts ++ [tv]) (fs ++ [fv]) (outs ++ [out]).
Proof.
  induction 1; intros; simpl; constructor; auto. constructor.
Qed.

Lemma merged_length E c ts fs outs :
  merged E c ts fs outs ->
  List.length ts = List.length outs /\ List.length fs = List.length outs.
Proof. induction 1; simpl; [auto|]. destruct IHmerged. split; congruence. Qed.

Section ControlFlow.

Variable E : Externals.

Lemma reconcile_merged cond_value x br st br' st' :
  reconcile E cond_value x br st = Ok br' st' ->
  merged E cond_value (true_outputs br) (false_outputs br) (if_outputs br) ->
  merged E cond_value (true_outputs br') (false_outputs br') (if_outputs br').
Proof.
  unfold reconcile. intros H Hm.
  apply bind_Ok in H. destruct H as [[tv st_true] [s1 [_ H]]].
  apply bind_Ok in H. destruct H as [[fv st_false] [s2 [_ H]]].
  destruct (unifyTypes E (v_type tv) (v_type fv)) as [unified|] eqn:Hu.
  - apply bind_Ok in H. destruct H as [out [s3 [Hout H]]].
    apply bind_Ok in H. destruct H as [[] [s4 [_ H]]].
    inv H. simpl.
    unfold new_value, bind, fresh, get, ret in Hout. inv Hout.
    apply merged_snoc; auto.
  - apply bind_Ok in H. destruct H as [s0 [s3 [_ H]]].
    destruct (or_else _ _); [discriminate|].
    apply bind_Ok in H. destruct H as [[u f] [s4 [_ H]]].
    inv H. exact Hm.
Qed.

Lemma reconcile_all_merged cond_value xs :
  forall br st br' st',
    reconcile_all E cond_value xs br st = Ok br' st' ->
    merged E cond_value (true_outputs br) (false_outputs br) (if_outputs br) ->
    merged E cond_value (true_outputs br') (false_outputs br') (if_outputs br').
Proof.
  induction xs as [|x xs IH]; intros br st br' st' H Hm; simpl in H.
  - inv H. exact Hm.
  - apply bind_Ok in H. destruct H as [br1 [s1 [H1 H]]].
    eapply IH; [exact H|]. eapply reconcile_merged; eassumption.
Qed.

(** X8.  The node of an if/else statement is well formed.  The general
    lowering appends one prim::If node on the condition whose two blocks
    take no input and have exactly as many outputs as the node; the type of
    each node output is the unification of the types of the two block
    outputs it merges. *)
Theorem if_node_outputs_are_merged :
  forall (order : list string -> list string) (cond_value : Value)
         (trueBranch falseBranch : M unit) (st st' : CState),
    emitIfElseBlocks E order cond_value trueBranch falseBranch st = Ok tt st' ->
    exists outs true_nodes false_nodes true_outs false_outs,
      st_nodes st'
      = st_nodes st
        ++ [mkNode "prim::If" [cond_value] outs
              [mkBlock [] true_nodes true_outs;
               mkBlock [] false_nodes false_outs] []]
      /\ merged E cond_value true_outs false_outs outs
      /\ List.length true_outs = List.length outs
      /\ List.length false_outs = List.length outs.
Proof.
  intros order cond_value trueBranch falseBranch st st' H.
  unfold emitIfElseBlocks in H.
  apply bind_Ok in H. destruct H as [tblk [sa [Ha H]]].
  apply bind_Ok in H. destruct H as [fblk [sb [Hb H]]].
  apply bind_Ok in H. destruct H as [[st_true tn] [sc [Ht H]]].
  apply bind_Ok in H. destruct H as [[st_false fn] [sd [Hf H]]].
  apply bind_Ok in H. destruct H as [s0 [se [Hg H]]].
  apply bind_Ok in H. destruct H as [br [sf [Hr H]]].
  unfold insertNode, modify in H. inv H.
  pose proof (reconcile_all_merged _ _ _ _ _ _ Hr (merged_nil E cond_value))
    as Hm.
  apply keeps_reconcile_all in Hr. apply keeps_get in Hg.
  apply keeps_emitSingleIfBranch in Hf. apply keeps_emitSingleIfBranch in Ht.
  apply keeps_fresh in Hb. apply keeps_fresh in Ha.
  eexists _, _, _, _, _. split; [simpl; f_equal; congruence|].
  split; [exact Hm|]. apply (merged_length _ _ _ _ _ Hm).
Qed.

Lemma register_carried_length xs :
  forall block_inputs st ins outs st',
    register_carried E xs block_inputs st = Ok (ins, outs) st' ->
    List.length ins = List.length xs /\ List.length outs = List.length xs
    /\ Forall2 (fun out input => v_type out = v_type input /\
                                 v_kind out = "prim::Loop")
               outs (firstn (List.length xs) block_inputs)
    /\ st_nodes st' = st_nodes st.
Proof.
  induction xs as [|x xs IH]; intros block_inputs st ins outs st' H.
  - simpl in H. inv H. simpl. repeat split; constructor.
  - simpl in H. destruct block_inputs as [|input block_inputs];
      [discriminate|].
    apply bind_Ok in H. destruct H as [outer [s1 [H1 H]]].
    apply bind_Ok in H. destruct H as [out [s2 [H2 H]]].
    apply bind_Ok in H. destruct H as [[] [s3 [H3 H]]].
    apply bind_Ok in H. destruct H as [[ins' outs'] [s4 [H4 H]]].
    inv H. destruct (IH _ _ _ _ _ H4) as [L1 [L2 [Hty Hn]]].
    assert (Hk1 : st_nodes s1 = st_nodes st).
    { unfold env_getVar in H1.
      eapply keeps_on_env; [|exact H1]. intros. apply keeps_getVar. }
    assert (Hout : v_type out = v_type input /\ v_kind out = "prim::Loop").
    { unfold new_value, bind, fresh, get, ret in H2. inv H2. auto. }
    apply keeps_new_value in H2. apply keeps_env_setVar in H3.
    simpl. split; [congruence|]. split; [congruence|].
    split; [|congruence].
    constructor; [exact Hout|exact Hty].
Qed.
(** X9.  The node of a loop is well formed.  A loop that compiles appends
    one prim::Loop node with one block.  After the trip count and the
    start condition the node has one input per loop-carried variable and it
    has one output per loop-carried variable; the block has one input more
    (the loop counter) and one output more (the continue condition); each
    node output has the type of the block input of its variable. *)
Theorem loop_node_is_aligned :
  forall (max_trip_count cond : option Expr) (body : M unit)
         (itr_ident : option string) (st st' : CState),
    emitLoopCommon E max_trip_count cond body itr_ident st = Ok tt st' ->
    exists before trip cond_val ins outs blk,
      st_nodes st'
      = before ++ [mkNode "prim::Loop" (trip :: cond_val :: ins) outs [blk] []]
      /\ List.length ins = List.length outs
      /\ List.length (b_inputs blk) = S (List.length outs)
      /\ List.length (b_outputs blk) = S (List.length outs)
      /\ Forall2 (fun out input => v_type out = v_type input
                                   /\ v_kind out = "prim::Loop")
                 outs (tl (b_inputs blk)).
Proof.
  intros max_trip_count cond body itr_ident st st' H.
  unfold emitLoopCommon in H.
  apply bind_Ok in H. destruct H as [trip [s1 [_ H]]].
  apply bind_Ok in H. destruct H as [cond_val [s2 [_ H]]].
  apply bind_Ok in H. destruct H as [body_block [s3 [_ H]]].
  apply bind_Ok in H. destruct H as [i [s4 [_ H]]].
  apply bind_Ok in H. destruct H as [[] [s5 [_ H]]].
  apply bind_Ok in H. destruct H as [[] [s6 [_ H]]].
  apply bind_Ok in H. destruct H as [[[frame outputs] lb] [s7 [_ H]]].
  apply bind_Ok in H. destruct H as [closed [s8 [Hdel H]]].
  apply bind_Ok in H. destruct H as [[ins outs] [s9 [Hreg H]]].
  unfold insertNode, modify in H. inv H.
  destruct (deleteExtraInputs_aligned _ _ _ _ Hdel) as [Hio Hic].
  unfold inputs_aligned in Hic.
  destruct (register_carried_length _ _ _ _ _ _ Hreg) as [L1 [L2 [Hty _]]].
  exists (st_nodes s9), trip, cond_val, ins, outs.
  eexists. split; [reflexivity|].
  cbn [b_inputs b_outputs].
  split; [congruence|]. split; [congruence|]. split; [congruence|].
  rewrite firstn_all2 in Hty; [exact Hty|].
  destruct (f_inputs (body_frame closed)); simpl in *; lia.
Qed.

End ControlFlow.
(** * Schema matching: values bound and diagnostics written *)

Section Matching.

Variable E : Externals.

(** X10.  What [tryMatchArgument] promises.  A value it returns has a type
    that is a subtype of the parameter type with its type variables
    resolved, and nothing is written to the diagnostics; when it rejects the
    argument it writes exactly one diagnostic, which names the parameter. *)
Theorem matched_argument_is_subtype :
  forall (arg : Argument) (named_value : NamedValue) (err : string)
         (fm : Failures) (allow : bool) (type_env : TypeEnv) (st : CState)
         (r : option Value) (fm' : Failures) (type_env' : TypeEnv)
         (st' : CState),
    tryMatchArgument E arg named_value err fm allow type_env st
    = Ok (r, fm', type_env') st' ->
    match r with
    | Some v =>
        fm' = fm
        /\ exists actual concrete,
             matchTypeVariables E (arg_type arg) actual type_env
             = (Some concrete, type_env')
             /\ isSubtypeOf E (v_type v) concrete = true
    | None =>
        exists actual expected,
          fm' = fm ++ [(err, DCouldNotMatch actual expected (arg_name arg))]
          \/ fm' = fm ++ [(err, DExpectedType expected actual (arg_name arg))]
    end.
Proof.
  intros arg named_value err fm allow type_env st r fm' type_env' st' H.
  unfold tryMatchArgument in H.
  apply bind_Ok in H. destruct H as [value0 [s1 [_ H]]].
  apply bind_Ok in H. destruct H as [value [s2 [_ H]]].
  destruct (matchTypeVariables E (arg_type arg) (v_type value) type_env)
    as [[concrete|] env1] eqn:Hm.
  - apply bind_Ok in H. destruct H as [converted [s3 [_ H]]].
    destruct (negb (isSubtypeOf E (v_type converted) concrete)) eqn:Hsub.
    + inv H. eexists _, _. right. reflexivity.
    + inv H. split; [reflexivity|].
      exists (v_type value), concrete. split; [exact Hm|].
      apply negb_false_iff. exact Hsub.
  - inv H. eexists _, _. left. reflexivity.
Qed.

Lemma tryMatchArgument_messages arg nv err fm allow env st r fm' env' st' :
  tryMatchArgument E arg nv err fm allow env st = Ok (r, fm', env') st' ->
  match r with
  | Some _ => fm' = fm
  | None => exists d, fm' = fm ++ filed_under err [d]
  end.
Proof.
  intros H. unfold tryMatchArgument in H.
  apply bind_Ok in H. destruct H as [value0 [s1 [_ H]]].
  apply bind_Ok in H. destruct H as [value [s2 [_ H]]].
  destruct (matchTypeVariables E (arg_type arg) (v_type value) env)
    as [[concrete|] env1].
  - apply bind_Ok in H. destruct H as [converted [s3 [_ H]]].
    destruct (negb _); inv H; [eexists; reflexivity|reflexivity].
  - inv H. eexists; reflexivity.
Qed.

Lemma tryCreateList_elems_messages elem_arg varargs err allow :
  forall fm env st r fm' env' st',
    tryCreateList_elems E elem_arg varargs err fm allow env st
    = Ok (r, fm', env') st' ->
    match r with
    | Some _ => fm' = fm
    | None => exists d, fm' = fm ++ filed_under err [d]
    end.
Proof.
  induction varargs as [|a rest IH]; intros fm env st r fm' env' st' H;
    simpl in H.
  - inv H. reflexivity.
  - apply bind_Ok in H. destruct H as [[[av fm1] env1] [s1 [Ha H]]].
    apply tryMatchArgument_messages in Ha.
    destruct av as [av|]; [|inv H; exact Ha]. subst fm1.
    apply bind_Ok in H. destruct H as [[[more fm2] env2] [s2 [Hm H]]].
    apply IH in Hm.
    destruct more as [more|]; unfold ret in H; injection H as Hr Hf _ _;
      subst r fm'; exact Hm.
Qed.

Lemma bind_parameter_messages err args kwargs allow arg rest fm bd st r fm' st' :
  bind_parameter E err args kwargs allow arg rest fm bd st = Ok (r, fm') st' ->
  match r with
  | Some bd' =>
      fm' = fm
      /\ List.length (bd_positional_inputs bd')
         = S (List.length (bd_positional_inputs bd))
  | None => exists d, fm' = fm ++ filed_under err [d]
  end.
Proof.
  intros H. unfold bind_parameter in H.
  assert (Hone : forall nv bd0 st0 r fm' st',
    ('(positional, failure_messages, type_env) <-
        tryMatchArgument E arg nv err fm allow (bd_type_env bd0) ;;
      match positional with
      | None => ret (None, failure_messages)
      | Some positional =>
          ret (Some {| bd_self := bd_self bd0;
                       bd_used_args := bd_used_args bd0;
                       bd_used_kwarg := bd_used_kwarg bd0;
                       bd_positional_inputs :=
                         bd_positional_inputs bd0 ++ [positional];
                       bd_type_env := type_env |},
               failure_messages)
      end) st0 = Ok (r, fm') st' ->
    match r with
    | Some bd' =>
        fm' = fm
        /\ List.length (bd_positional_inputs bd')
           = S (List.length (bd_positional_inputs bd0))
    | None => exists d, fm' = fm ++ filed_under err [d]
    end).
  { intros nv bd0 st0 r0 fm0 st0' H0.
    apply bind_Ok in H0. destruct H0 as [[[p fm1] env1] [s1 [Ha H0]]].
    apply tryMatchArgument_messages in Ha.
    destruct p; inv H0; [|exact Ha].
    split; [reflexivity|]. simpl. rewrite length_app. simpl. lia. }
  destruct (if String.eqb (arg_name arg) "self" then bd_self bd else None).
  { apply Hone in H. exact H. }
  destruct (negb (kwarg_only arg) && _).
  - assert (Htake : forall s,
      match nth_error args (bd_used_args bd) with
      | Some v =>
          ('(positional, failure_messages, type_env) <-
              tryMatchArgument E arg v err fm allow (bd_type_env bd) ;;
            match positional with
            | None => ret (None, failure_messages)
            | Some positional =>
                ret (Some {| bd_self := bd_self bd;
                             bd_used_args := S (bd_used_args bd);
                             bd_used_kwarg := bd_used_kwarg bd;
                             bd_positional_inputs :=
                               bd_positional_inputs bd ++ [positional];
                             bd_type_env := type_env |},
                     failure_messages)
            end)
      | None => throw (External "std::out_of_range")
      end s = Ok (r, fm') st' ->
      match r with
      | Some bd' =>
          fm' = fm
          /\ List.length (bd_positional_inputs bd')
             = S (List.length (bd_positional_inputs bd))
      | None => exists d, fm' = fm ++ filed_under err [d]
      end).
    { intros s H0. destruct (nth_error args (bd_used_args bd)); [|discriminate].
      apply (Hone n {| bd_self := bd_self bd;
                       bd_used_args := S (bd_used_args bd);
                       bd_used_kwarg := bd_used_kwarg bd;
                       bd_positional_inputs := bd_positional_inputs bd;
                       bd_type_env := bd_type_env bd |}) in H0.
      exact H0. }
    destruct (is_ListType (arg_type arg) && _ && _); [|exact (Htake _ H)].
    destruct (nth_error args (bd_used_args bd)) as [first|] eqn:Hnth;
      [|discriminate].
    apply bind_Ok in H. destruct H as [actual [s1 [_ H]]].
    destruct (negb (is_ListType (v_type actual)) && _).
    + destruct (cast_ListType (unwrapOptional (arg_type arg)));
        [|discriminate].
      apply bind_Ok in H. destruct H as [[[l fm1] env1] [s2 [Hl H]]].
      unfold tryCreateList in Hl.
      apply bind_Ok in Hl. destruct Hl as [[[lc fm2] env2] [s3 [He Hl]]].
      apply tryCreateList_elems_messages in He.
      destruct lc as [lc|].
      * apply bind_Ok in Hl. destruct Hl as [lv [s4 [_ Hl]]]. inv Hl.
        inv H. split; [reflexivity|]. simpl. rewrite length_app. simpl. lia.
      * inv Hl. inv H. exact He.
    + exact (Htake _ H).
  - destruct (findInputWithName (arg_name arg) kwargs) as [idx|].
    + destruct (nth_error kwargs idx); [|discriminate].
      destruct (nth idx (bd_used_kwarg bd) false).
      * inv H. eexists; reflexivity.
      * apply Hone in H. exact H.
    + destruct (default_value arg).
      * apply Hone in H. exact H.
      * inv H. eexists; reflexivity.
Qed.

Lemma bind_parameters_messages err args kwargs allow params :
  forall fm bd st r fm' st',
    bind_parameters E err args kwargs allow params fm bd st = Ok (r, fm') st' ->
    match r with
    | Some bd' =>
        fm' = fm
        /\ List.length (bd_positional_inputs bd')
           = List.length (bd_positional_inputs bd) + List.length params
    | None => exists d, fm' = fm ++ filed_under err [d]
    end.
Proof.
  induction params as [|arg rest IH]; intros fm bd st r fm' st' H; simpl in H.
  - inv H. split; [reflexivity|]. simpl. lia.
  - apply bind_Ok in H. destruct H as [[r1 fm1] [s1 [H1 H]]].
    apply bind_parameter_messages in H1.
    destruct r1 as [bd1|]; [|inv H; exact H1].
    destruct H1 as [-> Hlen]. apply IH in H.
    destruct r as [bd'|]; [|exact H].
    destruct H as [-> Hlen']. split; [reflexivity|]. simpl. lia.
Qed.

(** X11.  The account a schema match gives.  A candidate that matches has
    one input per parameter of the schema (and no other input unless the
    schema is variadic) and one return type per declared return; it wrote
    nothing to the diagnostics, apart from the note on an unused [self].  A
    candidate that is rejected wrote at least one diagnostic.  Whatever was
    in the diagnostics before is kept, and all that is written is filed
    under the schema. *)
Theorem schema_match_account :
  forall (schema : FunctionSchema) (self : option NamedValue)
         (args kwargs : list NamedValue) (fm : Failures) (allow : bool)
         (st : CState) (r : option MatchedSchema) (fm' : Failures)
         (st' : CState),
    tryMatchSchema E schema self args kwargs fm allow st = Ok (r, fm') st' ->
    exists ds,
      fm' = fm ++ filed_under (schema_name schema) ds
      /\ match r with
         | Some matched =>
             List.length (arguments schema) <= List.length (ms_inputs matched)
             /\ (is_vararg schema = false ->
                 List.length (ms_inputs matched)
                 = List.length (arguments schema))
             /\ List.length (ms_return_types matched)
                = List.length (returns schema)
             /\ (ds = [] \/ ds = [DSelfNotUsed])
         | None => ds <> []
         end.
Proof.
  intros schema self args kwargs fm allow st r fm' st' H.
  unfold tryMatchSchema in H.
  apply bind_Ok in H. destruct H as [[r1 fm1] [s1 [Hb H]]].
  apply bind_parameters_messages in Hb.
  destruct r1 as [bd|].
  2:{ inv H. destruct Hb as [d ->]. exists [d]. split; [reflexivity|].
      discriminate. }
  destruct Hb as [-> Hlen]. simpl in Hlen.
  set (ds0 := match bd_self bd with Some _ => [DSelfNotUsed] | None => [] end).
  assert (Hfm0 : match bd_self bd with
                 | Some _ => fm ++ [(schema_name schema, DSelfNotUsed)]
                 | None => fm
                 end = fm ++ filed_under (schema_name schema) ds0).
  { unfold ds0. destruct (bd_self bd); simpl; [reflexivity|].
    rewrite app_nil_r. reflexivity. }
  rewrite Hfm0 in H.
  assert (Hds0 : ds0 = [] \/ ds0 = [DSelfNotUsed])
    by (unfold ds0; destruct (bd_self bd); auto).
  clearbody ds0. clear Hfm0.
  apply bind_Ok in H. destruct H as [[positional_inputs used_args] [s2 [Hv H]]].
  assert (Hpos : List.length (arguments schema) <= List.length positional_inputs
                 /\ (is_vararg schema = false ->
                     List.length positional_inputs
                     = List.length (arguments schema))).
  { destruct (is_vararg schema).
    - apply bind_Ok in Hv. destruct Hv as [extra [s3 [_ Hv]]]. inv Hv.
      rewrite length_app. split; [lia|discriminate].
    - inv Hv. split; [lia|]. intros _. exact Hlen. }
  destruct (Nat.ltb used_args (List.length args)).
  { inv H. exists (ds0 ++ [DTooManyPositional used_args (List.length args)]).
    split.
    - unfold filed_under. rewrite map_app, app_assoc. reflexivity.
    - destruct ds0; discriminate. }
  destruct (first_unused_kwarg kwargs (bd_used_kwarg bd)) as [nv|].
  { destruct (negb _); inv H.
    - exists (ds0 ++ [DUnknownKeyword (kw_name nv)]). split.
      + unfold filed_under. rewrite map_app, app_assoc. reflexivity.
      + destruct ds0; discriminate.
    - exists (ds0 ++ [DKeywordTwice (kw_name nv)]). split.
      + unfold filed_under. rewrite map_app, app_assoc. reflexivity.
      + destruct ds0; discriminate. }
  inv H. exists ds0. split; [reflexivity|]. simpl.
  destruct Hpos as [Hp1 Hp2]. split; [exact Hp1|]. split; [exact Hp2|].
  split; [apply length_map|exact Hds0].
Qed.

End Matching.

Section Unresolved.

Variable E : Externals.
Variable name : Symbol.
Variable self : option NamedValue.
Variables inputs attributes : list NamedValue.

(** X12.  A call that no candidate matches.  When every candidate of both
    sets is rejected in the pass without conversions and again in the pass
    with conversions, a call that is not required returns the null value
    and no error; a required call fails with "unknown builtin op" when the
    name has no builtin overload (library functions or not), and otherwise
    with the diagnostics of the second pass alone, those of the first pass
    being dropped.  A name with no candidate at all is the instance with
    nothing to reject: the state is then unchanged. *)
Theorem unresolved_call :
  (forall (required : bool) (st st0 : CState) (fm : Failures) (st1 : CState),
      no_match E name self inputs attributes false st st0 ->
      all_rejected E name self inputs attributes true (candidates E name)
                   [] st0 fm st1 ->
      emitBuiltinCall E name self inputs attributes required st
      = if negb required then Ok None st1
        else match getAllOperatorsFor E name with
             | [] => Err UnknownBuiltinOp
             | _ => Err (InvalidCallArguments fm)
             end)
  /\ (getAllOperatorsFor E name = [] ->
      getAllBuiltinFunctionsFor E name = [] ->
      forall st,
        emitBuiltinCall E name self inputs attributes true st
        = Err UnknownBuiltinOp
        /\ emitBuiltinCall E name self inputs attributes false st
           = Ok None st).
Proof.
  assert (Hmain :
    forall required st st0 fm st1,
      no_match E name self inputs attributes false st st0 ->
      all_rejected E name self inputs attributes true (candidates E name)
                   [] st0 fm st1 ->
      emitBuiltinCall E name self inputs attributes required st
      = if negb required then Ok None st1
        else match getAllOperatorsFor E name with
             | [] => Err UnknownBuiltinOp
             | _ => Err (InvalidCallArguments fm)
             end).
  { intros required st st0 fm st1 [fm0 H1] H2.
    apply try_candidates_none in H1, H2.
    unfold emitBuiltinCall, bind.
    rewrite pass_candidates, H1, pass_candidates, H2. simpl.
    destruct (negb required); [reflexivity|].
    destruct (getAllOperatorsFor E name); reflexivity. }
  split; [exact Hmain|].
  intros Hops Hfns st.
  assert (Hc : candidates E name = [])
    by (unfold candidates; rewrite Hops, Hfns; reflexivity).
  assert (Hno : forall allow s, all_rejected E name self inputs attributes allow
                                  (candidates E name) [] s [] s)
    by (intros; rewrite Hc; constructor).
  split.
  - rewrite (Hmain true st st [] st); [rewrite Hops; reflexivity| |apply Hno].
    exists []. apply Hno.
  - rewrite (Hmain false st st [] st); [reflexivity| |apply Hno].
    exists []. apply Hno.
Qed.

End Unresolved.
(** * Desugared forms *)

Lemma emit_if_expr_run b (expr_value : M Value) st blk st' :
  emit_if_expr b expr_value st = Ok blk st' ->
  st_nodes st' = st_nodes st
  /\ exists s1 out_val s2,
       st_nodes s1 = []
       /\ expr_value s1 = Ok out_val s2
       /\ blk = mkBlock [] (st_nodes s2) [out_val].
Proof.
  unfold emit_if_expr. intros H.
  apply bind_Ok in H. destruct H as [[] [st1 [Hpush H]]].
  apply bind_Ok in H. destruct H as [[out_val nodes] [st2 [Hat H]]].
  apply bind_Ok in H. destruct H as [fr [st3 [Hpop H]]].
  inv H. apply at_block_Ok in Hat.
  destruct Hat as [Hn [_ [s2 [Hrun [-> _]]]]].
  unfold pushFrame, modify in Hpush. inv Hpush.
  unfold popFrame, bind, get, put, ret in Hpop. simpl in Hpop.
  destruct (environment_stack st2); inv Hpop.
  simpl in *. split; [congruence|].
  eexists _, _, _. split; [|split; [exact Hrun|reflexivity]]. reflexivity.
Qed.

Section Desugaring.

Variable E : Externals.

Lemma emitCond_of_bool (m : M Value) st v st' :
  emitCond_of E m st = Ok v st' ->
  m st = Ok v st' /\ isSubtypeOf E (v_type v) BoolType_get = true.
Proof.
  unfold emitCond_of. intros H.
  apply bind_Ok in H. destruct H as [w [s1 [Hm H]]].
  destruct (negb (isSubtypeOf E (v_type w) BoolType_get)) eqn:Hb;
    [discriminate|].
  inv H. split; [exact Hm|]. apply negb_false_iff. exact Hb.
Qed.

Lemma valueOf_simple (m : M Value) st : valueOf (simple m) st = m st.
Proof.
  unfold valueOf, simple, bind, ret. destruct (m st); reflexivity.
Qed.

Lemma bind_simple {B} (m : M Value) (k : SugaredValue -> M B) st :
  (sv <- simple m ;; k sv) st
  = match m st with
    | Ok v st' => k (SimpleValue v) st'
    | Err e => Err e
    end.
Proof. unfold simple, bind, ret. destruct (m st); reflexivity. Qed.

(** X14.  An augmented assignment to a variable that is not a tensor is
    sugar: [x op= e] compiles exactly as [x = x op e], whatever the
    operator, also when the variable cannot be read.  (The table of
    in-place operators is consulted for tensors only.) *)
Theorem augmented_assignment_desugars :
  forall (order : list string -> list string) (lhs : string)
         (aug_op : BinKind) (rhs : Expr) (st : CState),
    match env_getVar E lhs st with
    | Ok lhsValue _ => isSubtypeOf E (v_type lhsValue) DynamicType_get = false
    | Err _ => True
    end ->
    emitStatement E order (AugAssign lhs aug_op rhs) st
    = emitStatement E order (Assign lhs (BinOp aug_op (Var lhs) rhs)) st.
Proof.
  intros order lhs aug_op rhs st Hnt.
  change (emitStatement E order (AugAssign lhs aug_op rhs))
    with (emitAugAssignmentToVar E lhs aug_op rhs).
  change (emitStatement E order (Assign lhs (BinOp aug_op (Var lhs) rhs)))
    with (emitAssignment E lhs (BinOp aug_op (Var lhs) rhs)).
  unfold emitAugAssignmentToVar, emitAssignment, emitExpr.
  set (rest := fun v : Value =>
         bs <- mapM (fun tree => w <- tree ;; ret (positional w))
                    [valueOf (emitSugaredExpr E rhs 1 None)] ;;
         ret (positional v :: bs)).
  set (m := emitBinOp_of E (getNodeKind aug_op)
              [valueOf (env_getSugaredVar E lhs);
               valueOf (emitSugaredExpr E rhs 1 None)]).
  change (emitSugaredExpr E (BinOp aug_op (Var lhs) rhs) 1 None)
    with (simple m).
  assert (Hm : forall s v s',
            valueOf (env_getSugaredVar E lhs) s = Ok v s' ->
            m s = (nvs <- rest v ;;
                   emitBuiltinCall_required E (getNodeKind aug_op) None nvs [])
                  s').
  { intros s v s' Hs. unfold m, emitBinOp_of, getNamedValues_of, bind.
    cbn [mapM]. unfold bind. rewrite Hs. reflexivity. }
  assert (Hsame : forall s,
            (v <- valueOf (simple m) ;; env_setVar E lhs v) s
            = (sv <- simple m ;; env_setSugaredVar E lhs sv) s).
  { intros s. unfold bind. rewrite valueOf_simple. unfold simple, bind, ret.
    destruct (m s); reflexivity. }
  unfold bind at 1. rewrite env_getVar_valueOf in *.
  destruct (valueOf (env_getSugaredVar E lhs) st) as [lhsValue st1|e] eqn:Hget.
  - rewrite Hnt. rewrite Hsame.
    assert (Hagain : valueOf (env_getSugaredVar E lhs) st1 = Ok lhsValue st1).
    { unfold valueOf in *. apply bind_Ok in Hget.
      destruct Hget as [sv [s1 [Hg Hv]]].
      assert (s1 = st1) by (destruct sv; inv Hv; reflexivity). subst s1.
      rewrite (bind_Ok_l _ _ _ _ _ (env_getSugaredVar_again E _ _ _ _ Hg)).
      exact Hv. }
    rewrite !bind_simple, (Hm _ _ _ Hagain), (Hm _ _ _ Hget). reflexivity.
  - rewrite bind_simple.
    assert (Hme : m st = Err e).
    { unfold m, emitBinOp_of, getNamedValues_of, bind. cbn [mapM].
      unfold bind. rewrite Hget. reflexivity. }
    rewrite Hme. reflexivity.
Qed.

End Desugaring.

Lemma emit_if_expr_ret b (v : Value) st :
  emit_if_expr b (ret v) st = Ok (mkBlock [] [] [v]) st.
Proof.
  unfold emit_if_expr, pushFrame, at_block, popFrame, bind, modify, get, put,
    ret.
  destruct st. reflexivity.
Qed.

Section ShortCircuit.

Variable E : Externals.

Lemma emitExpr_short_circuit first_expr second_expr (is_or : bool) type_hint
    st :
  emitExpr E (if is_or then OrOp first_expr second_expr
              else AndOp first_expr second_expr) type_hint st
  = emitShortCircuitIf E first_expr second_expr is_or st.
Proof.
  unfold emitExpr. destruct is_or; cbn [emitSugaredExpr];
    rewrite valueOf_simple; reflexivity.
Qed.

(** X13.  [and] and [or] short-circuit.  The first operand is emitted at
    the insertion point, as a condition; the second is emitted, as a
    condition too, into one block of a single prim::If node on the first
    value: the true block for [and], the false block for [or].  The other
    block is empty and returns the first value.  Both operands are
    booleans. *)
Theorem short_circuit_evaluates_second_operand_in_a_block :
  forall (first_expr second_expr : Expr) (is_or : bool)
         (type_hint : option TypePtr) (st : CState) (v : Value)
         (st' : CState),
    emitExpr E (if is_or then OrOp first_expr second_expr
                else AndOp first_expr second_expr) type_hint st = Ok v st' ->
    exists first_value st1 block entry second_nodes second_value after,
      emitCond E first_expr st = Ok first_value st1
      /\ isSubtypeOf E (v_type first_value) BoolType_get = true
      /\ only_fresh st1 entry
      /\ emit_if_expr block (emitCond E second_expr) entry
         = Ok (mkBlock [] second_nodes [second_value]) after
      /\ isSubtypeOf E (v_type second_value) BoolType_get = true
      /\ let short := mkBlock [] [] [first_value] in
         let long := mkBlock [] second_nodes [second_value] in
         st_nodes st'
         = st_nodes st1
           ++ [mkNode "prim::If" [first_value] [v]
                 (if is_or then [short; long] else [long; short]) []].
Proof.
  intros first_expr second_expr is_or type_hint st v st' H.
  rewrite emitExpr_short_circuit in H.
  unfold emitShortCircuitIf, emitShortCircuitIf_of in H.
  apply bind_Ok in H. destruct H as [first_value [st1 [Hfirst H]]].
  exists first_value, st1.
  pose proof (emitCond_of_bool _ _ _ _ _ Hfirst) as [_ Hb1].
  assert (Hgen : forall (true_expr false_expr : M Value),
    emitIfExpr E first_value true_expr false_expr st1 = Ok v st' ->
    exists tb fb s3 true_b s4 false_b s5,
      only_fresh st1 s3
      /\ emit_if_expr tb true_expr s3 = Ok true_b s4
      /\ emit_if_expr fb false_expr s4 = Ok false_b s5
      /\ st_nodes st'
         = st_nodes st1
           ++ [mkNode "prim::If" [first_value] [v] [true_b; false_b] []]).
  { intros true_expr false_expr H0. unfold emitIfExpr in H0.
    apply bind_Ok in H0. destruct H0 as [tb [s2 [Ha H0]]].
    apply bind_Ok in H0. destruct H0 as [fb [s3 [Hb H0]]].
    apply bind_Ok in H0. destruct H0 as [true_b [s4 [Ht H0]]].
    apply bind_Ok in H0. destruct H0 as [false_b [s5 [Hf H0]]].
    exists tb, fb, s3, true_b, s4, false_b, s5.
    split.
    { unfold addBlock, fresh in Ha, Hb. inv Ha. inv Hb.
      eexists. destruct st1; reflexivity. }
    split; [exact Ht|]. split; [exact Hf|].
    pose proof (emit_if_expr_Ok _ _ _ _ _ Ht) as [Hn4 [tn [tv ->]]].
    pose proof (emit_if_expr_Ok _ _ _ _ _ Hf) as [Hn5 [fn [fv ->]]].
    cbn [b_outputs] in H0.
    destruct (negb _); [discriminate|].
    apply bind_Ok in H0. destruct H0 as [ev [s6 [Hnew H0]]].
    unfold insertNode, modify in H0. inv H0.
    apply keeps_new_value in Hnew.
    apply keeps_fresh in Ha. apply keeps_fresh in Hb.
    simpl. f_equal. congruence. }
  destruct is_or;
    destruct (Hgen _ _ H)
      as [tb [fb [s3 [true_b [s4 [false_b [s5 [Hf3 [Ht [Hf Hn]]]]]]]]]].
  - rewrite emit_if_expr_ret in Ht. inv Ht.
    pose proof (emit_if_expr_run _ _ _ _ _ Hf)
      as [_ [sa [ob [sa' [_ [Rb Hblk]]]]]].
    apply emitCond_of_bool in Rb. destruct Rb as [_ Hb2]. subst false_b.
    exists fb, s4, (st_nodes sa'), ob, s5. auto 10.
  - pose proof (emit_if_expr_run _ _ _ _ _ Ht)
      as [_ [sa [oa [sa' [_ [Ra Hblk]]]]]].
    pose proof (emitCond_of_bool _ _ _ _ _ Ra) as [_ Hb2]. subst true_b.
    assert (Hshort : false_b = mkBlock [] [] [first_value]).
    { rewrite emit_if_expr_ret in Hf. inv Hf. reflexivity. }
    subst false_b.
    exists tb, s3, (st_nodes sa'), oa, s4. auto 10.
Qed.

End ShortCircuit.

(** * Names: what an if/else merges, and who answers a lookup *)

Lemma In_keys_lookup {A} x (m : list (string * A)) :
  In x (keys m) <-> lookup x m <> None.
Proof.
  unfold keys. induction m as [|[k a] m IH]; simpl.
  - split; [contradiction|]. intros H. apply H. reflexivity.
  - destruct (String.eqb x k) eqn:Hk.
    + apply String.eqb_eq in Hk. subst k. split; [discriminate|auto].
    + apply String.eqb_neq in Hk. rewrite <- IH. split.
      * intros [H|H]; [congruence|exact H].
      * auto.
Qed.

(** X15.  The variables an if/else merges.  They are exactly the names
    assigned in one branch and visible in the other (assigned there too, or
    defined before the if/else); a name assigned in one branch only and not
    defined before is not merged.  They are visited in strictly increasing
    alphabetical order, each once, whatever the order in which the tables
    of the two branches are iterated. *)
Theorem merged_variables_characterized :
  forall (order : list string -> list string) (save_true save_false : Frame)
         (next : list Frame),
    iteration_order order ->
    (forall x,
        In x (mutated_variables order save_true save_false next)
        <-> assigned_and_visible x save_true save_false next
            \/ assigned_and_visible x save_false save_true next)
    /\ StronglySorted String_as_OT.lt
         (mutated_variables order save_true save_false next).
Proof.
  intros order save_true save_false next Horder.
  rewrite mutated_variables_insert_defined. split.
  - intros x. rewrite !insert_defined_In. unfold assigned_and_visible.
    unfold definedVariables, findInThisFrame.
    assert (Hin : forall f, In x (order (keys (value_table f)))
                            <-> lookup x (value_table f) <> None).
    { intros f. rewrite <- In_keys_lookup. split; intros H.
      - eapply Permutation_in; [apply Horder|exact H].
      - eapply Permutation_in; [apply Permutation_sym, Horder|exact H]. }
    rewrite !Hin.
    assert (Hb : forall env,
              (match findInAnyFrame x env with
               | Some _ => true | None => false end) = true
              <-> findInAnyFrame x env <> None).
    { intros env. destruct (findInAnyFrame x env); split; intros H;
        try discriminate; try reflexivity. exfalso. apply H. reflexivity. }
    rewrite !Hb. simpl In. tauto.
  - apply insert_defined_sorted. apply insert_defined_sorted. constructor.
Qed.

Section Precedence.

Variable E : Externals.

(** X16.  Who answers a lookup.  A binding in the scope stack wins over the
    builtin names ([print], [int], [float], ...), which win over the name
    resolver; only a name that none of the three knows is an error, and the
    error is the deferred type error of the name when one was recorded. *)
Theorem lookup_precedence :
  forall (ident : string) (env : list Frame) (st : CState),
    (forall sv, findInAnyFrame ident env = Some sv ->
       exists r env' st',
         getSugaredVar E ident env st = Ok (r, env') st'
         /\ findInAnyFrame ident env' = Some r
         /\ (forall v, asSimple sv = Some v ->
               exists w, asSimple r = Some w /\ v_type w = v_type v))
    /\ (findInAnyFrame ident env = None ->
        getSugaredVar E ident env st
        = match lookup ident globals with
          | Some g => Ok (g, env) st
          | None =>
              match resolver E ident with
              | Some r => Ok (r, env) st
              | None =>
                  match findVariableTypeError ident env with
                  | Some msg => Err (AndWasUsedHere msg)
                  | None => Err (UndefinedValue ident)
                  end
              end
          end).
Proof.
  intros ident env st. split.
  - intros sv Hfind.
    assert (Hc : exists r env' st',
               createCapturedInputIfNeeded ident env st = Ok (Some r, env') st'
               /\ findInAnyFrame ident env' = Some r
               /\ (forall v, asSimple sv = Some v ->
                     exists w, asSimple r = Some w /\ v_type w = v_type v)).
    { revert st sv Hfind. induction env as [|this next IH]; intros st sv Hfind;
        [discriminate|].
      simpl in Hfind. simpl.
      destruct (findInThisFrame ident this) as [in_frame|] eqn:Hthis.
      - inv Hfind. exists sv, (this :: next), st.
        split; [reflexivity|]. split; [simpl; rewrite Hthis; reflexivity|].
        eauto.
      - destruct (IH st sv Hfind) as [p [next' [st1 [Hrec [Hf Hty]]]]].
        unfold bind at 1. rewrite Hrec.
        destruct (String.eqb (getBlockOwningKind this) "prim::Loop").
        + destruct (asSimple p) as [simple_val|] eqn:Hp.
          * destruct (createCapturedInput_total simple_val ident this st1)
              as [sv' [this' [st2 [Hci [_ [Hfind' _]]]]]].
            unfold bind. rewrite Hci.
            exists sv', (this' :: next'), st2.
            split; [reflexivity|]. split; [simpl; rewrite Hfind'; reflexivity|].
            intros v Hv. destruct (Hty v Hv) as [w [Hw Hwt]]. inv Hw.
            unfold createCapturedInput, bind, fresh, ret in Hci.
            injection Hci as Hsv _ _. subst sv'.
            eexists. split; [reflexivity|]. simpl. exact Hwt.
          * exists p, (this :: next'), st1.
            split; [reflexivity|].
            split; [simpl; rewrite Hthis; exact Hf|].
            rewrite Hp. exact Hty.
        + exists p, (this :: next'), st1.
          split; [reflexivity|].
          split; [simpl; rewrite Hthis; exact Hf|exact Hty]. }
    destruct Hc as [r [env' [st' [Hc [Hf Hty]]]]].
    exists r, env', st'. split; [|split; [exact Hf|exact Hty]].
    unfold getSugaredVar. rewrite (bind_Ok_l _ _ _ _ _ Hc). reflexivity.
  - intros Hnone. unfold getSugaredVar.
    destruct (createCapturedInputIfNeeded_total ident env st)
      as [r [env' [st1 [Hc [_ [_ [_ [Hn _]]]]]]]].
    destruct (Hn Hnone) as [-> ->].
    assert (st1 = st).
    { clear - Hc Hnone. revert st st1 Hc.
      induction env as [|this next IH]; intros st st1 Hc.
      - inv Hc. reflexivity.
      - simpl in Hc, Hnone.
        destruct (findInThisFrame ident this); [discriminate|].
        apply bind_Ok in Hc. destruct Hc as [[fp next'] [s [Hrec Hc]]].
        destruct (createCapturedInputIfNeeded_total ident next st)
          as [r0 [e0 [s0 [Hc0 [_ [_ [_ [Hn0 _]]]]]]]].
        rewrite Hrec in Hc0. inv Hc0.
        destruct (Hn0 Hnone) as [-> ->].
        inv Hc. eapply IH; eassumption. }
    subst st1. rewrite (bind_Ok_l _ _ _ _ _ Hc).
    cbv beta iota zeta delta [or_else].
    destruct (lookup ident globals); [reflexivity|].
    destruct (resolver E ident); [reflexivity|].
    destruct (findVariableTypeError ident env); reflexivity.
Qed.

(** X17.  What implicit conversion leaves alone.  A value that is neither a
    tuple nor none is returned as it is, and no node is emitted, in the pass
    that forbids conversions; in the pass that allows them the same holds
    unless a number is wanted from a tensor or a device from a string. *)
Theorem conversion_leaves_plain_values :
  forall (concrete_type : TypePtr) (value : Value) (st : CState),
    cast_TupleType (v_type value) = None ->
    isSubtypeOf E (v_type value) NoneType_get = false ->
    tryConvertToType E concrete_type value false st = Ok value st
    /\ (isSubtypeOf E concrete_type NumberType_get
        && isSubtypeOf E (v_type value) DynamicType_get = false ->
        isSubtypeOf E (v_type value) StringType_get
        && isSubtypeOf E DeviceObjType_get concrete_type = false ->
        tryConvertToType E concrete_type value true st = Ok value st).
Proof.
  intros concrete_type value st Htup Hnone.
  assert (Hshape : forall allow,
    tryConvertToType E concrete_type value allow st
    = (if allow then
         value' <-
           (if isSubtypeOf E concrete_type NumberType_get
               && isSubtypeOf E (v_type value) DynamicType_get
            then createImplicitTensorToNum concrete_type value
            else ret value) ;;
         if isSubtypeOf E (v_type value') StringType_get
            && isSubtypeOf E DeviceObjType_get concrete_type
         then graph_insert E "aten::device" [positional value'] []
         else ret value'
       else ret value) st).
  { intros allow. destruct concrete_type as [a t].
    destruct t; simpl; rewrite Htup; unfold bind at 1; unfold ret at 1;
      rewrite Hnone; simpl; unfold bind at 1; unfold ret at 1;
      reflexivity. }
  split; [rewrite Hshape; reflexivity|].
  intros H1 H2. rewrite Hshape. unfold bind. rewrite H1. unfold ret.
  rewrite H2. reflexivity.
Qed.

End Precedence.
(** * The inputs and the schema of a compiled function *)

Lemma keeps_inputs_ret {A} (a : A) : keeps_inputs (ret a).
Proof. intros st a' st' H. inv H. reflexivity. Qed.

Lemma keeps_inputs_throw {A} e : keeps_inputs (@throw A e).
Proof. intros st a st' H. discriminate. Qed.

Lemma keeps_inputs_bind {A B} (m : M A) (k : A -> M B) :
  keeps_inputs m -> (forall a, keeps_inputs (k a)) -> keeps_inputs (bind m k).
Proof.
  intros Hm Hk st b st' H. apply bind_Ok in H.
  destruct H as [a [st1 [H1 H2]]].
  rewrite (Hk a _ _ _ H2). eapply Hm. exact H1.
Qed.

Lemma keeps_inputs_get : keeps_inputs get.
Proof. intros st a st' H. inv H. reflexivity. Qed.

Lemma keeps_inputs_modify f :
  (forall st, st_inputs (f st) = st_inputs st) -> keeps_inputs (modify f).
Proof. intros Hf st a st' H. inv H. apply Hf. Qed.

Lemma keeps_inputs_createCapturedInputIfNeeded ident env :
  keeps_inputs (createCapturedInputIfNeeded ident env).
Proof.
  intros st a st' H.
  destruct (createCapturedInputIfNeeded_total ident env st)
    as [r [env' [st1 [Hc [[n ->] _]]]]].
  rewrite Hc in H. inv H. reflexivity.
Qed.

Ltac keeps_in :=
  repeat first
    [ apply keeps_inputs_ret | apply keeps_inputs_throw
    | apply keeps_inputs_get
    | apply keeps_inputs_createCapturedInputIfNeeded
    | apply keeps_inputs_modify; intros; reflexivity
    | apply keeps_inputs_bind; [|intros]
    | match goal with
      | |- keeps_inputs (match ?x with _ => _ end) => destruct x
      | |- keeps_inputs (if ?b then _ else _) => destruct b
      end ].

Section Signature.

Variable E : Externals.

Lemma keeps_inputs_env_setSugaredVar name value :
  keeps_inputs (env_setSugaredVar E name value).
Proof.
  unfold env_setSugaredVar, on_env, setSugaredVar, hasUniqueName,
    setUniqueName.
  keeps_in.
Qed.

Lemma bind_formals params :
  forall (args : list Argument) st st',
    List.length params = List.length args ->
    forM_ (combine params args) (fun p =>
      let '(name, argument) := p in
      new_input <- addInput (if meaningfulName name then Some name else None)
                            (arg_type argument) ;;
      env_setVar E name new_input) st = Ok tt st' ->
    exists new_inputs,
      st_inputs st' = st_inputs st ++ new_inputs
      /\ map v_type new_inputs = map arg_type args
      /\ Forall (fun v => v_kind v = "prim::Param" /\ v_block v = root_block)
                new_inputs.
Proof.
  induction params as [|name params IH]; intros [|argument args] st st' Hlen H;
    try discriminate.
  - inv H. exists []. rewrite app_nil_r. repeat split. constructor.
  - simpl combine in H. rewrite forM_cons in H.
    apply bind_Ok in H. destruct H as [[] [s1 [Hone H]]].
    apply bind_Ok in Hone. destruct Hone as [new_input [s2 [Hadd Hset]]].
    apply keeps_inputs_env_setSugaredVar in Hset.
    assert (Hin : st_inputs s2 = st_inputs st ++ [new_input]
                  /\ v_type new_input = arg_type argument
                  /\ v_kind new_input = "prim::Param"
                  /\ v_block new_input = root_block).
    { unfold addInput, bind, fresh, modify, setUniqueName, ret in Hadd.
      destruct (meaningfulName name); inv Hadd; repeat split. }
    destruct Hin as [Hin [Hty [Hk Hb]]].
    destruct (IH args s1 st') as [more [Hmore [Htys Hall]]];
      [simpl in Hlen; lia|exact H|].
    exists (new_input :: more).
    split; [rewrite Hmore, Hset, Hin, <- app_assoc; reflexivity|].
    split; [simpl; congruence|]. constructor; auto.
Qed.

Lemma emitFormalArguments_arguments def self st arguments' st' :
  emitFormalArguments E def self st = Ok arguments' st' ->
  arguments' = arguments (def_schema def).
Proof.
  unfold emitFormalArguments. intros H.
  destruct (negb _); [discriminate|].
  apply bind_Ok in H. destruct H as [params [s1 [_ H]]].
  apply bind_Ok in H. destruct H as [[] [s2 [_ H]]].
  inv H. reflexivity.
Qed.

(** X18.  The parameters of a definition become the inputs of its graph.
    The number of type annotations must be the number of parameters,
    [self] apart, or nothing is compiled and the error reports the two
    numbers; the expected number is computed on [size_t], so with [self]
    and no parameter it is 2^64 - 1, and the two numbers cannot agree.
    Otherwise, for a parameter list whose length fits a [size_t], each
    annotated parameter adds one input to the graph, in order, with the
    annotated type; [self] adds none; the arguments reported are those of
    the schema. *)
Theorem parameters_become_graph_inputs :
  forall (def : Def) (self : option SugaredValue) (st : CState),
    (size (def_params def) <= size_t_max)%Z ->
    (size (arguments (def_schema def)) <> expected_annotation_size def self ->
     emitFormalArguments E def self st
     = Err (AnnotationCount (size (arguments (def_schema def)))
                            (expected_annotation_size def self)))
    /\ (forall s, self = Some s -> def_params def = [] ->
        expected_annotation_size def self = size_t_max
        /\ (size (arguments (def_schema def)) < size_t_max ->
            emitFormalArguments E def self st
            = Err (AnnotationCount (size (arguments (def_schema def)))
                                   size_t_max))%Z)
    /\ (forall arguments' st',
          emitFormalArguments E def self st = Ok arguments' st' ->
          size (arguments (def_schema def)) = expected_annotation_size def self
          /\ List.length (arguments (def_schema def))
             = match self with
               | Some _ => List.length (def_params def) - 1
               | None => List.length (def_params def)
               end
          /\ arguments' = arguments (def_schema def)
          /\ exists new_inputs,
               st_inputs st' = st_inputs st ++ new_inputs
               /\ map v_type new_inputs
                  = map arg_type (arguments (def_schema def))
               /\ Forall (fun v => v_kind v = "prim::Param"
                                   /\ v_block v = root_block) new_inputs).
Proof.
  intros def self st Hfit.
  unfold emitFormalArguments, expected_annotation_size.
  set (expected := match self with
                   | Some _ => size_t_sub (size (def_params def)) 1
                   | None => size (def_params def)
                   end).
  split; [|split].
  - intros Hne. apply Z.eqb_neq in Hne. rewrite Hne. reflexivity.
  - intros s0 Hs Hp.
    assert (Hexp : expected = size_t_max)
      by (unfold expected; rewrite Hs, Hp; reflexivity).
    split; [exact Hexp|]. intros Hlt. rewrite Hexp.
    assert (Hne : Z.eqb (size (arguments (def_schema def))) size_t_max = false)
      by (apply Z.eqb_neq; lia).
    rewrite Hne. reflexivity.
  - intros arguments' st' H.
    destruct (Z.eqb (size (arguments (def_schema def))) expected)
      eqn:Hcount; [|discriminate].
    apply Z.eqb_eq in Hcount. cbn [negb] in H.
    apply bind_Ok in H. destruct H as [params [s1 [Hp H]]].
    apply bind_Ok in H. destruct H as [[] [s2 [Hf H]]].
    inv H.
    assert (Hparams : st_inputs s1 = st_inputs st
                      /\ List.length params
                         = List.length (arguments (def_schema def))
                      /\ List.length params
                         = match self with
                           | Some _ => List.length (def_params def) - 1
                           | None => List.length (def_params def)
                           end).
    { unfold expected in Hcount. unfold size, size_t_sub in *.
      unfold size_t_max in *. destruct self as [s|].
      - destruct (def_params def) as [|first rest]; [discriminate|].
        apply bind_Ok in Hp. destruct Hp as [[] [s3 [Hs Hp]]]. inv Hp.
        apply keeps_inputs_env_setSugaredVar in Hs.
        split; [exact Hs|]. simpl List.length in *.
        rewrite Z.mod_small in Hcount by lia.
        split; [lia|lia].
      - inv Hp. split; [reflexivity|]. split; [lia|reflexivity]. }
    destruct Hparams as [Hin [Hlen Hlen']].
    split; [exact Hcount|]. split; [lia|]. split; [reflexivity|].
    destruct (bind_formals params (arguments (def_schema def)) s1 st')
      as [new_inputs [Hnew Hrest]]; [lia|exact Hf|].
    exists new_inputs. rewrite Hnew, Hin. auto.
Qed.

(** X19.  The schema of a compiled function.  It carries the name of the
    definition and the declared arguments, is not variadic, and has exactly
    one return, of the annotated type when the definition has a return
    annotation.  The value registered last as output of the graph has a type that is a subtype of
    that return type. *)
Theorem compiled_schema :
  forall (order : list string -> list string) (def : Def)
         (self : option SugaredValue) (st0 : CState)
         (schema : FunctionSchema) (st : CState),
    to_ir_body E order def self st0 = Ok schema st ->
    schema_name schema = def_name def
    /\ arguments schema = arguments (def_schema def)
    /\ is_vararg schema = false
    /\ exists ret_arg outputs v,
         returns schema = [ret_arg]
         /\ arg_name ret_arg = ""
         /\ st_outputs st = outputs ++ [v]
         /\ isSubtypeOf E (v_type v) (arg_type ret_arg) = true
         /\ (forall declared rest,
               returns (def_schema def) = declared :: rest ->
               arg_type ret_arg = arg_type declared).
Proof.
  intros order def self st0 schema st H. unfold to_ir_body in H.
  apply bind_Ok in H. destruct H as [[] [s1 [_ H]]].
  apply bind_Ok in H. destruct H as [[] [s2 [_ H]]].
  apply bind_Ok in H. destruct H as [args [s3 [Hargs H]]].
  destruct (split_return (def_statements def)) as [stmts return_stmt].
  apply bind_Ok in H. destruct H as [[] [s4 [_ H]]].
  apply bind_Ok in H. destruct H as [ret_arg [s5 [Hret H]]]. inv H.
  apply emitFormalArguments_arguments in Hargs. subst args.
  cbn [schema_name arguments is_vararg returns].
  split; [reflexivity|]. split; [reflexivity|]. split; [reflexivity|].
  unfold emitReturn in Hret.
  destruct (Nat.ltb 1 (List.length (returns (def_schema def))));
    [discriminate|].
  apply bind_Ok in Hret. destruct Hret as [result [s6 [_ Hret]]].
  apply bind_Ok in Hret. destruct Hret as [result' [s7 [_ Hret]]].
  destruct (negb (isSubtypeOf E (v_type result') _)) eqn:Hsub; [discriminate|].
  apply negb_false_iff in Hsub.
  apply bind_Ok in Hret. destruct Hret as [[] [s8 [Hreg Hret]]]. inv Hret.
  unfold registerOutput, modify in Hreg. inv Hreg.
  eexists _, _, _. cbn [arg_name arg_type st_outputs set_outputs].
  split; [reflexivity|]. split; [reflexivity|]. split; [reflexivity|].
  split; [exact Hsub|].
  intros declared rest Hd. rewrite Hd. reflexivity.
Qed.

End Signature.
(** * Diagnostics text and the conversions of the first pass *)

Lemma prefixLine_from_line line rest prefix :
  one_line line = true ->
  prefixLine_from false (String.append line (String newline rest)) prefix
  = String.append line (String newline (prefixLine_from true rest prefix)).
Proof.
  induction line as [|c line IH]; intros H.
  - reflexivity.
  - simpl in H. apply andb_true_iff in H. destruct H as [Hc Hl].
    apply negb_true_iff in Hc.
    cbn [String.append prefixLine_from]. unfold newline in Hc. rewrite Hc.
    rewrite IH by exact Hl. reflexivity.
Qed.

Lemma prefixLine_from_last line prefix :
  one_line line = true -> prefixLine_from false line prefix = line.
Proof.
  induction line as [|c line IH]; intros H; [reflexivity|].
  simpl in H. apply andb_true_iff in H. destruct H as [Hc Hl].
  apply negb_true_iff in Hc.
  cbn [prefixLine_from]. unfold newline in Hc. rewrite Hc.
  rewrite IH by exact Hl. reflexivity.
Qed.

(** X20.  [prefixLine] indents a text line by line.  Every line of the
    text, empty or not, gets the prefix once, before its first character;
    a last line without a newline gets it too unless it is empty, so the
    empty text stays empty. *)
Theorem prefixLine_prefixes_every_line :
  forall (prefix : string),
    prefixLine "" prefix = ""
    /\ (forall line rest,
          one_line line = true ->
          prefixLine (String.append line (String newline rest)) prefix
          = String.append prefix
              (String.append line
                 (String newline (prefixLine rest prefix))))
    /\ (forall line,
          one_line line = true -> line <> "" ->
          prefixLine line prefix = String.append prefix line).
Proof.
  intros prefix. split; [reflexivity|]. split.
  - intros line rest H. unfold prefixLine.
    destruct line as [|c line]; [reflexivity|].
    simpl in H. apply andb_true_iff in H. destruct H as [Hc Hl].
    apply negb_true_iff in Hc.
    cbn [String.append prefixLine_from]. unfold newline in Hc. rewrite Hc.
    rewrite prefixLine_from_line by exact Hl. reflexivity.
  - intros line H Hne. unfold prefixLine.
    destruct line as [|c line]; [contradiction|].
    simpl in H. apply andb_true_iff in H. destruct H as [Hc Hl].
    apply negb_true_iff in Hc.
    cbn [prefixLine_from]. unfold newline in Hc. rewrite Hc.
    rewrite prefixLine_from_last by exact Hl. reflexivity.
Qed.

Lemma appends_ret ks {A} (a : A) : appends ks (ret a).
Proof.
  intros st a' st' H. inv H. exists []. rewrite app_nil_r. split; constructor.
Qed.

Lemma appends_throw ks {A} e : appends ks (@throw A e).
Proof. intros st a st' H. discriminate. Qed.

Lemma appends_bind ks {A B} (m : M A) (k : A -> M B) :
  appends ks m -> (forall a, appends ks (k a)) -> appends ks (bind m k).
Proof.
  intros Hm Hk st b st' H. apply bind_Ok in H.
  destruct H as [a [st1 [H1 H2]]].
  destruct (Hm _ _ _ H1) as [n1 [E1 F1]].
  destruct (Hk a _ _ _ H2) as [n2 [E2 F2]].
  exists (n1 ++ n2). split; [rewrite E2, E1, app_assoc; reflexivity|].
  apply Forall_app. auto.
Qed.

Lemma appends_keeps ks {A} (m : M A) : keeps_nodes m -> appends ks m.
Proof.
  intros Hk st a st' H. exists []. rewrite app_nil_r.
  split; [eapply Hk; exact H|constructor].
Qed.

Lemma appends_insert1 ks kind inputs ty attrs c :
  In kind ks -> appends ks (insert1 kind inputs ty attrs c).
Proof.
  intros Hin st v st' H.
  unfold insert1, new_value, insertNode, bind, fresh, get, modify, ret in H.
  inv H. eexists. split; [reflexivity|]. constructor; [exact Hin|constructor].
Qed.

Lemma appends_create_type ks t : appends ks (create_type t).
Proof. apply appends_keeps. unfold create_type. keeps. Qed.

Lemma keeps_new_values tys kind inputs :
  keeps_nodes (new_values tys kind inputs).
Proof.
  induction tys as [|ty tys IH]; simpl; [keeps|].
  apply keeps_bind; [apply keeps_new_value|]. intros.
  apply keeps_bind; [exact IH|]. intros. keeps.
Qed.

Lemma appends_createTupleUnpack v : appends structural_kinds (createTupleUnpack v).
Proof.
  unfold createTupleUnpack.
  destruct (String.eqb (v_kind v) "prim::TupleConstruct");
    [apply appends_ret|].
  destruct (cast_TupleType (v_type v)); [|apply appends_throw].
  apply appends_bind; [apply appends_keeps, keeps_new_values|]. intros outs.
  apply appends_bind; [|intros; apply appends_ret].
  intros st a st' H. unfold insertNode, modify in H. inv H.
  eexists. split; [reflexivity|].
  constructor; [simpl; auto|constructor].
Qed.

Lemma appends_createList elem_type values :
  appends structural_kinds (createList elem_type values).
Proof.
  unfold createList. apply appends_bind; [apply appends_create_type|].
  intros. apply appends_insert1. simpl. auto.
Qed.

Lemma appends_createTuple values :
  appends structural_kinds (createTuple values).
Proof.
  unfold createTuple. apply appends_bind; [apply appends_create_type|].
  intros. apply appends_insert1. simpl. auto.
Qed.

Section FirstPass.

Variable E : Externals.

Lemma appends_none_forms concrete_type value :
  appends structural_kinds
    (if isSubtypeOf E (v_type value) NoneType_get
        && negb (isSubtypeOf E concrete_type NoneType_get)
     then
       if isSubtypeOf E concrete_type GeneratorType_get then createNoneGenerator
       else if isSubtypeOf E concrete_type OptionalType_ofTensor
            then createUndefined
            else match cast_OptionalType concrete_type with
                 | Some elem => createNone elem
                 | None => ret value
                 end
     else ret value).
Proof.
  destruct (_ && _); [|apply appends_ret].
  destruct (isSubtypeOf E concrete_type GeneratorType_get);
    [apply appends_insert1; simpl; auto 10|].
  destruct (isSubtypeOf E concrete_type OptionalType_ofTensor);
    [apply appends_insert1; simpl; auto 10|].
  destruct (cast_OptionalType concrete_type); [|apply appends_ret].
  unfold createNone. apply appends_bind; [apply appends_create_type|].
  intros. apply appends_insert1. simpl. auto 10.
Qed.

Lemma appends_to_list concrete_type value :
  appends structural_kinds
    (if convertibleToList E (v_type value) (unwrapOptional concrete_type) then
       unpacked <- createTupleUnpack value ;;
       match cast_ListType (unwrapOptional concrete_type) with
       | Some elem_type => createList elem_type unpacked
       | None => throw (External "expect<ListType>")
       end
     else ret value).
Proof.
  destruct (convertibleToList _ _ _); [|apply appends_ret].
  apply appends_bind; [apply appends_createTupleUnpack|]. intros.
  destruct (cast_ListType _); [apply appends_createList|apply appends_throw].
Qed.

Lemma appends_tryConvertToType concrete_type :
  forall value,
    appends structural_kinds (tryConvertToType E concrete_type value false).
Proof.
  induction concrete_type as [a elems IH|a t Hnt] using TypePtr_tuple_ind;
    intros value.
  - cbn [tryConvertToType].
    apply appends_bind; [|intros v; apply appends_bind;
                            [apply appends_none_forms|intros; apply appends_ret]].
    destruct (cast_TupleType (v_type value)) as [value_elems|];
      [|apply appends_ret].
    apply appends_bind; [apply appends_to_list|]. intros v.
    destruct (negb _ && _); [|apply appends_ret].
    apply appends_bind; [apply appends_createTupleUnpack|]. intros unpacked.
    apply appends_bind; [|intros; apply appends_createTuple].
    revert unpacked. induction IH as [|c cs Hc _ IHcs]; intros unpacked.
    + apply appends_ret.
    + destruct unpacked as [|u us]; [apply appends_throw|].
      apply appends_bind; [apply Hc|]. intros x.
      apply appends_bind; [apply IHcs|]. intros. apply appends_ret.
  - assert (Hshape :
      tryConvertToType E (TPtr a t) value false
      = (v1 <- match cast_TupleType (v_type value) with
               | Some value_elems =>
                   v0 <- (if convertibleToList E (v_type value)
                               (unwrapOptional (TPtr a t)) then
                            unpacked <- createTupleUnpack value ;;
                            match cast_ListType (unwrapOptional (TPtr a t)) with
                            | Some elem_type => createList elem_type unpacked
                            | None => throw (External "expect<ListType>")
                            end
                          else ret value) ;;
                   ret v0
               | None => ret value
               end ;;
         v2 <- (if isSubtypeOf E (v_type v1) NoneType_get
                   && negb (isSubtypeOf E (TPtr a t) NoneType_get)
                then
                  if isSubtypeOf E (TPtr a t) GeneratorType_get
                  then createNoneGenerator
                  else if isSubtypeOf E (TPtr a t) OptionalType_ofTensor
                       then createUndefined
                       else match cast_OptionalType (TPtr a t) with
                            | Some elem => createNone elem
                            | None => ret v1
                            end
                else ret v1) ;;
         ret v2)).
    { destruct t; try discriminate; reflexivity. }
    rewrite Hshape.
    apply appends_bind.
    + destruct (cast_TupleType (v_type value)); [|apply appends_ret].
      apply appends_bind; [apply appends_to_list|intros; apply appends_ret].
    + intros v1. apply appends_bind; [apply appends_none_forms|].
      intros. apply appends_ret.
Qed.

(** X21.  What the pass that forbids conversions may still do to an
    argument.  It never inserts the tensor-to-number conversion
    ([prim::ImplicitTensorToNum]) and never calls [aten::device]: all it
    appends to the current block are nodes that take tuples apart or
    rebuild them, build a list from a tuple, or give a typed form to
    none. *)
Theorem first_pass_conversions_are_structural :
  forall (concrete_type : TypePtr) (value : Value) (st : CState)
         (converted : Value) (st' : CState),
    tryConvertToType E concrete_type value false st = Ok converted st' ->
    exists new,
      st_nodes st' = st_nodes st ++ new
      /\ Forall (fun n => In (n_kind n) structural_kinds) new
      /\ Forall (fun n => n_kind n <> "prim::ImplicitTensorToNum"
                          /\ n_kind n <> "aten::device") new.
Proof.
  intros concrete_type value st converted st' H.
  destruct (appends_tryConvertToType concrete_type value _ _ _ H)
    as [new [Hn Hk]].
  exists new. split; [exact Hn|]. split; [exact Hk|].
  eapply Forall_impl; [|exact Hk].
  intros n Hin. cbv beta in Hin.
  split; intros Heq; rewrite Heq in Hin; simpl in Hin;
    repeat (destruct Hin as [Hin|Hin]; [discriminate|]); exact Hin.
Qed.

End FirstPass.
(** * Keyword arguments *)

Lemma set_nth_true_length i l :
  List.length (set_nth_true i l) = List.length l.
Proof.
  revert i. induction l as [|b l IH]; intros [|i]; simpl; auto.
Qed.

Lemma set_nth_true_nth i j l :
  nth j (set_nth_true i l) false = true ->
  j = i \/ nth j l false = true.
Proof.
  revert i j. induction l as [|b l IH]; intros [|i] [|j]; simpl; auto.
  intros H. destruct (IH _ _ H); auto.
Qed.

Lemma findInputWithName_from_spec k name kwargs i :
  findInputWithName_from k name kwargs = Some i ->
  k <= i
  /\ (exists kw, nth_error kwargs (i - k) = Some kw /\ nv_name kw = Some name)
  /\ forall j kw, j < i - k -> nth_error kwargs j = Some kw ->
                  nv_name kw <> Some name.
Proof.
  revert k. induction kwargs as [|kw kwargs IH]; intros k H; simpl in H.
  - discriminate.
  - assert (Hrest : findInputWithName_from (S k) name kwargs = Some i ->
                    k <= i
                    /\ (exists kw0, nth_error (kw :: kwargs) (i - k) = Some kw0
                                    /\ nv_name kw0 = Some name)
                    /\ (nv_name kw <> Some name ->
                        forall j kw0, j < i - k ->
                          nth_error (kw :: kwargs) j = Some kw0 ->
                          nv_name kw0 <> Some name)).
    { intros H0. destruct (IH _ H0) as [Hle [[kw0 [Hn Hk]] Hbefore]].
      split; [lia|]. split.
      - exists kw0. replace (i - k) with (S (i - S k)) by lia. auto.
      - intros Hkw j kw1 Hj Hnth. destruct j as [|j]; simpl in Hnth.
        + inv Hnth. exact Hkw.
        + apply (Hbefore j kw1); [lia|exact Hnth]. }
    destruct (nv_name kw) as [n|] eqn:Hname.
    + destruct (String.eqb n name) eqn:Heq.
      * inv H. apply String.eqb_eq in Heq. subst n.
        split; [lia|]. rewrite Nat.sub_diag. split.
        -- exists kw. auto.
        -- intros j kw0 Hj. lia.
      * destruct (Hrest H) as [Hle [Hex Hbefore]].
        split; [exact Hle|]. split; [exact Hex|].
        apply Hbefore. intros Hc. inv Hc.
        rewrite String.eqb_refl in Heq. discriminate.
    + destruct (Hrest H) as [Hle [Hex Hbefore]].
      split; [exact Hle|]. split; [exact Hex|].
      apply Hbefore. discriminate.
Qed.

Lemma findInputWithName_spec name kwargs i :
  findInputWithName name kwargs = Some i ->
  (exists kw, nth_error kwargs i = Some kw /\ nv_name kw = Some name)
  /\ forall j kw, j < i -> nth_error kwargs j = Some kw ->
                  nv_name kw <> Some name.
Proof.
  intros H. apply findInputWithName_from_spec in H.
  rewrite Nat.sub_0_r in H. tauto.
Qed.

Lemma first_unused_kwarg_none kwargs used :
  List.length used = List.length kwargs ->
  first_unused_kwarg kwargs used = None ->
  forall i, i < List.length kwargs -> nth i used false = true.
Proof.
  revert used. induction kwargs as [|kw kwargs IH]; intros [|u used] Hl H i Hi;
    simpl in *; try lia; try discriminate.
  destruct u; [|discriminate].
  destruct i as [|i]; [reflexivity|].
  apply IH; [lia|exact H|lia].
Qed.

Section Keywords.

Variable E : Externals.

Lemma bind_parameter_used_kwarg err args kwargs allow arg rest fm bd st bd' fm'
    st' :
  bind_parameter E err args kwargs allow arg rest fm bd st
  = Ok (Some bd', fm') st' ->
  bd_used_kwarg bd' = bd_used_kwarg bd
  \/ exists idx,
       findInputWithName (arg_name arg) kwargs = Some idx
       /\ bd_used_kwarg bd' = set_nth_true idx (bd_used_kwarg bd).
Proof.
  intros H. unfold bind_parameter in H.
  assert (Hone : forall nv bd0 st0,
    ('(positional, failure_messages, type_env) <-
        tryMatchArgument E arg nv err fm allow (bd_type_env bd0) ;;
      match positional with
      | None => ret (None, failure_messages)
      | Some positional =>
          ret (Some {| bd_self := bd_self bd0;
                       bd_used_args := bd_used_args bd0;
                       bd_used_kwarg := bd_used_kwarg bd0;
                       bd_positional_inputs :=
                         bd_positional_inputs bd0 ++ [positional];
                       bd_type_env := type_env |},
               failure_messages)
      end) st0 = Ok (Some bd', fm') st' ->
    bd_used_kwarg bd' = bd_used_kwarg bd0).
  { intros nv bd0 st0 H0.
    apply bind_Ok in H0. destruct H0 as [[[p fm1] env1] [s1 [_ H0]]].
    destruct p; inv H0. reflexivity. }
  destruct (if String.eqb (arg_name arg) "self" then bd_self bd else None).
  { left. apply Hone in H. exact H. }
  destruct (negb (kwarg_only arg) && _).
  - left.
    assert (Htake : forall s,
      match nth_error args (bd_used_args bd) with
      | Some v =>
          ('(positional, failure_messages, type_env) <-
              tryMatchArgument E arg v err fm allow (bd_type_env bd) ;;
            match positional with
            | None => ret (None, failure_messages)
            | Some positional =>
                ret (Some {| bd_self := bd_self bd;
                             bd_used_args := S (bd_used_args bd);
                             bd_used_kwarg := bd_used_kwarg bd;
                             bd_positional_inputs :=
                               bd_positional_inputs bd ++ [positional];
                             bd_type_env := type_env |},
                     failure_messages)
            end)
      | None => throw (External "std::out_of_range")
      end s = Ok (Some bd', fm') st' ->
      bd_used_kwarg bd' = bd_used_kwarg bd).
    { intros s H0. destruct (nth_error args (bd_used_args bd)); [|discriminate].
      apply (Hone n {| bd_self := bd_self bd;
                       bd_used_args := S (bd_used_args bd);
                       bd_used_kwarg := bd_used_kwarg bd;
                       bd_positional_inputs := bd_positional_inputs bd;
                       bd_type_env := bd_type_env bd |}) in H0.
      exact H0. }
    destruct (is_ListType (arg_type arg) && _ && _); [|exact (Htake _ H)].
    destruct (nth_error args (bd_used_args bd)) as [first|] eqn:Hnth;
      [|discriminate].
    apply bind_Ok in H. destruct H as [actual [s1 [_ H]]].
    destruct (negb (is_ListType (v_type actual)) && _).
    + destruct (cast_ListType (unwrapOptional (arg_type arg)));
        [|discriminate].
      apply bind_Ok in H. destruct H as [[[l fm1] env1] [s2 [_ H]]].
      destruct l; inv H. reflexivity.
    + exact (Htake _ H).
  - destruct (findInputWithName (arg_name arg) kwargs) as [idx|] eqn:Hfind.
    + destruct (nth_error kwargs idx); [|discriminate].
      destruct (nth idx (bd_used_kwarg bd) false); [discriminate|].
      right. exists idx. split; [reflexivity|].
      apply Hone in H. exact H.
    + left. destruct (default_value arg); [|discriminate].
      apply Hone in H. exact H.
Qed.

Lemma bind_parameters_used_kwarg err args kwargs allow all_params :
  forall params fm bd st bd' fm' st',
    incl params all_params ->
    marks_name_parameters all_params kwargs (bd_used_kwarg bd) ->
    bind_parameters E err args kwargs allow params fm bd st
    = Ok (Some bd', fm') st' ->
    marks_name_parameters all_params kwargs (bd_used_kwarg bd').
Proof.
  induction params as [|arg rest IH]; intros fm bd st bd' fm' st' Hincl Hm H;
    simpl in H.
  - inv H. exact Hm.
  - apply bind_Ok in H. destruct H as [[r fm1] [s1 [Hb H]]].
    destruct r as [bd1|]; [|discriminate].
    apply (IH _ _ _ _ _ _ (fun a Ha => Hincl a (or_intror Ha))) in H;
      [exact H|].
    destruct (bind_parameter_used_kwarg _ _ _ _ _ _ _ _ _ _ _ _ Hb)
      as [Heq|[idx [Hfind Heq]]]; rewrite Heq; [exact Hm|].
    destruct Hm as [Hlen Hmarks]. split.
    + rewrite set_nth_true_length. exact Hlen.
    + intros i Hi. destruct (set_nth_true_nth _ _ _ Hi) as [->|Hold].
      * exists arg. split; [apply Hincl; left; reflexivity|exact Hfind].
      * apply Hmarks. exact Hold.
Qed.

(** X22.  A call that matches leaves no keyword argument unused.  Every
    keyword argument names a parameter of the schema, no two keyword
    arguments have the same name, and so there are at most as many of them
    as parameters. *)
Theorem matched_call_uses_every_keyword :
  forall (schema : FunctionSchema) (self : option NamedValue)
         (args kwargs : list NamedValue) (fm : Failures) (allow : bool)
         (st : CState) (matched : MatchedSchema) (fm' : Failures)
         (st' : CState),
    tryMatchSchema E schema self args kwargs fm allow st
    = Ok (Some matched, fm') st' ->
    Forall (fun kw => exists a, In a (arguments schema)
                                /\ nv_name kw = Some (arg_name a)) kwargs
    /\ NoDup (map nv_name kwargs)
    /\ List.length kwargs <= List.length (arguments schema).
Proof.
  intros schema self args kwargs fm allow st matched fm' st' H.
  unfold tryMatchSchema in H.
  apply bind_Ok in H. destruct H as [[r fm1] [s1 [Hb H]]].
  destruct r as [bd|]; [|discriminate].
  apply bind_parameters_used_kwarg with (all_params := arguments schema) in Hb;
    [|apply incl_refl|].
  2:{ split; [apply repeat_length|]. intros i Hi. simpl in Hi.
      rewrite nth_repeat in Hi. discriminate. }
  apply bind_Ok in H. destruct H as [[positional_inputs used_args] [s2 [_ H]]].
  destruct (Nat.ltb used_args (List.length args)); [discriminate|].
  destruct (first_unused_kwarg kwargs (bd_used_kwarg bd)) as [nv|] eqn:Hun.
  { destruct (negb _); discriminate. }
  destruct Hb as [Hlen Hmarks].
  pose proof (first_unused_kwarg_none _ _ Hlen Hun) as Hall.
  assert (Hname : forall i kw, nth_error kwargs i = Some kw ->
            exists a, In a (arguments schema)
                      /\ nv_name kw = Some (arg_name a)
                      /\ findInputWithName (arg_name a) kwargs = Some i).
  { intros i kw Hnth.
    assert (Hi : i < List.length kwargs)
      by (apply nth_error_Some; rewrite Hnth; discriminate).
    destruct (Hmarks i (Hall i Hi)) as [a [Hin Hfind]].
    exists a. split; [exact Hin|]. split; [|exact Hfind].
    destruct (findInputWithName_spec _ _ _ Hfind) as [[kw' [Hnth' Hn]] _].
    rewrite Hnth in Hnth'. inv Hnth'. exact Hn. }
  assert (Hall_named : Forall (fun kw => exists a, In a (arguments schema)
                                 /\ nv_name kw = Some (arg_name a)) kwargs).
  { apply Forall_forall. intros kw Hin.
    destruct (In_nth_error _ _ Hin) as [i Hnth].
    destruct (Hname i kw Hnth) as [a [Ha [Hn _]]]. exists a. auto. }
  assert (Hnodup : NoDup (map nv_name kwargs)).
  { apply NoDup_nth_error. intros i j Hi Hij.
    rewrite length_map in Hi.
    destruct (nth_error kwargs i) as [kwi|] eqn:Hnthi;
      [|apply nth_error_None in Hnthi; lia].
    rewrite (map_nth_error nv_name i kwargs Hnthi) in Hij.
    destruct (nth_error kwargs j) as [kwj|] eqn:Hnthj.
    2:{ rewrite nth_error_map, Hnthj in Hij. discriminate. }
    rewrite (map_nth_error nv_name j kwargs Hnthj) in Hij.
    injection Hij as Hij.
    destruct (Hname i kwi Hnthi) as [a [_ [Hni Hfi]]].
    destruct (Hname j kwj Hnthj) as [b [_ [Hnj Hfj]]].
    assert (Hab : arg_name a = arg_name b) by congruence.
    rewrite Hab in Hfi. congruence. }
  split; [exact Hall_named|]. split; [exact Hnodup|].
  rewrite <- (length_map nv_name kwargs).
  rewrite <- (length_map (fun a => Some (arg_name a)) (arguments schema)).
  apply NoDup_incl_length; [exact Hnodup|].
  intros n Hn. apply in_map_iff in Hn. destruct Hn as [kw [<- Hin]].
  rewrite Forall_forall in Hall_named.
  destruct (Hall_named kw Hin) as [a [Ha Hname']].
  rewrite Hname'. apply in_map_iff. exists a. auto.
Qed.

End Keywords.

(** * Type expressions *)

Lemma only_fresh_fresh st a st' : fresh st = Ok a st' -> only_fresh st st'.
Proof.
  unfold fresh. intros H. inv H. eexists. reflexivity.
Qed.

Lemma only_fresh_create_type t st p st' :
  create_type t st = Ok p st' -> only_fresh st st' /\ deref p = t.
Proof.
  unfold create_type. intros H.
  apply bind_Ok in H. destruct H as [a [s [Hf H]]]. inv H.
  split; [eapply only_fresh_fresh; exact Hf|reflexivity].
Qed.

Lemma create_type_total t st : exists p st', create_type t st = Ok p st'.
Proof.
  unfold create_type, bind, fresh, ret. eexists _, _. reflexivity.
Qed.

Lemma parseTypeFromExpr_constructor ctor mk elem :
  (ctor, mk) = ("List", ListType) \/ (ctor, mk) = ("Optional", OptionalType)
  \/ (ctor, mk) = ("Future", FutureType) ->
  parseTypeFromExpr (Subscript (Var ctor) [elem])
  = (elem_type <- parseTypeFromExpr elem ;; create_type (mk elem_type)).
Proof.
  intros [H|[H|H]]; inv H; reflexivity.
Qed.

Lemma parseTypeFromExpr_tuple elems :
  parseTypeFromExpr (Subscript (Var "Tuple") elems)
  = (subscript_expr_types <-
       (fix parse_all (es : list Expr) : M (list TypePtr) :=
          match es with
          | [] => ret []
          | e :: es' =>
              t <- parseTypeFromExpr e ;;
              ts <- parse_all es' ;;
              ret (t :: ts)
          end) elems ;;
     create_type (TupleType subscript_expr_types)).
Proof.
  reflexivity.
Qed.

(** X23.  An annotation parses to the type it stands for.  When every name
    in it is in the table of type names, [parseTypeFromExpr] succeeds on
    the expression that writes it, returns the type it denotes, and changes
    nothing in the compilation but the addresses handed out; otherwise it
    fails with "unknown type name". *)
Theorem annotation_parses_to_its_type :
  forall (a : Annotation) (st : CState),
    if known_names a then
      exists t st',
        parseTypeFromExpr (annotation_expr a) st = Ok t st'
        /\ denotes a t /\ only_fresh st st'
    else
      exists name,
        parseTypeFromExpr (annotation_expr a) st = Err (UnknownTypeName name).
Proof.
  assert (Hone : forall ctor mk elem,
    (ctor, mk) = ("List", ListType) \/ (ctor, mk) = ("Optional", OptionalType)
    \/ (ctor, mk) = ("Future", FutureType) ->
    (forall st,
        if known_names elem then
          exists t st',
            parseTypeFromExpr (annotation_expr elem) st = Ok t st'
            /\ denotes elem t /\ only_fresh st st'
        else
          exists name,
            parseTypeFromExpr (annotation_expr elem) st
            = Err (UnknownTypeName name)) ->
    forall st,
      if known_names elem then
        exists t st',
          parseTypeFromExpr (Subscript (Var ctor) [annotation_expr elem]) st
          = Ok t st'
          /\ (exists e, t = TPtr (addr_of t) (mk e) /\ denotes elem e)
          /\ only_fresh st st'
      else
        exists name,
          parseTypeFromExpr (Subscript (Var ctor) [annotation_expr elem]) st
          = Err (UnknownTypeName name)).
  { intros ctor mk elem Hc IH st.
    rewrite (parseTypeFromExpr_constructor ctor mk _ Hc).
    specialize (IH st). destruct (known_names elem).
    - destruct IH as [t [st1 [Hp [Hd Hf]]]].
      destruct (create_type_total (mk t) st1) as [p [st2 Hcreate]].
      exists p, st2. split; [rewrite (bind_Ok_l _ _ _ _ _ Hp); exact Hcreate|].
      destruct (only_fresh_create_type _ _ _ _ Hcreate) as [Hf2 Hderef].
      split; [|eapply only_fresh_trans; eassumption].
      exists t. split; [|exact Hd]. destruct p. simpl in *. congruence.
    - destruct IH as [name Hp]. exists name.
      apply bind_Err_l. exact Hp. }
  induction a as [name|elem IH|elem IH|elem IH|elems IH]
    using Annotation_nested_ind; intros st.
  - cbn [known_names annotation_expr].
    change (parseTypeFromExpr (Var name))
      with (match lookup name ident_to_type_lut with
            | Some t => ret t
            | None => throw (UnknownTypeName name)
            end).
    destruct (lookup name ident_to_type_lut) as [t|] eqn:Hl.
    + exists t, st. split; [reflexivity|].
      split; [constructor; exact Hl|apply only_fresh_refl].
    + exists name. reflexivity.
  - pose proof (Hone "List" ListType elem (or_introl eq_refl)
                  IH st) as H.
    simpl. destruct (known_names elem); [|exact H].
    destruct H as [t [st' [Hp [[e [Ht Hd]] Hf]]]].
    exists t, st'. split; [exact Hp|]. split; [|exact Hf].
    rewrite Ht. constructor. exact Hd.
  - pose proof (Hone "Optional" OptionalType elem
                  (or_intror (or_introl eq_refl))
                  IH st) as H.
    simpl. destruct (known_names elem); [|exact H].
    destruct H as [t [st' [Hp [[e [Ht Hd]] Hf]]]].
    exists t, st'. split; [exact Hp|]. split; [|exact Hf].
    rewrite Ht. constructor. exact Hd.
  - pose proof (Hone "Future" FutureType elem
                  (or_intror (or_intror eq_refl))
                  IH st) as H.
    simpl. destruct (known_names elem); [|exact H].
    destruct H as [t [st' [Hp [[e [Ht Hd]] Hf]]]].
    exists t, st'. split; [exact Hp|]. split; [|exact Hf].
    rewrite Ht. constructor. exact Hd.
  - cbn [annotation_expr known_names].
    rewrite parseTypeFromExpr_tuple.
    assert (Hall : forall st,
      if forallb known_names elems then
        exists ts st',
          (fix parse_all (es : list Expr) : M (list TypePtr) :=
             match es with
             | [] => ret []
             | e :: es' =>
                 t <- parseTypeFromExpr e ;;
                 ts <- parse_all es' ;;
                 ret (t :: ts)
             end) (map annotation_expr elems) st = Ok ts st'
          /\ Forall2 denotes elems ts /\ only_fresh st st'
      else
        exists name,
          (fix parse_all (es : list Expr) : M (list TypePtr) :=
             match es with
             | [] => ret []
             | e :: es' =>
                 t <- parseTypeFromExpr e ;;
                 ts <- parse_all es' ;;
                 ret (t :: ts)
             end) (map annotation_expr elems) st
          = Err (UnknownTypeName name)).
    { clear st. induction IH as [|x l Hx _ IHl]; intros st.
      - simpl. exists [], st.
        split; [reflexivity|]. split; [constructor|apply only_fresh_refl].
      - cbn [forallb map]. specialize (Hx st).
        destruct (known_names x).
        + destruct Hx as [t [st1 [Hp [Hd Hf]]]].
          specialize (IHl st1). cbn [andb].
          destruct (forallb known_names l).
          * destruct IHl as [ts [st2 [Hps [Hds Hfs]]]].
            exists (t :: ts), st2.
            split; [|split; [constructor; assumption
                            |eapply only_fresh_trans; eassumption]].
            rewrite (bind_Ok_l _ _ _ _ _ Hp).
            rewrite (bind_Ok_l _ _ _ _ _ Hps). reflexivity.
          * destruct IHl as [name Hps]. exists name.
            rewrite (bind_Ok_l _ _ _ _ _ Hp).
            apply bind_Err_l. exact Hps.
        + destruct Hx as [name Hp]. exists name.
          cbn [andb]. apply bind_Err_l. exact Hp. }
    specialize (Hall st). destruct (forallb known_names elems).
    + destruct Hall as [ts [st1 [Hp [Hd Hf]]]].
      destruct (create_type_total (TupleType ts) st1) as [p [st2 Hcreate]].
      exists p, st2. split; [rewrite (bind_Ok_l _ _ _ _ _ Hp); exact Hcreate|].
      destruct (only_fresh_create_type _ _ _ _ Hcreate) as [Hf2 Hderef].
      split; [|eapply only_fresh_trans; eassumption].
      destruct p as [addr pointee]. simpl in Hderef. subst pointee.
      constructor. exact Hd.
    + destruct Hall as [name Hp]. exists name.
      apply bind_Err_l. exact Hp.
Qed.

(** * Casts *)

Lemma createCapturedInputIfNeeded_unbound ident :
  forall env st,
    findInAnyFrame ident env = None ->
    createCapturedInputIfNeeded ident env st = Ok (None, env) st.
Proof.
  induction env as [|this next IH]; intros st Hnone.
  - reflexivity.
  - simpl in Hnone. simpl.
    destruct (findInThisFrame ident this); [discriminate|].
    unfold bind. rewrite (IH st Hnone). reflexivity.
Qed.

Lemma set_env_same st : set_env (environment_stack st) st = st.
Proof.
  destruct st. reflexivity.
Qed.

Section Casts.

Variable E : Externals.

Lemma env_getSugaredVar_global ident g st :
  findInAnyFrame ident (environment_stack st) = None ->
  lookup ident globals = Some g ->
  env_getSugaredVar E ident st = Ok g st.
Proof.
  intros Hnone Hg.
  unfold env_getSugaredVar, on_env, getSugaredVar, bind, get, modify, ret.
  rewrite (createCapturedInputIfNeeded_unbound ident _ st Hnone).
  unfold or_else. rewrite Hg. rewrite set_env_same. reflexivity.
Qed.

(** X24.  A cast to the type a value already has is the identity.  For a
    cast name ([int], [float], [bool], [_to_tensor]) that no variable
    shadows, the call on one argument whose value is of the target type, or
    of a subtype, compiles to the argument alone: the result is the value
    of the argument and nothing is emitted for the cast. *)
Theorem cast_to_own_type_is_identity :
  forall (name : string) (type_ : TypePtr) (method : Symbol) (arg : Expr)
         (st : CState) (v : Value) (st1 : CState),
    lookup name globals = Some (CastValue type_ method) ->
    findInAnyFrame name (environment_stack st) = None ->
    emitExpr E arg None st = Ok v st1 ->
    isSubtypeOf E (v_type v) type_ = true ->
    emitExpr E (Apply (Var name) [arg] []) None st = Ok v st1.
Proof.
  intros name type_ method arg st v st1 Hg Hnone Harg Hsub.
  unfold emitExpr in *. cbn [emitSugaredExpr map].
  unfold valueOf at 1. unfold emitApplyExpr_of.
  unfold bind at 1 2.
  rewrite (env_getSugaredVar_global name _ st Hnone Hg).
  cbv beta iota.
  unfold getNamedValues_of, emitAttributes_of. cbn [mapM map snd].
  unfold bind. rewrite Harg. unfold ret.
  cbn [call CastValue_call].
  unfold bind, nv_value, positional, ret. cbn [nv_payload].
  rewrite Hsub. reflexivity.
Qed.

End Casts.

(** * Further examples

    The further properties at inputs built from [Sample]. *)

(** A loop body that captured [a] and [c] reads [b]: the captured names
    become [a], [b], [c]. *)
Lemma captured_inputs_sorted_and_aligned_example :
  alphabetical (captured_inputs loop_frame)
  /\ inputs_aligned loop_frame
  /\ exists sv this' st',
       createCapturedInput (Sample.input 101 IntType_get) "b" loop_frame
                           in_loop_body = Ok (sv, this') st'
       /\ captured_inputs this' = ["a"; "b"; "c"]
       /\ alphabetical (captured_inputs this')
       /\ inputs_aligned this'
       /\ findInThisFrame "b" this' = Some sv.
Proof.
  assert (Hs : alphabetical (captured_inputs loop_frame))
    by (repeat constructor).
  assert (Ha : inputs_aligned loop_frame) by reflexivity.
  split; [exact Hs|]. split; [exact Ha|].
  eexists _, _, _. split; [vm_compute; reflexivity|].
  split; [reflexivity|].
  match goal with
  | |- alphabetical (captured_inputs ?t) /\ _ /\ _ = Some ?sv =>
      destruct (captured_inputs_sorted_and_aligned
                  (Sample.input 101 IntType_get) "b" loop_frame in_loop_body
                  sv t _ eq_refl Hs Ha)
        as [H1 [H2 [_ [[v [Hv [_ [_ Hfind]]]] _]]]]
  end.
  split; [exact H1|]. split; [exact H2|]. exact Hfind.
Defined.

(** In the body of a loop, the first read of [a] captures it; the second
    read finds it captured. *)
Lemma variable_read_is_idempotent_example :
  exists v st',
    env_getVar Sample.externals "a" in_loop_body = Ok v st'
    /\ map captured_inputs (environment_stack st') = [["a"]; []]
    /\ env_getVar Sample.externals "a" st' = Ok v st'.
Proof.
  eexists _, _. split; [vm_compute; reflexivity|]. split; [reflexivity|].
  apply (proj2 (variable_read_is_idempotent Sample.externals "a"
                  in_loop_body)).
  vm_compute. reflexivity.
Defined.

(** [a = 5] in a branch of a function in which [a] is an integer. *)
Lemma assignment_then_lookup_example :
  let value := SimpleValue (Sample.int_constant 101 5) in
  let env := [Sample.frame 1 []; function_frame] in
  exists env' st',
    setSugaredVar Sample.externals "a" value env initial_state = Ok env' st'
    /\ findInAnyFrame "a" env' = Some value
    /\ getSugaredVar Sample.externals "a" env' st' = Ok (value, env') st'
    /\ findInAnyFrame "c" env' = findInAnyFrame "c" env.
Proof.
  intros value env.
  eexists _, _. split; [vm_compute; reflexivity|].
  match goal with
  | |- findInAnyFrame _ ?e = _ /\ getSugaredVar _ _ _ ?s = _ /\ _ =>
      destruct (assignment_then_lookup Sample.externals "a" value env e
                  initial_state s eq_refl) as [H1 [H2 [_ H4]]]
  end.
  split; [exact H1|]. split; [exact H2|].
  apply H4. discriminate.
Defined.

(** A type error recorded for [a] from a branch is found from a frame
    pushed later. *)
Lemma type_error_is_function_scoped_example :
  let msg := BranchTypeMismatch "a" IntType_get StringType_get in
  let env := [Sample.frame 1 []; Sample.frame 0 []] in
  env <> []
  /\ findVariableTypeError "a"
       ([Sample.frame 2 []] ++ setVariableTypeError "a" msg env) = Some msg
  /\ removelast (setVariableTypeError "a" msg env) = removelast env.
Proof.
  intros msg env.
  assert (H : env <> []) by discriminate.
  split; [exact H|].
  destruct (type_error_is_function_scoped "a" msg env [Sample.frame 2 []] H)
    as [H1 [_ [_ H4]]].
  split; [exact H1|exact H4].
Defined.

(** The literal 7, asked for twice in a fresh graph. *)
Lemma integer_constants_are_interned_example :
  interned initial_state
  /\ exists v st',
       materializeConstant 7 initial_state = Ok v st'
       /\ toIValue v = Some (IVInt 7)
       /\ materializeConstant 7 st' = Ok v st'.
Proof.
  assert (H : interned initial_state) by (intros z v Hf; discriminate Hf).
  split; [exact H|].
  destruct (integer_constants_are_interned 7 initial_state H)
    as [v [st' [H1 [_ [H3 [H4 _]]]]]].
  exists v, st'. split; [exact H1|]. split; [exact H3|exact H4].
Defined.

(** Two integers packed into a tuple and unpacked. *)
Lemma pack_then_unpack_example :
  let values := [Sample.input 100 IntType_get; Sample.input 101 IntType_get] in
  List.length values <> 1
  /\ exists tup st',
       packOutputs values initial_state = Ok tup st'
       /\ createTupleUnpack tup st' = Ok values st'.
Proof.
  intros values.
  assert (H : List.length values <> 1) by (simpl; lia).
  split; [exact H|].
  eexists _, _. split; [vm_compute; reflexivity|].
  match goal with
  | |- createTupleUnpack ?t ?s = _ =>
      exact (proj1 (proj2 pack_then_unpack values initial_state t s H eq_refl))
  end.
Defined.

(** A loop body that captured [a] and [c] and assigned [a] only: the input
    of [c] is deleted. *)
Lemma deleteExtraInputs_keeps_body_aligned_example :
  exists lb' st',
    deleteExtraInputs assigns_a in_function = Ok lb' st'
    /\ captured_inputs (body_frame lb') = ["a"]
    /\ st' = in_function
    /\ body_aligned lb'.
Proof.
  eexists _, _. split; [vm_compute; reflexivity|]. split; [reflexivity|].
  match goal with
  | |- ?s = _ /\ body_aligned ?lb =>
      destruct (proj1 (deleteExtraInputs_keeps_body_aligned assigns_a
                         in_function) lb s eq_refl)
        as [H1 [_ [H3 _]]]
  end.
  split; [exact H1|exact H3].
Defined.
(** An if/else that assigns [a] in both branches: one output. *)
Lemma if_node_outputs_are_merged_example :
  let cond := Sample.input 40 BoolType_get in
  exists st' out true_b false_b,
    emitIfElseBlocks Sample.externals (fun l => l) cond
      (env_setVar Sample.externals "a" (Sample.int_constant 30 1))
      (env_setVar Sample.externals "a" (Sample.int_constant 31 2))
      in_function = Ok tt st'
    /\ st_nodes st'
       = st_nodes in_function
         ++ [mkNode "prim::If" [cond] [out] [true_b; false_b] []]
    /\ v_type out = IntType_get
    /\ List.length (b_outputs true_b) = 1
    /\ List.length (b_outputs false_b) = 1.
Proof.
  intros cond.
  assert (Hrun : exists st',
             emitIfElseBlocks Sample.externals (fun l => l) cond
               (env_setVar Sample.externals "a" (Sample.int_constant 30 1))
               (env_setVar Sample.externals "a" (Sample.int_constant 31 2))
               in_function = Ok tt st'
             /\ exists out, n_outputs (last (st_nodes st') (mkNode "" [] [] [] []))
                            = [out] /\ v_type out = IntType_get)
    by (eexists; split; [vm_compute; reflexivity|];
        eexists; split; reflexivity).
  destruct Hrun as [st' [Hrun [out [Hout Hty]]]].
  destruct (if_node_outputs_are_merged Sample.externals (fun l => l) cond _ _
              _ _ Hrun)
    as [outs [tn [fn [touts [fouts [Hn [_ [Ht Hf]]]]]]]].
  rewrite Hn, last_last in Hout. simpl in Hout. subst outs.
  exists st', out, (mkBlock [] tn touts), (mkBlock [] fn fouts).
  split; [exact Hrun|]. split; [exact Hn|]. split; [exact Hty|].
  split; [exact Ht|exact Hf].
Defined.

(** [for i in range(3): a = a + 1] in a function in which [a] and [c] are
    integers: [a] is the one loop-carried variable. *)
Lemma loop_node_is_aligned_example :
  let body :=
    emitStatements Sample.externals (fun l => l)
      [Assign "a" (BinOp K_Add (Var "a") (Const 1))] in
  exists st' before trip cond_val outer out blk,
    emitLoopCommon Sample.externals (Some (Const 3)) None body (Some "i")
                   in_function = Ok tt st'
    /\ st_nodes st'
       = before ++ [mkNode "prim::Loop" [trip; cond_val; outer] [out] [blk] []]
    /\ List.length (b_inputs blk) = 2
    /\ List.length (b_outputs blk) = 2.
Proof.
  intros body.
  assert (Hrun : exists st',
             emitLoopCommon Sample.externals (Some (Const 3)) None body
                            (Some "i") in_function = Ok tt st'
             /\ List.length
                  (n_outputs (last (st_nodes st') (mkNode "" [] [] [] []))) = 1)
    by (eexists; split; [vm_compute; reflexivity|reflexivity]).
  destruct Hrun as [st' [Hrun Hone]].
  destruct (loop_node_is_aligned Sample.externals (Some (Const 3)) None body
              (Some "i") in_function st' Hrun)
    as [before [trip [cond_val [ins [outs [blk [Hn [Hl [Hi [Ho _]]]]]]]]]].
  rewrite Hn, last_last in Hone. simpl in Hone.
  rewrite Hone in Hl, Hi, Ho.
  destruct outs as [|out [|? ?]]; try discriminate Hone.
  destruct ins as [|outer [|? ?]]; try discriminate Hl.
  exists st', before, trip, cond_val, outer, out, blk.
  split; [exact Hrun|]. split; [exact Hn|]. split; [exact Hi|exact Ho].
Defined.

(** An integer is accepted for the parameter [a : int]; a string is
    rejected with one diagnostic. *)
Lemma matched_argument_is_subtype_example :
  (exists v type_env' st',
      tryMatchArgument Sample.externals (Sample.arg "a" IntType_get)
        (positional (Sample.input 100 IntType_get)) "add.int" [] false []
        initial_state = Ok (Some v, [], type_env') st'
      /\ exists actual concrete,
           matchTypeVariables Sample.externals IntType_get actual []
           = (Some concrete, type_env')
           /\ isSubtypeOf Sample.externals (v_type v) concrete = true)
  /\ (exists fm' type_env' st',
        tryMatchArgument Sample.externals (Sample.arg "a" IntType_get)
          (positional (Sample.string_constant 100 "s")) "add.int" [] false []
          initial_state = Ok (None, fm', type_env') st'
        /\ List.length fm' = 1).
Proof.
  split.
  - eexists _, _, _. split; [vm_compute; reflexivity|].
    match goal with
    | |- exists actual concrete,
           matchTypeVariables _ _ _ _ = (_, ?te) /\ _ (v_type ?v) _ = _ =>
        exact (proj2 (matched_argument_is_subtype Sample.externals
                        (Sample.arg "a" IntType_get)
                        (positional (Sample.input 100 IntType_get)) "add.int"
                        [] false [] initial_state (Some v) [] te initial_state
                        eq_refl))
    end.
  - eexists _, _, _. split; [vm_compute; reflexivity|].
    match goal with
    | |- List.length ?fm = 1 =>
        destruct (matched_argument_is_subtype Sample.externals
                    (Sample.arg "a" IntType_get)
                    (positional (Sample.string_constant 100 "s")) "add.int"
                    [] false [] initial_state None fm [] initial_state
                    eq_refl)
          as [actual [expected [H|H]]]
    end; reflexivity.
Defined.

(** [add.int] matched against two integers, and against three. *)
Lemma schema_match_account_example :
  (exists matched st',
      tryMatchSchema Sample.externals add_int None two_ints [] [] false
                     initial_state = Ok (Some matched, []) st'
      /\ List.length (ms_inputs matched) = 2
      /\ List.length (ms_return_types matched) = 1)
  /\ (exists fm' st',
        tryMatchSchema Sample.externals add_int None three_ints [] [] false
                       initial_state = Ok (None, fm') st'
        /\ fm' <> []).
Proof.
  split.
  - eexists _, _. split; [vm_compute; reflexivity|].
    match goal with
    | |- List.length (ms_inputs ?m) = _ /\ _ =>
        destruct (schema_match_account Sample.externals add_int None two_ints
                    [] [] false initial_state (Some m) [] initial_state
                    eq_refl)
          as [ds [_ [_ [H2 [H3 _]]]]]
    end.
    split; [exact (H2 eq_refl)|exact H3].
  - eexists _, _. split; [vm_compute; reflexivity|].
    match goal with
    | |- ?fm <> [] =>
        destruct (schema_match_account Sample.externals add_int None
                    three_ints [] [] false initial_state None fm
                    initial_state eq_refl)
          as [ds [Hfm Hds]]
    end.
    destruct ds; [contradiction|]. discriminate.
Defined.

(** [lt] has one overload, on integers.  Called on two strings it matches
    in neither pass: the error carries the diagnostics of the second pass.
    A name that is not registered is an unknown builtin. *)
Lemma unresolved_call_example :
  (exists fm,
      emitBuiltinCall Sample.externals "aten::lt" None two_strings [] true
                      initial_state = Err (InvalidCallArguments fm)
      /\ emitBuiltinCall Sample.externals "aten::lt" None two_strings [] false
                         initial_state = Ok None initial_state)
  /\ emitBuiltinCall Sample.externals "aten::nope" None two_strings [] true
                     initial_state = Err UnknownBuiltinOp.
Proof.
  split.
  - assert (Hpass : forall allow, exists fm,
              all_rejected Sample.externals "aten::lt" None two_strings []
                allow (candidates Sample.externals "aten::lt") []
                initial_state fm initial_state).
    { intros allow. eexists.
      eapply rejected_cons; [|apply rejected_nil].
      destruct allow; vm_compute; reflexivity. }
    destruct (Hpass false) as [fm0 H0]. destruct (Hpass true) as [fm H1].
    exists fm.
    pose proof (proj1 (unresolved_call Sample.externals "aten::lt" None
                         two_strings [])) as Hcall.
    split.
    + exact (Hcall true initial_state initial_state fm initial_state
               (ex_intro _ fm0 H0) H1).
    + exact (Hcall false initial_state initial_state fm initial_state
               (ex_intro _ fm0 H0) H1).
  - exact (proj1 (proj2 (unresolved_call Sample.externals "aten::nope" None
                           two_strings []) eq_refl eq_refl initial_state)).
Defined.

(** [a += 1] on an integer is [a = a + 1]. *)
Lemma augmented_assignment_desugars_example :
  exists st',
    emitStatement Sample.externals (fun l => l) (AugAssign "a" K_Add (Const 1))
                  in_function = Ok tt st'
    /\ emitStatement Sample.externals (fun l => l)
         (Assign "a" (BinOp K_Add (Var "a") (Const 1))) in_function
       = Ok tt st'.
Proof.
  eexists.
  rewrite (augmented_assignment_desugars Sample.externals (fun l => l) "a"
             K_Add (Const 1) in_function eq_refl).
  split; vm_compute; reflexivity.
Defined.

(** [a] is defined before the if/else and assigned in the first branch; [b]
    is assigned in both; [c] in the second only: [a] and [b] are merged. *)
Lemma merged_variables_characterized_example :
  let five := SimpleValue (Sample.int_constant 30 5) in
  let save_true := Sample.frame 1 [("b", five); ("a", five)] in
  let save_false := Sample.frame 2 [("c", five); ("b", five)] in
  iteration_order (fun l : list string => l)
  /\ In "a" (mutated_variables (fun l => l) save_true save_false
                               [function_frame])
  /\ StronglySorted String_as_OT.lt
       (mutated_variables (fun l => l) save_true save_false [function_frame]).
Proof.
  intros five save_true save_false.
  assert (H : iteration_order (fun l : list string => l))
    by (intros l; apply Permutation_refl).
  split; [exact H|].
  destruct (merged_variables_characterized (fun l => l) save_true save_false
              [function_frame] H) as [Hin Hs].
  split; [|exact Hs].
  apply Hin. left. split; discriminate.
Defined.

(** [print] bound to a value in the function shadows the builtin; unbound,
    it is the builtin. *)
Lemma lookup_precedence_example :
  let mine := SimpleValue (Sample.input 100 IntType_get) in
  (exists r env' st',
      getSugaredVar Sample.externals "print" [Sample.frame 0 [("print", mine)]]
                    initial_state = Ok (r, env') st'
      /\ findInAnyFrame "print" env' = Some r
      /\ exists w, asSimple r = Some w /\ v_type w = IntType_get)
  /\ getSugaredVar Sample.externals "print" [Sample.frame 0 []] initial_state
     = Ok (PrintValue, [Sample.frame 0 []]) initial_state.
Proof.
  intros mine. split.
  - destruct (proj1 (lookup_precedence Sample.externals "print"
                       [Sample.frame 0 [("print", mine)]] initial_state)
                mine eq_refl)
      as [r [env' [st' [H1 [H2 H3]]]]].
    exists r, env', st'. split; [exact H1|]. split; [exact H2|].
    exact (H3 _ eq_refl).
  - exact (proj2 (lookup_precedence Sample.externals "print"
                    [Sample.frame 0 []] initial_state) eq_refl).
Defined.

(** An integer passed where a float is wanted is left as it is (and the
    match then fails on the type). *)
Lemma conversion_leaves_plain_values_example :
  let value := Sample.input 100 IntType_get in
  cast_TupleType (v_type value) = None
  /\ isSubtypeOf Sample.externals (v_type value) NoneType_get = false
  /\ tryConvertToType Sample.externals FloatType_get value false initial_state
     = Ok value initial_state
  /\ tryConvertToType Sample.externals FloatType_get value true initial_state
     = Ok value initial_state.
Proof.
  intros value. split; [reflexivity|]. split; [reflexivity|].
  destruct (conversion_leaves_plain_values Sample.externals FloatType_get
              value initial_state eq_refl eq_refl) as [H1 H2].
  split; [exact H1|]. apply H2; reflexivity.
Defined.

(** [def f(x : int, y : Tensor)] has two graph inputs, an integer and a
    tensor.  A definition without parameters compiled as a method is
    rejected with the expected count 2^64 - 1. *)
Lemma parameters_become_graph_inputs_example :
  (size (def_params two_parameters) <= size_t_max)%Z
  /\ (exists arguments' st' x y,
        emitFormalArguments Sample.externals two_parameters None at_entry
        = Ok arguments' st'
        /\ st_inputs st' = [x; y]
        /\ v_type x = IntType_get /\ v_type y = DynamicType_get)
  /\ emitFormalArguments Sample.externals (Sample.def_of []) (Some NoneValue)
                         at_entry
     = Err (AnnotationCount 0 18446744073709551615).
Proof.
  assert (Hfit : (size (def_params two_parameters) <= size_t_max)%Z)
    by (vm_compute; discriminate).
  split; [exact Hfit|]. split.
  - assert (Hrun : exists arguments' st',
               emitFormalArguments Sample.externals two_parameters None
                                   at_entry = Ok arguments' st')
      by (eexists _, _; vm_compute; reflexivity).
    destruct Hrun as [args [st' Hrun]].
    destruct (proj2 (proj2 (parameters_become_graph_inputs Sample.externals
                              two_parameters None at_entry Hfit))
                args st' Hrun)
      as [_ [_ [_ [new [Hin [Hty _]]]]]].
    simpl in Hin, Hty.
    destruct new as [|x [|y [|? ?]]]; try discriminate Hty.
    injection Hty as Hx Hy.
    exists args, st', x, y.
    split; [exact Hrun|]. split; [exact Hin|]. split; [exact Hx|exact Hy].
  - assert (Hfit0 : (size (def_params (Sample.def_of [])) <= size_t_max)%Z)
      by (vm_compute; discriminate).
    exact (proj2 (proj1 (proj2 (parameters_become_graph_inputs
                                  Sample.externals (Sample.def_of [])
                                  (Some NoneValue) at_entry Hfit0))
                    NoneValue eq_refl eq_refl)
             ltac:(vm_compute; reflexivity)).
Defined.

(** [def f(): return 1] has one return, an integer. *)
Lemma compiled_schema_example :
  exists schema st ret_arg outputs v,
    to_ir_body Sample.externals (fun l => l) (Sample.def_of [Return (Const 1)])
               None initial_state = Ok schema st
    /\ schema_name schema = "f"
    /\ returns schema = [ret_arg]
    /\ st_outputs st = outputs ++ [v]
    /\ isSubtypeOf Sample.externals (v_type v) (arg_type ret_arg) = true.
Proof.
  assert (Hrun : exists schema st,
             to_ir_body Sample.externals (fun l => l)
                        (Sample.def_of [Return (Const 1)]) None initial_state
             = Ok schema st)
    by (eexists _, _; vm_compute; reflexivity).
  destruct Hrun as [schema [st Hrun]].
  destruct (compiled_schema Sample.externals (fun l => l)
              (Sample.def_of [Return (Const 1)]) None initial_state schema st
              Hrun)
    as [Hname [_ [_ [ret_arg [outputs [v [Hr [_ [Ho [Hs _]]]]]]]]]].
  exists schema, st, ret_arg, outputs, v.
  split; [exact Hrun|]. split; [exact Hname|]. split; [exact Hr|].
  split; [exact Ho|exact Hs].
Defined.

(** A text of two lines, the second without a newline. *)
Lemma prefixLine_prefixes_every_line_example :
  prefixLine (String.append "ab" (String newline "cd")) "> "
  = String.append "> ab" (String newline "> cd").
Proof.
  destruct (prefixLine_prefixes_every_line "> ") as [_ [Hline Hlast]].
  rewrite (Hline "ab" "cd" eq_refl).
  rewrite (Hlast "cd" eq_refl ltac:(discriminate)).
  reflexivity.
Defined.

(** A tuple of three integers passed where a list of integers is wanted:
    the pass that forbids conversions unpacks it and builds the list. *)
Lemma first_pass_conversions_are_structural_example :
  exists converted st' new,
    tryConvertToType Sample.externals Sample.IntList Sample.triple false
                     initial_state = Ok converted st'
    /\ deref (v_type converted) = ListType IntType_get
    /\ st_nodes st' = st_nodes initial_state ++ new
    /\ Forall (fun n => In (n_kind n) structural_kinds) new.
Proof.
  assert (Hrun : exists converted st',
             tryConvertToType Sample.externals Sample.IntList Sample.triple
                              false initial_state = Ok converted st'
             /\ deref (v_type converted) = ListType IntType_get)
    by (eexists _, _; split; [vm_compute; reflexivity|reflexivity]).
  destruct Hrun as [converted [st' [Hrun Hty]]].
  destruct (first_pass_conversions_are_structural Sample.externals
              Sample.IntList Sample.triple initial_state converted st' Hrun)
    as [new [Hn [Hk _]]].
  exists converted, st', new.
  split; [exact Hrun|]. split; [exact Hty|]. split; [exact Hn|exact Hk].
Defined.

(** [add.int] called as [add(a, b=...)]: the keyword names the second
    parameter. *)
Lemma matched_call_uses_every_keyword_example :
  let args := [positional (Sample.input 100 IntType_get)] in
  let kwargs := [named "b" (Sample.input 101 IntType_get)] in
  let schema := Sample.op "add.int" [Sample.arg "a" IntType_get;
                                     Sample.arg "b" IntType_get] IntType_get in
  exists matched fm' st',
    tryMatchSchema Sample.externals schema None args kwargs [] false
                   initial_state = Ok (Some matched, fm') st'
    /\ Forall (fun kw => exists a, In a (arguments schema)
                                   /\ nv_name kw = Some (arg_name a)) kwargs
    /\ NoDup (map nv_name kwargs).
Proof.
  intros args kwargs schema.
  eexists _, _, _. split; [vm_compute; reflexivity|].
  match goal with
  | |- _ =>
      destruct (matched_call_uses_every_keyword Sample.externals schema None
                  args kwargs [] false initial_state _ _ _ eq_refl)
        as [H1 [H2 _]]
  end.
  split; [exact H1|exact H2].
Defined.

(** [Tuple[int, List[Tensor]]] parses to a tuple of an integer and a list
    of tensors; [List[Foo]] is rejected for the name [Foo]. *)
Lemma annotation_parses_to_its_type_example :
  let a := ATuple [ABase "int"; AList (ABase "Tensor")] in
  (exists t st',
      parseTypeFromExpr (annotation_expr a) initial_state = Ok t st'
      /\ denotes a t)
  /\ exists name,
       parseTypeFromExpr (annotation_expr (AList (ABase "Foo"))) initial_state
       = Err (UnknownTypeName name).
Proof.
  intros a. split.
  - destruct (annotation_parses_to_its_type a initial_state)
      as [t [st' [H1 [H2 _]]]].
    exists t, st'. split; [exact H1|exact H2].
  - exact (annotation_parses_to_its_type (AList (ABase "Foo")) initial_state).
Defined.

(** [int(3)] compiles to the constant 3. *)
Lemma cast_to_own_type_is_identity_example :
  exists v st1,
    emitExpr Sample.externals (Const 3) None at_entry = Ok v st1
    /\ emitExpr Sample.externals (Apply (Var "int") [Const 3] []) None at_entry
       = Ok v st1.
Proof.
  eexists _, _. split; [vm_compute; reflexivity|].
  apply (cast_to_own_type_is_identity Sample.externals "int" IntType_get
           "prim::Int" (Const 3) at_entry _ _ eq_refl eq_refl eq_refl eq_refl).
Defined.

(** * Overload resolution: what the first pass converts *)

Lemma appends_incl ks ks' {A} (m : M A) :
  incl ks ks' -> appends ks m -> appends ks' m.
Proof.
  intros Hi Hm st a st' H. destruct (Hm st a st' H) as [new [Hn Hk]].
  exists new. split; [exact Hn|].
  eapply Forall_impl; [|exact Hk]. intros n Hin. apply Hi. exact Hin.
Qed.

Lemma appends_insertConstant iv : appends first_pass_kinds (insertConstant iv).
Proof.
  unfold insertConstant. destruct iv; apply appends_insert1; simpl; auto 10.
Qed.

Lemma appends_nv_value nv : appends first_pass_kinds (nv_value nv).
Proof.
  unfold nv_value. destruct (nv_payload nv);
    [apply appends_ret|apply appends_insertConstant].
Qed.

Lemma appends_first_pass {A} (m : M A) :
  appends structural_kinds m -> appends first_pass_kinds m.
Proof.
  apply appends_incl. intros k Hk. right. exact Hk.
Qed.

Lemma appends_mapM ks {A B} (f : A -> M B) l :
  (forall a, appends ks (f a)) -> appends ks (mapM f l).
Proof.
  intros Hf. induction l as [|a l IH]; simpl; [apply appends_ret|].
  apply appends_bind; [apply Hf|]. intros b.
  apply appends_bind; [exact IH|]. intros. apply appends_ret.
Qed.

Section FirstPassMatch.

Variable E : Externals.

Lemma appends_tryMatchArgument arg nv err fm type_env :
  appends first_pass_kinds (tryMatchArgument E arg nv err fm false type_env).
Proof.
  unfold tryMatchArgument.
  apply appends_bind; [apply appends_nv_value|]. intros value.
  apply appends_bind.
  { destruct (isIntOrFloatUsedAsList value arg); [|apply appends_ret].
    apply appends_first_pass, appends_createList. }
  intros value'.
  destruct (matchTypeVariables E (arg_type arg) (v_type value') type_env)
    as [[concrete|] env']; [|apply appends_ret].
  apply appends_bind;
    [apply appends_first_pass, appends_tryConvertToType|].
  intros converted. destruct (negb _); apply appends_ret.
Qed.

Lemma appends_tryCreateList_elems elem_arg err :
  forall varargs fm type_env,
    appends first_pass_kinds
      (tryCreateList_elems E elem_arg varargs err fm false type_env).
Proof.
  induction varargs as [|a rest IH]; intros fm type_env; simpl;
    [apply appends_ret|].
  apply appends_bind; [apply appends_tryMatchArgument|].
  intros [[av fm1] env1]. destruct av; [|apply appends_ret].
  apply appends_bind; [apply IH|].
  intros [[more fm2] env2]. destruct more; apply appends_ret.
Qed.

Lemma appends_tryCreateList elem_type varargs err fm type_env :
  appends first_pass_kinds
    (tryCreateList E elem_type varargs err fm false type_env).
Proof.
  unfold tryCreateList.
  apply appends_bind; [apply appends_tryCreateList_elems|].
  intros [[l fm1] env1]. destruct l; [|apply appends_ret].
  apply appends_bind; [apply appends_first_pass, appends_createList|].
  intros. apply appends_ret.
Qed.

Lemma appends_bind_parameter err args kwargs arg rest fm bd :
  appends first_pass_kinds
    (bind_parameter E err args kwargs false arg rest fm bd).
Proof.
  unfold bind_parameter.
  assert (Hone : forall nv bd0,
    appends first_pass_kinds
      ('(positional, failure_messages, type_env) <-
         tryMatchArgument E arg nv err fm false (bd_type_env bd0) ;;
       match positional with
       | None => ret (None, failure_messages)
       | Some positional =>
           ret (Some {| bd_self := bd_self bd0;
                        bd_used_args := bd_used_args bd0;
                        bd_used_kwarg := bd_used_kwarg bd0;
                        bd_positional_inputs :=
                          bd_positional_inputs bd0 ++ [positional];
                        bd_type_env := type_env |},
                failure_messages)
       end)).
  { intros nv bd0. apply appends_bind; [apply appends_tryMatchArgument|].
    intros [[p fm1] env1]. destruct p; apply appends_ret. }
  destruct (if String.eqb (arg_name arg) "self" then bd_self bd else None);
    [apply Hone|].
  destruct (negb (kwarg_only arg) && _).
  - assert (Htake :
      appends first_pass_kinds
        match nth_error args (bd_used_args bd) with
        | Some v =>
            ('(positional, failure_messages, type_env) <-
               tryMatchArgument E arg v err fm false (bd_type_env bd) ;;
             match positional with
             | None => ret (None, failure_messages)
             | Some positional =>
                 ret (Some {| bd_self := bd_self bd;
                              bd_used_args := S (bd_used_args bd);
                              bd_used_kwarg := bd_used_kwarg bd;
                              bd_positional_inputs :=
                                bd_positional_inputs bd ++ [positional];
                              bd_type_env := type_env |},
                      failure_messages)
             end)
        | None => throw (External "std::out_of_range")
        end).
    { destruct (nth_error args (bd_used_args bd)); [|apply appends_throw].
      apply (Hone n {| bd_self := bd_self bd;
                       bd_used_args := S (bd_used_args bd);
                       bd_used_kwarg := bd_used_kwarg bd;
                       bd_positional_inputs := bd_positional_inputs bd;
                       bd_type_env := bd_type_env bd |}). }
    destruct (is_ListType (arg_type arg) && _ && _); [|exact Htake].
    destruct (nth_error args (bd_used_args bd)) as [first|] eqn:Hnth;
      [|apply appends_throw].
    apply appends_bind; [apply appends_nv_value|]. intros actual.
    destruct (negb (is_ListType (v_type actual)) && _); [|exact Htake].
    destruct (cast_ListType (unwrapOptional (arg_type arg)));
      [|apply appends_throw].
    apply appends_bind; [apply appends_tryCreateList|].
    intros [[l fm1] env1]. destruct l; apply appends_ret.
  - destruct (findInputWithName (arg_name arg) kwargs) as [idx|].
    + destruct (nth_error kwargs idx); [|apply appends_throw].
      destruct (nth idx (bd_used_kwarg bd) false); [apply appends_ret|].
      apply Hone.
    + destruct (default_value arg); [apply Hone|apply appends_ret].
Qed.

Lemma appends_bind_parameters err args kwargs :
  forall params fm bd,
    appends first_pass_kinds
      (bind_parameters E err args kwargs false params fm bd).
Proof.
  induction params as [|arg rest IH]; intros fm bd; simpl;
    [apply appends_ret|].
  apply appends_bind; [apply appends_bind_parameter|].
  intros [r fm1]. destruct r; [apply IH|apply appends_ret].
Qed.

Lemma appends_tryMatchSchema schema self args kwargs fm :
  appends first_pass_kinds (tryMatchSchema E schema self args kwargs fm false).
Proof.
  unfold tryMatchSchema.
  apply appends_bind; [apply appends_bind_parameters|].
  intros [r fm1]. destruct r as [bd|]; [|apply appends_ret].
  apply appends_bind.
  { destruct (is_vararg schema); [|apply appends_ret].
    apply appends_bind; [|intros; apply appends_ret].
    apply appends_mapM. apply appends_nv_value. }
  intros [positional_inputs used_args].
  destruct (Nat.ltb _ _); [apply appends_ret|].
  destruct (first_unused_kwarg _ _); [|apply appends_ret].
  destruct (negb _); apply appends_ret.
Qed.

(** C1.  A call resolved against the candidates of a name returns the
    value [v] exactly when either the first pass selects a candidate giving
    [v], or that pass matches no candidate of the builtin-overload set nor
    of the library-function set and the second pass selects one.  In each
    pass the candidates are tried in registration order and the first that
    matches in full is selected; when the first pass selects a candidate the
    second is not run.  The first pass does convert: matching an overload in
    it emits constants for the defaults and the nodes of the conversions
    tuple to list, none to optional or undefined, and scalar to list; what
    it never emits is a conversion of a tensor to a number or of a string to
    a device. *)
Theorem two_pass_first_match :
  forall (name : Symbol) (self : option NamedValue)
         (inputs attributes : list NamedValue) (required : bool)
         (st : CState) (v : Value) (st' : CState),
    (emitBuiltinCall E name self inputs attributes required st
     = Ok (Some v) st'
     <-> first_match E name self inputs attributes false st v st'
         \/ exists st0,
              no_match E name self inputs attributes false st st0
              /\ first_match E name self inputs attributes true st0 v st')
    /\ (first_match E name self inputs attributes false st v st' ->
        forall st0, ~ no_match E name self inputs attributes false st st0)
    /\ (forall (op : FunctionSchema) (failure_messages : Failures)
               (st1 : CState) (matched : option MatchedSchema)
               (failure_messages' : Failures) (st2 : CState),
          tryMatchSchema E op self inputs attributes failure_messages false
                         st1
          = Ok (matched, failure_messages') st2 ->
          exists new,
            st_nodes st2 = st_nodes st1 ++ new
            /\ Forall (fun n => In (n_kind n) first_pass_kinds) new
            /\ Forall (fun n => n_kind n <> "prim::ImplicitTensorToNum"
                               /\ n_kind n <> "aten::device") new).
Proof.
  intros name self inputs attributes required st v st'.
  destruct (emitBuiltinCall_two_passes E name self inputs attributes required
              st v st') as [Hiff Hfirst].
  split; [exact Hiff|]. split; [exact Hfirst|].
  intros op fm st1 matched fm' st2 H.
  destruct (appends_tryMatchSchema op self inputs attributes fm _ _ _ H)
    as [new [Hn Hk]].
  exists new. split; [exact Hn|]. split; [exact Hk|].
  eapply Forall_impl; [|exact Hk]. intros n Hin. cbv beta in Hin.
  split; intros Heq; rewrite Heq in Hin; simpl in Hin;
    repeat (destruct Hin as [Hin|Hin]; [discriminate|]); exact Hin.
Qed.

End FirstPassMatch.

(** C1 as the specification words it does not hold: the first pass converts
    a tuple to a list.  [total] on a list is registered before [total] on a
    tuple; called on a tuple, the second overload matches with the argument
    as it is and nothing emitted, yet the first pass selects the first one,
    on a list built from the elements of the tuple. *)
Lemma conversion_selected_in_first_pass :
  let args := [positional tuple_of_ints] in
  candidates list_before_tuple "aten::total"
  = [Operator total_of_list; Operator total_of_tuple]
  /\ tryMatchSchema list_before_tuple total_of_tuple None args [] [] false
                    with_tuple_of_ints
     = Ok (Some {| ms_inputs := [tuple_of_ints];
                   ms_return_types := [IntType_get] |}, [])
          with_tuple_of_ints
  /\ exists v st' converted,
       emitBuiltinCall list_before_tuple "aten::total" None args [] true
                       with_tuple_of_ints = Ok (Some v) st'
       /\ attempt list_before_tuple "aten::total" None args [] false
                  (Operator total_of_list) [] with_tuple_of_ints
          = Ok (Some v, []) st'
       /\ v_inputs v = [converted]
       /\ v_kind converted = "prim::ListConstruct"
       /\ deref (v_type converted) = ListType IntType_get
       /\ map n_kind (st_nodes st')
          = ["prim::TupleUnpack"; "prim::ListConstruct"; "aten::total"].
Proof.
  intros args. split; [reflexivity|]. split; [vm_compute; reflexivity|].
  eexists _, _, _. split; [vm_compute; reflexivity|].
  split; [vm_compute; reflexivity|].
  split; [reflexivity|]. split; [reflexivity|]. split; reflexivity.
Qed.

(** [scale] has an overload that takes a number, registered first, and one
    that takes a tensor.  Called on two tensors, the pass without
    conversions selects the second, and emits nothing else. *)
Lemma two_pass_first_match_example :
  exists v st',
    emitBuiltinCall Sample.externals "aten::scale" None two_tensors [] true
                    initial_state = Ok (Some v) st'
    /\ v_kind v = "aten::scale"
    /\ (first_match Sample.externals "aten::scale" None two_tensors [] false
                    initial_state v st'
        \/ exists st0,
             no_match Sample.externals "aten::scale" None two_tensors [] false
                      initial_state st0
             /\ first_match Sample.externals "aten::scale" None two_tensors []
                            true st0 v st').
Proof.
  eexists _, _. split; [vm_compute; reflexivity|]. split; [reflexivity|].
  apply (proj1 (proj1 (two_pass_first_match Sample.externals "aten::scale"
                         None two_tensors [] true initial_state _ _))).
  vm_compute. reflexivity.
Defined.

(** * Branch type mismatches, at the if/else *)








Section Merge.

Variable E : Externals.











Section IfElse.

Variable order : list string -> list string.


Lemma general_lowering_emitStatement cond trueBranch falseBranch st0
    cond_value st :
  general_lowering E cond st0 cond_value st ->
  emitStatement E order (If cond trueBranch falseBranch) st0
  = emitIfElseBlocks E order cond_value (emitStatements E order trueBranch)
      (emitStatements E order falseBranch) st.
Proof.
  intros H. rewrite emitStatement_If.
  assert (Hc : forall (is_ : bool) lhs rhs,
    (exists lhs_val st1 rhs_val st2 l r,
      emitSugaredExpr E lhs 1 None st0 = Ok lhs_val st1
      /\ emitSugaredExpr E rhs 1 None st1 = Ok rhs_val st2
      /\ match isNone lhs_val, isNone rhs_val with
         | ALWAYS, ALWAYS | ALWAYS, NEVER | NEVER, ALWAYS => False
         | _, _ => True
         end
      /\ asValue lhs_val st2 = Ok l st2
      /\ asValue rhs_val st2 = Ok r st2
      /\ emitBuiltinCall_required E
           (getNodeKind (if is_ then K_Is else K_IsNot)) None
           [positional l; positional r] [] st2 = Ok cond_value st) ->
    emitIf E order (BinOp (if is_ then K_Is else K_IsNot) lhs rhs)
      (emitStatements E order trueBranch) (emitStatements E order falseBranch)
      st0
    = emitIfElseBlocks E order cond_value (emitStatements E order trueBranch)
        (emitStatements E order falseBranch) st).
  { intros is_ lhs rhs
      [lhs_val [st1 [rhs_val [st2 [l [r [Hl [Hr [Hs [Hla [Hra Hcall]]]]]]]]]]].
    unfold emitIf.
    destruct is_;
      rewrite (bind_Ok_l _ _ _ _ _ Hl), (bind_Ok_l _ _ _ _ _ Hr);
      destruct (isNone lhs_val), (isNone rhs_val); try contradiction;
      rewrite (bind_Ok_l _ _ _ _ _ Hla), (bind_Ok_l _ _ _ _ _ Hra),
        (bind_Ok_l _ _ _ _ _ Hcall); reflexivity. }
  destruct cond;
    try (unfold general_lowering in H; unfold emitIf;
         rewrite (bind_Ok_l _ _ _ _ _ H); reflexivity).
  destruct kind;
    try (unfold general_lowering in H; unfold emitIf;
         rewrite (bind_Ok_l _ _ _ _ _ H); reflexivity).
  - exact (Hc true _ _ H).
  - exact (Hc false _ _ H).
Qed.


End IfElse.

End Merge.


(** * The graph outputs *)

Create HintDb ko.

Lemma ko_ret {A} (a : A) : keeps_outputs (ret a).
Proof. intros st a' st' H. inv H. reflexivity. Qed.

Lemma ko_throw {A} e : keeps_outputs (@throw A e).
Proof. intros st a st' H. discriminate. Qed.

Lemma ko_bind {A B} (m : M A) (k : A -> M B) :
  keeps_outputs m -> (forall a, keeps_outputs (k a)) -> keeps_outputs (bind m k).
Proof.
  intros Hm Hk st b st' H. apply bind_Ok in H.
  destruct H as [a [st1 [H1 H2]]].
  rewrite (Hk a _ _ _ H2). eapply Hm. exact H1.
Qed.

Lemma ko_get : keeps_outputs get.
Proof. intros st a st' H. inv H. reflexivity. Qed.

Lemma ko_modify f :
  (forall st, st_outputs (f st) = st_outputs st) -> keeps_outputs (modify f).
Proof. intros Hf st a st' H. inv H. apply Hf. Qed.

Lemma ko_fresh : keeps_outputs fresh.
Proof. intros st a st' H. inv H. reflexivity. Qed.

Lemma ko_mapM {A B} (f : A -> M B) l :
  (forall a, keeps_outputs (f a)) -> keeps_outputs (mapM f l).
Proof.
  intros Hf. induction l as [|a l IH]; simpl; [apply ko_ret|].
  apply ko_bind; [apply Hf|]. intros b.
  apply ko_bind; [exact IH|]. intros. apply ko_ret.
Qed.

Lemma ko_forM_ {A} (l : list A) (f : A -> M unit) :
  (forall a, keeps_outputs (f a)) -> keeps_outputs (forM_ l f).
Proof.
  intros Hf. induction l as [|a l IH]; simpl; [apply ko_ret|].
  apply ko_bind; [apply Hf|]. intros. exact IH.
Qed.

#[local] Hint Resolve ko_ret ko_throw ko_get ko_fresh : ko.

Ltac ko :=
  repeat first
    [ assumption
    | solve [auto with ko]
    | apply ko_modify; intros; reflexivity
    | match goal with
      | |- keeps_outputs (let _ := _ in _) => cbv zeta
      | |- keeps_outputs (match ?x with _ => _ end) => destruct x
      | |- keeps_outputs (if ?b then _ else _) => destruct b
      | |- keeps_outputs (bind _ _) => apply ko_bind; [|intros]
      | |- keeps_outputs (mapM _ _) => apply ko_mapM; intros
      | |- keeps_outputs (forM_ _ _) => apply ko_forM_; intros
      end ].

Lemma ko_create_type t : keeps_outputs (create_type t).
Proof. unfold create_type. ko. Qed.

Lemma ko_insertNode n : keeps_outputs (insertNode n).
Proof. unfold insertNode. ko. Qed.

Lemma ko_new_value ty kind inputs c : keeps_outputs (new_value ty kind inputs c).
Proof. unfold new_value. ko. Qed.

#[local] Hint Resolve ko_create_type ko_insertNode ko_new_value : ko.

Lemma ko_new_values kind inputs tys : keeps_outputs (new_values tys kind inputs).
Proof. induction tys; simpl; ko. Qed.

Lemma ko_insert1 kind inputs ty attrs c :
  keeps_outputs (insert1 kind inputs ty attrs c).
Proof. unfold insert1. ko. Qed.

#[local] Hint Resolve ko_new_values ko_insert1 : ko.

Lemma ko_insertConstant iv : keeps_outputs (insertConstant iv).
Proof. unfold insertConstant. ko. Qed.

Lemma ko_createList elem_type values : keeps_outputs (createList elem_type values).
Proof. unfold createList. ko. Qed.

Lemma ko_createTuple values : keeps_outputs (createTuple values).
Proof. unfold createTuple. ko. Qed.

Lemma ko_createNone elem_type : keeps_outputs (createNone elem_type).
Proof. unfold createNone. ko. Qed.

Lemma ko_createUndefined : keeps_outputs createUndefined.
Proof. unfold createUndefined. ko. Qed.

Lemma ko_createNoneGenerator : keeps_outputs createNoneGenerator.
Proof. unfold createNoneGenerator. ko. Qed.

Lemma ko_createImplicitTensorToNum ty value :
  keeps_outputs (createImplicitTensorToNum ty value).
Proof. unfold createImplicitTensorToNum. ko. Qed.

Lemma ko_createTupleIndex tup index : keeps_outputs (createTupleIndex tup index).
Proof. unfold createTupleIndex. ko. Qed.

Lemma ko_createTupleSlice tup beg end_ :
  keeps_outputs (createTupleSlice tup beg end_).
Proof. unfold createTupleSlice. ko. Qed.

#[local] Hint Resolve ko_insertConstant ko_createList ko_createTuple
  ko_createNone ko_createUndefined ko_createNoneGenerator
  ko_createImplicitTensorToNum ko_createTupleIndex ko_createTupleSlice : ko.

Lemma ko_nv_value nv : keeps_outputs (nv_value nv).
Proof. unfold nv_value. ko. Qed.

#[local] Hint Resolve ko_nv_value : ko.

Lemma ko_toValues nvs : keeps_outputs (toValues nvs).
Proof. unfold toValues. ko. Qed.

Lemma ko_hasUniqueName v : keeps_outputs (hasUniqueName v).
Proof. unfold hasUniqueName. ko. Qed.

Lemma ko_setUniqueName v name : keeps_outputs (setUniqueName v name).
Proof. unfold setUniqueName. ko. Qed.

Lemma ko_asValue sv : keeps_outputs (asValue sv).
Proof. unfold asValue. ko. Qed.

Lemma ko_getValueInThisFrame name f : keeps_outputs (getValueInThisFrame name f).
Proof. unfold getValueInThisFrame. ko. apply ko_asValue. Qed.

Lemma ko_createCapturedInputIfNeeded ident env :
  keeps_outputs (createCapturedInputIfNeeded ident env).
Proof.
  intros st a st' H.
  destruct (createCapturedInputIfNeeded_total ident env st)
    as [r [env' [st1 [Hc [[n ->] _]]]]].
  rewrite Hc in H. inv H. reflexivity.
Qed.

#[local] Hint Resolve ko_toValues ko_hasUniqueName ko_setUniqueName ko_asValue
  ko_getValueInThisFrame ko_createCapturedInputIfNeeded : ko.

Lemma ko_materializeConstant val : keeps_outputs (materializeConstant val).
Proof. unfold materializeConstant. ko. Qed.

Lemma ko_packOutputs values : keeps_outputs (packOutputs values).
Proof. unfold packOutputs. ko. Qed.

Lemma ko_createTupleUnpack v : keeps_outputs (createTupleUnpack v).
Proof. unfold createTupleUnpack. ko. Qed.

Lemma ko_popFrame : keeps_outputs popFrame.
Proof.
  intros st a st' H. unfold popFrame, bind, get, put, ret in H.
  destruct (environment_stack st); inv H. reflexivity.
Qed.

Lemma ko_pushFrame b owner inputs : keeps_outputs (pushFrame b owner inputs).
Proof. unfold pushFrame. ko. Qed.

Lemma ko_at_block {A} b (m : M A) :
  keeps_outputs m -> keeps_outputs (at_block b m).
Proof.
  intros Hm st [a nodes] st' H. unfold at_block in H.
  apply bind_Ok in H. destruct H as [s0 [s1 [Hg H]]]. inv Hg.
  apply bind_Ok in H. destruct H as [[] [s2 [Hp H]]].
  unfold put in Hp. inv Hp.
  apply bind_Ok in H. destruct H as [a' [s3 [Hrun H]]].
  apply Hm in Hrun.
  apply bind_Ok in H. destruct H as [s4 [s5 [Hg H]]]. inv Hg.
  apply bind_Ok in H. destruct H as [[] [s6 [Hp H]]].
  unfold put in Hp. inv Hp. inv H. simpl in *. exact Hrun.
Qed.

#[local] Hint Resolve ko_materializeConstant ko_packOutputs
  ko_createTupleUnpack ko_popFrame ko_pushFrame : ko.

Section Outputs.

Variable E : Externals.
Hypothesis host : host_keeps_outputs E.

Lemma ko_try_emit_call_to method self inputs attributes allow :
  keeps_outputs (try_emit_call_to E method self inputs attributes allow).
Proof. apply host. Qed.

Lemma ko_graph_insert name args kwargs :
  keeps_outputs (graph_insert E name args kwargs).
Proof. apply host. Qed.

Lemma ko_opaque_call kind inputs attributes n :
  keeps_outputs (opaque_call E kind inputs attributes n).
Proof. apply host. Qed.

Lemma ko_opaque_attr kind field : keeps_outputs (opaque_attr E kind field).
Proof. apply host. Qed.

Hint Resolve ko_try_emit_call_to ko_graph_insert ko_opaque_call
  ko_opaque_attr : ko.

Lemma ko_setSugaredVar name value env :
  keeps_outputs (setSugaredVar E name value env).
Proof. unfold setSugaredVar. ko. Qed.

Lemma ko_getSugaredVar ident env : keeps_outputs (getSugaredVar E ident env).
Proof. unfold getSugaredVar. ko. Qed.

Hint Resolve ko_setSugaredVar ko_getSugaredVar : ko.

Lemma ko_getVar ident env : keeps_outputs (getVar E ident env).
Proof. unfold getVar. ko. Qed.

Lemma ko_on_env {A} (f : list Frame -> M (A * list Frame)) :
  (forall env, keeps_outputs (f env)) -> keeps_outputs (on_env f).
Proof. intros Hf. unfold on_env. ko. Qed.

Lemma ko_on_saved {A} saved (f : list Frame -> M (A * list Frame)) :
  (forall env, keeps_outputs (f env)) -> keeps_outputs (on_saved saved f).
Proof. intros Hf. unfold on_saved. ko. Qed.

Hint Resolve ko_getVar : ko.

Lemma ko_env_setSugaredVar name value :
  keeps_outputs (env_setSugaredVar E name value).
Proof. unfold env_setSugaredVar. apply ko_on_env. intros. ko. Qed.

Lemma ko_env_setVar name v : keeps_outputs (env_setVar E name v).
Proof. unfold env_setVar. apply ko_env_setSugaredVar. Qed.

Lemma ko_env_getSugaredVar ident : keeps_outputs (env_getSugaredVar E ident).
Proof. unfold env_getSugaredVar. apply ko_on_env. intros. ko. Qed.

Lemma ko_env_getVar ident : keeps_outputs (env_getVar E ident).
Proof. unfold env_getVar. apply ko_on_env. intros. ko. Qed.

Hint Resolve ko_env_setSugaredVar ko_env_setVar ko_env_getSugaredVar
  ko_env_getVar : ko.

Lemma ko_tryConvertToType allow concrete_type :
  forall value, keeps_outputs (tryConvertToType E concrete_type value allow).
Proof.
  induction concrete_type as [a elems IH|a t Hnt] using TypePtr_tuple_ind;
    intros value.
  - cbn [tryConvertToType]. ko.
    all: match goal with
         | |- keeps_outputs (_ ?cs ?us) => revert us
         end.
    all: induction IH as [|c cs Hc _ IHcs]; intros unpacked; ko.
  - destruct t; try discriminate; cbn [tryConvertToType]; ko.
Qed.

Hint Resolve ko_tryConvertToType : ko.

Lemma ko_tryMatchArgument arg nv err fm allow type_env :
  keeps_outputs (tryMatchArgument E arg nv err fm allow type_env).
Proof. unfold tryMatchArgument. ko. Qed.

Hint Resolve ko_tryMatchArgument : ko.

Lemma ko_tryCreateList_elems elem_arg err allow :
  forall varargs fm type_env,
    keeps_outputs (tryCreateList_elems E elem_arg varargs err fm allow type_env).
Proof. induction varargs; intros; simpl; ko. Qed.

Hint Resolve ko_tryCreateList_elems : ko.

Lemma ko_tryCreateList elem_type varargs err fm allow type_env :
  keeps_outputs (tryCreateList E elem_type varargs err fm allow type_env).
Proof. unfold tryCreateList. ko. Qed.

Hint Resolve ko_tryCreateList : ko.

Lemma ko_bind_parameter err args kwargs allow arg rest fm bd :
  keeps_outputs (bind_parameter E err args kwargs allow arg rest fm bd).
Proof. unfold bind_parameter. ko. Qed.

Hint Resolve ko_bind_parameter : ko.

Lemma ko_bind_parameters err args kwargs allow :
  forall params fm bd,
    keeps_outputs (bind_parameters E err args kwargs allow params fm bd).
Proof. induction params; intros; simpl; ko. Qed.

Hint Resolve ko_bind_parameters : ko.

Lemma ko_tryMatchSchema schema self args kwargs fm allow :
  keeps_outputs (tryMatchSchema E schema self args kwargs fm allow).
Proof. unfold tryMatchSchema. ko. Qed.

Lemma ko_emitBuiltinNode matched name : keeps_outputs (emitBuiltinNode matched name).
Proof. unfold emitBuiltinNode. ko. Qed.

Hint Resolve ko_tryMatchSchema ko_emitBuiltinNode : ko.

Lemma ko_try_variants name self inputs attributes allow :
  forall variants fm,
    keeps_outputs (try_variants E name self inputs attributes allow variants fm).
Proof. induction variants; intros; simpl; ko. Qed.

Lemma ko_try_builtin_functions self inputs attributes allow :
  forall fns fm,
    keeps_outputs (try_builtin_functions E self inputs attributes allow fns fm).
Proof. induction fns; intros; simpl; ko. Qed.

Hint Resolve ko_try_variants ko_try_builtin_functions : ko.

Lemma ko_try_passes name self inputs attributes :
  forall passes fm,
    keeps_outputs (try_passes E name self inputs attributes passes fm).
Proof. induction passes; intros; simpl; ko. Qed.

Hint Resolve ko_try_passes : ko.

Lemma ko_emitBuiltinCall name self inputs attributes required :
  keeps_outputs (emitBuiltinCall E name self inputs attributes required).
Proof. unfold emitBuiltinCall. ko. Qed.

Hint Resolve ko_emitBuiltinCall : ko.

Lemma ko_emitBuiltinCall_required name self inputs attributes :
  keeps_outputs (emitBuiltinCall_required E name self inputs attributes).
Proof. unfold emitBuiltinCall_required. ko. Qed.

Hint Resolve ko_emitBuiltinCall_required : ko.

Lemma ko_mapM_Forall {A B} (P : A -> M B) l :
  Forall (fun a => keeps_outputs (P a)) l -> keeps_outputs (mapM P l).
Proof.
  induction 1 as [|a l Ha _ IH]; simpl; ko.
Qed.

Lemma ko_emitListLiteral type_hint values :
  keeps_outputs (emitListLiteral type_hint values).
Proof. unfold emitListLiteral. ko. Qed.

Lemma ko_getTupleIndexVal tuple_len idx_val allow :
  keeps_outputs (getTupleIndexVal tuple_len idx_val allow).
Proof. unfold getTupleIndexVal. ko. Qed.

Lemma ko_tuple_length t : keeps_outputs (tuple_length t).
Proof. unfold tuple_length. ko. Qed.

Hint Resolve ko_emitListLiteral ko_getTupleIndexVal ko_tuple_length : ko.

Lemma ko_emitTupleIndex tuple_val idx_val :
  keeps_outputs (emitTupleIndex tuple_val idx_val).
Proof. unfold emitTupleIndex. ko. Qed.

Lemma ko_emitTupleSlice tuple_val beg_val end_val :
  keeps_outputs (emitTupleSlice tuple_val beg_val end_val).
Proof. unfold emitTupleSlice. ko. Qed.

Lemma ko_SimpleValue_attr value field :
  keeps_outputs (SimpleValue_attr E value field).
Proof. unfold SimpleValue_attr. ko. Qed.

Hint Resolve ko_emitTupleIndex ko_emitTupleSlice ko_SimpleValue_attr : ko.

Lemma ko_attr sv field : keeps_outputs (attr E sv field).
Proof. unfold attr. ko. Qed.

Lemma ko_BuiltinFunction_call symbol self inputs attributes :
  keeps_outputs (BuiltinFunction_call E symbol self inputs attributes).
Proof. unfold BuiltinFunction_call. ko. Qed.

Lemma ko_PrintValue_call inputs attributes :
  keeps_outputs (PrintValue_call inputs attributes).
Proof. unfold PrintValue_call. ko. Qed.

Hint Resolve ko_attr ko_BuiltinFunction_call ko_PrintValue_call : ko.

Lemma ko_CastValue_call type_ method inputs attributes :
  keeps_outputs (CastValue_call E type_ method inputs attributes).
Proof. unfold CastValue_call. ko. Qed.

Hint Resolve ko_CastValue_call : ko.

Lemma ko_call sv inputs attributes n :
  keeps_outputs (call E sv inputs attributes n).
Proof. unfold call. ko. Qed.

Hint Resolve ko_call : ko.

Lemma ko_emit_if_expr b expr_value :
  keeps_outputs expr_value -> keeps_outputs (emit_if_expr b expr_value).
Proof.
  intros H. unfold emit_if_expr. ko. apply ko_at_block. exact H.
Qed.

Lemma ko_emitIfExpr cond_value true_expr false_expr :
  keeps_outputs true_expr -> keeps_outputs false_expr ->
  keeps_outputs (emitIfExpr E cond_value true_expr false_expr).
Proof.
  intros Ht Hf. unfold emitIfExpr, addBlock. ko; apply ko_emit_if_expr; assumption.
Qed.

Lemma ko_valueOf m : keeps_outputs m -> keeps_outputs (valueOf m).
Proof. intros H. unfold valueOf. ko. Qed.

Lemma ko_simple m : keeps_outputs m -> keeps_outputs (simple m).
Proof. intros H. unfold simple. ko. Qed.

Lemma ko_emitCond_of cond : keeps_outputs cond -> keeps_outputs (emitCond_of E cond).
Proof. intros H. unfold emitCond_of. ko. Qed.

Lemma ko_emitTernaryIf_of cond true_expr false_expr :
  keeps_outputs cond -> keeps_outputs true_expr -> keeps_outputs false_expr ->
  keeps_outputs (emitTernaryIf_of E cond true_expr false_expr).
Proof.
  intros Hc Ht Hf. unfold emitTernaryIf_of.
  apply ko_bind; [apply ko_emitCond_of; exact Hc|]. intros.
  apply ko_emitIfExpr; assumption.
Qed.

Lemma ko_emitShortCircuitIf_of first_expr second_expr is_or :
  keeps_outputs first_expr -> keeps_outputs second_expr ->
  keeps_outputs (emitShortCircuitIf_of E first_expr second_expr is_or).
Proof.
  intros H1 H2. unfold emitShortCircuitIf_of.
  apply ko_bind; [apply ko_emitCond_of; exact H1|]. intros.
  destruct is_or; apply ko_emitIfExpr;
    try apply ko_ret; apply ko_emitCond_of; exact H2.
Qed.

Lemma ko_getNamedValues_of trees :
  Forall keeps_outputs trees -> keeps_outputs (getNamedValues_of trees).
Proof.
  intros H. unfold getNamedValues_of. apply ko_mapM_Forall.
  eapply Forall_impl; [|exact H]. intros m Hm. ko.
Qed.

Lemma ko_getValues_of trees :
  Forall keeps_outputs trees -> keeps_outputs (getValues_of trees).
Proof.
  intros H. unfold getValues_of.
  apply ko_bind; [apply ko_getNamedValues_of; exact H|]. intros. ko.
Qed.

Lemma ko_emitAttributes_of attributes :
  Forall (fun a => keeps_outputs (snd a)) attributes ->
  keeps_outputs (emitAttributes_of attributes).
Proof.
  intros H. unfold emitAttributes_of. apply ko_mapM_Forall.
  eapply Forall_impl; [|exact H]. intros m Hm. ko.
Qed.

Lemma ko_emitSelect input dim index : keeps_outputs (emitSelect E input dim index).
Proof. unfold emitSelect. ko. Qed.

Lemma ko_emitIndex input indices : keeps_outputs (emitIndex E input indices).
Proof. unfold emitIndex. ko. Qed.

Hint Resolve ko_emitSelect ko_emitIndex : ko.

Lemma ko_emitSlice_of input dim start end_ :
  OptionP keeps_outputs start -> OptionP keeps_outputs end_ ->
  keeps_outputs (emitSlice_of E input dim start end_).
Proof.
  intros Hs He. unfold emitSlice_of.
  destruct start, end_; simpl in Hs, He; ko.
Qed.

Lemma ko_emitIntAndSliceIndexing_loop exprs :
  Forall arg_keeps_outputs exprs ->
  forall sliceable dim tensor_indices,
    keeps_outputs
      (emitIntAndSliceIndexing_loop E exprs sliceable dim tensor_indices).
Proof.
  induction 1 as [|a exprs Ha _ IH]; intros; simpl; [ko|].
  destruct a as [start end_|index]; simpl in Ha.
  - destruct Ha as [Hs He].
    apply ko_bind; [apply ko_emitSlice_of; assumption|]. intros. apply IH.
  - ko; apply IH.
Qed.

Lemma ko_emitIntAndSliceIndexing_of sliceable exprs :
  Forall arg_keeps_outputs exprs ->
  keeps_outputs (emitIntAndSliceIndexing_of E sliceable exprs).
Proof.
  intros H. unfold emitIntAndSliceIndexing_of.
  apply ko_bind; [apply ko_emitIntAndSliceIndexing_loop; exact H|]. intros. ko.
Qed.

Lemma ko_emitMultidimSlicing_of sliceable exprs :
  Forall arg_keeps_outputs exprs ->
  keeps_outputs (emitMultidimSlicing_of E sliceable exprs).
Proof.
  intros H. unfold emitMultidimSlicing_of.
  destruct (negb _); [ko|].
  apply ko_bind; [apply ko_emitIntAndSliceIndexing_of; exact H|]. intros. ko.
Qed.

Lemma ko_emitBasicSlice_of sliceable start end_ :
  OptionP keeps_outputs start -> OptionP keeps_outputs end_ ->
  keeps_outputs (emitBasicSlice_of E sliceable start end_).
Proof. intros. unfold emitBasicSlice_of. apply ko_emitSlice_of; assumption. Qed.

Lemma ko_emitBasicGather_of gatherable subscript_expr :
  keeps_outputs subscript_expr ->
  keeps_outputs (emitBasicGather_of E gatherable subscript_expr).
Proof.
  intros H. unfold emitBasicGather_of.
  destruct (is_ListType _); [ko|].
  destruct (isSubtypeOf _ _ _).
  - apply ko_emitMultidimSlicing_of. repeat constructor. exact H.
  - ko.
Qed.

Lemma ko_emitSubscript_of value exprs :
  keeps_outputs value -> Forall arg_keeps_outputs exprs ->
  keeps_outputs (emitSubscript_of E value exprs).
Proof.
  intros Hv H. unfold emitSubscript_of.
  apply ko_bind; [exact Hv|]. intros sliceable.
  destruct exprs as [|a [|b rest]].
  - apply ko_emitMultidimSlicing_of. exact H.
  - inversion H as [|? ? Ha _]; subst. destruct a as [start end_|index];
      simpl in Ha.
    + destruct Ha. apply ko_emitBasicSlice_of; assumption.
    + apply ko_emitBasicGather_of. exact Ha.
  - destruct a; apply ko_emitMultidimSlicing_of; exact H.
Qed.

Lemma ko_checkApplyExpr callee n_inputs n_attributes :
  keeps_outputs (checkApplyExpr callee n_inputs n_attributes).
Proof. unfold checkApplyExpr. ko. Qed.

Hint Resolve ko_checkApplyExpr : ko.

Lemma ko_parseTypeFromExpr expr : keeps_outputs (parseTypeFromExpr expr).
Proof.
  induction expr using Expr_nested_ind; try (simpl; ko; fail).
  cbn [parseTypeFromExpr].
  destruct (parseBaseTypeName expr); [|ko].
  assert (Hone : forall mk,
    keeps_outputs
      match es with
      | [e] => elem_type <- parseTypeFromExpr e ;; create_type (mk elem_type)
      | _ => throw (TypeConstructorArity (List.length es))
      end).
  { intros mk. destruct es as [|e [|e' es]]; ko.
    inversion H; subst. assumption. }
  destruct (String.eqb s "Tuple").
  - apply ko_bind; [|intros; ko]. clear Hone.
    induction H as [|e es He _ IH]; ko.
  - ko; apply Hone.
Qed.

Hint Resolve ko_parseTypeFromExpr : ko.

Lemma ko_isInstanceCheck_of obj classinfo :
  keeps_outputs obj -> keeps_outputs (isInstanceCheck_of E obj classinfo).
Proof.
  intros Hobj.
  induction classinfo using Expr_nested_ind; try (simpl; ko; fail).
  cbn [isInstanceCheck_of].
  induction H as [|e es He _ IH]; ko.
Qed.

Lemma ko_emitApplyExpr_of callee callee_sv inputs attributes n_binders :
  keeps_outputs callee_sv ->
  Forall (fun a : ApplyArg => forall hint, keeps_outputs (snd a hint)) inputs ->
  Forall (fun a => keeps_outputs (snd a)) attributes ->
  keeps_outputs
    (emitApplyExpr_of E callee callee_sv inputs attributes n_binders).
Proof.
  intros Hc Hi Ha. unfold emitApplyExpr_of.
  apply ko_bind; [exact Hc|]. intros sv.
  assert (Hgen : keeps_outputs
    (inputs0 <- getNamedValues_of (map (fun a => valueOf (snd a None)) inputs) ;;
     attributes0 <- emitAttributes_of attributes ;;
     call E sv inputs0 attributes0 n_binders)).
  { apply ko_bind.
    - apply ko_getNamedValues_of. apply Forall_map.
      eapply Forall_impl; [|exact Hi]. intros a H. apply ko_valueOf. apply H.
    - intros. apply ko_bind; [apply ko_emitAttributes_of; exact Ha|].
      intros. ko. }
  destruct sv; try exact Hgen;
    (apply ko_bind; [ko|]; intros _;
     destruct inputs as [|[t1 e1] [|[t2 e2] [|x rest]]]; ko;
     inversion Hi as [|? ? H1 Hi']; subst;
     inversion Hi' as [|? ? H2 _]; subst;
     repeat first [ apply ko_isInstanceCheck_of | apply ko_valueOf
                  | apply H1 | apply H2 ]).
Qed.

Lemma ko_emitBinOp_of kind inputs :
  Forall keeps_outputs inputs -> keeps_outputs (emitBinOp_of E kind inputs).
Proof.
  intros H. unfold emitBinOp_of.
  apply ko_bind; [apply ko_getNamedValues_of; exact H|]. intros. ko.
Qed.

Lemma ko_emitListLiteral_of type_hint inputs :
  Forall keeps_outputs inputs ->
  keeps_outputs (emitListLiteral_of type_hint inputs).
Proof.
  intros H. unfold emitListLiteral_of.
  apply ko_bind; [apply ko_getValues_of; exact H|]. intros. ko.
Qed.

Lemma ko_emitTupleLiteral_of inputs :
  Forall keeps_outputs inputs -> keeps_outputs (emitTupleLiteral_of inputs).
Proof.
  intros H. unfold emitTupleLiteral_of.
  apply ko_bind; [apply ko_getValues_of; exact H|]. intros. ko.
Qed.

Lemma ko_emitSugaredExpr tree :
  forall n_binders type_hint,
    keeps_outputs (emitSugaredExpr E tree n_binders type_hint).
Proof.
  assert (Hall : forall tree,
    (forall n_binders type_hint,
        keeps_outputs (emitSugaredExpr E tree n_binders type_hint))
    /\ match tree with
       | SliceExpr start end_ =>
           OptionP (fun e => forall n h,
                        keeps_outputs (emitSugaredExpr E e n h)) start
           /\ OptionP (fun e => forall n h,
                           keeps_outputs (emitSugaredExpr E e n h)) end_
       | _ => True
       end).
  { clear tree.
    assert (Hvals : forall es,
      Forall (fun e =>
        (forall n h, keeps_outputs (emitSugaredExpr E e n h))
        /\ match e with
           | SliceExpr start end_ =>
               OptionP (fun e => forall n h,
                            keeps_outputs (emitSugaredExpr E e n h)) start
               /\ OptionP (fun e => forall n h,
                               keeps_outputs (emitSugaredExpr E e n h)) end_
           | _ => True
           end) es ->
      Forall keeps_outputs
        (map (fun e => valueOf (emitSugaredExpr E e 1 None)) es)).
    { intros es H. apply Forall_map. eapply Forall_impl; [|exact H].
      intros e [He _]. apply ko_valueOf. apply He. }
    induction tree using Expr_nested_ind;
      (split; [intros n_binders type_hint|try exact I]);
      repeat match goal with
             | H : _ /\ _ |- _ => destruct H as [H _]
             end;
      cbn [emitSugaredExpr];
      try (apply ko_simple);
      try (ko; fail).
    - apply ko_emitBinOp_of. repeat constructor; apply ko_valueOf; auto.
    - apply ko_emitBinOp_of. repeat constructor; apply ko_valueOf; auto.
    - apply ko_emitShortCircuitIf_of; apply ko_valueOf; auto.
    - apply ko_emitShortCircuitIf_of; apply ko_valueOf; auto.
    - apply ko_emitTernaryIf_of; apply ko_valueOf; auto.
    - apply ko_emitListLiteral_of. apply Hvals. assumption.
    - apply ko_emitTupleLiteral_of. apply Hvals. assumption.
    - apply ko_emitSubscript_of; [apply ko_valueOf; auto|].
      apply Forall_map. eapply Forall_impl; [|eassumption].
      intros e [He Hs]. unfold arg_keeps_outputs.
      destruct e; cbv beta iota; try (apply ko_valueOf; apply He).
      destruct Hs as [Hs1 Hs2].
      split; [destruct start|destruct end_]; unfold OptionP in *;
        try exact I; apply ko_valueOf; auto.
    - split; [destruct start; [exact (proj1 H)|exact I]
             |destruct end_; [exact (proj1 H0)|exact I]].
    - apply ko_emitApplyExpr_of; [auto| |].
      + apply Forall_map. eapply Forall_impl; [|eassumption].
        intros e [He _] hint. simpl. apply He.
      + apply Forall_map. eapply Forall_impl; [|eassumption].
        intros a [Ha _]. simpl. apply ko_valueOf. apply Ha. }
  apply Hall.
Qed.

Hint Resolve ko_emitSugaredExpr : ko.

Lemma ko_emitExpr tree type_hint : keeps_outputs (emitExpr E tree type_hint).
Proof. unfold emitExpr. apply ko_valueOf. ko. Qed.

Hint Resolve ko_emitExpr : ko.

Lemma ko_emitCond cond : keeps_outputs (emitCond E cond).
Proof. unfold emitCond. apply ko_emitCond_of. ko. Qed.

Hint Resolve ko_emitCond : ko.

Variable order : list string -> list string.

Lemma ko_ensureInt v : keeps_outputs (ensureInt E v).
Proof. unfold ensureInt. ko. Qed.

Lemma ko_emitSingleIfBranch b branch :
  keeps_outputs branch -> keeps_outputs (emitSingleIfBranch b branch).
Proof.
  intros H. unfold emitSingleIfBranch. ko. apply ko_at_block. exact H.
Qed.

Lemma ko_reconcile cond_value x br : keeps_outputs (reconcile E cond_value x br).
Proof.
  unfold reconcile.
  apply ko_bind; [apply ko_on_saved; intros; ko|]. intros [tv st_true].
  apply ko_bind; [apply ko_on_saved; intros; ko|]. intros [fv st_false].
  destruct (unifyTypes E (v_type tv) (v_type fv)); [ko|].
  apply ko_bind; [ko|]. intros st0.
  destruct (or_else _ _); [ko|].
  apply ko_bind; [apply ko_on_saved; intros; ko|]. intros [u f]. ko.
Qed.

Hint Resolve ko_ensureInt ko_reconcile : ko.

Lemma ko_reconcile_all cond_value xs :
  forall br, keeps_outputs (reconcile_all E cond_value xs br).
Proof. induction xs; intros; simpl; ko. Qed.

Hint Resolve ko_reconcile_all : ko.

Lemma ko_emitIfElseBlocks cond_value trueBranch falseBranch :
  keeps_outputs trueBranch -> keeps_outputs falseBranch ->
  keeps_outputs (emitIfElseBlocks E order cond_value trueBranch falseBranch).
Proof.
  intros Ht Hf. unfold emitIfElseBlocks, addBlock.
  ko; apply ko_emitSingleIfBranch; assumption.
Qed.

Lemma ko_emitIf cond trueBranch falseBranch :
  keeps_outputs trueBranch -> keeps_outputs falseBranch ->
  keeps_outputs (emitIf E order cond trueBranch falseBranch).
Proof.
  intros Ht Hf. unfold emitIf.
  destruct cond; try destruct kind; ko; apply ko_emitIfElseBlocks; assumption.
Qed.

Lemma ko_deleteExtraInputs_from i :
  forall lb, keeps_outputs (deleteExtraInputs_from i lb).
Proof. induction i; intros; simpl; ko. Qed.

Hint Resolve ko_deleteExtraInputs_from : ko.

Lemma ko_deleteExtraInputs lb : keeps_outputs (deleteExtraInputs lb).
Proof. unfold deleteExtraInputs. ko. Qed.

Lemma ko_register_carried xs :
  forall block_inputs, keeps_outputs (register_carried E xs block_inputs).
Proof. induction xs; intros; simpl; ko. Qed.

Hint Resolve ko_deleteExtraInputs ko_register_carried : ko.

Lemma ko_emitLoopCommon max_trip_count cond body itr_ident :
  keeps_outputs body ->
  keeps_outputs (emitLoopCommon E max_trip_count cond body itr_ident).
Proof.
  intros Hb. unfold emitLoopCommon, addBlock. ko.
  apply ko_at_block. ko.
Qed.

Lemma ko_emitForRange target args body :
  keeps_outputs body -> keeps_outputs (emitForRange E target args body).
Proof.
  intros Hb. unfold emitForRange. ko. apply ko_emitLoopCommon. exact Hb.
Qed.

Lemma ko_emitWhile cond body :
  keeps_outputs body -> keeps_outputs (emitWhile E cond body).
Proof. intros Hb. unfold emitWhile. apply ko_emitLoopCommon. exact Hb. Qed.

Lemma ko_emitRaise : keeps_outputs (emitRaise E).
Proof. unfold emitRaise. ko. Qed.

Lemma ko_emitAssert test : keeps_outputs (emitAssert E test).
Proof.
  unfold emitAssert, addBlock. ko. apply ko_at_block. apply ko_emitRaise.
Qed.

Lemma ko_emitAssignment name rhs : keeps_outputs (emitAssignment E name rhs).
Proof. unfold emitAssignment. ko. Qed.

Lemma ko_getAugOp aug_op isTensor : keeps_outputs (getAugOp aug_op isTensor).
Proof. unfold getAugOp. ko. Qed.

Hint Resolve ko_getAugOp : ko.

Lemma ko_emitAugAssignmentToVar lhs aug_op rhs :
  keeps_outputs (emitAugAssignmentToVar E lhs aug_op rhs).
Proof. unfold emitAugAssignmentToVar. ko. Qed.

Lemma ko_addInput name ty : keeps_outputs (addInput name ty).
Proof. unfold addInput. ko. Qed.

Hint Resolve ko_addInput : ko.

Lemma ko_emitGlobal names : keeps_outputs (emitGlobal E names).
Proof. unfold emitGlobal. ko. Qed.

Hint Resolve ko_emitRaise ko_emitAssert ko_emitAssignment
  ko_emitAugAssignmentToVar ko_emitGlobal : ko.

Lemma ko_emitStatements_Forall stmts :
  Forall (fun s => keeps_outputs (emitStatement E order s)) stmts ->
  keeps_outputs (emitStatements E order stmts).
Proof. induction 1; simpl; ko. Qed.

Lemma ko_emitStatement stmt : keeps_outputs (emitStatement E order stmt).
Proof.
  induction stmt using Stmt_nested_ind;
    try (change (emitStatement E order (If c tb fb))
           with (emitIf E order c (emitStatements E order tb)
                       (emitStatements E order fb)));
    try (change (emitStatement E order (While c body))
           with (emitWhile E c (emitStatements E order body)));
    try (change (emitStatement E order (ForRange t args body))
           with (emitForRange E t args (emitStatements E order body)));
    try (simpl; ko; fail).
  - apply ko_emitIf; apply ko_emitStatements_Forall; assumption.
  - apply ko_emitWhile; apply ko_emitStatements_Forall; assumption.
  - apply ko_emitForRange; apply ko_emitStatements_Forall; assumption.
Qed.

Lemma ko_emitStatements stmts : keeps_outputs (emitStatements E order stmts).
Proof.
  apply ko_emitStatements_Forall. apply Forall_forall. intros.
  apply ko_emitStatement.
Qed.

Lemma ko_emitFormalArguments def self :
  keeps_outputs (emitFormalArguments E def self).
Proof. unfold emitFormalArguments. ko. Qed.

(** The graph of a function that compiles has exactly one output: the one
    registered for the [return], or for its absence. *)
Lemma to_ir_body_one_output def self schema st :
  to_ir_body E order def self initial_state = Ok schema st ->
  exists s0 s1 ret_arg,
    emitReturn E (snd (split_return (def_statements def))) (def_schema def) s0
    = Ok ret_arg s1
    /\ st = s1
    /\ st_outputs s0 = []
    /\ exists v, st_outputs st = [v].
Proof.
  intros H. unfold to_ir_body in H.
  apply bind_Ok in H. destruct H as [[] [s1 [H1 H]]].
  apply bind_Ok in H. destruct H as [[] [s2 [H2 H]]].
  apply bind_Ok in H. destruct H as [arguments [s3 [H3 H]]].
  destruct (split_return (def_statements def)) as [stmts return_stmt].
  apply bind_Ok in H. destruct H as [[] [s4 [H4 H]]].
  apply bind_Ok in H. destruct H as [ret_arg [s5 [Hret H]]]. inv H.
  apply ko_pushFrame in H1.
  assert (K2 : st_outputs s2 = st_outputs s1).
  { destruct self, (def_params def); inv H2; reflexivity. }
  apply ko_emitFormalArguments in H3. apply ko_emitStatements in H4.
  assert (Hnone : st_outputs s4 = []).
  { rewrite H4, H3, K2, H1. reflexivity. }
  exists s4, st, ret_arg. split; [exact Hret|]. split; [reflexivity|].
  split; [exact Hnone|].
  unfold emitReturn in Hret.
  destruct (Nat.ltb 1 _); [discriminate|].
  apply bind_Ok in Hret. destruct Hret as [result [s6 [Hr Hret]]].
  apply bind_Ok in Hret. destruct Hret as [result' [s7 [Hc Hret]]].
  destruct (negb _); [discriminate|].
  apply bind_Ok in Hret. destruct Hret as [[] [s8 [Hreg Hret]]]. inv Hret.
  unfold registerOutput, modify in Hreg. inv Hreg.
  assert (K6 : st_outputs s6 = st_outputs s4).
  { destruct return_stmt; [eapply ko_emitExpr|eapply ko_insertConstant];
      exact Hr. }
  assert (K7 : st_outputs s7 = st_outputs s6).
  { destruct return_stmt; [eapply ko_tryConvertToType; exact Hc|].
    inv Hc. reflexivity. }
  exists result'. destruct s7. simpl in *. rewrite K7, K6, Hnone. reflexivity.
Qed.

End Outputs.

(** * The position of a return, and the output of the graph *)

Lemma emitSingleIfBranch_Err b (branch : M unit) st e :
  branch (branch_entry b st) = Err e ->
  emitSingleIfBranch b branch st = Err e.
Proof.
  intros H.
  unfold emitSingleIfBranch, pushFrame, at_block, bind, modify, get, put.
  unfold branch_entry in H. rewrite H. reflexivity.
Qed.

Section ReturnReached.

Variable E : Externals.
Variable order : list string -> list string.

Lemma emitLoopCommon_Err max_trip_count cond body itr_ident st entry e :
  loop_entry E max_trip_count cond itr_ident st = Ok tt entry ->
  body entry = Err e ->
  emitLoopCommon E max_trip_count cond body itr_ident st = Err e.
Proof.
  intros H Hbody. unfold loop_entry in H. unfold emitLoopCommon.
  apply bind_Ok in H. destruct H as [mv [s1 [H1 H]]].
  apply bind_Ok in H. destruct H as [cv [s2 [H2 H]]].
  apply bind_Ok in H. destruct H as [bb [s3 [H3 H]]].
  apply bind_Ok in H. destruct H as [i [s4 [H4 H]]].
  apply bind_Ok in H. destruct H as [[] [s5 [H5 H]]].
  apply bind_Ok in H. destruct H as [[] [s6 [H6 H]]].
  unfold modify in H. inv H.
  rewrite (bind_Ok_l _ _ _ _ _ H1), (bind_Ok_l _ _ _ _ _ H2),
    (bind_Ok_l _ _ _ _ _ H3), (bind_Ok_l _ _ _ _ _ H4).
  cbv zeta.
  rewrite (bind_Ok_l _ _ _ _ _ H5), (bind_Ok_l _ _ _ _ _ H6).
  apply bind_Err_l.
  unfold at_block, bind, get, put. rewrite Hbody. reflexivity.
Qed.

Lemma emitStatements_cons stmt rest :
  emitStatements E order (stmt :: rest)
  = (emitStatement E order stmt ;; emitStatements E order rest).
Proof. reflexivity. Qed.

(** The emitter fails on the [return] it gets to, with the error of a
    [return] that is not at the end. *)
Lemma meets_return_rejected stmts st :
  meets_return E order stmts st ->
  emitStatements E order stmts st = Err ReturnNotAtEnd.
Proof.
  induction 1 as
    [stmt rest st st' Hstmt _ IH
    |e rest st
    |is_ lhs rhs tb fb rest st lhs_val st1 rhs_val st2 first Hl Hr Hsel _ IH
    |cond tb fb rest st cv st1 tblk sa fblk sb Hcond Ha Hb _ IH
    |cond tb fb rest st cv st1 tblk sa fblk sb save tn sc Hcond Ha Hb Ht _ IH
    |cond body rest st entry Hentry _ IH
    |target arg body rest st entry Hentry _ IH];
    rewrite emitStatements_cons.
  - rewrite (bind_Ok_l _ _ _ _ _ Hstmt). exact IH.
  - apply bind_Err_l. reflexivity.
  - apply bind_Err_l. rewrite emitStatement_If. unfold emitIf.
    destruct is_;
      rewrite (bind_Ok_l _ _ _ _ _ Hl), (bind_Ok_l _ _ _ _ _ Hr);
      destruct (isNone lhs_val), (isNone rhs_val); simpl in Hsel;
      try discriminate; inv Hsel; exact IH.
  - apply bind_Err_l.
    rewrite (general_lowering_emitStatement E order _ tb fb _ _ _ Hcond).
    unfold emitIfElseBlocks.
    rewrite (bind_Ok_l _ _ _ _ _ Ha), (bind_Ok_l _ _ _ _ _ Hb).
    apply bind_Err_l. apply emitSingleIfBranch_Err. exact IH.
  - apply bind_Err_l.
    rewrite (general_lowering_emitStatement E order _ tb fb _ _ _ Hcond).
    unfold emitIfElseBlocks.
    rewrite (bind_Ok_l _ _ _ _ _ Ha), (bind_Ok_l _ _ _ _ _ Hb).
    rewrite (bind_Ok_l _ _ _ _ _ Ht). cbv beta iota.
    apply bind_Err_l. apply emitSingleIfBranch_Err. exact IH.
  - apply bind_Err_l.
    change (emitStatement E order (While cond body))
      with (emitWhile E cond (emitStatements E order body)).
    unfold emitWhile. eapply emitLoopCommon_Err; eassumption.
  - apply bind_Err_l.
    change (emitStatement E order (ForRange target [arg] body))
      with (emitForRange E target [arg] (emitStatements E order body)).
    unfold emitForRange. eapply emitLoopCommon_Err; eassumption.
Qed.

Lemma to_ir_body_from_entry def self arguments entry :
  function_entry E def self initial_state = Ok arguments entry ->
  to_ir_body E order def self initial_state
  = (emitStatements E order (fst (split_return (def_statements def))) ;;
     ret_arg <- emitReturn E (snd (split_return (def_statements def)))
                  (def_schema def) ;;
     ret {| schema_name := def_name def; arguments := arguments;
            returns := [ret_arg]; is_vararg := false |}) entry.
Proof.
  intros H. unfold function_entry in H. unfold to_ir_body.
  apply bind_Ok in H. destruct H as [[] [s1 [H1 H]]].
  apply bind_Ok in H. destruct H as [[] [s2 [H2 H]]].
  rewrite (bind_Ok_l _ _ _ _ _ H1), (bind_Ok_l _ _ _ _ _ H2).
  cbv zeta. rewrite (bind_Ok_l _ _ _ _ _ H).
  destruct (split_return (def_statements def)). reflexivity.
Qed.

(** C9, as the code has it.  Compilation fails whenever the statements in
    front of a trailing [return] bring the emitter to a [return].  It does
    when a [return] is at the top level in any position but the last, and
    when a statement is sure to meet one: a [return] in a branch of an [if]
    lowered in the general way or in the body of a [while] or of a [for]
    over a range, or in both branches of an [if] on [is] / [is not].  It
    does when the emitter, from the state the body starts in, gets to a
    [return] through the statements that compile: in the branch that an
    [is] / [is not] condition selects, in either branch when it selects
    none; the error is then the one of a misplaced [return].  (A [return]
    in the branch that such a condition rules out is never looked at.)  A
    function that compiles has exactly one graph output, whatever the code
    outside this file does as long as it registers none; when the body does
    not end with a [return] it is a none constant, emitted last. *)
Theorem return_only_at_end :
  (forall (def : Def) (self : option SugaredValue),
      existsb reaches_return (fst (split_return (def_statements def))) = true ->
      exists e, to_ir E order def self = inl e)
  /\ (forall pre e s post,
        existsb reaches_return
          (fst (split_return (pre ++ Return e :: s :: post))) = true)
  /\ (forall (stmts : list Stmt) (st : CState),
        meets_return E order stmts st ->
        emitStatements E order stmts st = Err ReturnNotAtEnd)
  /\ (forall (def : Def) (self : option SugaredValue)
             (arguments : list Argument) (entry : CState),
        function_entry E def self initial_state = Ok arguments entry ->
        meets_return E order (fst (split_return (def_statements def))) entry ->
        to_ir E order def self = inl ReturnNotAtEnd)
  /\ (host_keeps_outputs E ->
      forall (def : Def) (self : option SugaredValue) (schema : FunctionSchema)
             (st : CState),
        to_ir_body E order def self initial_state = Ok schema st ->
        exists v,
          st_outputs st = [v]
          /\ (snd (split_return (def_statements def)) = None ->
              is_none_constant v
              /\ exists nodes,
                   st_nodes st = nodes ++ [mkNode "prim::None" [] [v] [] []])).
Proof.
  destruct (return_met_is_rejected E order) as [Hsure [Htop Hnone]].
  split; [exact Hsure|]. split; [exact Htop|].
  split; [exact meets_return_rejected|]. split.
  - intros def self arguments entry Hentry Hmeets.
    unfold to_ir. rewrite (to_ir_body_from_entry _ _ _ _ Hentry).
    rewrite (bind_Err_l _ _ _ _ (meets_return_rejected _ _ Hmeets)).
    reflexivity.
  - intros host def self schema st H.
    destruct (to_ir_body_one_output E host order def self schema st H)
      as [s0 [s1 [ret_arg [_ [_ [_ [v Hv]]]]]]].
    exists v. split; [exact Hv|]. intros Hno.
    destruct (Hnone def self schema st Hno H)
      as [v' [outputs [nodes [Ho [Hc Hn]]]]].
    assert (v = v').
    { rewrite Hv in Ho. destruct outputs as [|o [|o' outputs]];
        simpl in Ho; inv Ho; reflexivity. }
    subst v'. split; [exact Hc|]. exists nodes. exact Hn.
Qed.

End ReturnReached.

Lemma sample_host_keeps_outputs : host_keeps_outputs Sample.externals.
Proof.
  repeat split; intros; simpl.
  - apply ko_ret.
  - unfold Sample.insert_op.
    apply ko_bind; [apply ko_toValues|intros; apply ko_insert1].
  - apply ko_throw.
  - apply ko_throw.
Qed.

(** In a loop, a [return] in the branch that [None is None] selects is
    rejected, and the same [return] in the other branch is not; the graph
    of the function that compiles has one output, a none constant. *)
Lemma return_only_at_end_example :
  Sample.compile return_in_selected_branch = inl ReturnNotAtEnd
  /\ exists schema st v,
       to_ir_body Sample.externals (fun l => l)
         (Sample.def_of return_in_skipped_branch) None initial_state
       = Ok schema st
       /\ st_outputs st = [v]
       /\ is_none_constant v.
Proof.
  destruct (return_only_at_end Sample.externals (fun l => l))
    as [_ [_ [_ [Hmet Hout]]]].
  split.
  - eapply (Hmet (Sample.def_of return_in_selected_branch) None).
    + vm_compute. reflexivity.
    + eapply meets_while; [vm_compute; reflexivity|].
      eapply (meets_selected _ _ true) with (first := true);
        [vm_compute; reflexivity|vm_compute; reflexivity|reflexivity|].
      apply meets_here.
  - assert (Hrun :
      exists schema st,
        to_ir_body Sample.externals (fun l => l)
          (Sample.def_of return_in_skipped_branch) None initial_state
        = Ok schema st)
      by (eexists _, _; vm_compute; reflexivity).
    destruct Hrun as [schema [st Hrun]].
    destruct (Hout sample_host_keeps_outputs _ _ _ _ Hrun) as [v [Hv Hnone]].
    destruct (Hnone eq_refl) as [Hc _].
    exists schema, st, v. auto.
Defined.

(** * Expressions, from the syntax tree *)

Section FromTheTree.

Variable E : Externals.

Lemma emitExpr_TernaryIf cond true_expr false_expr type_hint st :
  emitExpr E (TernaryIf cond true_expr false_expr) type_hint st
  = emitTernaryIf E cond true_expr false_expr st.
Proof.
  unfold emitExpr. cbn [emitSugaredExpr]. rewrite valueOf_simple. reflexivity.
Qed.

(** C7.  A ternary conditional expression is lowered by [emitTernaryIf]:
    the condition is emitted first; then the two branch expressions are each
    emitted into a block of their own, which holds the nodes of the branch
    and returns its value; one prim::If node on the condition, with these
    two blocks, is appended to the current block.  The shape-erased types of
    the two branch results must be equal: when they are, the single output
    of the node carries that type; when they are not, the expression itself
    fails with the type-mismatch error (nothing is recorded for later). *)
Theorem ternary_branches_unify :
  forall (cond true_expr false_expr : Expr) (type_hint : option TypePtr)
         (st : CState),
    emitExpr E (TernaryIf cond true_expr false_expr) type_hint st
    = emitTernaryIf E cond true_expr false_expr st
    /\ (forall v st',
          emitExpr E (TernaryIf cond true_expr false_expr) type_hint st
          = Ok v st' ->
          exists cond_value st1 true_b false_b st2 tv fv,
            emitCond E cond st = Ok cond_value st1
            /\ ternary_blocks E true_expr false_expr st1
               = Ok (true_b, false_b) st2
            /\ b_outputs true_b = [tv] /\ b_outputs false_b = [fv]
            /\ type_eqb (unshapedType E (v_type tv))
                        (unshapedType E (v_type fv)) = true
            /\ v_type v = unshapedType E (v_type tv)
            /\ st_nodes st'
               = st_nodes st2
                 ++ [mkNode "prim::If" [cond_value] [v] [true_b; false_b] []])
    /\ (forall cond_value st1 true_b false_b st2 tv fv,
          emitCond E cond st = Ok cond_value st1 ->
          ternary_blocks E true_expr false_expr st1 = Ok (true_b, false_b) st2 ->
          b_outputs true_b = [tv] -> b_outputs false_b = [fv] ->
          type_eqb (unshapedType E (v_type tv))
                   (unshapedType E (v_type fv)) = false ->
          emitExpr E (TernaryIf cond true_expr false_expr) type_hint st
          = Err (IfExprTypeMismatch (unshapedType E (v_type tv))
                                    (unshapedType E (v_type fv))))
    /\ (forall st1 true_b false_b st2,
          ternary_blocks E true_expr false_expr st1 = Ok (true_b, false_b) st2 ->
          st_nodes st2 = st_nodes st1
          /\ exists true_entry tv true_exit false_entry fv false_exit,
               st_nodes true_entry = []
               /\ emitExpr E true_expr None true_entry = Ok tv true_exit
               /\ true_b = mkBlock [] (st_nodes true_exit) [tv]
               /\ st_nodes false_entry = []
               /\ emitExpr E false_expr None false_entry = Ok fv false_exit
               /\ false_b = mkBlock [] (st_nodes false_exit) [fv]).
Proof.
  intros cond true_expr false_expr type_hint st.
  split; [apply emitExpr_TernaryIf|]. rewrite emitExpr_TernaryIf.
  split; [|split].
  - intros v st' H. unfold emitTernaryIf in H.
    apply bind_Ok in H. destruct H as [cond_value [st1 [Hc H]]].
    unfold emitIfExpr in H.
    apply bind_Ok in H. destruct H as [tblk [sa [Ha H]]].
    apply bind_Ok in H. destruct H as [fblk [sb [Hb H]]].
    apply bind_Ok in H. destruct H as [true_b [sc [Ht H]]].
    apply bind_Ok in H. destruct H as [false_b [sd [Hf H]]].
    assert (Hblocks : ternary_blocks E true_expr false_expr st1
                      = Ok (true_b, false_b) sd).
    { unfold ternary_blocks.
      rewrite (bind_Ok_l _ _ _ _ _ Ha), (bind_Ok_l _ _ _ _ _ Hb),
        (bind_Ok_l _ _ _ _ _ Ht), (bind_Ok_l _ _ _ _ _ Hf). reflexivity. }
    apply emit_if_expr_Ok in Ht. destruct Ht as [_ [tn [tv ->]]].
    apply emit_if_expr_Ok in Hf. destruct Hf as [_ [fn [fv ->]]].
    simpl in H.
    destruct (type_eqb (unshapedType E (v_type tv))
                       (unshapedType E (v_type fv))) eqn:Heq;
      simpl in H; [|discriminate].
    unfold new_value, insertNode, bind, fresh, get, modify, ret in H.
    simpl in H. inv H.
    exists cond_value, st1, (mkBlock [] tn [tv]), (mkBlock [] fn [fv]), sd,
      tv, fv.
    simpl. repeat split; auto.
  - exact (proj2 (emitTernaryIf_unify E cond true_expr false_expr st)).
  - intros st1 true_b false_b st2 H. unfold ternary_blocks in H.
    apply bind_Ok in H. destruct H as [tblk [sa [Ha H]]].
    apply bind_Ok in H. destruct H as [fblk [sb [Hb H]]].
    apply bind_Ok in H. destruct H as [tb [sc [Ht H]]].
    apply bind_Ok in H. destruct H as [fb [sd [Hf H]]]. inv H.
    apply keeps_fresh in Ha. apply keeps_fresh in Hb.
    apply emit_if_expr_run in Ht.
    destruct Ht as [Hnt [s_t [tv [s_t' [Et [Rt ->]]]]]].
    apply emit_if_expr_run in Hf.
    destruct Hf as [Hnf [s_f [fv [s_f' [Ef [Rf ->]]]]]].
    split; [congruence|].
    exists s_t, tv, s_t', s_f, fv, s_f'. auto 10.
Qed.

Lemma emitExpr_ListLiteral inputs type_hint st :
  emitExpr E (ListLiteral inputs) type_hint st
  = (values <- getValues E inputs ;; emitListLiteral type_hint values) st.
Proof.
  unfold emitExpr. cbn [emitSugaredExpr]. rewrite valueOf_simple. reflexivity.
Qed.

(** C10.  A list-literal expression emits its elements, in order, and then
    builds the list from their values.  The element type is the element
    type of a list type hint when there is one, otherwise the type of the
    first element, otherwise Tensor.  The element types are compared with
    it as pointers.  Type objects being shared and immutable, the literal is
    rejected as soon as one element has another type, and every literal
    that compiles is homogeneous: each element has exactly the element type,
    and the result is a list of that type built from the elements. *)
Theorem list_literal_homogeneous :
  forall (inputs : list Expr) (type_hint : option TypePtr) (st : CState),
    emitExpr E (ListLiteral inputs) type_hint st
    = (values <- getValues E inputs ;; emitListLiteral type_hint values) st
    /\ forall (values : list Value) (st1 : CState),
         getValues E inputs st = Ok values st1 ->
         let elem_type := list_elem_type type_hint values in
         (forall hint e,
             type_hint = Some hint -> cast_ListType hint = Some e ->
             elem_type = e)
         /\ ((type_hint = None
              \/ exists hint,
                   type_hint = Some hint /\ cast_ListType hint = None) ->
             elem_type = match values with
                         | v :: _ => v_type v
                         | [] => DynamicType_get
                         end)
         /\ (same_object_same_type (elem_type :: map v_type values) ->
             (forall v, In v values -> v_type v <> elem_type ->
                exists w, In w values /\ v_type w <> elem_type /\
                  emitExpr E (ListLiteral inputs) type_hint st
                  = Err (ListNotSingleType elem_type (v_type w)))
             /\ (forall r st',
                   emitExpr E (ListLiteral inputs) type_hint st = Ok r st' ->
                   (forall v, In v values -> v_type v = elem_type)
                   /\ deref (v_type r) = ListType elem_type
                   /\ v_kind r = "prim::ListConstruct"
                   /\ v_inputs r = values
                   /\ st_nodes st'
                      = st_nodes st1
                        ++ [mkNode "prim::ListConstruct" values [r] [] []])).
Proof.
  intros inputs type_hint st.
  split; [apply emitExpr_ListLiteral|].
  intros values st1 Hvalues elem_type.
  rewrite emitExpr_ListLiteral, (bind_Ok_l _ _ _ _ _ Hvalues).
  destruct (emitListLiteral_homogeneous type_hint values st1)
    as [Hhint [Hfirst Hsame]].
  split; [exact Hhint|]. split; [exact Hfirst|].
  intros Hheap. destruct (Hsame Hheap) as [Hbad Hok].
  split; [exact Hbad|].
  intros r st' Hrun. destruct (Hok r st' Hrun) as [Hall [Hty Hin]].
  split; [exact Hall|]. split; [exact Hty|].
  rewrite emitListLiteral_eq in Hrun.
  apply bind_Ok in Hrun. destruct Hrun as [[] [s2 [Hcheck Hrun]]].
  assert (s2 = st1).
  { assert (Hptr : forall v, In v values ->
                     ptr_eqb (v_type v) (list_elem_type type_hint values)
                     = true).
    { intros v Hv. apply ptr_eqb_true_iff. rewrite (Hall v Hv). reflexivity. }
    rewrite (check_all_ok _ _ st1 Hptr) in Hcheck. inv Hcheck. reflexivity. }
  subst s2.
  unfold createList, create_type, insert1, new_value, insertNode, fresh,
    bind, ret, get, modify in Hrun. simpl in Hrun. inv Hrun.
  repeat split.
Qed.

Lemma emitExpr_Subscript value subscript_exprs type_hint st :
  emitExpr E (Subscript value subscript_exprs) type_hint st
  = emitSubscript E value subscript_exprs st.
Proof.
  unfold emitExpr. cbn [emitSugaredExpr]. rewrite valueOf_simple. reflexivity.
Qed.

(** C5.  For a tuple of statically known length [L].  A subscript of the
    tuple with one index that is not a slice is lowered by [emitTupleIndex]:
    the index must be an integer constant; a negative index [i] is adjusted
    to [L + i]; an adjusted index outside [[0, L-1]] is rejected with the
    out-of-range error; inside it, one prim::TupleIndex node with that index
    is emitted.  A subscript of the tuple with one slice is lowered by
    [emitTupleSlice], which never raises that error: both bounds are
    adjusted, then clamped into [[0, L]], and the slice node is emitted with
    them. *)
Theorem tuple_index_checked_slice_clamped :
  (forall (value index : Expr) (type_hint : option TypePtr) (st : CState)
          (tup : Value) (st1 : CState) (idx_val : Value) (st2 : CState)
          (elements : list TypePtr),
      match index with SliceExpr _ _ => False | _ => True end ->
      emitExpr E value None st = Ok tup st1 ->
      cast_TupleType (v_type tup) = Some elements ->
      isSubtypeOf E (v_type tup) DynamicType_get = false ->
      emitExpr E index None st1 = Ok idx_val st2 ->
      let L := Z.of_nat (List.length elements) in
      let expr := Subscript value [index] in
      emitExpr E expr type_hint st = emitTupleIndex tup idx_val st2
      /\ match toIValue idx_val with
         | Some (IVInt i) =>
             let adj := adjust_index L i in
             ((0 <= adj < L)%Z ->
              exists v st',
                emitExpr E expr type_hint st = Ok v st'
                /\ nth_error elements (Z.to_nat adj) = Some (v_type v)
                /\ st_nodes st'
                   = st_nodes st2
                     ++ [mkNode "prim::TupleIndex" [tup] [v] []
                                [("index", IVInt adj)]])
             /\ (~ (0 <= adj < L)%Z ->
                 emitExpr E expr type_hint st
                 = Err (TupleIndexOutOfRange L i))
         | _ => emitExpr E expr type_hint st = Err TupleIndexNotConstant
         end)
  /\ (forall (value : Expr) (start end_ : option Expr)
             (type_hint : option TypePtr) (st : CState) (tup : Value)
             (st1 : CState) (elements : list TypePtr) (beg_val : Value)
             (st2 : CState) (end_val : option Value) (st3 : CState),
        emitExpr E value None st = Ok tup st1 ->
        cast_TupleType (v_type tup) = Some elements ->
        isSubtypeOf E (v_type tup) DynamicType_get = false ->
        match start with
        | Some e => emitExpr E e None st1
        | None => materializeConstant 0 st1
        end = Ok beg_val st2 ->
        match end_ with
        | Some e => (v <- emitExpr E e None ;; ret (Some v)) st2
        | None => Ok None st2
        end = Ok end_val st3 ->
        emitExpr E (Subscript value [SliceExpr start end_]) type_hint st
        = emitTupleSlice (named "self" tup) (named "begin" beg_val)
                         (option_map (named "end") end_val) st3)
  /\ (forall (tuple_len : Z) (idx_val : Value) (st : CState),
        match toIValue idx_val with
        | Some (IVInt index) =>
            let adj := adjust_index tuple_len index in
            ((0 <= adj < tuple_len)%Z ->
             getTupleIndexVal tuple_len idx_val false st = Ok adj st)
            /\ (~ (0 <= adj < tuple_len)%Z ->
                getTupleIndexVal tuple_len idx_val false st
                = Err (TupleIndexOutOfRange tuple_len index))
        | _ =>
            forall allow,
              getTupleIndexVal tuple_len idx_val allow st
              = Err TupleIndexNotConstant
        end)
  /\ (forall (tup beg_val : Value) (end_val : option Value)
             (elements : list TypePtr) (b : Z) (st : CState),
        cast_TupleType (v_type tup) = Some elements ->
        toIValue beg_val = Some (IVInt b) ->
        let L := Z.of_nat (List.length elements) in
        forall e : Z,
          match end_val with
          | Some ev => toIValue ev = Some (IVInt e)
          | None => e = L
          end ->
          emitTupleSlice (named "self" tup) (named "begin" beg_val)
                         (option_map (named "end") end_val) st
          = createTupleSlice tup (clamp L (adjust_index L b))
                             (clamp L (adjust_index L e)) st
          /\ (0 <= clamp L (adjust_index L b) <= L)%Z
          /\ (0 <= clamp L (adjust_index L e) <= L)%Z
          /\ exists v st',
               emitTupleSlice (named "self" tup) (named "begin" beg_val)
                              (option_map (named "end") end_val) st
               = Ok v st').
Proof.
  split; [|split; [|exact index_value_checked_slice_clamped]].
  - intros value index type_hint st tup st1 idx_val st2 elements Hpoint Hv
           Htup Hnt Hi L expr.
    assert (Hstep : emitExpr E expr type_hint st
                    = emitTupleIndex tup idx_val st2).
    { unfold expr. rewrite emitExpr_Subscript.
      unfold emitSubscript, emitSubscript_of.
      rewrite (bind_Ok_l _ _ _ _ _ Hv).
      assert (Harg : map (subscript_arg E) [index]
                     = [IndexArg (emitExpr E index None)])
        by (destruct index; try reflexivity; contradiction).
      rewrite Harg. unfold emitBasicGather_of.
      assert (Hnl : is_ListType (v_type tup) = false).
      { unfold is_ListType, cast_ListType. unfold cast_TupleType in Htup.
        destruct (deref (v_type tup)); try discriminate; reflexivity. }
      assert (Hit : is_TupleType (v_type tup) = true)
        by (unfold is_TupleType; rewrite Htup; reflexivity).
      rewrite Hnl, Hnt, Hit. rewrite (bind_Ok_l _ _ _ _ _ Hi). reflexivity. }
    split; [exact Hstep|]. rewrite Hstep.
    assert (Hidx2 : emitTupleIndex tup idx_val st2
                    = (adj_index <- getTupleIndexVal L idx_val false ;;
                       createTupleIndex tup adj_index) st2)
      by (unfold emitTupleIndex, tuple_length; rewrite Htup; reflexivity).
    rewrite Hidx2.
    pose proof (proj1 index_value_checked_slice_clamped L idx_val st2)
      as Hidx.
    destruct (toIValue idx_val) as [[| i | | |]|] eqn:Hc;
      try (apply bind_Err_l; apply Hidx).
    cbv zeta in Hidx |- *. destruct Hidx as [Hin Hout]. split.
    + intros Hr. rewrite (bind_Ok_l _ _ _ _ _ (Hin Hr)).
      unfold createTupleIndex. rewrite Htup.
      destruct (nth_error elements (Z.to_nat (adjust_index L i)))
        as [ty|] eqn:Hnth.
      * unfold insert1, new_value, insertNode, bind, fresh, get, modify, ret.
        simpl. eexists _, _. split; [reflexivity|]. split; reflexivity.
      * apply nth_error_None in Hnth. unfold L in *. lia.
    + intros Hr. apply bind_Err_l. apply Hout. exact Hr.
  - intros value start end_ type_hint st tup st1 elements beg_val st2 end_val
           st3 Hv Htup Hnt Hb He.
    rewrite emitExpr_Subscript.
    unfold emitSubscript, emitSubscript_of.
    rewrite (bind_Ok_l _ _ _ _ _ Hv).
    cbn [map subscript_arg]. unfold emitBasicSlice_of. rewrite Hnt.
    unfold emitSlice_of. rewrite Hnt.
    assert (Hit : is_TupleType (v_type tup) = true)
      by (unfold is_TupleType; rewrite Htup; reflexivity).
    rewrite Hit.
    unfold bind at 1. unfold ret at 1.
    destruct start as [s|]; destruct end_ as [e|].
    + rewrite (bind_Ok_l _ _ _ _ _ Hb).
      apply bind_Ok in He. destruct He as [ev [s3 [He Hr]]]. inv Hr.
      unfold bind at 1. unfold bind at 1. rewrite He. reflexivity.
    + rewrite (bind_Ok_l _ _ _ _ _ Hb). inv He. reflexivity.
    + rewrite (bind_Ok_l _ _ _ _ _ Hb).
      apply bind_Ok in He. destruct He as [ev [s3 [He Hr]]]. inv Hr.
      unfold bind at 1. unfold bind at 1. rewrite He. reflexivity.
    + rewrite (bind_Ok_l _ _ _ _ _ Hb). inv He. reflexivity.
Qed.

End FromTheTree.

(** * Examples on statements and expressions *)

(** [t[-1]] is the last element of the triple [t]; [t[3]] is out of range;
    [t[-5:10]] is the slice from 0 to 3. *)
Lemma tuple_index_checked_slice_clamped_example :
  (exists v st',
     emitExpr Sample.externals (Subscript (Var "t") [Const (-1)]) None knows_t
     = Ok v st'
     /\ v_kind v = "prim::TupleIndex" /\ v_type v = IntType_get)
  /\ emitExpr Sample.externals (Subscript (Var "t") [Const 3]) None knows_t
     = Err (TupleIndexOutOfRange 3 3)
  /\ exists st3,
       emitExpr Sample.externals
         (Subscript (Var "t") [SliceExpr (Some (Const (-5))) (Some (Const 10))])
         None knows_t
       = createTupleSlice Sample.triple 0 3 st3.
Proof.
  destruct (tuple_index_checked_slice_clamped Sample.externals)
    as [Hpoint [Hslice [_ Hclamp]]].
  split; [|split].
  - edestruct (Hpoint (Var "t") (Const (-1)) None knows_t) as [_ Hcases].
    + exact I.
    + vm_compute. reflexivity.
    + reflexivity.
    + reflexivity.
    + vm_compute. reflexivity.
    + cbv zeta in Hcases. simpl toIValue in Hcases.
      destruct Hcases as [Hin _].
      destruct Hin as [v [st' [Hrun [Hty Hn]]]].
      { unfold adjust_index. simpl. lia. }
      exists v, st'. split; [exact Hrun|].
      vm_compute in Hrun. injection Hrun as <- _. split; reflexivity.
  - edestruct (Hpoint (Var "t") (Const 3) None knows_t) as [_ Hcases].
    + exact I.
    + vm_compute. reflexivity.
    + reflexivity.
    + reflexivity.
    + vm_compute. reflexivity.
    + cbv zeta in Hcases. simpl toIValue in Hcases.
      destruct Hcases as [_ Hout]. apply Hout.
      unfold adjust_index. simpl. lia.
  - eexists. etransitivity.
    + eapply (Hslice (Var "t") (Some (Const (-5))) (Some (Const 10)) None
                knows_t);
        [vm_compute; reflexivity|reflexivity|reflexivity
        |vm_compute; reflexivity|vm_compute; reflexivity].
    + match goal with
      | |- emitTupleSlice _ (named "begin" ?b) (option_map _ (Some ?e)) ?s
           = _ =>
          exact (proj1 (Hclamp Sample.triple b (Some e) _ (-5)%Z s
                          eq_refl eq_refl 10%Z eq_refl))
      end.
Defined.

(** [1 if c else 2] is one prim::If node with an integer output, on the
    value of [c]; [1 if c else 's'] is rejected at the expression. *)
Lemma ternary_branches_unify_example :
  (exists v st' cond_value true_b false_b before,
      emitExpr Sample.externals (TernaryIf (Var "c") (Const 1) (Const 2)) None
               knows_c = Ok v st'
      /\ v_type v = IntType_get
      /\ cond_value = Sample.input 40 BoolType_get
      /\ st_nodes st'
         = before ++ [mkNode "prim::If" [cond_value] [v] [true_b; false_b] []])
  /\ emitExpr Sample.externals
       (TernaryIf (Var "c") (Const 1) (StringLiteral "s")) None knows_c
     = Err (IfExprTypeMismatch IntType_get StringType_get).
Proof.
  split.
  - assert (Hrun : exists v st',
               emitExpr Sample.externals
                 (TernaryIf (Var "c") (Const 1) (Const 2)) None knows_c
               = Ok v st')
      by (eexists _, _; vm_compute; reflexivity).
    destruct Hrun as [v [st' Hrun]].
    destruct (proj1 (proj2 (ternary_branches_unify Sample.externals (Var "c")
                              (Const 1) (Const 2) None knows_c)) v st' Hrun)
      as [cond_value [st1 [true_b [false_b [st2 [tv [fv
            [Hc [Hb [Ht [Hf [Heq [Hty Hn]]]]]]]]]]]]].
    exists v, st', cond_value, true_b, false_b, (st_nodes st2).
    split; [exact Hrun|].
    split; [vm_compute in Hrun; inversion Hrun; reflexivity|].
    split; [vm_compute in Hc; inversion Hc; reflexivity|exact Hn].
  - assert (H : exists cond_value st1 true_b false_b st2 tv fv,
               emitCond Sample.externals (Var "c") knows_c = Ok cond_value st1
               /\ ternary_blocks Sample.externals (Const 1) (StringLiteral "s")
                                 st1 = Ok (true_b, false_b) st2
               /\ b_outputs true_b = [tv] /\ b_outputs false_b = [fv]
               /\ type_eqb (unshapedType Sample.externals (v_type tv))
                           (unshapedType Sample.externals (v_type fv)) = false
               /\ unshapedType Sample.externals (v_type tv) = IntType_get
               /\ unshapedType Sample.externals (v_type fv) = StringType_get).
    { eexists _, _, _, _, _, _, _.
      split; [vm_compute; reflexivity|]. split; [vm_compute; reflexivity|].
      split; [reflexivity|]. split; [reflexivity|].
      split; [reflexivity|]. split; reflexivity. }
    destruct H as [cond_value [st1 [true_b [false_b [st2 [tv [fv
                     [H1 [H2 [H3 [H4 [H5 [H6 H7]]]]]]]]]]]]].
    rewrite <- H6, <- H7.
    exact (proj1 (proj2 (proj2 (ternary_branches_unify Sample.externals
                                  (Var "c") (Const 1) (StringLiteral "s")
                                  None knows_c)))
             cond_value st1 true_b false_b st2 tv fv H1 H2 H3 H4 H5).
Defined.

(** The literal [[1, 2]] without a type hint is compiled as a list of
    integers; [[1, 's']] is rejected. *)
Lemma list_literal_homogeneous_example :
  (exists r st',
     emitExpr Sample.externals (ListLiteral [Const 1; Const 2]) None at_entry
     = Ok r st'
     /\ deref (v_type r) = ListType IntType_get
     /\ v_kind r = "prim::ListConstruct"
     /\ map v_type (v_inputs r) = [IntType_get; IntType_get])
  /\ emitExpr Sample.externals (ListLiteral [Const 1; StringLiteral "s"]) None
       at_entry
     = Err (ListNotSingleType IntType_get StringType_get).
Proof.
  assert (Hheap : forall ts,
    Forall (fun t => t = IntType_get \/ t = StringType_get) ts ->
    same_object_same_type ts).
  { intros ts Hts p q Hp Hq Haddr. rewrite Forall_forall in Hts.
    destruct (Hts _ Hp) as [->| ->]; destruct (Hts _ Hq) as [->| ->];
      try reflexivity; discriminate. }
  split.
  - assert (Hvals : exists values st1,
      getValues Sample.externals [Const 1; Const 2] at_entry = Ok values st1
      /\ map v_type values = [IntType_get; IntType_get])
      by (eexists _, _; split; [vm_compute; reflexivity|reflexivity]).
    destruct Hvals as [values [st1 [Hvals Htys]]].
    destruct (proj2 (list_literal_homogeneous Sample.externals
                       [Const 1; Const 2] None at_entry) values st1 Hvals)
      as [_ [Hfirst Hsame]].
    assert (Helem : list_elem_type None values = IntType_get).
    { rewrite (Hfirst (or_introl eq_refl)).
      destruct values as [|v values]; [discriminate|].
      injection Htys as Hv _. exact Hv. }
    cbv zeta in Hsame. rewrite Helem in Hsame.
    destruct Hsame as [_ Hok].
    { apply Hheap. constructor; [auto|]. rewrite Htys. repeat constructor; auto. }
    assert (Hrun : exists r st',
      emitExpr Sample.externals (ListLiteral [Const 1; Const 2]) None at_entry
      = Ok r st') by (eexists _, _; vm_compute; reflexivity).
    destruct Hrun as [r [st' Hrun]].
    destruct (Hok r st' Hrun) as [_ [Hty [Hk [Hin _]]]].
    exists r, st'. rewrite Hin. auto.
  - assert (Hvals : exists values st1,
      getValues Sample.externals [Const 1; StringLiteral "s"] at_entry
      = Ok values st1
      /\ map v_type values = [IntType_get; StringType_get])
      by (eexists _, _; split; [vm_compute; reflexivity|reflexivity]).
    destruct Hvals as [values [st1 [Hvals Htys]]].
    destruct (proj2 (list_literal_homogeneous Sample.externals
                       [Const 1; StringLiteral "s"] None at_entry)
                values st1 Hvals)
      as [_ [Hfirst Hsame]].
    destruct values as [|v1 [|v2 [|v3 values]]]; try discriminate.
    injection Htys as Hv1 Hv2.
    assert (Helem : list_elem_type None [v1; v2] = IntType_get)
      by (rewrite (Hfirst (or_introl eq_refl)); exact Hv1).
    cbv zeta in Hsame. rewrite Helem in Hsame.
    destruct Hsame as [Hbad _].
    { apply Hheap. constructor; [left; reflexivity|].
      constructor; [left; exact Hv1|].
      constructor; [right; exact Hv2|constructor]. }
    destruct (Hbad v2) as [w [Hw [Hne Herr]]].
    + right. left. reflexivity.
    + rewrite Hv2. discriminate.
    + rewrite Herr. f_equal. f_equal.
      destruct Hw as [<-|[<-|[]]]; [contradiction|exact Hv2].
Defined.

(** [c and c]: the second operand is in the true block, and the false
    block returns the first value. *)
Lemma short_circuit_evaluates_second_operand_in_a_block_example :
  exists v st' first_value st1 second_nodes second_value,
    emitExpr Sample.externals (AndOp (Var "c") (Var "c")) None knows_c
    = Ok v st'
    /\ emitCond Sample.externals (Var "c") knows_c = Ok first_value st1
    /\ st_nodes st'
       = st_nodes st1
         ++ [mkNode "prim::If" [first_value] [v]
               [mkBlock [] second_nodes [second_value];
                mkBlock [] [] [first_value]] []].
Proof.
  assert (Hrun : exists v st',
             emitExpr Sample.externals (AndOp (Var "c") (Var "c")) None knows_c
             = Ok v st')
    by (eexists _, _; vm_compute; reflexivity).
  destruct Hrun as [v [st' Hrun]].
  destruct (short_circuit_evaluates_second_operand_in_a_block
              Sample.externals (Var "c") (Var "c") false None knows_c v st'
              Hrun)
    as [fv [st1 [block [entry [sn [sv [after [Hc [_ [_ [_ [_ Hn]]]]]]]]]]]].
  exists v, st', fv, st1, sn, sv.
  split; [exact Hrun|]. split; [exact Hc|exact Hn].
Defined.
